(** * Memoir: chunk tree, tracker, search compiler, keyword detector, migrations

    A shallow embedding of the parts of the Memoir plugin that its
    specification makes claims about, followed by the theorems that settle
    those claims.

    Conventions.
    - A JavaScript string that a regular expression reads is its sequence
      of UTF-16 code units, [list N]; the literals of the source are
      written with [units "..."].
    - Identifiers (chunk ids, session ids, message ids) and the texts that
      are only stored are [string].
    - A SQLite table is the list of its rows in rowid order; the PRIMARY KEY
      constraint is the hypothesis that the ids of the rows are pairwise
      distinct, and an INSERT that would break it fails.
    - [Date.now()] and the random id minter are inputs of the operations
      that call them. *)

From Stdlib Require Import NArith ZArith Ascii String List Lia Bool.
From stdpp Require Import functions gmap strings list.
From Stdlib Require Import Sorted.

Local Open Scope N_scope.
Local Open Scope nat_scope.
Local Open Scope list_scope.

(** Code units of an ASCII literal. *)
Definition units (s : string) : list N :=
  List.map N_of_ascii (list_ascii_of_string s).

(* ===================================================================== *)
(** ** Regular expressions of the source, with ECMAScript's backtracking
       semantics *)
(* ===================================================================== *)

Module Regex.

(** The constructs used by the regular expressions of the source:
    [/\b\w+\b/g], [/```[\s\S]*?```/g], [/`[^`]+`/g], [/(?!)/] and the
    keyword pattern [\bk1\b|\bk2\b|...] compiled with the [i] flag. *)
Inductive regex : Type :=
| Empty
| Never                                   (* (?!) *)
| Char (c : N)                            (* a pattern character *)
| Class (f : N -> bool)                   (* \w  [\s\S]  [^`] *)
| WordBoundary                            (* \b *)
| Seq (a b : regex)
| Alt (a b : regex)
| Star (greedy : bool) (a : regex).       (* a*  and  a*? *)

Definition Plus (greedy : bool) (a : regex) : regex := Seq a (Star greedy a).

Fixpoint Lit (s : list N) : regex :=
  match s with
  | [] => Empty
  | c :: t => Seq (Char c) (Lit t)
  end.

(** A position in the subject: the code unit just before it (if any) and
    the code units from it on. *)
Record pos : Type := mkpos { before : option N; after : list N }.

(** [\w] without the unicode flag: [A-Za-z0-9_]. *)
Definition is_word_char (c : N) : bool :=
  ((48 <=? c) && (c <=? 57) || (65 <=? c) && (c <=? 90) ||
   (c =? 95) || (97 <=? c) && (c <=? 122))%N.

Definition word_opt (o : option N) : bool :=
  match o with Some c => is_word_char c | None => false end.

Definition next_is_word (s : list N) : bool := word_opt (head s).

(** The unit before the position reached after reading [l] from a
    position whose previous unit is [prev]. *)
Definition last_before (prev : option N) (l : list N) : option N :=
  match last l with Some c => Some c | None => prev end.

Definition nonword (c : N) : Prop := is_word_char c = false.
Definition wordch (c : N) : Prop := is_word_char c = true.

(** IsWordChar(e-1) differs from IsWordChar(e). *)
Definition is_boundary (p : pos) : bool :=
  xorb (word_opt (before p)) (word_opt (head (after p))).

(** Canonicalize of the [i] flag (no unicode flag), on ASCII: the upper
    case of a lower-case letter. A code unit of 128 or more never
    canonicalizes to an ASCII one, so against the ASCII pattern characters
    of this development it compares as itself. *)
Definition canonicalize (c : N) : N :=
  if ((97 <=? c) && (c <=? 122))%N then (c - 32)%N else c.

Definition char_matches (ignoreCase : bool) (c d : N) : bool :=
  if ignoreCase then (canonicalize c =? canonicalize d)%N else (c =? d)%N.

Definition cont : Type := pos -> option pos.

(** RepeatMatcher with min = 0 and max = infinity: an iteration that does
    not advance is rejected; [n] bounds the iterations by the length of
    the remaining subject. *)
Fixpoint repeat_matcher (n : nat) (greedy : bool) (step : cont -> cont)
    (k : cont) (p : pos) : option pos :=
  match n with
  | O => None
  | S n' =>
      let again :=
        step (fun q =>
                if (length (after q) <? length (after p))%nat
                then repeat_matcher n' greedy step k q else None) p in
      if greedy
      then match again with Some e => Some e | None => k p end
      else match k p with Some e => Some e | None => again end
  end.

(** The matcher of a pattern, in continuation-passing style: [matcher ic r
    k p] is the end position of the first way (in backtracking order) to
    match [r] at [p] for which the continuation [k] succeeds. *)
Fixpoint matcher (ic : bool) (r : regex) (k : cont) (p : pos) {struct r}
    : option pos :=
  match r with
  | Empty => k p
  | Never => None
  | Char c =>
      match after p with
      | d :: t => if char_matches ic c d then k (mkpos (Some d) t) else None
      | [] => None
      end
  | Class f =>
      match after p with
      | d :: t => if f d then k (mkpos (Some d) t) else None
      | [] => None
      end
  | WordBoundary => if is_boundary p then k p else None
  | Seq a b => matcher ic a (matcher ic b k) p
  | Alt a b =>
      match matcher ic a k p with
      | Some e => Some e
      | None => matcher ic b k p
      end
  | Star g a => repeat_matcher (S (length (after p))) g (matcher ic a) k p
  end.

(** A match anchored at [p]. *)
Definition match_at (ic : bool) (r : regex) (p : pos) : option pos :=
  matcher ic r Some p.

(** RegExpBuiltinExec: the first position from [p] on at which the pattern
    matches. Returns the code units skipped, the matched ones and the end
    position. *)
Fixpoint exec_from (ic : bool) (r : regex) (prev : option N) (s : list N)
    : option (list N * list N * pos) :=
  match match_at ic r (mkpos prev s) with
  | Some e => Some ([], take (length s - length (after e)) s, e)
  | None =>
      match s with
      | [] => None
      | c :: t =>
          match exec_from ic r (Some c) t with
          | Some (skipped, matched, e) => Some (c :: skipped, matched, e)
          | None => None
          end
      end
  end.

(** [RegExp.prototype.test] of a pattern without the [g] flag. *)
Definition test (ic : bool) (r : regex) (s : list N) : bool :=
  match exec_from ic r None s with Some _ => true | None => false end.

(** The loop shared by [String.prototype.match] and [replace] with a
    global pattern: successive matches from lastIndex, which moves to the
    end of each match, or one code unit further after an empty match (that
    code unit then belongs to the text skipped before the next match).
    Each round yields the text skipped before the match and the match; the
    text after the last match closes the list. *)
Definition keep_unit (c : N) (res : list (list N * list N) * list N)
    : list (list N * list N) * list N :=
  match res with
  | ([], rest) => ([], c :: rest)
  | ((sk, m) :: ms, rest) => ((c :: sk, m) :: ms, rest)
  end.

Fixpoint global_loop (n : nat) (ic : bool) (r : regex) (prev : option N)
    (s : list N) : list (list N * list N) * list N :=
  match n with
  | O => ([], s)
  | S n' =>
      match exec_from ic r prev s with
      | None => ([], s)
      | Some (skipped, matched, e) =>
          let '(ms, rest) :=
            match matched, after e with
            | [], [] => ([], [])
            | [], c :: t => keep_unit c (global_loop n' ic r (Some c) t)
            | _ :: _, _ => global_loop n' ic r (before e) (after e)
            end in
          ((skipped, matched) :: ms, rest)
      end
  end.

Definition global_matches (ic : bool) (r : regex) (s : list N)
    : list (list N * list N) * list N :=
  global_loop (S (length s)) ic r None s.

(** [s.match(r)] for a global [r]: the matched substrings, or null. *)
Definition js_match (ic : bool) (r : regex) (s : list N)
    : option (list (list N)) :=
  match fst (global_matches ic r s) with
  | [] => None
  | ms => Some (List.map snd ms)
  end.

(** [s.replace(r, '')] for a global [r]: what is left between matches. *)
Definition js_remove (ic : bool) (r : regex) (s : list N) : list N :=
  let '(ms, rest) := global_matches ic r s in
  concat (List.map fst ms) ++ rest.

End Regex.

(* ===================================================================== *)
(** ** Search compiler (memory/search.ts, chunks/index.ts) *)
(* ===================================================================== *)

Module Search.
Import Regex.

(** [/\b\w+\b/g] *)
Definition WORDS : regex :=
  Seq WordBoundary (Seq (Plus true (Class is_word_char)) WordBoundary).

(** [String.prototype.toUpperCase] on the ASCII strings it is applied to
    (the matches of [\w+]). *)
Definition toUpperCase (s : list N) : list N := canonicalize <$> s.

Definition ftsOperators : list (list N) :=
  [units "AND"; units "OR"; units "NOT"; units "NEAR"].

(** [Array.prototype.join]. *)
Fixpoint join (sep : list N) (l : list (list N)) : list N :=
  match l with
  | [] => []
  | [x] => x
  | x :: t => x ++ sep ++ join sep t
  end.

Definition quote (w : list N) : list N := [34%N] ++ w ++ [34%N].

(** [words.filter((w) => w.length >= 2 && !ftsOperators.has(w.toUpperCase()))] *)
Definition validWords (words : list (list N)) : list (list N) :=
  filter (fun w => 2 <= length w /\ toUpperCase w ∉ ftsOperators) words.

Definition escapeFtsQuery (query : list N) : list N :=
  match js_match false WORDS query with
  | None => []
  | Some words =>
      match validWords words with
      | [] => []
      | vs => join (units " OR ") (quote <$> vs)
      end
  end.

(** [String.prototype.trim] strips WhiteSpace and LineTerminator code
    units from both ends. *)
Definition is_js_space (c : N) : bool :=
  ((9 <=? c) && (c <=? 13) || (c =? 32) || (c =? 160) || (c =? 5760) ||
   (8192 <=? c) && (c <=? 8202) || (c =? 8232) || (c =? 8233) ||
   (c =? 8239) || (c =? 8287) || (c =? 12288) || (c =? 65279))%N.

Fixpoint trimStart (s : list N) : list N :=
  match s with
  | c :: t => if is_js_space c then trimStart t else s
  | [] => []
  end.

Definition trim (s : list N) : list N := rev (trimStart (rev (trimStart s))).

Inductive MemoryType : Type := preference | pattern | gotcha | fact | learned.

(** A bound parameter of a prepared statement. *)
Inductive param : Type :=
| PText (s : list N)
| PId (s : string)
| PType (t : MemoryType)
| PInt (z : Z).

Section Queries.

(** The rows the full-text engine returns for a statement (the WHERE
    clauses appended to the base SELECT) and its bound parameters; the
    first parameter is the MATCH expression. *)
Context {Row : Type}.
Variable run_query : list string -> list param -> list Row.

(** What a search did: the rows it returns and the statements it ran. *)
Record searched : Type :=
  { results : list Row; executed : list (list string * list param) }.

Definition no_query : searched := {| results := []; executed := [] |}.

Definition query_db (clauses : list string) (params : list param) : searched :=
  {| results := run_query clauses params; executed := [(clauses, params)] |}.

Record SearchOptions : Type :=
  { limit : option Z; type : option MemoryType }.

(** memory/search.ts, [searchMemories]. *)
Definition searchMemories (query : list N) (options : option SearchOptions)
    : searched :=
  if bool_decide (query = []) then no_query else
  let limit := default 20%Z (options ≫= limit) in
  let type := options ≫= type in
  let escapedQuery := escapeFtsQuery query in
  if bool_decide (escapedQuery = []) then no_query else
  let '(sql, params) :=
    match type with
    | Some t => (["AND m.type = ?"%string], [PText escapedQuery; PType t])
    | None => ([], [PText escapedQuery])
    end in
  query_db (sql ++ ["ORDER BY rank LIMIT ?"%string]) (params ++ [PInt limit]).

Record ChunkSearchOptions : Type :=
  { sessionId : option string; depth : option Z; chunk_limit : option Z }.

(** chunks/index.ts, [ChunkService.search]; [maxSearchResults] is
    [config.memory.maxSearchResults]. An empty [sessionId] is falsy and
    adds no filter. *)
Definition chunk_search (maxSearchResults : Z) (query : list N)
    (options : option ChunkSearchOptions) : searched :=
  if bool_decide (query = []) || bool_decide (trim query = []) then no_query
  else
  let limit := default maxSearchResults (options ≫= chunk_limit) in
  match js_match false WORDS query with
  | None => no_query
  | Some words =>
      match validWords words with
      | [] => no_query
      | vs =>
          let ftsQuery := join (units " OR ") (quote <$> vs) in
          let '(sql1, params1) :=
            match options ≫= sessionId with
            | Some sid =>
                if bool_decide (sid = ""%string) then ([], [PText ftsQuery])
                else (["AND c.session_id = ?"%string], [PText ftsQuery; PId sid])
            | None => ([], [PText ftsQuery])
            end in
          let '(sql2, params2) :=
            match options ≫= depth with
            | Some d => (sql1 ++ ["AND c.depth >= ?"%string], params1 ++ [PInt d])
            | None => (sql1, params1)
            end in
          query_db (sql2 ++ ["ORDER BY fts.rank LIMIT ?"%string])
                   (params2 ++ [PInt limit])
      end
  end.

End Queries.

(** *** The compiler as the specification words it *)

(** The maximal runs of word characters of a text, left to right; [cur] is
    the run being read. *)
Fixpoint word_runs (cur : list N) (s : list N) : list (list N) :=
  match s with
  | [] => match cur with [] => [] | _ => [cur] end
  | c :: t =>
      if is_word_char c then word_runs (cur ++ [c]) t
      else match cur with
           | [] => word_runs [] t
           | _ => cur :: word_runs [] t
           end
  end.

(** Two texts equal up to the case of ASCII letters. *)
Definition same_ignoring_case (a b : list N) : Prop :=
  Forall2 (fun c d => canonicalize c = canonicalize d) a b.

Definition reserved_words : list (list N) :=
  [units "AND"; units "OR"; units "NOT"; units "NEAR"].

Definition is_reserved (w : list N) : Prop :=
  Exists (same_ignoring_case w) reserved_words.

#[global] Instance same_ignoring_case_dec a b : Decision (same_ignoring_case a b).
Proof. unfold same_ignoring_case. apply _. Defined.

#[global] Instance is_reserved_dec w : Decision (is_reserved w).
Proof. unfold is_reserved. apply _. Defined.

Definition kept_runs (query : list N) : list (list N) :=
  filter (fun w => ~ length w < 2 /\ ~ is_reserved w) (word_runs [] query).

Definition compiled_expression (query : list N) : list N :=
  join (units " OR ") ((fun w => [34%N] ++ w ++ [34%N]) <$> kept_runs query).

End Search.

(* ===================================================================== *)
(** ** Keyword detector (memory/keywords.ts) *)
(* ===================================================================== *)

Module Keywords.
Import Regex.

Definition DEFAULT_KEYWORDS : list (list N) :=
  units <$>
  [ "remember"; "memorize"; "save this"; "note this"; "keep in mind";
    "don't forget"; "learn this"; "store this"; "record this";
    "make a note"; "take note"; "jot down"; "commit to memory";
    "never forget"; "always remember" ]%string.

Definition backtick : N := 96%N.

(** [/```[\s\S]*?```/g] *)
Definition CODE_BLOCK_PATTERN : regex :=
  Seq (Lit (units "```"))
      (Seq (Star false (Class (fun _ => true))) (Lit (units "```"))).

(** [/`[^`]+`/g] *)
Definition INLINE_CODE_PATTERN : regex :=
  Seq (Char backtick)
      (Seq (Plus true (Class (fun c => negb (c =? backtick)%N)))
           (Char backtick)).

Definition removeCodeBlocks (text : list N) : list N :=
  js_remove false INLINE_CODE_PATTERN (js_remove false CODE_BLOCK_PATTERN text).

(** The characters of [/[.*+?^${}()|[\]\\]/]. *)
Definition is_regex_special (c : N) : bool :=
  bool_decide (c ∈ units ".*+?^${}()|[]\").

(** [keyword.replace(/[.*+?^${}()|[\]\\]/g, '\\$&')] *)
Definition escape_keyword (keyword : list N) : list N :=
  concat ((fun c => if is_regex_special c then [92%N; c] else [c]) <$> keyword).

(** The source text of the pattern:
    [escapedKeywords.map((k) => `\\b${k}\\b`).join('|')]. *)
Definition pattern_source (keywords : list (list N)) : list N :=
  Search.join (units "|")
    ((fun k => units "\b" ++ k ++ units "\b") <$> (escape_keyword <$> keywords)).

(** [new RegExp(source, 'i')] on the pattern grammar that
    [pattern_source] produces: alternatives separated by [|], each a
    sequence of [\b], escaped syntax characters and plain characters.
    Anything else is outside this grammar and yields [None]. *)
Inductive term : Type := TBoundary | TChar (c : N).

Definition add_term (t : term) (alts : option (list (list term)))
    : option (list (list term)) :=
  match alts with
  | Some (a :: rest) => Some ((t :: a) :: rest)
  | _ => None
  end.

Fixpoint parse_alternatives (s : list N) : option (list (list term)) :=
  match s with
  | [] => Some [[]]
  | c :: t =>
      if (c =? 124)%N then
        match parse_alternatives t with
        | Some alts => Some ([] :: alts)
        | None => None
        end
      else if (c =? 92)%N then
        match t with
        | [] => None
        | d :: t' =>
            if (d =? 98)%N then add_term TBoundary (parse_alternatives t')
            else if is_regex_special d then add_term (TChar d) (parse_alternatives t')
            else None
        end
      else if is_regex_special c then None
      else add_term (TChar c) (parse_alternatives t)
  end.

Definition term_regex (t : term) : regex :=
  match t with TBoundary => WordBoundary | TChar c => Char c end.

Fixpoint alternative_regex (a : list term) : regex :=
  match a with
  | [] => Empty
  | t :: rest => Seq (term_regex t) (alternative_regex rest)
  end.

Fixpoint disjunction_regex (alts : list (list term)) : regex :=
  match alts with
  | [] => Never
  | [a] => alternative_regex a
  | a :: rest => Alt (alternative_regex a) (disjunction_regex rest)
  end.

Definition RegExp (source : list N) : option regex :=
  disjunction_regex <$> parse_alternatives source.

(** [buildKeywordPattern]; the result is used with the [i] flag. *)
Definition buildKeywordPattern (keywords : list (list N)) : option regex :=
  match keywords with
  | [] => Some Never
  | _ => RegExp (pattern_source keywords)
  end.

(** [detectMemoryKeyword]; [None] would be a SyntaxError of the RegExp
    constructor. *)
Definition detectMemoryKeyword (text : list N)
    (customKeywords : option (list (list N))) : option bool :=
  let cleanedText := removeCodeBlocks text in
  let allKeywords :=
    match customKeywords with
    | Some custom => DEFAULT_KEYWORDS ++ custom
    | None => DEFAULT_KEYWORDS
    end in
  (fun pattern => test true pattern cleanedText) <$> buildKeywordPattern allKeywords.

(** The terms of the alternative [\bk\b] of a keyword without special
    characters, and the pattern of the default keywords. *)
Definition keyword_terms (k : list N) : list term :=
  TBoundary :: (TChar <$> k) ++ [TBoundary].


(** A keyword that begins and ends with a word character. *)
Definition word_ended (k : list N) : Prop :=
  word_opt (head k) = true /\ word_opt (last k) = true.

(** A keyword of ASCII characters only. With the [i] flag a character of
    the pattern and one of the text are the same when their canonical
    forms are; the canonical form of an ASCII character is its ASCII
    upper case and that of any other character is never ASCII, so for
    such keywords [Regex.canonicalize], which folds [a-z] only, is the
    comparison of the engine. *)
Definition ascii_keyword (k : list N) : Prop :=
  Forall (fun c => (c < 128)%N) k.

(** *** Whole-word occurrence, as the specification words it *)

Definition ends_with_word_char (l : list N) : Prop :=
  exists l' c, l = l' ++ [c] /\ is_word_char c = true.

Definition starts_with_word_char (r : list N) : Prop :=
  exists c r', r = c :: r' /\ is_word_char c = true.

(** [k] occurs in [t] as a whole word, in any letter case: the occurrence
    is neither preceded nor followed by a word character. *)
Definition occurs_as_word (k t : list N) : Prop :=
  exists l k' r,
    t = l ++ k' ++ r /\ Search.same_ignoring_case k k' /\
    ~ ends_with_word_char l /\ ~ starts_with_word_char r.




Definition no_backtick (t : list N) : Prop := Forall (fun c => c <> backtick) t.

#[global] Instance no_backtick_dec t : Decision (no_backtick t).
Proof. unfold no_backtick. apply _. Defined.


Definition fenced (body : list N) : list N :=
  units "```" ++ body ++ units "```".

Definition inline_span (body : list N) : list N :=
  [backtick] ++ body ++ [backtick].

(** *** The text without its code, as the specification words it:
    every fenced block is removed (from a fence to the nearest fence
    after it) and then every inline span (a backtick, one or more units
    that are no backticks, a backtick). These definitions follow the
    specification, not the patterns of the source; [removeCodeBlocks] is
    compared with them in the proofs. *)

(** The text behind a fence that begins the text. *)
Definition opening (s : list N) : option (list N) :=
  match s with
  | a :: b :: c :: rest =>
      if ((a =? backtick) && (b =? backtick) && (c =? backtick))%N
      then Some rest else None
  | _ => None
  end.

(** The text behind the first fence of a text. *)
Fixpoint after_fence (s : list N) : option (list N) :=
  match s with
  | [] => None
  | _ :: t =>
      match opening s with
      | Some rest => Some rest
      | None => after_fence t
      end
  end.

(** The text behind a fenced block that begins the text. *)
Definition fenced_at (s : list N) : option (list N) :=
  opening s ≫= after_fence.

(** The text behind the first backtick of a text. *)
Fixpoint span_end (s : list N) : option (list N) :=
  match s with
  | [] => None
  | c :: t => if (c =? backtick)%N then Some t else span_end t
  end.

(** The text behind an inline span that begins the text. *)
Definition span_at (s : list N) : option (list N) :=
  match s with
  | a :: b :: t =>
      if ((a =? backtick) && negb (b =? backtick))%N then span_end t else None
  | _ => None
  end.

(** The first region of a text, given what a region at the beginning of
    a text is: the text before it and the text behind it. *)
Fixpoint first_region (region_at : list N -> option (list N)) (s : list N)
    : option (list N * list N) :=
  match s with
  | [] => None
  | c :: t =>
      match region_at s with
      | Some rest => Some ([], rest)
      | None =>
          match first_region region_at t with
          | Some (pre, rest) => Some (c :: pre, rest)
          | None => None
          end
      end
  end.

(** The regions are cut out one after the other, each one looked for
    behind the one cut last; [n] bounds their number. *)
Fixpoint cut_regions (n : nat) (region_at : list N -> option (list N))
    (s : list N) : list N :=
  match n with
  | O => s
  | S n' =>
      match first_region region_at s with
      | Some (pre, rest) => pre ++ cut_regions n' region_at rest
      | None => s
      end
  end.

Definition without_fenced (text : list N) : list N :=
  cut_regions (length text) fenced_at text.

Definition without_inline (text : list N) : list N :=
  cut_regions (length text) span_at text.

Definition without_code (text : list N) : list N :=
  without_inline (without_fenced text).

End Keywords.

(* ===================================================================== *)
(** ** JSON values (the TEXT columns written with JSON.stringify) *)
(* ===================================================================== *)

(** A column written with [JSON.stringify] and read back with
    [JSON.parse] is modelled by the JSON value itself. Object members are
    in insertion order; a member whose value is [undefined] is absent. *)
#[local] Set Warnings "-register-all".
Inductive json : Type :=
| JNull
| JNum (z : Z)
| JStr (s : string)
| JArr (items : list json)
| JObj (members : list (string * json)).

(** Whether some object inside a JSON value has a member named [key]. *)
Fixpoint json_has_key (key : string) (j : json) : bool :=
  match j with
  | JArr items => existsb (json_has_key key) items
  | JObj members =>
      existsb (fun m => (fst m =? key)%string || json_has_key key (snd m)) members
  | _ => false
  end.

(** The object members of the optional fields that are present. *)
Definition member {A : Type} (name : string) (to : A -> json) (v : option A)
    : list (string * json) :=
  match v with Some x => [(name, to x)] | None => [] end.

(** The first insertion of each element, in order: the iteration order of
    a JavaScript [Set] or [Map] filled in this order. *)
Definition insert_once {A : Type} `{EqDecision A} (acc : list A) (x : A)
    : list A :=
  if decide (x ∈ acc) then acc else acc ++ [x].

Definition first_inserts {A : Type} `{EqDecision A} (l : list A) : list A :=
  foldl insert_once [] l.

(* ===================================================================== *)
(** ** Message tracker (chunks/tracker.ts) *)
(* ===================================================================== *)

(** The tracker keeps the message objects it is given and updates them in
    place ([existing.role = role], [partsWithIds.push(...)]); here an
    in-place update of a stored message is the replacement of its entry.
    A message object is taken to be stored under one entry only: this is
    the tracker seen without its objects. [TrackerObjects], below, has
    the objects, and the proofs relate the two ([run_view]). *)
Module Tracker.

Inductive Role : Type := user | assistant.
Inductive PartType : Type := text_part | tool_part | file_part | reasoning_part.

(** [ChunkMessagePart], with the member [_partId] that [addPart] adds to
    the objects it stores. *)
Record ChunkMessagePart : Type := mkPart
  { type : PartType;
    text : option string;
    tool : option string;
    input : option json;
    output : option string;
    _partId : option string }.

Record TrackedMessage : Type := mkMessage
  { id : string;
    role : Role;
    parts : list ChunkMessagePart;
    timestamp : Z }.

#[global] Instance Role_eq_dec : EqDecision Role.
Proof. solve_decision. Defined.

Record MessageTracker : Type := mkTracker
  { sessions : gmap string (list TrackedMessage);
    currentChunkIds : gmap string string }.

(** [new MessageTracker()] *)
Definition empty : MessageTracker :=
  {| sessions := ∅; currentChunkIds := ∅ |}.

Definition getMessages (sessionId : string) (t : MessageTracker)
    : list TrackedMessage :=
  default [] (sessions t !! sessionId).

(** [messages.findIndex((m) => m.id === id)] *)
Definition findIndex_id (mid : string) (messages : list TrackedMessage)
    : option (nat * TrackedMessage) :=
  list_find (fun m => id m = mid) messages.

Definition trackMessage (sessionId : string) (message : TrackedMessage)
    (t : MessageTracker) : MessageTracker :=
  let messages := default [] (sessions t !! sessionId) in
  let messages' :=
    match findIndex_id (id message) messages with
    | Some (existingIndex, _) => <[existingIndex := message]> messages
    | None => messages ++ [message]
    end in
  {| sessions := <[sessionId := messages']> (sessions t);
     currentChunkIds := currentChunkIds t |}.

Definition clearSession (sessionId : string) (t : MessageTracker)
    : MessageTracker :=
  {| sessions := delete sessionId (sessions t);
     currentChunkIds := delete sessionId (currentChunkIds t) |}.

Definition getCurrentChunkId (sessionId : string) (t : MessageTracker)
    : option string :=
  currentChunkIds t !! sessionId.

Definition setCurrentChunkId (sessionId chunkId : string)
    (t : MessageTracker) : MessageTracker :=
  {| sessions := sessions t;
     currentChunkIds := <[sessionId := chunkId]> (currentChunkIds t) |}.

Definition hasMessages (sessionId : string) (t : MessageTracker) : bool :=
  match sessions t !! sessionId with
  | Some messages => (0 <? length messages)%nat
  | None => false
  end.

Definition getMessageCount (sessionId : string) (t : MessageTracker) : nat :=
  match sessions t !! sessionId with
  | Some messages => length messages
  | None => 0
  end.

Definition set_role (r : Role) (m : TrackedMessage) : TrackedMessage :=
  {| id := id m; role := r; parts := parts m; timestamp := timestamp m |}.

Definition set_parts (ps : list ChunkMessagePart) (m : TrackedMessage)
    : TrackedMessage :=
  {| id := id m; role := role m; parts := ps; timestamp := timestamp m |}.

(** [ensureMessage]; [now] is [Date.now()]. The role of an existing
    message is corrected in the stored object. *)
Definition ensureMessage (sessionId messageId : string) (r : Role) (now : Z)
    (t : MessageTracker) : MessageTracker :=
  let messages := default [] (sessions t !! sessionId) in
  match findIndex_id messageId messages with
  | None =>
      let messages' :=
        messages ++ [{| id := messageId; role := r; parts := [];
                        timestamp := now |}] in
      {| sessions := <[sessionId := messages']> (sessions t);
         currentChunkIds := currentChunkIds t |}
  | Some (i, existing) =>
      if decide (role existing = r) then t
      else {| sessions := <[sessionId := <[i := set_role r existing]> messages]>
                            (sessions t);
              currentChunkIds := currentChunkIds t |}
  end.

(** [{ ...part, _partId: partId }] *)
Definition with_partId (partId : string) (part : ChunkMessagePart)
    : ChunkMessagePart :=
  {| type := type part; text := text part; tool := tool part;
     input := input part; output := output part; _partId := Some partId |}.

(** [addPart]; [now] is [Date.now()]. The parts of an existing message
    are updated in the stored object. *)
Definition addPart (sessionId messageId partId : string)
    (part : ChunkMessagePart) (now : Z) (t : MessageTracker)
    : MessageTracker :=
  let messages := default [] (sessions t !! sessionId) in
  match findIndex_id messageId messages with
  | None =>
      let messages' :=
        messages ++ [{| id := messageId; role := assistant;
                        parts := [with_partId partId part];
                        timestamp := now |}] in
      {| sessions := <[sessionId := messages']> (sessions t);
         currentChunkIds := currentChunkIds t |}
  | Some (i, message) =>
      let partsWithIds := parts message in
      let parts' :=
        match list_find (fun p => _partId p = Some partId) partsWithIds with
        | Some (existingIndex, _) =>
            <[existingIndex := with_partId partId part]> partsWithIds
        | None => partsWithIds ++ [with_partId partId part]
        end in
      {| sessions := <[sessionId := <[i := set_parts parts' message]> messages]>
                       (sessions t);
         currentChunkIds := currentChunkIds t |}
  end.

(** *** Sequences of upserts *)

Inductive upsert : Type :=
| TrackMessage (sessionId : string) (message : TrackedMessage)
| EnsureMessage (sessionId messageId : string) (r : Role) (now : Z)
| AddPart (sessionId messageId partId : string) (part : ChunkMessagePart)
    (now : Z).

Definition apply (t : MessageTracker) (op : upsert) : MessageTracker :=
  match op with
  | TrackMessage s m => trackMessage s m t
  | EnsureMessage s mid r now => ensureMessage s mid r now t
  | AddPart s mid pid part now => addPart s mid pid part now t
  end.

Definition run (ops : list upsert) (t : MessageTracker) : MessageTracker :=
  foldl apply t ops.

Definition op_session (op : upsert) : string :=
  match op with
  | TrackMessage s _ | EnsureMessage s _ _ _ | AddPart s _ _ _ _ => s
  end.

Definition op_message (op : upsert) : string :=
  match op with
  | TrackMessage _ m => id m
  | EnsureMessage _ mid _ _ | AddPart _ mid _ _ _ => mid
  end.

(** The message ids that a sequence of upserts names for a session. *)
Definition inserted_messages (sessionId : string) (ops : list upsert)
    : list string :=
  omap (fun op => if decide (op_session op = sessionId)
                  then Some (op_message op) else None) ops.

Definition message_ids (sessionId : string) (t : MessageTracker)
    : list string :=
  id <$> getMessages sessionId t.

(** The part ids of the message [messageId] of a session (none when the
    message is not tracked). *)
Definition part_ids (sessionId messageId : string) (t : MessageTracker)
    : list (option string) :=
  match findIndex_id messageId (getMessages sessionId t) with
  | Some (_, m) => _partId <$> parts m
  | None => []
  end.


(** The message of a given id that a session holds, if any. *)
Definition stored (sessionId messageId : string) (t : MessageTracker)
    : option TrackedMessage :=
  snd <$> findIndex_id messageId (getMessages sessionId t).

(** [partsWithIds] after [addPart]. *)
Definition upsert_part (partId : string) (part : ChunkMessagePart)
    (ps : list ChunkMessagePart) : list ChunkMessagePart :=
  match list_find (fun p => _partId p = Some partId) ps with
  | Some (existingIndex, _) => <[existingIndex := with_partId partId part]> ps
  | None => ps ++ [with_partId partId part]
  end.

(** The message that an upsert leaves under the id it names, given the
    message held under that id before. *)
Definition upserted (before : option TrackedMessage) (op : upsert)
    : TrackedMessage :=
  match op, before with
  | TrackMessage _ m, _ => m
  | EnsureMessage _ mid r now, None => mkMessage mid r [] now
  | EnsureMessage _ _ r _, Some existing =>
      if decide (role existing = r) then existing else set_role r existing
  | AddPart _ mid pid part now, None =>
      mkMessage mid assistant [with_partId pid part] now
  | AddPart _ _ pid part _, Some message =>
      set_parts (upsert_part pid part (parts message)) message
  end.

(** The order of the part ids of one message that a sequence of upserts
    asks for: [trackMessage] brings the parts of the message it stores,
    [addPart] inserts its part id once. *)
Definition part_step (sessionId messageId : string)
    (acc : list (option string)) (op : upsert) : list (option string) :=
  match op with
  | TrackMessage s m =>
      if decide (s = sessionId /\ id m = messageId)
      then _partId <$> parts m else acc
  | EnsureMessage _ _ _ _ => acc
  | AddPart s mid pid _ _ =>
      if decide (s = sessionId /\ mid = messageId)
      then insert_once acc (Some pid) else acc
  end.

Definition part_order (sessionId messageId : string) (ops : list upsert)
    : list (option string) :=
  foldl (part_step sessionId messageId) [] ops.

End Tracker.

(* ===================================================================== *)
(** ** Message tracker, with the objects it shares with its caller
       (chunks/tracker.ts) *)
(* ===================================================================== *)

(** [trackMessage] stores the very object it is given, and
    [ensureMessage] and [addPart] change the stored objects in place
    ([existing.role = role], [partsWithIds.push(...)]). Here the message
    objects and their [parts] arrays live in a store, at addresses, and a
    session holds addresses: one object may be held by several sessions,
    and several objects may have one array for their parts. [Tracker],
    above, is what this tracker looks like as long as neither happens;
    the proofs say when. *)
Module TrackerObjects.
Import Tracker.

Definition address : Type := nat.

(** A message object; [obj_parts] is the address of its [parts] array. *)
Record MessageObject : Type := mkObject
  { obj_id : string;
    obj_role : Role;
    obj_parts : address;
    obj_timestamp : Z }.

(** The objects and arrays in existence, those of the caller and those
    of the tracker, the first addresses not yet in use, and the two maps
    of the tracker. *)
Record Store : Type := mkStore
  { objects : address -> MessageObject;
    arrays : address -> list ChunkMessagePart;
    next_object : address;
    next_array : address;
    sessions : gmap string (list address);
    currentChunkIds : gmap string string }.

Definition set_sessions (s : gmap string (list address)) (w : Store)
    : Store :=
  mkStore (objects w) (arrays w) (next_object w) (next_array w) s
    (currentChunkIds w).

(** [this.sessions.get(sessionId) ?? []] *)
Definition session (sessionId : string) (w : Store) : list address :=
  default [] (sessions w !! sessionId).

(** A message object as it reads now. *)
Definition read (w : Store) (message : address) : TrackedMessage :=
  let o := objects w message in
  mkMessage (obj_id o) (obj_role o) (arrays w (obj_parts o)) (obj_timestamp o).

(** [getMessages]: the messages of the session, as they read now. *)
Definition getMessages (sessionId : string) (w : Store)
    : list TrackedMessage :=
  read w <$> session sessionId w.

(** [messages.findIndex((m) => m.id === id)] and [messages.find(...)] *)
Definition findIndex_id (mid : string) (w : Store) (messages : list address)
    : option (nat * address) :=
  list_find (fun m => obj_id (objects w m) = mid) messages.

Definition trackMessage (sessionId : string) (message : address) (w : Store)
    : Store :=
  let messages := session sessionId w in
  let messages' :=
    match findIndex_id (obj_id (objects w message)) w messages with
    | Some (existingIndex, _) => <[existingIndex := message]> messages
    | None => messages ++ [message]
    end in
  set_sessions (<[sessionId := messages']> (sessions w)) w.

Definition clearSession (sessionId : string) (w : Store) : Store :=
  mkStore (objects w) (arrays w) (next_object w) (next_array w)
    (delete sessionId (sessions w)) (delete sessionId (currentChunkIds w)).

Definition getCurrentChunkId (sessionId : string) (w : Store)
    : option string :=
  currentChunkIds w !! sessionId.

Definition setCurrentChunkId (sessionId chunkId : string) (w : Store)
    : Store :=
  mkStore (objects w) (arrays w) (next_object w) (next_array w) (sessions w)
    (<[sessionId := chunkId]> (currentChunkIds w)).

Definition hasMessages (sessionId : string) (w : Store) : bool :=
  match sessions w !! sessionId with
  | Some messages => (0 <? length messages)%nat
  | None => false
  end.

Definition getMessageCount (sessionId : string) (w : Store) : nat :=
  match sessions w !! sessionId with
  | Some messages => length messages
  | None => 0
  end.

(** [messages.push({ id, role, parts, timestamp })] with a new array
    [parts]: a new object and a new array, at the next addresses. *)
Definition push_new (sessionId : string) (mid : string) (r : Role)
    (parts : list ChunkMessagePart) (now : Z) (w : Store) : Store :=
  mkStore (<[next_object w := mkObject mid r (next_array w) now]> (objects w))
    (<[next_array w := parts]> (arrays w))
    (S (next_object w)) (S (next_array w))
    (<[sessionId := session sessionId w ++ [next_object w]]> (sessions w))
    (currentChunkIds w).

(** [ensureMessage]; [now] is [Date.now()]. The role is corrected in the
    object itself. *)
Definition ensureMessage (sessionId messageId : string) (r : Role) (now : Z)
    (w : Store) : Store :=
  match findIndex_id messageId w (session sessionId w) with
  | None => push_new sessionId messageId r [] now w
  | Some (_, existing) =>
      let o := objects w existing in
      if decide (obj_role o = r) then w
      else
        mkStore (<[existing := mkObject (obj_id o) r (obj_parts o)
                                 (obj_timestamp o)]> (objects w))
          (arrays w) (next_object w) (next_array w) (sessions w)
          (currentChunkIds w)
  end.

(** [addPart]; [now] is [Date.now()]. The part is put into the array of
    the message itself. *)
Definition addPart (sessionId messageId partId : string)
    (part : ChunkMessagePart) (now : Z) (w : Store) : Store :=
  match findIndex_id messageId w (session sessionId w) with
  | None =>
      push_new sessionId messageId assistant [with_partId partId part] now w
  | Some (_, message) =>
      let partsWithIds := obj_parts (objects w message) in
      mkStore (objects w)
        (<[partsWithIds := upsert_part partId part (arrays w partsWithIds)]>
           (arrays w))
        (next_object w) (next_array w) (sessions w) (currentChunkIds w)
  end.

(** *** Sequences of calls *)

Inductive call : Type :=
| TrackMessage (sessionId : string) (message : address)
| EnsureMessage (sessionId messageId : string) (r : Role) (now : Z)
| AddPart (sessionId messageId partId : string) (part : ChunkMessagePart)
    (now : Z).

Definition apply (w : Store) (c : call) : Store :=
  match c with
  | TrackMessage s m => trackMessage s m w
  | EnsureMessage s mid r now => ensureMessage s mid r now w
  | AddPart s mid pid part now => addPart s mid pid part now w
  end.

Definition run (calls : list call) (w : Store) : Store := foldl apply w calls.

Definition call_session (c : call) : string :=
  match c with
  | TrackMessage s _ | EnsureMessage s _ _ _ | AddPart s _ _ _ _ => s
  end.

(** The message id that a call names. *)
Definition call_message (w : Store) (c : call) : string :=
  match c with
  | TrackMessage _ m => obj_id (objects w m)
  | EnsureMessage _ mid _ _ | AddPart _ mid _ _ _ => mid
  end.

(** The objects that the calls hand to [trackMessage]. *)
Definition tracked (calls : list call) : list address :=
  omap (fun c => match c with TrackMessage _ m => Some m | _ => None end)
    calls.

(** The message ids that a sequence of calls names for a session. *)
Definition inserted_messages (sessionId : string) (w : Store)
    (calls : list call) : list string :=
  omap (fun c => if decide (call_session c = sessionId)
                 then Some (call_message w c) else None) calls.

Definition message_ids (sessionId : string) (w : Store) : list string :=
  id <$> getMessages sessionId w.

(** The message of a given id that a session holds, if any, as it reads
    now; and its part ids. *)
Definition stored (sessionId messageId : string) (w : Store)
    : option TrackedMessage :=
  snd <$> Tracker.findIndex_id messageId (getMessages sessionId w).

Definition part_ids (sessionId messageId : string) (w : Store)
    : list (option string) :=
  match stored sessionId messageId w with
  | Some m => _partId <$> parts m
  | None => []
  end.

(** *** The tracker seen without its objects *)

(** The tracker of [Tracker] that holds, for each session, the messages
    as they read now; and a call as an upsert of [Tracker]: the object
    handed to [trackMessage] is the message it reads as. *)
Definition view (w : Store) : MessageTracker :=
  {| Tracker.sessions :=
       (fun messages : list address => read w <$> messages) <$> sessions w;
     Tracker.currentChunkIds := currentChunkIds w |}.

Definition as_upsert (w : Store) (c : call) : upsert :=
  match c with
  | TrackMessage s m => Tracker.TrackMessage s (read w m)
  | EnsureMessage s mid r now => Tracker.EnsureMessage s mid r now
  | AddPart s mid pid part now => Tracker.AddPart s mid pid part now
  end.

(** The upserts of a sequence of calls, each object read when it is
    handed over. *)
Fixpoint as_upserts (w : Store) (calls : list call) : list upsert :=
  match calls with
  | [] => []
  | c :: rest => as_upsert w c :: as_upserts (apply w c) rest
  end.

(** *** Stores *)

(** Every address in use is below the next one: the object of a
    session, and the array of an object. *)
Definition well_formed (w : Store) : Prop :=
  (forall l, l < next_object w -> obj_parts (objects w l) < next_array w) /\
  (forall sid l, l ∈ session sid w -> l < next_object w).

(** No sharing: a message object is held once, by one session, and no
    two held objects have one array for their parts. *)
Definition separate (w : Store) : Prop :=
  forall s1 i1 l1 s2 i2 l2,
    session s1 w !! i1 = Some l1 -> session s2 w !! i2 = Some l2 ->
    l1 = l2 \/ obj_parts (objects w l1) = obj_parts (objects w l2) ->
    s1 = s2 /\ i1 = i2.

(** The objects handed to [trackMessage] are objects of the caller that
    the tracker does not hold yet, each handed over once, with parts
    arrays of their own. *)
Definition unshared (w : Store) (calls : list call) : Prop :=
  NoDup (tracked calls) /\
  NoDup ((fun l => obj_parts (objects w l)) <$> tracked calls) /\
  (forall l, l ∈ tracked calls ->
     l < next_object w /\
     forall sid l', l' ∈ session sid w ->
       l' <> l /\ obj_parts (objects w l') <> obj_parts (objects w l)).

(** A store for examples: a new tracker and two message objects of the
    caller, "m1" at address 0 and "m2" at address 1, each with an empty
    parts array of its own. *)
Definition two_messages : Store :=
  {| objects := fun l => mkObject (if (l =? 0)%nat then "m1" else "m2")
                           user l 0%Z;
     arrays := fun _ => [];
     next_object := 2;
     next_array := 2;
     sessions := ∅;
     currentChunkIds := ∅ |}.

End TrackerObjects.

(* ===================================================================== *)
(** ** Chunks: repository, tree engine, finalization
       (chunks/repository.ts, chunks/tree.ts, chunks/index.ts) *)
(* ===================================================================== *)

Module Chunks.

Inductive ChunkStatus : Type := active | compacted | archived.

(** A row of the table [chunks]. [child_refs] and [content] hold the JSON
    they were written from. A [Chunk] object has the same members under
    camel-case names, so [rowToChunk] is the identity here. *)
Record ChunkRow : Type := mkRow
  { id : string;
    session_id : string;
    parent_id : option string;
    depth : Z;
    child_refs : option (list string);
    content : json;
    summary : option string;
    status : ChunkStatus;
    created_at : Z;
    finalized_at : option Z;
    compacted_at : option Z;
    embedding : option (list N) }.

Abbreviation Chunk := ChunkRow (only parsing).
Definition rowToChunk (row : ChunkRow) : Chunk := row.

(** The table, in rowid order. *)
Abbreviation table := (list ChunkRow) (only parsing).

(** The PRIMARY KEY constraint on [id]. *)
Definition primary_key (db : table) : Prop := NoDup (id <$> db).

Inductive error : Type :=
| Error (message : string)          (* [new Error(message)] *)
| SqliteConstraint                  (* a constraint violation of the engine *)
| TypeError.

(** The outcome of an operation that may throw, with the table it
    leaves. *)
Inductive outcome (A : Type) : Type :=
| Threw (e : error) (db : table)
| Returned (a : A) (db : table).
Arguments Threw {A} e db.
Arguments Returned {A} a db.

Definition table_after {A : Type} (o : outcome A) : table :=
  match o with Threw _ db | Returned _ db => db end.

(** [SELECT * FROM chunks WHERE id = ?] *)
Definition select_by_id (i : string) (db : table) : list ChunkRow :=
  filter (fun r => id r = i) db.

(** The order of the primary-key index: ids compare as byte strings. *)
Fixpoint insert_by_id (x : ChunkRow) (l : list ChunkRow) : list ChunkRow :=
  match l with
  | [] => [x]
  | y :: t =>
      if String.leb (id x) (id y) then x :: y :: t
      else y :: insert_by_id x t
  end.

Definition order_by_id (rows : list ChunkRow) : list ChunkRow :=
  foldr insert_by_id [] rows.

(** [SELECT * FROM chunks WHERE id IN (?, ..., ?)]. The statement has no
    ORDER BY: the engine looks the listed ids up in the primary-key
    index, smallest id first, so the rows come in the order of their
    ids and not in the order of the table or of the list. *)
Definition select_by_ids (ids : list string) (db : table) : list ChunkRow :=
  order_by_id (filter (fun r => id r ∈ ids) db).

(** [INSERT INTO chunks ...]: fails when the id is taken. *)
Definition insert (row : ChunkRow) (db : table) : option table :=
  if decide (id row ∈ id <$> db) then None else Some (db ++ [row]).

(** [UPDATE chunks SET ... WHERE id = ?] *)
Definition update_where_id (f : ChunkRow -> ChunkRow) (i : string) (db : table)
    : table :=
  (fun r => if decide (id r = i) then f r else r) <$> db.

(** *** chunks/repository.ts *)

Record CreateChunkInput : Type :=
  { sessionId : string;
    input_content : json;
    parentId : option string;
    input_depth : option Z;
    input_summary : option string }.

(** [ChunkRepository.create]; [new_id] is [generateChunkId()] and [now]
    is [Math.floor(Date.now() / 1000)]. *)
Definition create (input : CreateChunkInput) (new_id : string) (now : Z)
    (db : table) : outcome Chunk :=
  let row :=
    {| id := new_id; session_id := sessionId input;
       parent_id := parentId input; depth := default 0%Z (input_depth input);
       child_refs := None; content := input_content input;
       summary := input_summary input; status := active;
       created_at := now; finalized_at := None; compacted_at := None;
       embedding := None |} in
  match insert row db with
  | None => Threw SqliteConstraint db
  | Some db' => Returned row db'
  end.

Definition getById (i : string) (db : table) : option Chunk :=
  rowToChunk <$> head (select_by_id i db).

Record UpdateChunkInput : Type :=
  { up_content : option json;
    up_summary : option string;
    up_status : option ChunkStatus;
    up_childRefs : option (list string);
    up_finalizedAt : option Z;
    up_compactedAt : option Z }.

(** One [column = ?] of the dynamic UPDATE. *)
Inductive assignment : Type :=
| SetContent (j : json)
| SetSummary (s : string)
| SetStatus (st : ChunkStatus)
| SetChildRefs (l : list string)
| SetFinalizedAt (z : Z)
| SetCompactedAt (z : Z).

Definition assign (a : assignment) (r : ChunkRow) : ChunkRow :=
  match a with
  | SetContent j =>
      mkRow (id r) (session_id r) (parent_id r) (depth r) (child_refs r) j
        (summary r) (status r) (created_at r) (finalized_at r)
        (compacted_at r) (embedding r)
  | SetSummary s =>
      mkRow (id r) (session_id r) (parent_id r) (depth r) (child_refs r)
        (content r) (Some s) (status r) (created_at r) (finalized_at r)
        (compacted_at r) (embedding r)
  | SetStatus st =>
      mkRow (id r) (session_id r) (parent_id r) (depth r) (child_refs r)
        (content r) (summary r) st (created_at r) (finalized_at r)
        (compacted_at r) (embedding r)
  | SetChildRefs l =>
      mkRow (id r) (session_id r) (parent_id r) (depth r) (Some l)
        (content r) (summary r) (status r) (created_at r) (finalized_at r)
        (compacted_at r) (embedding r)
  | SetFinalizedAt z =>
      mkRow (id r) (session_id r) (parent_id r) (depth r) (child_refs r)
        (content r) (summary r) (status r) (created_at r) (Some z)
        (compacted_at r) (embedding r)
  | SetCompactedAt z =>
      mkRow (id r) (session_id r) (parent_id r) (depth r) (child_refs r)
        (content r) (summary r) (status r) (created_at r) (finalized_at r)
        (Some z) (embedding r)
  end.

Definition pending {A : Type} (f : A -> assignment) (v : option A)
    : list assignment :=
  match v with Some x => [f x] | None => [] end.

(** [ChunkRepository.update] *)
Definition update (i : string) (input : UpdateChunkInput) (db : table)
    : option Chunk * table :=
  match getById i db with
  | None => (None, db)
  | Some existing =>
      let updates :=
        pending SetContent (up_content input) ++
        pending SetSummary (up_summary input) ++
        pending SetStatus (up_status input) ++
        pending SetChildRefs (up_childRefs input) ++
        pending SetFinalizedAt (up_finalizedAt input) ++
        pending SetCompactedAt (up_compactedAt input) in
      if (length updates =? 0)%nat then (Some existing, db)
      else
        let db' := update_where_id (fun r => foldl (fun r a => assign a r) r updates) i db in
        (getById i db', db')
  end.

(** *** chunks/tree.ts *)

(** A row with its level in the recursive query. *)
Abbreviation ChunkWithLevel := (ChunkRow * Z)%type (only parsing).

(** Evaluation of [WITH RECURSIVE t AS (initial UNION ALL recursive)]:
    the rows of the initial SELECT are queued; each queued row is moved
    to the result and the recursive SELECT, run on that row alone, queues
    its rows. [UNION ALL] keeps duplicates, so a cycle never ends: [None]
    when [fuel] rounds do not empty the queue. *)
Fixpoint recursive_cte (fuel : nat)
    (recursive : ChunkWithLevel -> list ChunkWithLevel)
    (queue : list ChunkWithLevel) : option (list ChunkWithLevel) :=
  match queue with
  | [] => Some []
  | r :: q =>
      match fuel with
      | O => None
      | S fuel' => (fun rest => r :: rest) <$> recursive_cte fuel' recursive (q ++ recursive r)
      end
  end.

(** [ORDER BY level DESC], as a stable insertion sort. *)
Fixpoint insert_by_level_desc (x : ChunkWithLevel) (l : list ChunkWithLevel)
    : list ChunkWithLevel :=
  match l with
  | [] => [x]
  | y :: t =>
      if (snd y <? snd x)%Z then x :: y :: t
      else y :: insert_by_level_desc x t
  end.

Definition order_by_level_desc (l : list ChunkWithLevel)
    : list ChunkWithLevel :=
  foldr insert_by_level_desc [] l.

(** [getAncestors]:
    initial   [SELECT ..., 0 as level FROM chunks WHERE id = ?]
    recursive [SELECT c.*, a.level + 1 FROM chunks c JOIN ancestors a
               ON c.id = a.parent_id] *)
Definition getAncestors (fuel : nat) (db : table) (chunkId : string)
    : option (list ChunkWithLevel) :=
  order_by_level_desc <$>
  recursive_cte fuel
    (fun a => (fun c => (c, (snd a + 1)%Z)) <$>
              filter (fun c => Some (id c) = parent_id (fst a)) db)
    ((fun c => (c, 0%Z)) <$> select_by_id chunkId db).

Definition getFullContext (fuel : nat) (db : table) (chunkId : string)
    : option (list Chunk) :=
  (fun rows : list ChunkWithLevel => (fun a => rowToChunk (fst a)) <$> rows) <$>
  getAncestors fuel db chunkId.

Record CompactResult : Type :=
  { summaryChunk : Chunk; compactedChunks : list Chunk }.

(** [Math.max(x, ...xs)]. With no argument the source would get
    -Infinity; [compactChunks] never asks for it, its rows having the
    length of the non-empty id list. *)
Definition Math_max (l : list Z) : Z :=
  match l with
  | [] => 0%Z
  | x :: xs => foldl Z.max x xs
  end.

(** The double nearest to an integer: the integer itself up to 2^53 in
    absolute value, and beyond that the nearest multiple of the spacing
    of the doubles there, the one with the even significand at a tie.
    (Below 2^1024, where the doubles end.) *)
Definition to_double (z : Z) : Z :=
  let a := Z.abs z in
  if (a <=? 2 ^ 53)%Z then z
  else
    let ulp := (2 ^ (Z.log2 a - 52))%Z in
    let q := (a / ulp)%Z in
    let r := (a mod ulp)%Z in
    let q' :=
      if (ulp <? 2 * r)%Z || ((2 * r =? ulp)%Z && Z.odd q) then (q + 1)%Z
      else q in
    (Z.sgn z * (q' * ulp))%Z.

(** [x + y] on numbers that are integers: the sum is rounded to a
    double. *)
Definition js_add (x y : Z) : Z := to_double (x + y).

(** [r.depth]: the driver hands an INTEGER of the table over as a
    number, the double nearest to it. (The depths that this code writes
    are doubles already and read as they are.) *)
Definition read_depth (r : ChunkRow) : Z := to_double (depth r).

(** The integers whose successor is computed exactly. *)
Definition safe_depth (d : Z) : Prop := (- 2 ^ 53 <= d < 2 ^ 53)%Z.

#[global] Instance safe_depth_dec d : Decision (safe_depth d).
Proof. unfold safe_depth. apply _. Defined.

(** [Array.prototype.join] on strings. *)
Fixpoint join (sep : string) (l : list string) : string :=
  match l with
  | [] => ""
  | [x] => x
  | x :: t => x +:+ sep +:+ join sep t
  end.

(** The content of a summary chunk, [{ messages: [], metadata: {} }]. *)
Definition summaryContent : json :=
  JObj [("messages"%string, JArr []); ("metadata"%string, JObj [])].

Definition mark_compacted (summaryId : string) (now : Z) (r : ChunkRow)
    : ChunkRow :=
  mkRow (id r) (session_id r) (Some summaryId) (depth r) (child_refs r)
    (content r) (summary r) compacted (created_at r) (finalized_at r)
    (Some now) (embedding r).

(** [compactChunks]; [summaryId] is [generateChunkId()] and [now] is
    [Math.floor(Date.now() / 1000)]. The transaction either commits the
    INSERT and every UPDATE or leaves the table as it was. *)
Definition compactChunks (db : table) (sessionId : string)
    (chunkIds : list string) (summary : string)
    (summaryId : string) (now : Z) : outcome CompactResult :=
  if (length chunkIds =? 0)%nat
  then Threw (Error "Cannot compact empty chunk list") db
  else
  let rows := select_by_ids chunkIds db in
  if negb (length rows =? length chunkIds)%nat then
    let foundIds := id <$> rows in
    let missingIds := filter (fun i => i ∉ foundIds) chunkIds in
    Threw (Error ("Chunks not found: " +:+ join ", " missingIds)) db
  else
  let maxDepth := Math_max (read_depth <$> rows) in
  let summaryDepth := js_add maxDepth 1 in
  let summaryRow :=
    {| id := summaryId; session_id := sessionId; parent_id := None;
       depth := summaryDepth; child_refs := Some chunkIds;
       content := summaryContent; summary := Some summary;
       status := active; created_at := now; finalized_at := None;
       compacted_at := None; embedding := None |} in
  match insert summaryRow db with
  | None => Threw SqliteConstraint db
  | Some db1 =>
      let db2 :=
        foldl (fun d chunkId => update_where_id (mark_compacted summaryId now) chunkId d)
              db1 chunkIds in
      match head (select_by_id summaryId db2) with
      | None => Threw TypeError db2
      | Some summaryRow' =>
          Returned {| summaryChunk := rowToChunk summaryRow';
                      compactedChunks := rowToChunk <$> select_by_ids chunkIds db2 |}
                   db2
      end
  end.

(** *** Scenario 5 of the specification: three active chunks of one
    session, of depths 0, 1 and 2 *)

Definition scenario_chunk (i : string) (d : Z) : ChunkRow :=
  {| id := i; session_id := "S"; parent_id := None; depth := d;
     child_refs := None; content := summaryContent; summary := None;
     status := active; created_at := 1700000000%Z; finalized_at := None;
     compacted_at := None; embedding := None |}.

Definition scenario_db : list ChunkRow :=
  [scenario_chunk "ch_a" 0; scenario_chunk "ch_b" 1; scenario_chunk "ch_c" 2].

#[global] Instance primary_key_dec db : Decision (primary_key db).
Proof. unfold primary_key. apply _. Defined.

(** *** The chain of the specification *)

(** Following [parent_id] from a row up to the root, start first; [None]
    when [fuel] steps do not reach a root. *)
Fixpoint parent_chain (fuel : nat) (db : table) (cur : option ChunkRow)
    : option (list ChunkRow) :=
  match cur with
  | None => Some []
  | Some r =>
      match fuel with
      | O => None
      | S fuel' =>
          (fun rest => r :: rest) <$>
          parent_chain fuel' db
            (parent_id r ≫= fun p => head (select_by_id p db))
      end
  end.

(** The rows of a chain that starts at level [n], tagged with their
    levels. *)
Fixpoint with_levels (n : Z) (l : list ChunkRow) : list ChunkWithLevel :=
  match l with
  | [] => []
  | r :: t => (r, n) :: with_levels (n + 1)%Z t
  end.

(** The queue of the recursive query that holds the row [cur], if any,
    at level [n]. *)
Definition queue_of (cur : option ChunkRow) (n : Z) : list (ChunkRow * Z) :=
  match cur with Some r => [(r, n)] | None => [] end.

(** Scenario 5 after the compaction of its three chunks under the
    summary "ch_new". *)
Definition scenario_summary : ChunkRow :=
  {| id := "ch_new"; session_id := "S"; parent_id := None; depth := 3;
     child_refs := Some ["ch_a"; "ch_b"; "ch_c"]%string;
     content := summaryContent; summary := Some "summary"%string;
     status := active; created_at := 1700000100%Z; finalized_at := None;
     compacted_at := None; embedding := None |}.

Definition scenario_child (i : string) (d : Z) : ChunkRow :=
  mark_compacted "ch_new" 1700000100%Z (scenario_chunk i d).

Definition scenario_compacted : list ChunkRow :=
  table_after (compactChunks scenario_db "S" ["ch_a"; "ch_b"; "ch_c"]%string
                 "summary" "ch_new" 1700000100%Z).

(** *** chunks/index.ts, [ChunkService.finalize] *)

Definition role_json (r : Tracker.Role) : json :=
  JStr match r with Tracker.user => "user" | Tracker.assistant => "assistant" end.

Definition type_json (t : Tracker.PartType) : json :=
  JStr match t with
       | Tracker.text_part => "text" | Tracker.tool_part => "tool"
       | Tracker.file_part => "file" | Tracker.reasoning_part => "reasoning"
       end.

(** [JSON.stringify] of a part object as the tracker holds it. *)
Definition part_json (p : Tracker.ChunkMessagePart) : json :=
  JObj ([("type"%string, type_json (Tracker.type p))] ++
        member "text" JStr (Tracker.text p) ++
        member "tool" JStr (Tracker.tool p) ++
        member "input" (fun j => j) (Tracker.input p) ++
        member "output" JStr (Tracker.output p) ++
        member "_partId" JStr (Tracker._partId p)).

Definition message_json (m : Tracker.TrackedMessage) : json :=
  JObj [("id"%string, JStr (Tracker.id m));
        ("role"%string, role_json (Tracker.role m));
        ("parts"%string, JArr (part_json <$> Tracker.parts m));
        ("timestamp"%string, JNum (Tracker.timestamp m))].

(** A non-empty string is truthy. *)
Definition truthy (s : option string) : option string :=
  match s with
  | Some x => if decide (x = ""%string) then None else Some x
  | None => None
  end.

Definition toolsUsed (messages : list Tracker.TrackedMessage) : list string :=
  first_inserts
    (omap (fun p => match Tracker.type p with
                    | Tracker.tool_part => truthy (Tracker.tool p) | _ => None end)
          (messages ≫= Tracker.parts)).

Definition filesModified (messages : list Tracker.TrackedMessage) : list string :=
  first_inserts
    (omap (fun p => match Tracker.type p with
                    | Tracker.file_part => truthy (Tracker.text p) | _ => None end)
          (messages ≫= Tracker.parts)).

Definition set_member (name : string) (l : list string)
    : list (string * json) :=
  match l with
  | [] => []
  | _ => [(name, JArr (JStr <$> l))]
  end.

(** The content that [finalize] persists. *)
Definition finalize_content (messages : list Tracker.TrackedMessage) : json :=
  JObj [("messages"%string, JArr (message_json <$> messages));
        ("metadata"%string,
         JObj (set_member "tools_used" (toolsUsed messages) ++
               set_member "files_modified" (filesModified messages)))].

(** [finalize]; [new_id], [created] and [now] are [generateChunkId()] and
    the two readings of the clock. The state is the tracker and the
    table. *)
Definition finalize (sessionId : string) (new_id : string) (created now : Z)
    (t : Tracker.MessageTracker) (db : table)
    : Tracker.MessageTracker * outcome (option Chunk) :=
  let messages := Tracker.getMessages sessionId t in
  if (length messages =? 0)%nat then (t, Returned None db)
  else
  let content := finalize_content messages in
  match create {| sessionId := sessionId; input_content := content;
                  parentId := None; input_depth := None;
                  input_summary := None |} new_id created db with
  | Threw e db' => (t, Threw e db')
  | Returned chunk db1 =>
      let '(finalized, db2) :=
        update (id chunk)
          {| up_content := None; up_summary := None; up_status := None;
             up_childRefs := None; up_finalizedAt := Some now;
             up_compactedAt := None |} db1 in
      let t1 := Tracker.clearSession sessionId t in
      let t2 := match finalized with
                | Some f => Tracker.setCurrentChunkId sessionId (id f) t1
                | None => t1
                end in
      (t2, Returned finalized db2)
  end.

(** The tracker after the two part events of scenario 6 for message m2. *)
Definition streamed : Tracker.MessageTracker :=
  Tracker.addPart "S" "m2" "prt_2"
    (Tracker.mkPart Tracker.file_part (Some "src/x.ts"%string) None None None None)
    1700000000002%Z
    (Tracker.addPart "S" "m2" "prt_1"
       (Tracker.mkPart Tracker.tool_part None (Some "bash"%string) None None None)
       1700000000001%Z Tracker.empty).

(** *** chunks/repository.ts, the other statements *)

#[global] Instance ChunkStatus_eq_dec : EqDecision ChunkStatus.
Proof. solve_decision. Defined.

(** [ORDER BY created_at ASC], as a stable insertion sort: rows created
    in the same second stay in rowid order (the engine promises no order
    among them). *)
Fixpoint insert_by_created_at (x : ChunkRow) (l : list ChunkRow)
    : list ChunkRow :=
  match l with
  | [] => [x]
  | y :: t =>
      if (created_at x <=? created_at y)%Z then x :: y :: t
      else y :: insert_by_created_at x t
  end.

Definition order_by_created_at (l : list ChunkRow) : list ChunkRow :=
  foldr insert_by_created_at [] l.

(** The FOREIGN KEY constraint of [parent_id]: it is null or names a
    row. *)
Definition foreign_key (db : table) : Prop :=
  Forall (fun r => match parent_id r with
                   | Some p => p ∈ id <$> db
                   | None => True
                   end) db.

#[global] Instance foreign_key_dec db : Decision (foreign_key db).
Proof.
  unfold foreign_key. apply Forall_dec. intros r.
  destruct (parent_id r); apply _.
Defined.

(** [parent_id = NULL] in the rows that name [i], the action of
    [ON DELETE SET NULL]. *)
Definition clear_parent (i : string) (r : ChunkRow) : ChunkRow :=
  if decide (parent_id r = Some i)
  then mkRow (id r) (session_id r) None (depth r) (child_refs r) (content r)
         (summary r) (status r) (created_at r) (finalized_at r)
         (compacted_at r) (embedding r)
  else r.

(** [ChunkRepository.delete]. [foreign_keys] is the setting of
    [PRAGMA foreign_keys] on the connection ([createDatabase] turns it
    on): when it is on, deleting a row puts NULL in the [parent_id] of
    the rows that name it. *)
Definition delete (foreign_keys : bool) (i : string) (db : table)
    : bool * table :=
  let changes := length (select_by_id i db) in
  if (0 <? changes)%nat then
    let db' := filter (fun r => id r <> i) db in
    (true, if foreign_keys then clear_parent i <$> db' else db')
  else (false, db).

(** [ChunkRepository.getBySession]; [st] is [options?.status]. *)
Definition getBySession (sessionId : string) (st : option ChunkStatus)
    (db : table) : list Chunk :=
  let rows := filter (fun r => session_id r = sessionId) db in
  let rows :=
    match st with
    | Some s => filter (fun r => status r = s) rows
    | None => rows
    end in
  rowToChunk <$> order_by_created_at rows.

Definition getActiveChunks (sessionId : string) (db : table) : list Chunk :=
  getBySession sessionId (Some active) db.

Definition getChildren (parentId : string) (db : table) : list Chunk :=
  rowToChunk <$>
  order_by_created_at (filter (fun r => parent_id r = Some parentId) db).

(** [ChunkRepository.count]: an empty session id is falsy and counts
    every row. *)
Definition count (sessionId : option string) (db : table) : nat :=
  match truthy sessionId with
  | Some s => length (filter (fun r => session_id r = s) db)
  | None => length db
  end.

(** *** chunks/tree.ts, [getDescendants] *)

(** [ORDER BY level ASC], as a stable insertion sort. *)
Fixpoint insert_by_level_asc (x : ChunkWithLevel) (l : list ChunkWithLevel)
    : list ChunkWithLevel :=
  match l with
  | [] => [x]
  | y :: t =>
      if (snd x <=? snd y)%Z then x :: y :: t
      else y :: insert_by_level_asc x t
  end.

Definition order_by_level_asc (l : list ChunkWithLevel)
    : list ChunkWithLevel :=
  foldr insert_by_level_asc [] l.

(** The rows that the recursive SELECT of [getDescendants] joins to a
    row [d] of the query: [c.parent_id = d.id]. *)
Definition children_of (db : table) (d : ChunkWithLevel)
    : list ChunkWithLevel :=
  (fun c => (c, (snd d + 1)%Z)) <$>
  filter (fun c => parent_id c = Some (id (fst d))) db.

(** [getDescendants]:
    initial   [SELECT ..., 0 as level FROM chunks WHERE id = ?]
    recursive [SELECT c.*, d.level + 1 FROM chunks c JOIN descendants d
               ON c.parent_id = d.id] *)
Definition getDescendants (fuel : nat) (db : table) (chunkId : string)
    : option (list ChunkWithLevel) :=
  order_by_level_asc <$>
  recursive_cte fuel (children_of db)
    ((fun c => (c, 0%Z)) <$> select_by_id chunkId db).

(** The descendants level by level: the rows of a level, then those of
    the levels below; [None] when [k] levels do not reach an empty
    one. *)
Fixpoint levels_from (k : nat) (db : table) (level : list ChunkWithLevel)
    : option (list ChunkWithLevel) :=
  match level with
  | [] => Some []
  | _ =>
      match k with
      | O => None
      | S k' =>
          (fun below => level ++ below) <$>
          levels_from k' db (level ≫= children_of db)
      end
  end.

(** *** chunks/index.ts, the other methods of [ChunkService] *)

(** [ChunkService.compact]; [summaryId] and [now] as in
    [compactChunks]. *)
Definition compact (sessionId summary summaryId : string) (now : Z)
    (db : table) : outcome (option CompactResult) :=
  let activeChunks := getActiveChunks sessionId db in
  if (length activeChunks =? 0)%nat then Returned None db
  else
    let chunkIds := id <$> activeChunks in
    match compactChunks db sessionId chunkIds summary summaryId now with
    | Threw e db' => Threw e db'
    | Returned result db' => Returned (Some result) db'
    end.

(** [ChunkService.expand] *)
Definition expand (fuel : nat) (chunkId : string) (includeChildren : bool)
    (db : table) : option (list Chunk) :=
  match getById chunkId db with
  | None => Some []
  | Some chunk =>
      if negb includeChildren then Some [chunk]
      else
        (fun rows : list ChunkWithLevel =>
           (fun d => rowToChunk (fst d)) <$> rows) <$>
        getDescendants fuel db chunkId
  end.

(** [ChunkService.deleteSession]; the tracker is the one of
    [getMessageTracker()]. *)
Definition deleteSession (foreign_keys : bool) (sessionId : string)
    (t : Tracker.MessageTracker) (db : table)
    : nat * Tracker.MessageTracker * table :=
  let chunks := getBySession sessionId None db in
  let '(deleted, db') :=
    foldl (fun '(deleted, d) chunk =>
             let '(ok, d') := delete foreign_keys (id chunk) d in
             (if ok then S deleted else deleted, d'))
          (0%nat, db) chunks in
  (deleted, Tracker.clearSession sessionId t, db').

(** *** What the statements select and leave *)

(** What [delete] leaves when the id is stored. *)
Definition after_delete (foreign_keys : bool) (i : string)
    (db : table) : table :=
  (if foreign_keys then clear_parent i else fun r => r)
  <$> filter (fun r => id r <> i) db.

(** The rows that [getBySession] sorts. *)
Definition session_rows (session : string) (st : option ChunkStatus)
    (db : table) : list ChunkRow :=
  match st with
  | Some s => filter (fun r => status r = s)
                (filter (fun r => session_id r = session) db)
  | None => filter (fun r => session_id r = session) db
  end.

(** *** The shape of the tree *)

(** A parent is deeper than its children: the [depth] that
    [compactChunks] gives a summary, one more than the greatest depth of
    the chunks it puts under it. *)
Definition depth_order (db : table) : Prop :=
  Forall (fun c =>
            Forall (fun p => parent_id c = Some (id p) ->
                             (depth c < depth p)%Z) db) db.

#[global] Instance depth_order_dec db : Decision (depth_order db).
Proof. unfold depth_order. apply _. Defined.

(** The three properties together. *)
Definition tree (db : table) : Prop :=
  primary_key db /\ foreign_key db /\ depth_order db.

#[global] Instance tree_dec db : Decision (tree db).
Proof. unfold tree. apply _. Defined.

End Chunks.

(* ===================================================================== *)
(** ** Memory repository (memory/repository.ts) *)
(* ===================================================================== *)

Module Memory.

Inductive MemorySource : Type := user | compaction | auto.

(** A row of the table [memories]; [tags] holds the JSON array it was
    written from. *)
Record MemoryRow : Type := mkRow
  { id : string;
    content : string;
    type : Search.MemoryType;
    tags : option (list string);
    source : option MemorySource;
    created_at : Z;
    updated_at : option Z;
    embedding : option (list N) }.

(** A [Memory] object has the members of its row under camel-case names;
    a null [source] reads as ['user']. *)
Abbreviation Memory := MemoryRow (only parsing).
Abbreviation table := (list MemoryRow) (only parsing).

Definition rowToMemory (row : MemoryRow) : Memory :=
  mkRow (id row) (content row) (type row) (tags row)
    (Some (default user (source row))) (created_at row) (updated_at row)
    (embedding row).

Definition primary_key (db : table) : Prop := NoDup (id <$> db).

Record CreateMemoryInput : Type :=
  { new_content : string;
    new_type : Search.MemoryType;
    new_tags : option (list string);
    new_source : option MemorySource }.

(** [create]; [new_id] is [generateMemoryId()], [createdAt] the clock.
    [None] is the constraint violation of an id already taken. *)
Definition create (input : CreateMemoryInput) (new_id : string)
    (createdAt : Z) (db : table) : option (Memory * table) :=
  let source := default user (new_source input) in
  if decide (new_id ∈ id <$> db) then None
  else
    Some (mkRow new_id (new_content input) (new_type input) (new_tags input)
            (Some source) createdAt None None,
          db ++ [mkRow new_id (new_content input) (new_type input)
                   (new_tags input) (Some source) createdAt None None]).

(** [selectByIdStmt.get(id)] and [getById]. *)
Definition getById (i : string) (db : table) : option Memory :=
  rowToMemory <$> head (filter (fun r => id r = i) db).

Record UpdateMemoryInput : Type :=
  { up_content : option string;
    up_type : option Search.MemoryType;
    up_tags : option (list string) }.

(** One [column = $param] of the dynamic UPDATE. *)
Inductive assignment : Type :=
| SetContent (s : string)
| SetType (t : Search.MemoryType)
| SetTags (l : list string)
| SetUpdatedAt (z : Z).

Definition assign (a : assignment) (r : MemoryRow) : MemoryRow :=
  match a with
  | SetContent s =>
      mkRow (id r) s (type r) (tags r) (source r) (created_at r)
        (updated_at r) (embedding r)
  | SetType t =>
      mkRow (id r) (content r) t (tags r) (source r) (created_at r)
        (updated_at r) (embedding r)
  | SetTags l =>
      mkRow (id r) (content r) (type r) (Some l) (source r) (created_at r)
        (updated_at r) (embedding r)
  | SetUpdatedAt z =>
      mkRow (id r) (content r) (type r) (tags r) (source r) (created_at r)
        (Some z) (embedding r)
  end.

Definition pending {A : Type} (f : A -> assignment) (v : option A)
    : list assignment :=
  match v with Some x => [f x] | None => [] end.

(** [UPDATE memories SET ... WHERE id = $id] *)
Definition run_update (updates : list assignment) (i : string) (db : table)
    : table :=
  (fun r => if decide (id r = i) then foldl (fun r a => assign a r) r updates
            else r) <$> db.

(** [MemoryRepository.update]; [now] is
    [Math.floor(Date.now() / 1000)]. The assignment of [updated_at] is
    pushed before the list is tested for emptiness. *)
Definition update (i : string) (input : UpdateMemoryInput) (now : Z)
    (db : table) : option Memory * table :=
  match getById i db with
  | None => (None, db)
  | Some existing =>
      let updates :=
        pending SetContent (up_content input) ++
        pending SetType (up_type input) ++
        pending SetTags (up_tags input) in
      let updates := updates ++ [SetUpdatedAt now] in
      if (length updates =? 0)%nat then (Some existing, db)
      else
        let db' := run_update updates i db in
        (getById i db', db')
  end.

(** The input that provides no field. *)
Definition no_fields : UpdateMemoryInput :=
  {| up_content := None; up_type := None; up_tags := None |}.

(** The memory of scenario 1 of the specification, as stored. *)
Definition stored_memory : MemoryRow :=
  {| id := "mem_000000000001"; content := "Always use strict mode";
     type := Search.preference; tags := None; source := Some user;
     created_at := 1700000000%Z; updated_at := None; embedding := None |}.

(** *** The other statements of the repository, and the listings of
    memory/search.ts *)

#[global] Instance MemoryType_eq_dec : EqDecision Search.MemoryType.
Proof. solve_decision. Defined.

(** [MemoryRepository.delete] *)
Definition delete (i : string) (db : table) : bool * table :=
  let changes := length (filter (fun r => id r = i) db) in
  ((0 <? changes)%nat, filter (fun r => id r <> i) db).

(** [ORDER BY created_at DESC, rowid DESC]: the table is in rowid order,
    so its rows are taken last first and sorted stably by [created_at],
    newest first. *)
Fixpoint insert_newest_first (x : MemoryRow) (l : list MemoryRow)
    : list MemoryRow :=
  match l with
  | [] => [x]
  | y :: t =>
      if (created_at y <=? created_at x)%Z then x :: y :: t
      else y :: insert_newest_first x t
  end.

Definition order_newest_first (rows : list MemoryRow) : list MemoryRow :=
  foldr insert_newest_first [] (reverse rows).

(** A number that the engine takes for [LIMIT] or [OFFSET]. The driver
    binds a JavaScript number that is no 32-bit integer as a REAL, and
    the engine turns a REAL into the integer it needs only when it lies
    strictly between the least and the greatest 64-bit integer. *)
Definition sql_integer (n : Z) : bool :=
  (- 2 ^ 63 <? n)%Z && (n <? 2 ^ 63 - 1)%Z.

(** [LIMIT ? OFFSET ?]: a negative limit is no limit, a negative offset
    is 0. [None] is the error "datatype mismatch" of a limit or offset
    that is no such integer. *)
Definition sql_limit {A : Type} (limit offset : Z) (rows : list A)
    : option (list A) :=
  if sql_integer limit && sql_integer offset then
    let rows := drop (Z.to_nat offset) rows in
    Some (if (limit <? 0)%Z then rows else take (Z.to_nat limit) rows)
  else None.

Record ListMemoriesOptions : Type :=
  { list_limit : option Z;
    list_offset : option Z;
    list_type : option Search.MemoryType }.

(** [MemoryRepository.list] (named [list_] here, [list] being the type
    of lists); [None] when the query throws. *)
Definition list_ (options : ListMemoriesOptions) (db : table)
    : option (Datatypes.list Memory) :=
  let limit := default 100%Z (list_limit options) in
  let offset := default 0%Z (list_offset options) in
  let rows :=
    match list_type options with
    | Some t => filter (fun r => type r = t) db
    | None => db
    end in
  (fun rows : Datatypes.list MemoryRow => rowToMemory <$> rows) <$>
  sql_limit limit offset (order_newest_first rows).

(** [MemoryRepository.count] *)
Definition count (t : option Search.MemoryType) (db : table) : nat :=
  match t with
  | Some t => length (filter (fun r => type r = t) db)
  | None => length db
  end.

(** [searchByType] (memory/search.ts); [limit] is [options?.limit]. *)
Definition searchByType (t : Search.MemoryType) (limit : option Z)
    (db : table) : option (list Memory) :=
  (fun rows : Datatypes.list MemoryRow => rowToMemory <$> rows) <$>
  sql_limit (default 20%Z limit) 0
    (order_newest_first (filter (fun r => type r = t) db)).

(** [getRecentMemories] (memory/search.ts) *)
Definition getRecentMemories (limit : option Z) (db : table)
    : option (list Memory) :=
  (fun rows : Datatypes.list MemoryRow => rowToMemory <$> rows) <$>
  sql_limit (default 10%Z limit) 0 (order_newest_first db).

End Memory.

(* ===================================================================== *)
(** ** Migrator (db/migrations/index.ts) *)
(* ===================================================================== *)

Module Migrations.

Inductive MigrationSubsystem : Type := memory | history.

Record Migration : Type :=
  { version : Z;
    filename : string;
    description : string;
    sql : string;
    subsystem : MigrationSubsystem }.

Record AppliedMigration : Type :=
  { applied_version : Z;
    applied_filename : string;
    applied_at : Z;
    checksum : string }.

Definition getMigrationTableName (sub : MigrationSubsystem) : string :=
  match sub with
  | memory => "x_memory_migrations"
  | history => "x_history_migrations"
  end.

Definition is_digit (c : ascii) : bool :=
  (48 <=? nat_of_ascii c)%nat && (nat_of_ascii c <=? 57)%nat.

Definition digit_value (c : ascii) : Z := Z.of_nat (nat_of_ascii c - 48).

Definition is_line_terminator (c : ascii) : bool :=
  (nat_of_ascii c =? 10)%nat || (nat_of_ascii c =? 13)%nat.

(** The line terminators beyond ASCII, U+2028 and U+2029, are the bytes
    E2 80 A8 and E2 80 A9 of a [string]. *)
Fixpoint has_line_separator (s : list ascii) : bool :=
  match s with
  | a :: t =>
      match t with
      | b :: c :: _ =>
          (nat_of_ascii a =? 226)%nat && (nat_of_ascii b =? 128)%nat &&
          ((nat_of_ascii c =? 168)%nat || (nat_of_ascii c =? 169)%nat)
      | _ => false
      end || has_line_separator t
  | [] => false
  end.

(** [parseFilename], on [/^(\d{4})_(.+)\.sql$/]: four digits, an
    underscore, a non-empty description without line terminator, and the
    extension. [None] is the Error it throws. *)
Definition parseFilename (name : string) : option (Z * string) :=
  match list_ascii_of_string name with
  | d1 :: d2 :: d3 :: d4 :: u :: rest =>
      let n := length rest in
      let desc := take (n - 4) rest in
      if forallb is_digit [d1; d2; d3; d4] &&
         bool_decide (u = "_"%char) &&
         bool_decide (drop (n - 4) rest = list_ascii_of_string ".sql") &&
         (4 <? n)%nat &&
         forallb (fun c => negb (is_line_terminator c)) desc &&
         negb (has_line_separator desc)
      then
        Some (foldl (fun acc d => (10 * acc + digit_value d)%Z) 0%Z
                [d1; d2; d3; d4],
              string_of_list_ascii
                ((fun c => if bool_decide (c = "_"%char) then " "%char else c)
                   <$> desc))
      else None
  | _ => None
  end.

(** A file name made of ASCII characters, of which the bytes of the
    [string] are the UTF-16 code units that the regular expression
    reads. *)
Definition is_ascii_name (name : list ascii) : bool :=
  forallb (fun c => (nat_of_ascii c <? 128)%nat) name.

(** [s.replace(/_/g, ' ')] *)
Definition underscores_to_spaces (s : list ascii) : list ascii :=
  (fun c => if bool_decide (c = "_"%char) then " "%char else c) <$> s.

(** [migrations.sort((a, b) => a.version - b.version)], a stable sort:
    migrations of one version keep the order they had. *)
Fixpoint insert_by_version (m : Migration) (l : list Migration)
    : list Migration :=
  match l with
  | [] => [m]
  | x :: t =>
      if (version m <=? version x)%Z then m :: x :: t
      else x :: insert_by_version m t
  end.

Definition sort_by_version (l : list Migration) : list Migration :=
  foldr insert_by_version [] l.

Section Migrator.

(** The embedded migrations (db/migrations/embedded.ts): per subsystem,
    the file names with their SQL, in the order of the object's keys. *)
Variable EMBEDDED_MIGRATIONS :
  MigrationSubsystem -> option (list (string * string)).

(** [Bun.hash(sql).toString(16)] *)
Variable computeChecksum : string -> string.

(** Everything in the database but the tracking tables, and the effect of
    running the SQL of a migration on it ([None] when the SQL fails). *)
Variable Schema : Type.
Variable exec_sql : string -> Schema -> option Schema.

(** [unixepoch()] when the record of a version is inserted. *)
Variable unixepoch : Z -> Z.

(** A database: its tracking tables by name (rows in rowid order) and the
    rest. *)
Record Database : Type := mkDb
  { tracking : gmap string (list AppliedMigration);
    schema : Schema }.

Inductive outcome : Type :=
| Threw (db : Database)
| Returned (applied : nat) (db : Database).

(** [CREATE TABLE IF NOT EXISTS x_..._migrations (...)] *)
Definition ensureMigrationTable (db : Database) (sub : MigrationSubsystem)
    : Database :=
  match tracking db !! getMigrationTableName sub with
  | Some _ => db
  | None =>
      mkDb (<[getMigrationTableName sub := []]> (tracking db)) (schema db)
  end.

(** [getMigrations]; [None] when a file name does not parse. *)
Definition getMigrations (sub : MigrationSubsystem)
    : option (list Migration) :=
  match EMBEDDED_MIGRATIONS sub with
  | None => Some []
  | Some embedded =>
      sort_by_version <$>
      mapM (fun entry =>
              (fun parsed =>
                 {| version := fst parsed; filename := fst entry;
                    description := snd parsed; sql := snd entry;
                    subsystem := sub |}) <$> parseFilename (fst entry))
           embedded
  end.

(** [SELECT MAX(version)]: NULL on an empty table. *)
Definition max_version (rows : list AppliedMigration) : option Z :=
  match rows with
  | [] => None
  | r :: t => Some (foldl Z.max (applied_version r) (applied_version <$> t))
  end.

(** [getCurrentVersion]: 0 when the query throws (no table) or yields
    NULL. *)
Definition getCurrentVersion (db : Database) (sub : MigrationSubsystem) : Z :=
  match tracking db !! getMigrationTableName sub with
  | None => 0%Z
  | Some rows => default 0%Z (max_version rows)
  end.

(** The transaction of one migration: run its SQL, record it. [None]
    when either statement fails; the database is then as before. *)
Definition apply_migration (tableName : string) (m : Migration)
    (db : Database) : option Database :=
  match exec_sql (sql m) (schema db) with
  | None => None
  | Some schema' =>
      match tracking db !! tableName with
      | None => None
      | Some rows =>
          if decide (version m ∈ applied_version <$> rows) then None
          else
            let record :=
              {| applied_version := version m;
                 applied_filename := filename m;
                 applied_at := unixepoch (version m);
                 checksum := computeChecksum (sql m) |} in
            Some (mkDb (<[tableName := rows ++ [record]]> (tracking db))
                       schema')
      end
  end.

(** The loop of [runMigrations]. *)
Fixpoint apply_pending (tableName : string) (currentVersion : Z)
    (migrations : list Migration) (applied : nat) (db : Database)
    : outcome :=
  match migrations with
  | [] => Returned applied db
  | migration :: rest =>
      if (version migration <=? currentVersion)%Z
      then apply_pending tableName currentVersion rest applied db
      else
        match apply_migration tableName migration db with
        | None => Threw db
        | Some db' =>
            apply_pending tableName currentVersion rest (S applied) db'
        end
  end.

Definition runMigrations (db : Database) (sub : MigrationSubsystem)
    : outcome :=
  let db0 := ensureMigrationTable db sub in
  let currentVersion := getCurrentVersion db0 sub in
  match getMigrations sub with
  | None => Threw db0
  | Some migrations =>
      apply_pending (getMigrationTableName sub) currentVersion migrations 0 db0
  end.

(** [ORDER BY version], as a stable insertion sort ([version] is the
    primary key of the tracking table, so no two rows tie). *)
Fixpoint insert_applied (r : AppliedMigration) (l : list AppliedMigration)
    : list AppliedMigration :=
  match l with
  | [] => [r]
  | x :: t =>
      if (applied_version r <=? applied_version x)%Z then r :: x :: t
      else x :: insert_applied r t
  end.

(** [getAppliedMigrations]: no row when the query throws (no table). *)
Definition getAppliedMigrations (db : Database) (sub : MigrationSubsystem)
    : list AppliedMigration :=
  match tracking db !! getMigrationTableName sub with
  | None => []
  | Some rows => foldr insert_applied [] rows
  end.

Record Mismatch : Type :=
  { migration : Migration;
    expectedChecksum : string;
    actualChecksum : string }.

(** The body of the loop of [validateMigrations] for one record. *)
Definition validate_record (migrations : list Migration)
    (record : AppliedMigration) : option Mismatch :=
  match list_find (fun m => version m = applied_version record) migrations with
  | None => None
  | Some (_, m) =>
      let currentChecksum := computeChecksum (sql m) in
      if decide (currentChecksum <> checksum record)
      then Some {| migration := m; expectedChecksum := checksum record;
                   actualChecksum := currentChecksum |}
      else None
  end.

(** [validateMigrations]; [None] when [getMigrations] throws. *)
Definition validateMigrations (db : Database) (sub : MigrationSubsystem)
    : option (list Mismatch) :=
  let applied := getAppliedMigrations db sub in
  (fun migrations => omap (validate_record migrations) applied) <$>
  getMigrations sub.

(** [getPendingMigrations]; [None] when [getMigrations] throws. *)
Definition getPendingMigrations (db : Database) (sub : MigrationSubsystem)
    : option (list Migration) :=
  let currentVersion := getCurrentVersion db sub in
  filter (fun m => (currentVersion < version m)%Z) <$> getMigrations sub.

(** [runAllMigrations]: the memory subsystem, then the history
    subsystem. *)
Inductive outcome_all : Type :=
| ThrewAll (db : Database)
| ReturnedAll (applied_memory applied_history : nat) (db : Database).

Definition runAllMigrations (db : Database) : outcome_all :=
  match runMigrations db memory with
  | Threw db1 => ThrewAll db1
  | Returned applied_memory db1 =>
      match runMigrations db1 history with
      | Threw db2 => ThrewAll db2
      | Returned applied_history db2 =>
          ReturnedAll applied_memory applied_history db2
      end
  end.

(** The record that [runMigrations] inserts for a migration. *)
Definition record_of (m : Migration) : AppliedMigration :=
  {| applied_version := version m;
     applied_filename := filename m;
     applied_at := unixepoch (version m);
     checksum := computeChecksum (sql m) |}.

End Migrator.

(** The two migration files of the repository, by name. *)
Definition embedded_files (sql_memory sql_history : string)
    (sub : MigrationSubsystem) : option (list (string * string)) :=
  match sub with
  | memory => Some [("0001_initial_memories_table.sql"%string, sql_memory)]
  | history => Some [("0001_initial_chunks_table.sql"%string, sql_history)]
  end.

(** A database that records the SQL it ran, and the memory subsystem
    migrated on a new database. *)
Definition record_sql (sql : string) (ran : list string)
    : option (list string) :=
  Some (ran ++ [sql]).

Definition new_database : Database (list string) := mkDb _ ∅ [].

Definition migrate_memory (db : Database (list string))
    : outcome (list string) :=
  runMigrations
    (embedded_files "CREATE TABLE IF NOT EXISTS memories (...);"
                    "CREATE TABLE IF NOT EXISTS chunks (...);")
    (fun sql => sql) (list string) record_sql (fun _ => 1700000000%Z)
    db memory.

Definition migrated_database : Database (list string) :=
  match migrate_memory new_database with
  | Threw _ db | Returned _ _ db => db
  end.

End Migrations.

(* ===================================================================== *)
(** ** Id minter (db/ids.ts) *)
(* ===================================================================== *)

Module Ids.

Definition BASE62 : string :=
  "0123456789ABCDEFGHIJKLMNOPQRSTUVWXYZabcdefghijklmnopqrstuvwxyz".

(** [s[i]] appended to a string: the character, or the text of
    [undefined] past the end. *)
Definition char_at (s : string) (i : nat) : string :=
  match String.get i s with
  | Some c => String c ""
  | None => "undefined"
  end.

(** [generateId]; [bytes] is the [Uint8Array] of the requested length
    after [crypto.getRandomValues] has filled it. *)
Definition generateId (prefix : string) (bytes : list N) : string :=
  foldl (fun id byte => id +:+ char_at BASE62 (N.to_nat (byte mod 62)%N))
        (prefix +:+ "_") bytes.

Definition generateMemoryId (bytes : list N) : string :=
  generateId "mem" bytes.

Definition generateChunkId (bytes : list N) : string :=
  generateId "ch" bytes.

(** [[A-Za-z0-9]] *)
Definition is_alphanumeric (c : ascii) : bool :=
  let n := nat_of_ascii c in
  ((48 <=? n) && (n <=? 57) || (65 <=? n) && (n <=? 90) ||
   (97 <=? n) && (n <=? 122))%nat.

(** The values a byte can take. *)
Definition all_bytes : list N := N.of_nat <$> seq 0 256.

End Ids.

(* ===================================================================== *)
(** ** The chat.message hook (hooks/chat-message.ts) *)
(* ===================================================================== *)

Module Hook.

(** The id of a part: one given by the host, or
    [`memoir-${Date.now()}`]. *)
Inductive PartId : Type :=
| HostId (s : string)
| MemoirId (now : Z).

(** A part of a message. The hook reads [type] and, of a part of type
    ['text'], [text]; the other members of a part of another type are not
    modelled. *)
Record Part : Type := mkPart
  { id : PartId;
    sessionID : string;
    messageID : string;
    type : string;
    text : list N;
    synthetic : bool }.

(** What the hook reads of a memory. *)
Record Memory : Type :=
  { memory_type : Search.MemoryType;
    content : list N }.

Definition type_name (t : Search.MemoryType) : list N :=
  units match t with
        | Search.preference => "preference"
        | Search.pattern => "pattern"
        | Search.gotcha => "gotcha"
        | Search.fact => "fact"
        | Search.learned => "learned"
        end.

Definition newline : list N := [10%N].
Definition double_quote : list N := [34%N].

Definition MEMORY_NUDGE_MESSAGE : list N :=
  units "[MEMORY TRIGGER DETECTED]" ++ newline ++
  units "The user wants you to remember something. Use the `memoir` tool with `mode: " ++
  double_quote ++ units "add" ++ double_quote ++
  units "` to save this information." ++ newline ++
  units "Extract the key information and save it as a concise, searchable memory." ++
  newline ++
  units "Choose an appropriate type: " ++
  double_quote ++ units "preference" ++ double_quote ++ units ", " ++
  double_quote ++ units "pattern" ++ double_quote ++ units ", " ++
  double_quote ++ units "gotcha" ++ double_quote ++ units ", " ++
  double_quote ++ units "fact" ++ double_quote ++ units ", or " ++
  double_quote ++ units "learned" ++ double_quote ++ units ".".

Definition formatContextInjection (memories : list Memory) : list N :=
  let sections :=
    if (0 <? length memories)%nat then
      let memoryLines :=
        (fun m => units "- [" ++ type_name (memory_type m) ++ units "] " ++
                  content m) <$> memories in
      [units "## Project Memory (Memoir)" ++ newline ++
       units "The following memories are relevant to this conversation:" ++
       newline ++ newline ++ Search.join newline memoryLines]
    else [] in
  let sections :=
    if (0 <? length sections)%nat then
      sections ++
      [units "## Memoir Tools" ++ newline ++
       units "- `memoir` - Add or search project memories" ++ newline ++
       units "- `memoir_history` - Browse/search session history (current session by default, use all_sessions: true for past work)" ++
       newline ++
       units "- `memoir_expand` - Expand a chunk ID to see full details"]
    else sections in
  Search.join (newline ++ newline) sections.

(** [createSyntheticPart]; [now] is [Date.now()]. *)
Definition createSyntheticPart (now : Z) (session message : string)
    (t : list N) : Part :=
  {| id := MemoirId now; sessionID := session; messageID := message;
     type := "text"; text := t; synthetic := true |}.

Definition extractTextFromParts (parts : list Part) : list N :=
  Search.join newline
    (text <$> filter (fun p => type p = "text"%string) parts).

Section Handler.

(** The two methods of the memory service that the hook calls
    (memory/index.ts). *)
Variable searchRelevant : list N -> list Memory.
Variable detectKeyword : list N -> bool.

(** One call of the hook: its input, the parts of its output as it
    receives them, and the readings of the clock for the two parts it may
    create. *)
Record Call : Type :=
  { call_session : string;
    call_message : option string;
    call_parts : list Part;
    context_clock : Z;
    nudge_clock : Z }.

(** [handleChatMessage]. The state is the set [injectedSessions]; the
    result is that set and [output.parts] afterwards. *)
Definition handleChatMessage (c : Call) (injectedSessions : gset string)
    : gset string * list Part :=
  let messageText := extractTextFromParts (call_parts c) in
  if decide (Search.trim messageText = []) then
    (injectedSessions, call_parts c)
  else
    let messageID := default ""%string (call_message c) in
    let isFirstMessage := bool_decide (call_session c ∉ injectedSessions) in
    let injected' :=
      if isFirstMessage then {[call_session c]} ∪ injectedSessions
      else injectedSessions in
    let parts1 :=
      if isFirstMessage then
        let memories := searchRelevant messageText in
        if (0 <? length memories)%nat then
          createSyntheticPart (context_clock c) (call_session c) messageID
            (formatContextInjection memories) :: call_parts c
        else call_parts c
      else call_parts c in
    let parts2 :=
      if detectKeyword messageText then
        parts1 ++ [createSyntheticPart (nudge_clock c) (call_session c)
                     messageID MEMORY_NUDGE_MESSAGE]
      else parts1 in
    (injected', parts2).

Definition clearInjectedSession (session : string)
    (injectedSessions : gset string) : gset string :=
  injectedSessions ∖ {[session]}.

Definition hasInjectedSession (session : string)
    (injectedSessions : gset string) : bool :=
  bool_decide (session ∈ injectedSessions).

(** The set after a sequence of calls. *)
Definition handled (calls : list Call) (injectedSessions : gset string)
    : gset string :=
  foldl (fun st c => fst (handleChatMessage c st)) injectedSessions calls.

End Handler.

End Hook.

(* ===================================================================== *)
(** * Proofs *)
(* ===================================================================== *)

Import Regex Search Keywords.

(** Closes a closed decidable goal by evaluating its decision procedure. *)
Ltac by_decide :=
  lazymatch goal with
  | |- ?P => apply (bool_decide_unpack P); vm_compute; exact I
  end.

(** Refutes a closed decidable hypothesis in the same way. *)
Ltac by_decide_not :=
  lazymatch goal with
  | |- ?P -> _ =>
      let H := fresh in
      intros H; apply (bool_decide_pack P) in H; vm_compute in H; exact H
  end.

(** ** The matcher on the word pattern *)

Lemma class_fails_on_nonword ic k prev s :
  next_is_word s = false ->
  matcher ic (Class is_word_char) k (mkpos prev s) = None.
Proof.
  destruct s as [|d t]; simpl; [done|].
  unfold next_is_word; simpl. by intros ->.
Qed.

(** Unfolding equations of the matcher. *)
Lemma matcher_Seq ic a b k p :
  matcher ic (Seq a b) k p = matcher ic a (matcher ic b k) p.
Proof. reflexivity. Qed.

Lemma matcher_Alt ic a b k p :
  matcher ic (Alt a b) k p =
  match matcher ic a k p with Some e => Some e | None => matcher ic b k p end.
Proof. reflexivity. Qed.

Lemma matcher_WordBoundary ic k p :
  matcher ic WordBoundary k p = if is_boundary p then k p else None.
Proof. reflexivity. Qed.

Lemma matcher_Star ic g a k p :
  matcher ic (Star g a) k p =
  repeat_matcher (S (length (after p))) g (matcher ic a) k p.
Proof. reflexivity. Qed.

Lemma matcher_Char ic c k prev d t :
  matcher ic (Char c) k (mkpos prev (d :: t)) =
  if char_matches ic c d then k (mkpos (Some d) t) else None.
Proof. reflexivity. Qed.

Lemma matcher_Char_nil ic c k prev :
  matcher ic (Char c) k (mkpos prev []) = None.
Proof. reflexivity. Qed.



Lemma last_cons_shift (w : list N) : forall d c,
  List.last (d :: w) c = List.last w d.
Proof.
  induction w as [|a w IH]; intros d c; [done|].
  change (List.last (d :: a :: w) c) with (List.last (a :: w) c).
  by rewrite !IH.
Qed.

Lemma class_steps_on_word ic k prev d t :
  is_word_char d = true ->
  matcher ic (Class is_word_char) k (mkpos prev (d :: t))
  = k (mkpos (Some d) t).
Proof. intros Hd. simpl. by rewrite Hd. Qed.

Lemma boundary_at_run_end c rest :
  is_word_char c = true -> next_is_word rest = false ->
  matcher false WordBoundary Some (mkpos (Some c) rest)
  = Some (mkpos (Some c) rest).
Proof.
  intros Hc Hrest. simpl. unfold is_boundary. simpl.
  fold (next_is_word rest). by rewrite Hc, Hrest.
Qed.

(** Greedy [\w*] followed by [\b], inside a run of word characters: it
    reads the run to its end. Stated for any step and continuation that
    behave as [\w] and [\b] do. *)
Lemma repeat_reads_run (step : cont -> cont) (k : cont) w :
  (forall k' prev d t, is_word_char d = true ->
     step k' (mkpos prev (d :: t)) = k' (mkpos (Some d) t)) ->
  (forall k' prev s, next_is_word s = false -> step k' (mkpos prev s) = None) ->
  (forall c rest, is_word_char c = true -> next_is_word rest = false ->
     k (mkpos (Some c) rest) = Some (mkpos (Some c) rest)) ->
  forall n c rest,
  is_word_char c = true ->
  Forall (fun d => is_word_char d = true) w ->
  next_is_word rest = false ->
  length (w ++ rest) < n ->
  repeat_matcher n true step k (mkpos (Some c) (w ++ rest))
  = Some (mkpos (Some (List.last w c)) rest).
Proof.
  intros Hstep Hstop Hk.
  induction w as [|d w IH]; intros n c rest Hc Hw Hrest Hn.
  - destruct n as [|n]; [simpl in Hn; lia|].
    simpl. rewrite Hstop by done. by apply Hk.
  - destruct n as [|n]; [simpl in Hn; lia|].
    inversion Hw as [|? ? Hd Hw']; subst.
    change ((d :: w) ++ rest) with (d :: (w ++ rest)).
    cbn [repeat_matcher]. rewrite Hstep by done. cbn [after].
    assert (Hlt : (length (w ++ rest) <? length (d :: w ++ rest)) = true)
      by (apply Nat.ltb_lt; simpl; lia).
    rewrite Hlt.
    rewrite (IH n d rest) by (try done; simpl in Hn; lia).
    by rewrite last_cons_shift.
Qed.

Lemma words_match_run prev c w rest :
  word_opt prev = false ->
  is_word_char c = true ->
  Forall (fun d => is_word_char d = true) w ->
  next_is_word rest = false ->
  match_at false WORDS (mkpos prev (c :: w ++ rest))
  = Some (mkpos (Some (List.last w c)) rest).
Proof.
  intros Hp Hc Hw Hrest. unfold match_at, WORDS, Plus.
  rewrite matcher_Seq, matcher_WordBoundary.
  unfold is_boundary. cbn [before after head word_opt].
  rewrite Hp, Hc. cbn [xorb].
  rewrite !matcher_Seq, class_steps_on_word, matcher_Star by done.
  cbn [after].
  apply (repeat_reads_run (matcher false (Class is_word_char))
           (matcher false WordBoundary Some)); try done.
  - intros k' prev' d t Hd. exact (class_steps_on_word false k' prev' d t Hd).
  - intros k' prev' s Hs. exact (class_fails_on_nonword false k' prev' s Hs).
  - exact boundary_at_run_end.
  - lia.
Qed.

Lemma words_fail_on_nonword prev s :
  next_is_word s = false -> match_at false WORDS (mkpos prev s) = None.
Proof.
  intros Hs. unfold match_at, WORDS, Plus.
  rewrite matcher_Seq, matcher_WordBoundary.
  destruct (is_boundary _); [|done].
  rewrite !matcher_Seq. by apply class_fails_on_nonword.
Qed.

(** ** Searching for the next word *)

Lemma exec_words_none s : forall prev,
  Forall nonword s -> exec_from false WORDS prev s = None.
Proof.
  induction s as [|d s IH]; intros prev Hs; cbn [exec_from].
  - by rewrite words_fail_on_nonword.
  - inversion Hs; subst.
    rewrite words_fail_on_nonword by done. by rewrite IH.
Qed.

Lemma exec_words_some pre : forall prev c w rest,
  word_opt prev && next_is_word (pre ++ c :: w ++ rest) = false ->
  Forall nonword pre -> wordch c -> Forall wordch w ->
  next_is_word rest = false ->
  exec_from false WORDS prev (pre ++ c :: w ++ rest)
  = Some (pre, c :: w, mkpos (Some (List.last w c)) rest).
Proof.
  induction pre as [|d pre IH]; intros prev c w rest Hinv Hpre Hc Hw Hrest.
  - simpl app in *. unfold next_is_word in Hinv. simpl in Hinv.
    rewrite Hc in Hinv. rewrite andb_true_r in Hinv.
    destruct w as [|w0 w']; cbn [exec_from];
      rewrite words_match_run by done; cbn [after].
    + simpl app. replace (length (c :: rest) - length rest) with 1
        by (simpl; lia). done.
    + replace (length (c :: (w0 :: w') ++ rest) - length rest)
        with (length (c :: w0 :: w')) by (simpl; rewrite length_app; lia).
      change (c :: (w0 :: w') ++ rest) with ((c :: w0 :: w') ++ rest).
      by rewrite take_app_length.
  - inversion Hpre as [|? ? Hd Hpre']; subst.
    change ((d :: pre) ++ c :: w ++ rest) with (d :: (pre ++ c :: w ++ rest)).
    cbn [exec_from]. rewrite words_fail_on_nonword by done.
    rewrite (IH (Some d) c w rest); try done.
    simpl. unfold nonword in Hd. by rewrite Hd.
Qed.

(** A text has no word character, or splits around its first run. *)
Lemma first_run s :
  Forall nonword s \/
  exists pre c w rest,
    s = pre ++ c :: w ++ rest /\ Forall nonword pre /\ wordch c /\
    Forall wordch w /\ next_is_word rest = false.
Proof.
  induction s as [|d s IH]; [by left|].
  destruct (is_word_char d) eqn:Hd.
  - right. destruct IH as [Hs | (pre & c & w & rest & -> & Hpre & Hc & Hw & Hrest)].
    + exists [], d, [], s. repeat split; try done.
      destruct Hs; done.
    + destruct pre as [|p pre].
      * exists [], d, (c :: w), rest. repeat split; try done.
        by constructor.
      * exists [], d, [], ((p :: pre) ++ c :: w ++ rest).
        repeat split; try done.
        inversion Hpre; subst. done.
  - destruct IH as [Hs | (pre & c & w & rest & -> & Hpre & Hc & Hw & Hrest)].
    + left. by constructor.
    + right. exists (d :: pre), c, w, rest. repeat split; try done.
      by constructor.
Qed.

(** ** The runs of the specification *)

Lemma word_runs_nonword s : Forall nonword s -> word_runs [] s = [].
Proof.
  induction 1 as [|d s Hd _ IH]; [done|].
  simpl. unfold nonword in Hd. by rewrite Hd.
Qed.

Lemma word_runs_read w : forall cur rest,
  Forall wordch w -> next_is_word rest = false -> cur ++ w <> [] ->
  word_runs cur (w ++ rest) = (cur ++ w) :: word_runs [] rest.
Proof.
  induction w as [|d w IH]; intros cur rest Hw Hrest Hne.
  - rewrite app_nil_r in *. simpl.
    destruct rest as [|r rest]; simpl.
    + by destruct cur.
    + unfold next_is_word in Hrest. simpl in Hrest. rewrite Hrest.
      by destruct cur.
  - inversion Hw as [|? ? Hd Hw']; subst. simpl.
    unfold wordch in Hd. rewrite Hd.
    rewrite IH; try done.
    + by rewrite <- app_assoc.
    + by destruct cur.
Qed.

Lemma word_runs_split pre c w rest :
  Forall nonword pre -> wordch c -> Forall wordch w ->
  next_is_word rest = false ->
  word_runs [] (pre ++ c :: w ++ rest) = (c :: w) :: word_runs [] rest.
Proof.
  intros Hpre Hc Hw Hrest.
  induction Hpre as [|d pre Hd _ IH].
  - change ([] ++ c :: w ++ rest) with ((c :: w) ++ rest).
    by rewrite word_runs_read; [|constructor|..].
  - simpl. unfold nonword in Hd. by rewrite Hd.
Qed.

(** ** The global match is the list of maximal runs *)

Lemma global_loop_words n : forall prev s,
  word_opt prev && next_is_word s = false ->
  length s < n ->
  List.map snd (fst (global_loop n false WORDS prev s)) = word_runs [] s.
Proof.
  induction n as [|n IH]; intros prev s Hinv Hn; [lia|].
  cbn [global_loop].
  destruct (first_run s) as [Hs | (pre & c & w & rest & -> & Hpre & Hc & Hw & Hrest)].
  - rewrite exec_words_none by done. by rewrite word_runs_nonword.
  - rewrite exec_words_some by done.
    rewrite word_runs_split by done. cbn [after before].
    destruct (global_loop n false WORDS (Some (List.last w c)) rest)
      as [ms rest'] eqn:Hloop.
    simpl. f_equal.
    change ms with (fst (ms, rest')). rewrite <- Hloop.
    apply IH.
    + rewrite Hrest. apply andb_false_r.
    + rewrite length_app, length_cons, length_app in Hn. lia.
Qed.

Lemma js_match_words s :
  js_match false WORDS s =
  match word_runs [] s with [] => None | runs => Some runs end.
Proof.
  unfold js_match, global_matches.
  rewrite <- (global_loop_words (S (length s)) None s) by (done || lia).
  by destruct (fst _).
Qed.

(** ** The filter of the source and the filter of the specification *)

Lemma same_ignoring_case_fmap a b :
  same_ignoring_case a b <-> canonicalize <$> a = canonicalize <$> b.
Proof.
  unfold same_ignoring_case. rewrite list_eq_Forall2, Forall2_fmap. done.
Qed.

Lemma reserved_iff w : toUpperCase w ∈ ftsOperators <-> is_reserved w.
Proof.
  unfold is_reserved, reserved_words, ftsOperators, toUpperCase.
  rewrite !Exists_cons, Exists_nil, !elem_of_cons, elem_of_nil.
  rewrite !same_ignoring_case_fmap. done.
Qed.

Lemma validWords_kept words :
  validWords words =
  filter (fun w => ~ length w < 2 /\ ~ is_reserved w) words.
Proof.
  unfold validWords. apply list_filter_iff. intros w.
  rewrite reserved_iff. split; intros [? ?]; split; (done || lia).
Qed.

Lemma escapeFtsQuery_compiled query :
  escapeFtsQuery query = compiled_expression query.
Proof.
  unfold escapeFtsQuery, compiled_expression, kept_runs.
  rewrite js_match_words.
  destruct (word_runs [] query) as [|r runs] eqn:Hruns; [done|].
  rewrite validWords_kept. by destruct (filter _ _).
Qed.

(** Scenario 3 of the specification: the expressions compiled from hostile
    input. *)
Example scenario_3 :
  escapeFtsQuery (units "Result<T, E>") = [34; 82; 101; 115; 117; 108; 116; 34]%N /\
  escapeFtsQuery [34; 113; 117; 111; 116; 101; 100; 34]%N
  = [34; 113; 117; 111; 116; 101; 100; 34]%N /\
  escapeFtsQuery (units "test*") = [34; 116; 101; 115; 116; 34]%N /\
  escapeFtsQuery (units "(parentheses)")
  = [34%N] ++ units "parentheses" ++ [34%N] /\
  escapeFtsQuery (units "cats AND dogs or a b")
  = [34%N] ++ units "cats" ++ [34%N] ++ units " OR " ++
    [34%N] ++ units "dogs" ++ [34%N] /\
  escapeFtsQuery (units "") = [] /\
  escapeFtsQuery (units "   ") = [].
Proof. by vm_compute. Qed.

(** ** Whitespace-only queries have no word *)

Lemma space_is_nonword c : is_js_space c = true -> nonword c.
Proof.
  unfold is_js_space, nonword, is_word_char. intros H.
  apply not_true_is_false. intros Hw.
  repeat (rewrite orb_true_iff in H || rewrite andb_true_iff in H ||
          rewrite N.leb_le in H || rewrite N.eqb_eq in H).
  repeat (rewrite orb_true_iff in Hw || rewrite andb_true_iff in Hw ||
          rewrite N.leb_le in Hw || rewrite N.eqb_eq in Hw).
  lia.
Qed.

Lemma trimStart_nil s : trimStart s = [] -> Forall (fun c => is_js_space c = true) s.
Proof.
  induction s as [|c s IH]; simpl; [done|].
  destruct (is_js_space c) eqn:Hc; [|done].
  intros H. constructor; auto.
Qed.

Lemma trim_nil s : trim s = [] -> Forall nonword s.
Proof.
  unfold trim. intros H.
  apply (f_equal (@rev N)) in H. rewrite rev_involutive in H. simpl in H.
  apply trimStart_nil in H. apply Forall_rev in H.
  rewrite rev_involutive in H.
  assert (Hs : trimStart s = []).
  { clear -H. induction s as [|c s IH]; simpl in *; [done|].
    destruct (is_js_space c) eqn:Hc; [by apply IH|].
    inversion H; congruence. }
  eapply Forall_impl; [by apply trimStart_nil|]. apply space_is_nonword.
Qed.

Lemma kept_runs_nonword s : Forall nonword s -> kept_runs s = [].
Proof. intros H. unfold kept_runs. by rewrite word_runs_nonword. Qed.

Lemma join_quote_nonempty w ws :
  join (units " OR ") (quote <$> (w :: ws)) <> [].
Proof. destruct ws; done. Qed.

(** C5. For every query, the expression handed to the full-text engine is
    the one the specification describes: the maximal runs of word
    characters, without the runs shorter than 2 and the runs equal to AND,
    OR, NOT or NEAR in any letter case, each run in double quotes, joined
    with " OR ". This holds for the memory search compiler and for the
    chunk search; when no run remains both searches return no row and run
    no statement, and otherwise each runs one statement whose MATCH
    parameter is that expression. *)
Theorem search_compiler_meets_spec {Row : Type}
    (run_query : list string -> list param -> list Row)
    (maxSearchResults : Z) (query : list N)
    (mo : option SearchOptions) (co : option ChunkSearchOptions) :
  escapeFtsQuery query = compiled_expression query /\
  match kept_runs query with
  | [] =>
      searchMemories run_query query mo = no_query /\
      chunk_search run_query maxSearchResults query co = no_query
  | _ :: _ =>
      (exists clauses params,
         searchMemories run_query query mo =
         query_db run_query clauses (PText (compiled_expression query) :: params)) /\
      (exists clauses params,
         chunk_search run_query maxSearchResults query co =
         query_db run_query clauses (PText (compiled_expression query) :: params))
  end.
Proof.
  split; [apply escapeFtsQuery_compiled|].
  pose proof (escapeFtsQuery_compiled query) as Hesc.
  unfold searchMemories, chunk_search.
  rewrite Hesc. clear Hesc.
  rewrite js_match_words.
  unfold compiled_expression.
  destruct (kept_runs query) as [|w ws] eqn:Hkept.
  - split.
    + case_bool_decide; [done|]. simpl. done.
    + destruct (bool_decide (query = []) || bool_decide (trim query = []));
        [done|].
      destruct (word_runs [] query) as [|r runs] eqn:Hruns; [done|].
      rewrite validWords_kept. fold (kept_runs query) in Hkept.
      unfold kept_runs in Hkept. rewrite Hruns in Hkept. by rewrite Hkept.
  - assert (Hq : query <> []) by (intros ->; done).
    assert (Ht : trim query <> []).
    { intros Ht. apply trim_nil, kept_runs_nonword in Ht. congruence. }
    rewrite !(bool_decide_eq_false_2 (query = [])) by done.
    rewrite (bool_decide_eq_false_2 (trim query = [])) by done. cbn [orb].
    split.
    + rewrite bool_decide_eq_false_2 by apply (join_quote_nonempty w ws).
      destruct (mo ≫= type); eexists _, _; reflexivity.
    + unfold kept_runs in Hkept.
      destruct (word_runs [] query) as [|r runs] eqn:Hruns; [done|].
      rewrite validWords_kept, Hkept.
      destruct (co ≫= sessionId) as [sid|];
        [destruct (bool_decide (sid = ""%string))|];
        destruct (co ≫= depth); eexists _, _; reflexivity.
Qed.

(** ** Removing code: the two patterns on a single code region *)













Lemma last_before_cons prev d l :
  last_before prev (d :: l) = last_before (Some d) l.
Proof.
  unfold last_before. destruct l as [|a l]; [done|].
  rewrite last_cons_cons.
  destruct (last (a :: l)) eqn:E; [done|]. by apply last_None in E.
Qed.














(** ** Removing code: every text *)












(** *** The global replacement, for a pattern that matches at a position
    exactly where a region begins *)

Section Regions.

Context (r : regex) (region_at : list N -> option (list N)).
Hypothesis match_region : forall prev s,
  match_at false r (mkpos prev s) = mkpos (Some backtick) <$> region_at s.
Hypothesis region_shorter : forall s rest,
  region_at s = Some rest -> length rest < length s.






End Regions.


(** ** The keyword pattern *)

(** Escaping makes every character of a keyword a literal of the
    pattern: the pattern source always parses, to the alternatives
    [\bk\b] of the keywords. *)
Lemma special_not_b c : is_regex_special c = true -> (c =? 98)%N = false.
Proof.
  unfold is_regex_special. intros H%bool_decide_eq_true.
  apply N.eqb_neq. intros ->. revert H. by_decide_not.
Qed.

Lemma plain_not_syntax c :
  is_regex_special c = false -> (c =? 124)%N = false /\ (c =? 92)%N = false.
Proof.
  unfold is_regex_special. intros H%bool_decide_eq_false.
  split; apply N.eqb_neq; intros ->; apply H; by_decide.
Qed.

Lemma parse_escaped k : forall rest a alts,
  parse_alternatives rest = Some (a :: alts) ->
  parse_alternatives (escape_keyword k ++ rest)
  = Some (((TChar <$> k) ++ a) :: alts).
Proof.
  unfold escape_keyword.
  induction k as [|c k IH]; intros rest a alts Hrest; [done|].
  rewrite fmap_cons. cbn [concat]. rewrite <- app_assoc.
  specialize (IH rest a alts Hrest).
  destruct (is_regex_special c) eqn:Hc.
  - change ([92%N; c] ++ ?t) with (92%N :: c :: t).
    cbn [parse_alternatives]. change (92 =? 124)%N with false.
    change (92 =? 92)%N with true. cbv iota.
    rewrite (special_not_b c Hc), Hc. cbv iota.
    fold parse_alternatives. by rewrite IH.
  - change ([c] ++ ?t) with (c :: t).
    destruct (plain_not_syntax c Hc) as [H1 H2].
    cbn [parse_alternatives]. rewrite H1, H2, Hc. cbv iota.
    fold parse_alternatives. by rewrite IH.
Qed.

Lemma parse_boundary rest :
  parse_alternatives (units "\b" ++ rest)
  = add_term TBoundary (parse_alternatives rest).
Proof. reflexivity. Qed.

Lemma parse_wrapped k rest a alts :
  parse_alternatives rest = Some (a :: alts) ->
  parse_alternatives (units "\b" ++ escape_keyword k ++ units "\b" ++ rest)
  = Some ((keyword_terms k ++ a) :: alts).
Proof.
  intros Hrest. rewrite parse_boundary.
  rewrite (parse_escaped k _ (TBoundary :: a) alts).
  - unfold keyword_terms. simpl. by rewrite <- app_assoc.
  - by rewrite parse_boundary, Hrest.
Qed.

Lemma join_cons_cons sep (x y : list N) t :
  Search.join sep (x :: y :: t) = x ++ sep ++ Search.join sep (y :: t).
Proof. reflexivity. Qed.

Lemma parse_bar rest :
  parse_alternatives (124%N :: rest)
  = match parse_alternatives rest with
    | Some alts => Some ([] :: alts)
    | None => None
    end.
Proof. reflexivity. Qed.

Lemma parse_pattern_source ks :
  ks <> [] ->
  parse_alternatives (pattern_source ks) = Some (keyword_terms <$> ks).
Proof.
  unfold pattern_source. induction ks as [|k ks IH]; [done|]. intros _.
  destruct ks as [|k2 ks].
  - cbn [fmap list_fmap Search.join].
    replace (units "\b" ++ escape_keyword k ++ units "\b")
      with (units "\b" ++ escape_keyword k ++ units "\b" ++ [])
      by (by rewrite app_nil_r).
    rewrite (parse_wrapped k [] [] []) by done. by rewrite app_nil_r.
  - specialize (IH ltac:(done)). cbn [fmap list_fmap] in IH |- *.
    rewrite join_cons_cons, <- !app_assoc.
    rewrite (parse_wrapped k _ [] (keyword_terms <$> k2 :: ks)).
    + by rewrite app_nil_r.
    + change (units "|" ++ ?t) with (124%N :: t).
      rewrite parse_bar. by rewrite IH.
Qed.

Lemma buildKeywordPattern_parses ks :
  buildKeywordPattern ks = Some (disjunction_regex (keyword_terms <$> ks)).
Proof.
  destruct ks as [|k ks]; [done|].
  unfold buildKeywordPattern, RegExp.
  by rewrite parse_pattern_source.
Qed.


(** Detection always answers. *)
Lemma detectMemoryKeyword_total text custom :
  is_Some (detectMemoryKeyword text custom).
Proof.
  unfold detectMemoryKeyword. rewrite buildKeywordPattern_parses. by eexists.
Qed.

Lemma default_keywords_word_ended : Forall word_ended DEFAULT_KEYWORDS.
Proof. repeat constructor. Qed.

Lemma canonicalize_word c : is_word_char (canonicalize c) = is_word_char c.
Proof.
  unfold canonicalize.
  destruct ((97 <=? c)%N && (c <=? 122)%N) eqn:E; [|done].
  unfold is_word_char at 2. rewrite E, orb_true_r.
  apply andb_true_iff in E as [E1 E2].
  apply N.leb_le in E1, E2.
  unfold is_word_char.
  assert (H1 : (65 <=? c - 32)%N = true) by (apply N.leb_le; lia).
  assert (H2 : (c - 32 <=? 90)%N = true) by (apply N.leb_le; lia).
  rewrite H1, H2. simpl. by rewrite orb_true_r.
Qed.

Lemma same_case_word c d :
  canonicalize c = canonicalize d -> is_word_char c = is_word_char d.
Proof.
  intros H. by rewrite <- (canonicalize_word c), H, canonicalize_word.
Qed.

(** The characters of a keyword, read with the [i] flag. *)
Lemma chars_match k : forall K prev s e rest,
  matcher true (alternative_regex ((TChar <$> k) ++ rest)) K (mkpos prev s)
    = Some e <->
  exists k' r, s = k' ++ r /\ same_ignoring_case k k' /\
    matcher true (alternative_regex rest) K (mkpos (last_before prev k') r)
      = Some e.
Proof.
  induction k as [|c k IH]; intros K prev s e rest.
  - simpl. split.
    + intros H. exists [], s. split; [done|]. split; [constructor|done].
    + intros (k' & r & -> & Hk & H).
      apply Forall2_nil_inv_l in Hk as ->. done.
  - change ((TChar <$> c :: k) ++ rest)
      with (TChar c :: ((TChar <$> k) ++ rest)).
    cbn [alternative_regex term_regex]. rewrite matcher_Seq.
    destruct s as [|d t].
    + rewrite matcher_Char_nil. split; [done|].
      intros (k' & r & Hs & Hk & _).
      apply Forall2_cons_inv_l in Hk as (d & k'' & _ & _ & ->). done.
    + rewrite matcher_Char. unfold char_matches.
      destruct (N.eqb_spec (canonicalize c) (canonicalize d)) as [Hcd|Hcd].
      * rewrite IH. split.
        -- intros (k' & r & -> & Hk & H).
           exists (d :: k'), r. split; [done|].
           split; [by constructor|]. by rewrite last_before_cons.
        -- intros (k' & r & Hs & Hk & H).
           apply Forall2_cons_inv_l in Hk as (d' & k'' & _ & Hk & ->).
           simplify_eq/=. exists k'', r. split; [done|]. split; [done|].
           by rewrite <- (last_before_cons prev).
      * split; [done|].
        intros (k' & r & Hs & Hk & _).
        apply Forall2_cons_inv_l in Hk as (d' & k'' & Hc & _ & ->).
        simplify_eq/=.
Qed.

Lemma keyword_alternative_matches k prev s :
  is_Some (match_at true (alternative_regex (keyword_terms k)) (mkpos prev s))
  <->
  is_boundary (mkpos prev s) = true /\
  exists k' r, s = k' ++ r /\ same_ignoring_case k k' /\
    is_boundary (mkpos (last_before prev k') r) = true.
Proof.
  unfold match_at, keyword_terms.
  cbn [alternative_regex term_regex].
  rewrite matcher_Seq, matcher_WordBoundary.
  destruct (is_boundary (mkpos prev s)).
  - split.
    + intros [e He]. apply chars_match in He as (k' & r & -> & Hk & He).
      split; [done|]. exists k', r. split; [done|]. split; [done|].
      cbn [alternative_regex term_regex] in He.
      rewrite matcher_Seq, matcher_WordBoundary in He.
      by destruct (is_boundary _).
    + intros (_ & k' & r & -> & Hk & Hb).
      exists (mkpos (last_before prev k') r).
      apply chars_match. exists k', r. split; [done|]. split; [done|].
      cbn [alternative_regex term_regex].
      by rewrite matcher_Seq, matcher_WordBoundary, Hb.
  - split; [by intros [? ?]|by intros [? _]].
Qed.

Lemma disjunction_matches alts p :
  is_Some (match_at true (disjunction_regex alts) p) <->
  exists a, a ∈ alts /\ is_Some (match_at true (alternative_regex a) p).
Proof.
  unfold match_at. induction alts as [|a alts IH].
  - simpl. split; [by intros [? ?]|]. intros (a & Ha & _).
    by apply elem_of_nil in Ha.
  - destruct alts as [|b alts].
    + simpl. split.
      * intros H. exists a. split; [by left|done].
      * intros (a' & Ha & H). by apply list_elem_of_singleton in Ha as ->.
    + change (disjunction_regex (a :: b :: alts))
        with (Alt (alternative_regex a) (disjunction_regex (b :: alts))).
      rewrite matcher_Alt.
      destruct (matcher true (alternative_regex a) Some p) as [e|] eqn:Ha.
      * split; [|by eauto]. intros _. exists a. split; [by left|].
        rewrite Ha. by eauto.
      * rewrite IH. split.
        -- intros (a' & Hin & H). exists a'. split; [by right|done].
        -- intros (a' & Hin & H). apply elem_of_cons in Hin as [->|Hin].
           ++ rewrite Ha in H. by destruct H.
           ++ by exists a'.
Qed.

(** A pattern is found in a text exactly when it matches at some position
    of the text. *)
Lemma exec_from_is_Some ic r s : forall prev,
  is_Some (exec_from ic r prev s) <->
  exists l r', s = l ++ r' /\
    is_Some (match_at ic r (mkpos (last_before prev l) r')).
Proof.
  induction s as [|c t IH]; intros prev; cbn [exec_from].
  - destruct (match_at ic r (mkpos prev [])) as [e|] eqn:Hm.
    + split; [|by eauto]. intros _. exists [], [].
      split; [done|]. unfold last_before. simpl. rewrite Hm. by eauto.
    + split; [by intros [? ?]|].
      intros (l & r' & Hs & H).
      symmetry in Hs. apply app_eq_nil in Hs as [-> ->].
      unfold last_before in H. simpl in H. rewrite Hm in H. by destruct H.
  - destruct (match_at ic r (mkpos prev (c :: t))) as [e|] eqn:Hm.
    + split; [|by eauto]. intros _. exists [], (c :: t).
      split; [done|]. unfold last_before. simpl. rewrite Hm. by eauto.
    + assert (Hiff : is_Some
                (match exec_from ic r (Some c) t with
                 | Some (skipped, matched, e) => Some (c :: skipped, matched, e)
                 | None => None
                 end) <-> is_Some (exec_from ic r (Some c) t)).
      { destruct (exec_from ic r (Some c) t) as [[[? ?] ?]|];
          split; intros [? ?]; by eauto. }
      rewrite Hiff, IH. split.
      * intros (l & r' & -> & H). exists (c :: l), r'.
        split; [done|]. by rewrite last_before_cons.
      * intros (l & r' & Hs & H). destruct l as [|c' l].
        -- simpl in Hs. subst r'. unfold last_before in H. simpl in H.
           rewrite Hm in H. by destruct H.
        -- simplify_eq/=. exists l, r'. split; [done|].
           by rewrite <- (last_before_cons prev).
Qed.

(** ** Word boundaries around an occurrence *)

Lemma same_case_head k k' :
  same_ignoring_case k k' -> word_opt (head k) = true ->
  word_opt (head k') = true.
Proof.
  destruct 1 as [|c d k k' Hcd _]; simpl; [done|].
  by rewrite (same_case_word c d).
Qed.

Lemma same_case_last k k' :
  same_ignoring_case k k' -> word_opt (last k) = true ->
  word_opt (last k') = true.
Proof.
  intros H. apply Forall2_last in H.
  destruct H as [c d Hcd|]; simpl; [|done].
  by rewrite (same_case_word c d).
Qed.

Lemma ends_with_word_char_iff l :
  word_opt (last_before None l) = true <-> ends_with_word_char l.
Proof.
  unfold last_before, ends_with_word_char. split.
  - destruct (last l) as [c|] eqn:Hl; simpl; [|done].
    intros Hc. apply last_Some in Hl as [l' ->]. by exists l', c.
  - intros (l' & c & -> & Hc). by rewrite last_snoc.
Qed.

Lemma starts_with_word_char_iff r :
  word_opt (head r) = true <-> starts_with_word_char r.
Proof.
  unfold starts_with_word_char. split.
  - destruct r as [|c r']; simpl; [done|]. intros Hc. by exists c, r'.
  - intros (c & r' & -> & Hc). done.
Qed.

Lemma boundary_before_occurrence prev k' r :
  word_opt (head k') = true ->
  is_boundary (mkpos prev (k' ++ r)) = negb (word_opt prev).
Proof.
  intros H. unfold is_boundary. cbn [before after].
  destruct k' as [|d k']; [done|]. simpl in *. rewrite H.
  by destruct (word_opt prev).
Qed.

Lemma boundary_after_occurrence prev k' r :
  word_opt (last k') = true ->
  is_boundary (mkpos (last_before prev k') r) = negb (word_opt (head r)).
Proof.
  intros H. unfold is_boundary, last_before. cbn [before after].
  destruct (last k') as [d|]; [|done]. simpl in *. by rewrite H.
Qed.

Lemma keyword_found_iff k l r' :
  word_ended k ->
  is_Some (match_at true (alternative_regex (keyword_terms k))
             (mkpos (last_before None l) r')) <->
  exists k' r, r' = k' ++ r /\ same_ignoring_case k k' /\
    ~ ends_with_word_char l /\ ~ starts_with_word_char r.
Proof.
  intros [Hh Hl]. rewrite keyword_alternative_matches. split.
  - intros (Hb & k' & r & -> & Hk & He).
    rewrite boundary_before_occurrence in Hb by by eapply same_case_head.
    rewrite boundary_after_occurrence in He by by eapply same_case_last.
    exists k', r. split; [done|]. split; [done|].
    rewrite <- ends_with_word_char_iff, <- starts_with_word_char_iff.
    apply negb_true_iff in Hb, He. rewrite Hb, He. done.
  - intros (k' & r & -> & Hk & Hnl & Hnr).
    rewrite <- ends_with_word_char_iff in Hnl.
    rewrite <- starts_with_word_char_iff in Hnr.
    rewrite boundary_before_occurrence by by eapply same_case_head.
    split; [by destruct (word_opt (last_before None l))|].
    exists k', r. split; [done|]. split; [done|].
    rewrite boundary_after_occurrence by by eapply same_case_last.
    by destruct (word_opt (head r)).
Qed.







(** The other direction fails in the same way: in "remember`x`ed" the
    keyword stands outside the code as a whole word, and detection
    returns false, because the joined text reads "remembered". *)
Example keyword_outside_span_missed :
  occurs_as_word (units "remember")
    (units "remember" ++ inline_span (units "x") ++ units "ed") /\
  detectMemoryKeyword
    (units "remember" ++ inline_span (units "x") ++ units "ed") None
  = Some false.
Proof.
  split; [|by vm_compute].
  exists [], (units "remember"), (inline_span (units "x") ++ units "ed").
  split; [done|]. split; [by_decide|].
  split.
  - intros (l' & c & Hl & _). by destruct l'.
  - intros (c & r' & Hr & Hc). by simplify_eq/=.
Qed.

(** Scenario 4 of the specification. *)
Example scenario_4 :
  detectMemoryKeyword (units "Please remember this") None = Some true /\
  detectMemoryKeyword (units "Use the `remember` function") None = Some false /\
  detectMemoryKeyword
    (units "```ts" ++ [10%N] ++ units "remember" ++ [10%N] ++ units "```") None
  = Some false /\
  detectMemoryKeyword (units "I remembered it") None = Some false /\
  detectMemoryKeyword (units "DON'T FORGET the milk") None = Some true.
Proof. by vm_compute. Qed.

(** What the specification's words for a region mean: a fenced block is
    a fence, a body and a fence; an inline span is a backtick, a body
    of one unit or more without backticks, and a backtick; the first
    region of a text begins where the text before it ends. *)
Lemma opening_fence s rest :
  opening s = Some rest -> s = units "```" ++ rest.
Proof.
  destruct s as [|a [|b [|c s]]]; try done. cbn [opening].
  destruct (a =? backtick)%N eqn:Ha, (b =? backtick)%N eqn:Hb,
    (c =? backtick)%N eqn:Hc; try done.
  apply N.eqb_eq in Ha as ->, Hb as ->, Hc as ->. by intros [= <-].
Qed.

Lemma after_fence_body s : forall rest,
  after_fence s = Some rest -> exists body, s = body ++ units "```" ++ rest.
Proof.
  induction s as [|c s IH]; intros rest; [done|]. cbn [after_fence].
  destruct (opening (c :: s)) as [r|] eqn:Ho.
  - intros [= <-]. exists []. by apply opening_fence.
  - intros (body & ->)%IH. by exists (c :: body).
Qed.

Lemma fenced_at_block s rest :
  fenced_at s = Some rest -> exists body, s = fenced body ++ rest.
Proof.
  unfold fenced_at. destruct (opening s) as [inner|] eqn:Ho; [|done].
  simpl. intros (body & ->)%after_fence_body.
  apply opening_fence in Ho as ->. exists body.
  unfold fenced. by rewrite <- !app_assoc.
Qed.

Lemma span_end_body s : forall rest,
  span_end s = Some rest ->
  exists body, no_backtick body /\ s = body ++ backtick :: rest.
Proof.
  induction s as [|c s IH]; intros rest; [done|]. cbn [span_end].
  destruct (c =? backtick)%N eqn:Hc.
  - apply N.eqb_eq in Hc as ->. intros [= <-]. exists [].
    split; [constructor|done].
  - apply N.eqb_neq in Hc. intros (body & Hb & ->)%IH.
    exists (c :: body). split; [by constructor|done].
Qed.

Lemma span_at_span s rest :
  span_at s = Some rest ->
  exists body, body <> [] /\ no_backtick body /\ s = inline_span body ++ rest.
Proof.
  destruct s as [|a [|b s]]; try done. cbn [span_at].
  destruct (a =? backtick)%N eqn:Ha; [|done].
  destruct (b =? backtick)%N eqn:Hb; [done|]. cbn [andb negb].
  apply N.eqb_eq in Ha as ->. apply N.eqb_neq in Hb.
  intros (body & Hbody & ->)%span_end_body.
  exists (b :: body). split; [done|]. split; [by constructor|].
  unfold inline_span. by rewrite <- !app_assoc.
Qed.

Lemma first_region_split region_at s : forall pre rest,
  first_region region_at s = Some (pre, rest) ->
  exists region, s = pre ++ region /\ region_at region = Some rest.
Proof.
  induction s as [|c s IH]; intros pre rest; [done|]. cbn [first_region].
  destruct (region_at (c :: s)) as [rest'|] eqn:Hat.
  - intros [= <- <-]. by exists (c :: s).
  - destruct (first_region region_at s) as [[pre' rest']|]; [|done].
    intros [= <- <-]. destruct (IH pre' rest' eq_refl) as (region & -> & Hr).
    by exists region.
Qed.

(** In a text where no region begins, nothing is cut. *)
Lemma cut_regions_none n region_at s :
  first_region region_at s = None -> cut_regions n region_at s = s.
Proof. intros H. destruct n; [done|]. cbn [cut_regions]. by rewrite H. Qed.


(** A text with two fenced blocks, an inline span and a fence that is
    never closed: the blocks and the span go, the open fence stays. *)
Example without_code_example :
  without_code
    (units "a ```x``` remember ```y``` b `z` c ```remember")
  = units "a  remember  b  c ```remember" /\
  detectMemoryKeyword
    (units "a ```x``` remember ```y``` b `z` c ```remember") None
  = Some true /\
  detectMemoryKeyword (units "```remember``` `remember` ``remember``") None
  = Some false.
Proof. split_and!; by vm_compute. Qed.

(* ===================================================================== *)
(** ** Compaction *)
(* ===================================================================== *)

Lemma filter_ext_elem {A} (P Q : A -> Prop)
    `{!forall x, Decision (P x)} `{!forall x, Decision (Q x)} (l : list A) :
  (forall x, x ∈ l -> P x <-> Q x) -> filter P l = filter Q l.
Proof.
  induction l as [|a l IH]; intros Hext; [done|].
  rewrite !filter_cons.
  rewrite IH by (intros x Hx; apply Hext; by right).
  pose proof (Hext a (list_elem_of_here a l)) as Ha.
  destruct (decide (P a)) as [Hp|Hp], (decide (Q a)) as [Hq|Hq];
    tauto || done.
Qed.

Section Compaction.
Import Chunks.

Lemma insert_by_id_perm x (l : list ChunkRow) : insert_by_id x l ≡ₚ x :: l.
Proof.
  induction l as [|y l IH]; [done|]. simpl.
  destruct (String.leb (id x) (id y)); [done|].
  rewrite IH. apply Permutation_swap.
Qed.

Lemma order_by_id_perm (l : list ChunkRow) : order_by_id l ≡ₚ l.
Proof.
  induction l as [|x l IH]; [done|].
  unfold order_by_id in *. simpl. by rewrite insert_by_id_perm, IH.
Qed.

(** The rows that [select_by_ids] returns are the rows of the listed
    ids, whatever their order. *)
Lemma select_by_ids_perm ids (db : list ChunkRow) :
  select_by_ids ids db ≡ₚ filter (fun r => id r ∈ ids) db.
Proof. apply order_by_id_perm. Qed.

Lemma elem_of_select_by_ids ids (db : list ChunkRow) r :
  r ∈ select_by_ids ids db <-> id r ∈ ids /\ r ∈ db.
Proof. by rewrite select_by_ids_perm, list_elem_of_filter. Qed.

(** The order of the ids is that of the rows after any change that keeps
    the ids. *)
Lemma order_by_id_fmap (f : ChunkRow -> ChunkRow) (l : list ChunkRow) :
  (forall r, id (f r) = id r) ->
  order_by_id (f <$> l) = f <$> order_by_id l.
Proof.
  intros Hf. unfold order_by_id.
  induction l as [|x l IH]; [done|]. rewrite fmap_cons. cbn [foldr].
  rewrite IH. generalize (foldr insert_by_id [] l). intros sorted.
  induction sorted as [|y sorted IHs]; [done|].
  rewrite fmap_cons. cbn [insert_by_id]. rewrite !Hf.
  destruct (String.leb (id x) (id y)); [done|].
  rewrite fmap_cons. by rewrite IHs.
Qed.

Lemma selected_ids_NoDup ids (db : list ChunkRow) :
  primary_key db -> NoDup (id <$> select_by_ids ids db).
Proof.
  unfold primary_key. intros Hpk. rewrite select_by_ids_perm.
  apply (sublist_NoDup _ (id <$> db)); [exact Hpk|].
  apply fmap_sublist, sublist_filter.
Qed.

Lemma selected_id_iff ids (db : list ChunkRow) i :
  i ∈ id <$> select_by_ids ids db <-> i ∈ ids /\ i ∈ id <$> db.
Proof.
  rewrite !list_elem_of_fmap. split.
  - intros (r & -> & Hr). apply elem_of_select_by_ids in Hr as [Hin Hr].
    split; [done|]. by exists r.
  - intros (Hin & r & -> & Hr). exists r. split; [done|].
    by apply elem_of_select_by_ids.
Qed.

(** The length test of [compactChunks] passes exactly when the ids are
    pairwise distinct and all present. *)
Lemma rows_length_iff ids (db : list ChunkRow) :
  primary_key db ->
  length (select_by_ids ids db) = length ids <->
  NoDup ids /\ (forall i, i ∈ ids -> i ∈ id <$> db).
Proof.
  intros Hpk.
  pose proof (selected_ids_NoDup ids db Hpk) as Hnd.
  assert (Hsub : (id <$> select_by_ids ids db) ⊆+ ids).
  { apply NoDup_submseteq; [done|]. intros i Hi.
    by apply selected_id_iff in Hi as [? _]. }
  split.
  - intros Hlen.
    assert (Hperm : id <$> select_by_ids ids db ≡ₚ ids).
    { apply submseteq_length_Permutation; [done|].
      rewrite length_fmap. lia. }
    split.
    + by rewrite <- Hperm.
    + intros i Hi. rewrite <- Hperm in Hi.
      by apply selected_id_iff in Hi as [_ ?].
  - intros [Hids Hall].
    rewrite <- (length_fmap id (select_by_ids ids db)).
    apply Permutation_length, NoDup_Permutation; [done|done|].
    intros i. rewrite selected_id_iff. split; [tauto|]. auto.
Qed.

Lemma rows_length_le ids (db : list ChunkRow) :
  primary_key db -> length (select_by_ids ids db) <= length ids.
Proof.
  intros Hpk. rewrite <- (length_fmap id (select_by_ids ids db)).
  apply submseteq_length, NoDup_submseteq.
  - by apply selected_ids_NoDup.
  - intros i Hi. by apply selected_id_iff in Hi as [? _].
Qed.

(** The ids reported missing are the listed ids absent from the table. *)
Lemma missing_ids ids (db : list ChunkRow) :
  filter (fun i => i ∉ id <$> select_by_ids ids db) ids
  = filter (fun i => i ∉ id <$> db) ids.
Proof.
  apply filter_ext_elem. intros i Hi.
  rewrite selected_id_iff. tauto.
Qed.

Lemma compact_not_found (db : list ChunkRow) sessionId chunkIds summary summaryId now :
  primary_key db ->
  chunkIds <> [] ->
  ~ (NoDup chunkIds /\ (forall i, i ∈ chunkIds -> i ∈ id <$> db)) ->
  compactChunks db sessionId chunkIds summary summaryId now
  = Threw (Error ("Chunks not found: " +:+
                  join ", " (filter (fun i => i ∉ id <$> db) chunkIds))) db.
Proof.
  intros Hpk Hne Hbad. unfold compactChunks.
  assert (Hl : (length chunkIds =? 0) = false) by by destruct chunkIds.
  rewrite Hl.
  rewrite <- (rows_length_iff _ db Hpk) in Hbad.
  apply Nat.eqb_neq in Hbad. rewrite Hbad. cbn [negb].
  by rewrite missing_ids.
Qed.

Lemma none_missing (ids present : list string) :
  (forall i, i ∈ ids -> i ∈ present) ->
  filter (fun i => i ∉ present) ids = [].
Proof.
  induction ids as [|c cs IH]; intros Hall; [done|].
  rewrite filter_cons_False.
  - apply IH. intros i Hi. apply Hall. by right.
  - intros Hc. apply Hc, Hall. by left.
Qed.

(** C1. A call whose non-empty id list names a missing chunk throws the
    error that lists, in argument order, exactly the listed ids absent
    from the table, and leaves the table as it was; a call with the empty
    list throws the empty-list error and leaves the table as it was. *)
Theorem compact_rejects_missing (db : list ChunkRow)
    sessionId chunkIds summary summaryId now :
  primary_key db ->
  chunkIds <> [] ->
  (exists i, i ∈ chunkIds /\ i ∉ id <$> db) ->
  compactChunks db sessionId chunkIds summary summaryId now
  = Threw (Error ("Chunks not found: " +:+
                  join ", " (filter (fun i => i ∉ id <$> db) chunkIds))) db /\
  (forall i, i ∈ filter (fun i => i ∉ id <$> db) chunkIds <->
             i ∈ chunkIds /\ i ∉ id <$> db) /\
  compactChunks db sessionId [] summary summaryId now
  = Threw (Error "Cannot compact empty chunk list") db.
Proof.
  intros Hpk Hne (i & Hi & Hmiss). split_and!.
  - apply compact_not_found; try done.
    intros [_ Hall]. by apply Hmiss, Hall.
  - intros j. rewrite list_elem_of_filter. tauto.
  - reflexivity.
Qed.

(** C10. A call whose id list repeats an id, every listed id being
    present, throws the "Chunks not found" error with no id after the
    colon and leaves the table as it was. *)
Theorem compact_rejects_duplicates (db : list ChunkRow)
    sessionId chunkIds summary summaryId now :
  primary_key db ->
  ~ NoDup chunkIds ->
  (forall i, i ∈ chunkIds -> i ∈ id <$> db) ->
  compactChunks db sessionId chunkIds summary summaryId now
  = Threw (Error "Chunks not found: ") db.
Proof.
  intros Hpk Hdup Hall.
  rewrite compact_not_found; try done.
  - by rewrite none_missing.
  - intros ->. apply Hdup. constructor.
  - by intros [Hnd _].
Qed.

(** *** A successful compaction *)

Lemma update_where_id_fold f chunkIds : forall db : list ChunkRow,
  (forall r, id (f r) = id r) -> (forall r, f (f r) = f r) ->
  foldl (fun d c => update_where_id f c d) db chunkIds
  = (fun r => if decide (id r ∈ chunkIds) then f r else r) <$> db.
Proof.
  induction chunkIds as [|c cs IH]; intros db Hid Hidem; simpl.
  - rewrite <- (list_fmap_id db) at 1. apply list_fmap_ext.
    intros _ r _. destruct (decide (id r ∈ [])) as [Hin|]; [|done].
    by apply elem_of_nil in Hin.
  - rewrite IH by done. unfold update_where_id.
    rewrite <- list_fmap_compose. apply list_fmap_ext.
    intros _ r _. simpl.
    destruct (decide (id r = c)) as [<-|Hne].
    + rewrite Hid, Hidem.
      rewrite (decide_True (P := id r ∈ id r :: cs)) by by left.
      by destruct (decide (id r ∈ cs)).
    + destruct (decide (id r ∈ cs)) as [Hin|Hout].
      * by rewrite decide_True by by right.
      * rewrite decide_False; [done|].
        intros [?|?]%elem_of_cons; done.
Qed.

Lemma head_select_fmap g i (db : list ChunkRow) :
  (forall r, id (g r) = id r) ->
  head (select_by_id i (g <$> db)) = g <$> head (select_by_id i db).
Proof.
  intros Hid. unfold select_by_id.
  induction db as [|r db IH]; [done|].
  rewrite fmap_cons, !filter_cons, Hid.
  by destruct (decide (id r = i)).
Qed.

Lemma select_absent i (db : list ChunkRow) :
  i ∉ id <$> db -> select_by_id i db = [].
Proof.
  intros Hi. unfold select_by_id.
  induction db as [|r db IH]; [done|].
  rewrite filter_cons_False.
  - apply IH. intros H. apply Hi. by right.
  - intros <-. apply Hi. by left.
Qed.

Lemma select_present i (db : list ChunkRow) :
  i ∈ id <$> db ->
  exists r, head (select_by_id i db) = Some r /\ r ∈ db /\ id r = i.
Proof.
  intros (r & -> & Hr)%list_elem_of_fmap.
  destruct (head (select_by_id (id r) db)) as [r0|] eqn:Hh.
  - exists r0. split; [done|].
    apply head_Some_elem_of in Hh.
    by apply list_elem_of_filter in Hh as [? ?].
  - apply head_None in Hh.
    assert (r ∈ select_by_id (id r) db) as Hin
      by by apply list_elem_of_filter.
    rewrite Hh in Hin. by apply elem_of_nil in Hin.
Qed.

Lemma foldl_max_spec xs : forall x,
  foldl Z.max x xs ∈ x :: xs /\
  (forall y, y ∈ x :: xs -> (y <= foldl Z.max x xs)%Z).
Proof.
  induction xs as [|a xs IH]; intros x; simpl.
  - split; [by left|]. intros y Hy%list_elem_of_singleton. lia.
  - destruct (IH (Z.max x a)) as [Hin Hle]. split.
    + apply elem_of_cons in Hin as [Heq|Hin].
      * rewrite Heq. destruct (Z.max_spec x a) as [[_ ->]|[_ ->]].
        -- right. by left.
        -- by left.
      * right. by right.
    + intros y Hy.
      assert (Hmax : (Z.max x a <= foldl Z.max (Z.max x a) xs)%Z)
        by (apply Hle; by left).
      apply elem_of_cons in Hy as [->|Hy]; [lia|].
      apply elem_of_cons in Hy as [->|Hy]; [lia|].
      apply Hle. by right.
Qed.

Lemma Math_max_spec l :
  l <> [] -> Math_max l ∈ l /\ (forall y, y ∈ l -> (y <= Math_max l)%Z).
Proof. destruct l as [|x xs]; [done|]. intros _. apply foldl_max_spec. Qed.

Lemma mark_compacted_id s n r : id (mark_compacted s n r) = id r.
Proof. reflexivity. Qed.

Lemma mark_compacted_idem s n r :
  mark_compacted s n (mark_compacted s n r) = mark_compacted s n r.
Proof. reflexivity. Qed.

(** What [compactChunks] does once its checks pass. *)
Lemma compact_accepted (db : list ChunkRow) sessionId chunkIds summary summaryId now :
  primary_key db -> chunkIds <> [] -> NoDup chunkIds ->
  (forall i, i ∈ chunkIds -> i ∈ id <$> db) ->
  let summaryRow :=
    mkRow summaryId sessionId None
      (js_add (Math_max (read_depth <$> select_by_ids chunkIds db)) 1) (Some chunkIds)
      summaryContent (Some summary) active now None None None in
  let db2 :=
    (fun r => if decide (id r ∈ chunkIds)
              then mark_compacted summaryId now r else r)
    <$> (db ++ [summaryRow]) in
  compactChunks db sessionId chunkIds summary summaryId now =
  if decide (summaryId ∈ id <$> db) then Threw SqliteConstraint db
  else Returned {| summaryChunk := summaryRow;
                   compactedChunks := select_by_ids chunkIds db2 |} db2.
Proof.
  intros Hpk Hne Hnd Hall summaryRow db2. unfold compactChunks.
  assert (Hl : (length chunkIds =? 0) = false) by by destruct chunkIds.
  rewrite Hl.
  assert (Hlen : (length (select_by_ids chunkIds db) =? length chunkIds) = true)
    by by apply Nat.eqb_eq, rows_length_iff.
  rewrite Hlen. cbn [negb]. unfold insert. cbn [id].
  fold summaryRow.
  destruct (decide (summaryId ∈ id <$> db)) as [Hin|Hfresh]; [done|].
  rewrite update_where_id_fold by done. fold db2.
  unfold db2 at 1. rewrite head_select_fmap
    by (intros r; by destruct (decide (id r ∈ chunkIds))).
  unfold select_by_id. rewrite filter_app.
  fold (select_by_id summaryId db). rewrite select_absent by done.
  rewrite filter_cons_True by done. simpl.
  replace (rowToChunk <$> select_by_ids chunkIds db2)
    with (select_by_ids chunkIds db2) by (symmetry; apply list_fmap_id).
  rewrite decide_False; [done|].
  intros Hin. by apply Hfresh, Hall.
Qed.

(** Below 2^53 in absolute value a depth reads as it is and its
    successor is exact. *)
Lemma read_depth_safe r : safe_depth (depth r) -> read_depth r = depth r.
Proof.
  unfold safe_depth, read_depth, to_double. intros Hd.
  assert (Hle : (Z.abs (depth r) <=? 2 ^ 53)%Z = true)
    by (apply Z.leb_le; lia).
  by rewrite Hle.
Qed.

Lemma js_add_safe d : safe_depth d -> js_add d 1 = (d + 1)%Z.
Proof.
  unfold safe_depth, js_add, to_double. intros Hd.
  assert (Hle : (Z.abs (d + 1) <=? 2 ^ 53)%Z = true)
    by (apply Z.leb_le; lia).
  by rewrite Hle.
Qed.



Lemma compact_rejects_missing_witness :
  compactChunks scenario_db "S" ["ch_a"; "ch_missing00001"]%string "summary"
    "ch_new" 1700000100%Z
  = Threw (Error ("Chunks not found: " +:+
                  join ", " (filter (fun i => i ∉ id <$> scenario_db)
                               ["ch_a"; "ch_missing00001"]%string)))
          scenario_db /\
  (forall i, i ∈ filter (fun i => i ∉ id <$> scenario_db)
                   ["ch_a"; "ch_missing00001"]%string <->
             i ∈ ["ch_a"; "ch_missing00001"]%string /\ i ∉ id <$> scenario_db) /\
  compactChunks scenario_db "S" [] "summary" "ch_new" 1700000100%Z
  = Threw (Error "Cannot compact empty chunk list") scenario_db.
Proof.
  apply (compact_rejects_missing scenario_db "S"
           ["ch_a"; "ch_missing00001"]%string "summary" "ch_new" 1700000100%Z).
  - by_decide.
  - discriminate.
  - exists "ch_missing00001"%string. split; by_decide.
Defined.

Lemma compact_rejects_duplicates_witness :
  compactChunks scenario_db "S" ["ch_a"; "ch_b"; "ch_a"]%string "summary"
    "ch_new" 1700000100%Z
  = Threw (Error "Chunks not found: ") scenario_db.
Proof.
  apply (compact_rejects_duplicates scenario_db "S"
           ["ch_a"; "ch_b"; "ch_a"]%string "summary" "ch_new" 1700000100%Z).
  - by_decide.
  - by_decide.
  - apply Forall_forall. by_decide.
Defined.


(** Scenario 5 of the specification, evaluated. *)
Example scenario_5 :
  exists result db',
    compactChunks scenario_db "S" ["ch_a"; "ch_b"; "ch_c"]%string "summary"
      "ch_new" 1700000100%Z = Returned result db' /\
    depth (summaryChunk result) = 3%Z /\
    child_refs (summaryChunk result) = Some ["ch_a"; "ch_b"; "ch_c"]%string /\
    status (summaryChunk result) = active /\
    status <$> compactedChunks result = [compacted; compacted; compacted] /\
    table_after (compactChunks scenario_db "S"
                   ["ch_a"; "ch_missing00001"]%string "summary" "ch_new"
                   1700000100%Z) = scenario_db.
Proof. eexists _, _. split; [by vm_compute|]. by vm_compute. Qed.

End Compaction.

(* ===================================================================== *)
(** ** Ancestors *)
(* ===================================================================== *)

Section Ancestors.
Import Chunks.

(** Under the primary key a lookup by id finds at most one row. *)
Lemma select_by_id_unique i (db : list ChunkRow) :
  primary_key db ->
  select_by_id i db = match head (select_by_id i db) with
                      | Some r => [r]
                      | None => []
                      end.
Proof.
  unfold primary_key, select_by_id.
  induction db as [|r db IH]; intros Hpk; [done|].
  rewrite fmap_cons in Hpk. apply NoDup_cons in Hpk as [Hr Hdb].
  rewrite filter_cons. destruct (decide (id r = i)) as [<-|Hne].
  - simpl. f_equal. by apply select_absent.
  - by apply IH.
Qed.

(** The rows that the recursive SELECT joins to a row are its parent, if
    it has one in the table. *)
Lemma ancestors_step (db : list ChunkRow) r :
  primary_key db ->
  filter (fun c => Some (id c) = parent_id r) db
  = match parent_id r ≫= fun p => head (select_by_id p db) with
    | Some c => [c]
    | None => []
    end.
Proof.
  intros Hpk. destruct (parent_id r) as [p|]; simpl.
  - rewrite <- (select_by_id_unique p db Hpk). unfold select_by_id.
    apply filter_ext_elem. intros c _. split; congruence.
  - induction db as [|c db IH]; [done|].
    rewrite filter_cons_False by done. apply IH.
    unfold primary_key in *. rewrite fmap_cons in Hpk.
    by apply NoDup_cons in Hpk as [_ ?].
Qed.

(** The recursive query walks the chain of parents. *)
Lemma cte_follows_chain (db : list ChunkRow) :
  primary_key db ->
  forall k cur chain n fuel,
  parent_chain k db cur = Some chain ->
  length chain <= fuel ->
  recursive_cte fuel
    (fun a => (fun c => (c, (snd a + 1)%Z)) <$>
              filter (fun c => Some (id c) = parent_id (fst a)) db)
    (queue_of cur n)
  = Some (with_levels n chain).
Proof.
  intros Hpk. induction k as [|k IH]; intros cur chain n fuel Hchain Hfuel.
  - destruct cur; simpl in Hchain; [done|]. simplify_eq. by destruct fuel.
  - destruct cur as [r|]; simpl in Hchain;
      [|simplify_eq; by destruct fuel].
    destruct (parent_chain k db _) as [rest|] eqn:Hrest; [|done].
    simpl in Hchain. simplify_eq. simpl in Hfuel.
    destruct fuel as [|fuel]; [lia|].
    cbn [queue_of recursive_cte app fst snd with_levels].
    rewrite ancestors_step by done.
    specialize (IH _ rest (n + 1)%Z fuel Hrest).
    destruct (parent_id r ≫= _) as [c|]; simpl in IH |- *;
      rewrite IH by lia; done.
Qed.

Lemma insert_after_greater x (l : list (ChunkRow * Z)) :
  Forall (fun y => (snd x < snd y)%Z) l ->
  insert_by_level_desc x l = l ++ [x].
Proof.
  induction 1 as [|y l Hy _ IH]; [done|]. simpl.
  assert (Hlt : (snd y <? snd x)%Z = false) by (apply Z.ltb_ge; lia).
  by rewrite Hlt, IH.
Qed.

Lemma with_levels_above l : forall n m,
  (m < n)%Z -> Forall (fun y : ChunkRow * Z => (m < snd y)%Z) (with_levels n l).
Proof.
  induction l as [|r l IH]; intros n m Hm; simpl; [done|].
  constructor; [done|]. apply IH. lia.
Qed.

(** [ORDER BY level DESC] turns the walk around: root first. *)
Lemma order_chain_desc l : forall n,
  order_by_level_desc (with_levels n l) = reverse (with_levels n l).
Proof.
  unfold order_by_level_desc.
  induction l as [|r l IH]; intros n; [done|]. simpl.
  rewrite IH, reverse_cons.
  apply insert_after_greater. apply Forall_reverse.
  apply with_levels_above. simpl. lia.
Qed.

(** The walk ends whenever the parent links descend along some rank. *)
Lemma parent_chain_terminates (db : list ChunkRow) (rank : ChunkRow -> nat) :
  (forall r p c, parent_id r = Some p -> head (select_by_id p db) = Some c ->
                 rank c < rank r) ->
  forall k r, rank r < k -> is_Some (parent_chain k db (Some r)).
Proof.
  intros Hrank. induction k as [|k IH]; intros r Hk; [lia|].
  simpl. destruct (parent_id r) as [p|] eqn:Hp; simpl.
  - destruct (head (select_by_id p db)) as [c|] eqn:Hc.
    + destruct (IH c) as [chain Hchain].
      { specialize (Hrank r p c Hp Hc). lia. }
      rewrite Hchain. by eexists.
    + destruct k; by eexists.
  - destruct k; by eexists.
Qed.

(** C8. For a chunk id present in the table, when following the parent
    links from its row reaches a root, [getAncestors] (given enough rounds
    for the recursive query) returns exactly that chain turned around:
    root first, the starting chunk last, each row tagged with its
    distance from the starting chunk. For an id absent from the table it
    returns the empty sequence. *)
Theorem ancestors_are_parent_chain (db : list ChunkRow) chunkId start k chain :
  primary_key db ->
  head (select_by_id chunkId db) = Some start ->
  parent_chain k db (Some start) = Some chain ->
  (forall fuel, length chain <= fuel ->
     getAncestors fuel db chunkId = Some (reverse (with_levels 0 chain))) /\
  head chain = Some start /\
  (forall missing fuel, missing ∉ id <$> db ->
     getAncestors fuel db missing = Some []).
Proof.
  intros Hpk Hstart Hchain. split_and!.
  - intros fuel Hfuel. unfold getAncestors.
    rewrite (select_by_id_unique chunkId db Hpk), Hstart.
    change ((fun c => (c, 0%Z)) <$> [start]) with (queue_of (Some start) 0).
    rewrite (cte_follows_chain db Hpk k (Some start) chain 0 fuel) by done.
    simpl. by rewrite order_chain_desc.
  - destruct k; simpl in Hchain; [done|].
    destruct (parent_chain k db _); simpl in Hchain; by simplify_eq.
  - intros missing fuel Hmiss. unfold getAncestors.
    rewrite select_absent by done. by destruct fuel.
Qed.

Lemma ancestors_are_parent_chain_witness :
  (forall fuel, length [scenario_child "ch_a" 0; scenario_summary] <= fuel ->
     getAncestors fuel scenario_compacted "ch_a"
     = Some (reverse (with_levels 0 [scenario_child "ch_a" 0; scenario_summary]))) /\
  head [scenario_child "ch_a" 0; scenario_summary]
  = Some (scenario_child "ch_a" 0) /\
  (forall missing fuel, missing ∉ id <$> scenario_compacted ->
     getAncestors fuel scenario_compacted missing = Some []).
Proof.
  apply (ancestors_are_parent_chain scenario_compacted "ch_a"
           (scenario_child "ch_a" 0) 3
           [scenario_child "ch_a" 0; scenario_summary]).
  - by_decide.
  - vm_compute. reflexivity.
  - vm_compute. reflexivity.
Defined.

(** The ancestors of a compacted chunk of scenario 5: its summary at
    level 1, then the chunk at level 0. *)
Example ancestors_of_compacted_chunk :
  getAncestors 2 scenario_compacted "ch_a"
  = Some [(scenario_summary, 1%Z); (scenario_child "ch_a" 0, 0%Z)].
Proof. vm_compute. reflexivity. Qed.

End Ancestors.

(* ===================================================================== *)
(** ** Message tracker *)
(* ===================================================================== *)

Section TrackerOrder.
Import Tracker.

Lemma getMessages_set sid s ms (t : MessageTracker) :
  getMessages sid (mkTracker (<[s := ms]> (sessions t)) (currentChunkIds t))
  = if decide (s = sid) then ms else getMessages sid t.
Proof.
  unfold getMessages. simpl. destruct (decide (s = sid)) as [->|Hne].
  - by rewrite lookup_insert_eq.
  - by rewrite lookup_insert_ne.
Qed.

(** Searching by id after a message is replaced by one of the same id. *)
Lemma find_after_replace x m' (ms : list TrackedMessage) : forall i old,
  ms !! i = Some old -> id m' = id old ->
  findIndex_id x (<[i := m']> ms)
  = (fun r => (fst r, if decide (fst r = i) then m' else snd r))
    <$> findIndex_id x ms.
Proof.
  unfold findIndex_id.
  induction ms as [|y ms IH]; intros i old Hi Hid; [done|].
  destruct i as [|i]; simpl in Hi |- *.
  - simplify_eq. rewrite Hid.
    destruct (decide (id old = x)); [done|]. simpl.
    destruct (list_find _ ms) as [[j z]|]; [|done]. done.
  - destruct (decide (id y = x)); [done|]. simpl.
    rewrite (IH i old) by done.
    destruct (list_find _ ms) as [[j z]|]; [|done]. simpl.
    by destruct (decide (j = i)) as [->|]; [rewrite decide_True|rewrite decide_False by lia].
Qed.

Lemma find_after_append x m' (ms : list TrackedMessage) :
  findIndex_id x (ms ++ [m'])
  = match findIndex_id x ms with
    | Some r => Some r
    | None => if decide (id m' = x) then Some (length ms, m') else None
    end.
Proof.
  unfold findIndex_id. induction ms as [|y ms IH]; simpl.
  - by destruct (decide (id m' = x)).
  - destruct (decide (id y = x)); [done|].
    rewrite IH. destruct (list_find _ ms) as [[j z]|]; [done|].
    by destruct (decide (id m' = x)).
Qed.

Lemma found_id x (ms : list TrackedMessage) i old :
  findIndex_id x ms = Some (i, old) ->
  ms !! i = Some old /\ id old = x /\ x ∈ id <$> ms.
Proof.
  intros (Hi & Hid & _)%list_find_Some. split_and!; [done..|].
  apply list_elem_of_fmap. exists old. split; [done|].
  by eapply list_elem_of_lookup_2.
Qed.

Lemma missing_id x (ms : list TrackedMessage) :
  findIndex_id x ms = None -> x ∉ id <$> ms.
Proof.
  intros Hnone%list_find_None (m & -> & Hm)%list_elem_of_fmap.
  rewrite Forall_forall in Hnone. by apply (Hnone m).
Qed.

Lemma ids_after_replace (ms : list TrackedMessage) i old m' :
  ms !! i = Some old -> id m' = id old ->
  id <$> <[i := m']> ms = id <$> ms.
Proof.
  intros Hi Hid. rewrite list_fmap_insert. apply list_insert_id.
  by rewrite list_lookup_fmap, Hi, Hid.
Qed.

(** What each upsert does to the messages of a session: nothing, the
    replacement of the message of that id where it stands, or the
    addition of a message of that id at the end. *)
Lemma upsert_shape sid (t : MessageTracker) op :
  let ms := getMessages sid t in
  let ms' := getMessages sid (apply t op) in
  if decide (op_session op = sid) then
    match findIndex_id (op_message op) ms with
    | Some (i, old) => exists m', id m' = id old /\ ms' = <[i := m']> ms
    | None => exists m', id m' = op_message op /\ ms' = ms ++ [m']
    end
  else ms' = ms.
Proof.
  intros ms ms'. subst ms ms'.
  destruct op as [s m|s mid r now|s mid pid part now]; simpl;
    unfold trackMessage, ensureMessage, addPart;
    fold (getMessages s t);
    (destruct (decide (s = sid)) as [->|Hne];
     [|repeat case_match; rewrite ?getMessages_set, ?decide_False by done;
       done]).
  - destruct (findIndex_id (id m) (getMessages sid t)) as [[i old]|] eqn:Hf;
      rewrite getMessages_set, decide_True by done.
    + exists m. split; [|done]. by apply found_id in Hf as (_ & -> & _).
    + by exists m.
  - destruct (findIndex_id mid (getMessages sid t)) as [[i old]|] eqn:Hf.
    + destruct (decide (role old = r)).
      * exists old. split; [done|]. symmetry. apply list_insert_id.
        by apply found_id in Hf as (? & _).
      * rewrite getMessages_set, decide_True by done.
        by exists (set_role r old).
    + rewrite getMessages_set, decide_True by done.
      eexists. split; [|reflexivity]. done.
  - destruct (findIndex_id mid (getMessages sid t)) as [[i old]|] eqn:Hf;
      rewrite getMessages_set, decide_True by done.
    + eexists (set_parts _ old). split; [|reflexivity]. done.
    + eexists. split; [|reflexivity]. done.
Qed.

Lemma message_ids_step sid (t : MessageTracker) op :
  message_ids sid (apply t op)
  = if decide (op_session op = sid)
    then insert_once (message_ids sid t) (op_message op)
    else message_ids sid t.
Proof.
  pose proof (upsert_shape sid t op) as Hshape. simpl in Hshape.
  unfold message_ids, insert_once.
  destruct (decide (op_session op = sid)); [|by rewrite Hshape].
  destruct (findIndex_id (op_message op) (getMessages sid t))
    as [[i old]|] eqn:Hf.
  - destruct Hshape as (m' & Hid & ->).
    apply found_id in Hf as (Hi & Hold & Hin).
    rewrite decide_True by done. by eapply ids_after_replace.
  - destruct Hshape as (m' & Hid & ->).
    apply missing_id in Hf. rewrite decide_False by done.
    by rewrite fmap_app, <- Hid.
Qed.

Lemma message_ids_run sid ops : forall t : MessageTracker,
  message_ids sid (run ops t)
  = foldl insert_once (message_ids sid t) (inserted_messages sid ops).
Proof.
  unfold run, inserted_messages.
  induction ops as [|op ops IH]; intros t; [done|]. simpl.
  rewrite IH, message_ids_step.
  by destruct (decide (op_session op = sid)).
Qed.

Lemma insert_once_prefix {A} `{EqDecision A} (acc : list A) x :
  acc `prefix_of` insert_once acc x.
Proof.
  unfold insert_once. destruct (decide (x ∈ acc)); [done|].
  by apply prefix_app_r.
Qed.

Lemma found_id_eq x (ms : list TrackedMessage) i old :
  findIndex_id x ms = Some (i, old) -> id old = x.
Proof. by intros (_ & ? & _)%found_id. Qed.

Ltac solve_id := first [done | simpl; eapply found_id_eq; eassumption].

Lemma find_replace_found x y m' (ms : list TrackedMessage) i old :
  findIndex_id y ms = Some (i, old) -> id m' = y ->
  findIndex_id x (<[i := m']> ms)
  = if decide (x = y) then Some (i, m') else findIndex_id x ms.
Proof.
  intros Hf Hid. pose proof Hf as (Hi & Hold & _)%found_id.
  rewrite (find_after_replace x m' ms i old) by congruence.
  destruct (decide (x = y)) as [->|Hne].
  - rewrite Hf. simpl. by rewrite decide_True.
  - destruct (findIndex_id x ms) as [[j z]|] eqn:Hx; [|done]. simpl.
    apply found_id in Hx as (Hj & Hz & _).
    rewrite decide_False; [done|]. intros ->. congruence.
Qed.

Lemma find_append_missing x y m' (ms : list TrackedMessage) :
  findIndex_id y ms = None -> id m' = y ->
  findIndex_id x (ms ++ [m'])
  = if decide (x = y) then Some (length ms, m') else findIndex_id x ms.
Proof.
  intros Hf Hid. rewrite find_after_append.
  destruct (decide (x = y)) as [->|Hne].
  - by rewrite Hf, decide_True.
  - destruct (findIndex_id x ms); [done|].
    rewrite decide_False; [done|]. congruence.
Qed.

(** Each upsert touches the message it names and no other. *)
Lemma stored_step sid mid (t : MessageTracker) op :
  stored sid mid (apply t op)
  = if decide (op_session op = sid /\ op_message op = mid)
    then Some (upserted (stored sid mid t) op)
    else stored sid mid t.
Proof.
  unfold stored.
  destruct op as [s m|s mid' r now|s mid' pid part now]; simpl;
    unfold trackMessage, ensureMessage, addPart;
    fold (getMessages s t);
    (destruct (decide (s = sid)) as [->|Hne];
     [|rewrite (decide_False (P := s = sid /\ _)) by tauto;
       repeat case_match; rewrite ?getMessages_set, ?decide_False by done;
       done]).
  - destruct (findIndex_id (id m) (getMessages sid t)) as [[i old]|] eqn:Hf;
      rewrite getMessages_set, decide_True by done.
    + rewrite (find_replace_found mid (id m) m _ i old) by done.
      destruct (decide (mid = id m)) as [->|Hne].
      * by rewrite (decide_True (P := _ /\ _)) by (by split).
      * by rewrite (decide_False (P := _ /\ _)) by (intros [_ ?]; congruence).
    + rewrite (find_append_missing mid (id m) m) by done.
      destruct (decide (mid = id m)) as [->|Hne].
      * by rewrite (decide_True (P := _ /\ _)) by (by split).
      * by rewrite (decide_False (P := _ /\ _)) by (intros [_ ?]; congruence).
  - destruct (findIndex_id mid' (getMessages sid t)) as [[i old]|] eqn:Hf.
    + destruct (decide (mid = mid')) as [->|Hne].
      * rewrite (decide_True (P := _ /\ _)) by (by split). rewrite Hf. simpl.
        destruct (decide (role old = r)); [by rewrite Hf|].
        rewrite getMessages_set, decide_True by done.
        rewrite (find_replace_found mid' mid' _ _ i old) by solve_id.
        by rewrite decide_True.
      * rewrite (decide_False (P := _ /\ _)) by (intros [_ ?]; congruence).
        destruct (decide (role old = r)); [done|].
        rewrite getMessages_set, decide_True by done.
        rewrite (find_replace_found mid mid' _ _ i old) by solve_id.
        by rewrite decide_False.
    + rewrite getMessages_set, decide_True by done.
      rewrite (find_append_missing mid mid') by solve_id.
      destruct (decide (mid = mid')) as [->|Hne].
      * rewrite (decide_True (P := _ /\ _)) by (by split). by rewrite Hf.
      * by rewrite (decide_False (P := _ /\ _)) by (intros [_ ?]; congruence).
  - destruct (findIndex_id mid' (getMessages sid t)) as [[i old]|] eqn:Hf;
      rewrite getMessages_set, decide_True by done.
    + rewrite (find_replace_found mid mid' _ _ i old) by solve_id.
      destruct (decide (mid = mid')) as [->|Hne].
      * rewrite (decide_True (P := _ /\ _)) by (by split). by rewrite Hf.
      * by rewrite (decide_False (P := _ /\ _)) by (intros [_ ?]; congruence).
    + rewrite (find_append_missing mid mid') by solve_id.
      destruct (decide (mid = mid')) as [->|Hne].
      * rewrite (decide_True (P := _ /\ _)) by (by split). by rewrite Hf.
      * by rewrite (decide_False (P := _ /\ _)) by (intros [_ ?]; congruence).
Qed.

Lemma part_ids_stored sid mid (t : MessageTracker) :
  part_ids sid mid t
  = match stored sid mid t with
    | Some m => _partId <$> parts m
    | None => []
    end.
Proof.
  unfold part_ids, stored.
  by destruct (findIndex_id mid (getMessages sid t)) as [[? ?]|].
Qed.

(** [addPart] replaces the part of that id where it stands, or adds the
    part at the end. *)
Lemma upsert_part_ids pid part ps :
  _partId <$> upsert_part pid part ps
  = insert_once (_partId <$> ps) (Some pid).
Proof.
  unfold upsert_part, insert_once.
  destruct (list_find _ ps) as [[j p]|] eqn:Hf.
  - apply list_find_Some in Hf as (Hj & Hp & _).
    rewrite decide_True.
    + rewrite list_fmap_insert. apply list_insert_id.
      rewrite list_lookup_fmap, Hj. simpl. by rewrite Hp.
    + apply list_elem_of_fmap. exists p. split; [done|].
      by eapply list_elem_of_lookup_2.
  - apply list_find_None in Hf. rewrite decide_False.
    + by rewrite fmap_app.
    + intros (p & Hp & Hin)%list_elem_of_fmap.
      rewrite Forall_forall in Hf. by apply (Hf p).
Qed.

Lemma part_ids_step sid mid (t : MessageTracker) op :
  part_ids sid mid (apply t op) = part_step sid mid (part_ids sid mid t) op.
Proof.
  rewrite !part_ids_stored, stored_step.
  destruct op as [s m|s mid' r now|s mid' pid part now]; simpl.
  - by destruct (decide (s = sid /\ id m = mid)).
  - destruct (decide (s = sid /\ mid' = mid)); [|done].
    destruct (stored sid mid t) as [old|]; [|done].
    by destruct (decide (role old = r)).
  - destruct (decide (s = sid /\ mid' = mid)); [|done].
    destruct (stored sid mid t) as [old|]; [|done].
    simpl. apply upsert_part_ids.
Qed.

Lemma part_ids_run sid mid ops : forall t : MessageTracker,
  part_ids sid mid (run ops t)
  = foldl (part_step sid mid) (part_ids sid mid t) ops.
Proof.
  unfold run. induction ops as [|op ops IH]; intros t; [done|]. simpl.
  by rewrite IH, part_ids_step.
Qed.

(** The test "should preserve message order when updating", with parts
    added to the second message in between. *)
Example tracker_order_example :
  let m i := mkMessage i user [] 0%Z in
  let p := mkPart text_part (Some "x"%string) None None None None in
  let t := run [TrackMessage "s" (m "msg-1"); TrackMessage "s" (m "msg-2");
                AddPart "s" "msg-2" "p1" p 1%Z;
                TrackMessage "s" (m "msg-3");
                AddPart "s" "msg-2" "p2" p 2%Z;
                EnsureMessage "s" "msg-2" assistant 3%Z;
                AddPart "s" "msg-2" "p1" p 4%Z]%string empty in
  message_ids "s" t = ["msg-1"; "msg-2"; "msg-3"]%string /\
  part_ids "s" "msg-2" t = [Some "p1"; Some "p2"]%string.
Proof. by vm_compute. Qed.

End TrackerOrder.

(* ===================================================================== *)
(** ** The tracker and the objects of its caller *)
(* ===================================================================== *)

Section TrackerSharing.
Import Tracker TrackerObjects.

Implicit Types (w : Store) (c : call) (l : address).

Lemma session_some sid w refs :
  sessions w !! sid = Some refs -> session sid w = refs.
Proof. unfold session. by intros ->. Qed.

Lemma session_elem sid w l :
  l ∈ session sid w ->
  exists refs, sessions w !! sid = Some refs /\ l ∈ refs.
Proof.
  unfold session. destruct (sessions w !! sid) as [refs|]; simpl.
  - intros Hl. by exists refs.
  - by intros ?%elem_of_nil.
Qed.

Lemma getMessages_view sid w :
  Tracker.getMessages sid (view w) = getMessages sid w.
Proof.
  unfold Tracker.getMessages, getMessages, session, view. simpl.
  rewrite lookup_fmap. by destruct (sessions w !! sid).
Qed.

Lemma message_ids_view sid w :
  Tracker.message_ids sid (view w) = message_ids sid w.
Proof. unfold Tracker.message_ids, message_ids. by rewrite getMessages_view. Qed.

Lemma stored_view sid mid w :
  Tracker.stored sid mid (view w) = stored sid mid w.
Proof. unfold Tracker.stored, stored. by rewrite getMessages_view. Qed.

Lemma part_ids_view sid mid w :
  Tracker.part_ids sid mid (view w) = part_ids sid mid w.
Proof. unfold part_ids. by rewrite part_ids_stored, stored_view. Qed.

(** Searching the objects of a session by id is searching the messages
    they read as. *)
Lemma find_read mid w refs :
  Tracker.findIndex_id mid (read w <$> refs)
  = prod_map Datatypes.id (read w) <$> findIndex_id mid w refs.
Proof. unfold Tracker.findIndex_id, findIndex_id. apply list_find_fmap. Qed.

Lemma session_set sid s refs w :
  session sid (set_sessions (<[s := refs]> (sessions w)) w)
  = if decide (s = sid) then refs else session sid w.
Proof.
  unfold session. simpl. destruct (decide (s = sid)) as [->|Hne].
  - by rewrite lookup_insert_eq.
  - by rewrite lookup_insert_ne.
Qed.

(** [trackMessage] changes no object: seen without the objects, it is
    the upsert of the message that the object reads as, whatever is
    shared. *)
Lemma trackMessage_view sid l w :
  view (trackMessage sid l w)
  = Tracker.trackMessage sid (read w l) (view w).
Proof.
  unfold Tracker.trackMessage.
  change (default [] (Tracker.sessions (view w) !! sid))
    with (Tracker.getMessages sid (view w)).
  rewrite getMessages_view. unfold view at 1.
  change (read (trackMessage sid l w)) with (read w).
  change (currentChunkIds (trackMessage sid l w)) with (currentChunkIds w).
  unfold trackMessage. cbn [sessions set_sessions].
  rewrite fmap_insert. unfold getMessages. rewrite find_read.
  change (id (read w l)) with (obj_id (objects w l)).
  destruct (findIndex_id _ w (session sid w)) as [[i old]|]; simpl.
  - by rewrite list_fmap_insert.
  - by rewrite fmap_app.
Qed.

(** A new object and its new array leave the objects in use as they
    were. *)
Lemma read_push_new sid mid r ps now w l :
  well_formed w -> l < next_object w ->
  read (push_new sid mid r ps now w) l = read w l.
Proof.
  intros [Hheap _] Hl. unfold read, push_new. simpl.
  rewrite fn_lookup_insert_ne by lia.
  rewrite fn_lookup_insert_ne; [done|].
  specialize (Hheap l Hl). lia.
Qed.

Lemma read_pushed sid mid r ps now w :
  read (push_new sid mid r ps now w) (next_object w) = mkMessage mid r ps now.
Proof. unfold read, push_new. simpl. by rewrite !fn_lookup_insert. Qed.

Lemma push_new_view sid mid r ps now w :
  well_formed w ->
  view (push_new sid mid r ps now w)
  = {| Tracker.sessions :=
         <[sid := Tracker.getMessages sid (view w) ++ [mkMessage mid r ps now]]>
           (Tracker.sessions (view w));
       Tracker.currentChunkIds := Tracker.currentChunkIds (view w) |}.
Proof.
  intros Hwf. rewrite getMessages_view. unfold view at 1. f_equal.
  change (sessions (push_new sid mid r ps now w))
    with (<[sid := session sid w ++ [next_object w]]> (sessions w)).
  rewrite fmap_insert, fmap_app. simpl fmap at 2.
  rewrite read_pushed. f_equal.
  - f_equal. apply list_fmap_ext. intros i l Hl.
    apply read_push_new; [done|]. destruct Hwf as [_ Hstored].
    apply (Hstored sid). by eapply list_elem_of_lookup_2.
  - simpl. apply map_fmap_ext. intros s refs Hs.
    apply list_fmap_ext. intros i l Hl.
    apply read_push_new; [done|]. destruct Hwf as [_ Hstored].
    apply (Hstored s). rewrite (session_some s w refs Hs).
    by eapply list_elem_of_lookup_2.
Qed.

Lemma find_view mid sid w :
  Tracker.findIndex_id mid (Tracker.getMessages sid (view w))
  = prod_map Datatypes.id (read w) <$> findIndex_id mid w (session sid w).
Proof. rewrite getMessages_view. apply find_read. Qed.

(** When the message is not there, [ensureMessage] and [addPart] make a
    new object, and nothing that is shared matters. *)
Lemma ensureMessage_new_view sid mid r now w :
  well_formed w -> findIndex_id mid w (session sid w) = None ->
  view (ensureMessage sid mid r now w)
  = Tracker.ensureMessage sid mid r now (view w).
Proof.
  intros Hwf Hnone. unfold ensureMessage, Tracker.ensureMessage.
  change (default [] (Tracker.sessions (view w) !! sid))
    with (Tracker.getMessages sid (view w)).
  rewrite find_view, Hnone. simpl. by apply push_new_view.
Qed.

Lemma addPart_new_view sid mid pid part now w :
  well_formed w -> findIndex_id mid w (session sid w) = None ->
  view (addPart sid mid pid part now w)
  = Tracker.addPart sid mid pid part now (view w).
Proof.
  intros Hwf Hnone. unfold addPart, Tracker.addPart.
  change (default [] (Tracker.sessions (view w) !! sid))
    with (Tracker.getMessages sid (view w)).
  rewrite find_view, Hnone. simpl. by apply push_new_view.
Qed.

Lemma found_object mid w refs i l :
  findIndex_id mid w refs = Some (i, l) ->
  refs !! i = Some l /\ obj_id (objects w l) = mid.
Proof. by intros (Hi & Hid & _)%list_find_Some. Qed.

Lemma found_in_ids mid sid w i l :
  findIndex_id mid w (session sid w) = Some (i, l) ->
  mid ∈ message_ids sid w.
Proof.
  intros [Hi Hid]%found_object. unfold message_ids, getMessages.
  rewrite <- list_fmap_compose. apply list_elem_of_fmap. exists l.
  split; [by rewrite <- Hid|]. by eapply list_elem_of_lookup_2.
Qed.

Lemma insert_once_present {A} `{EqDecision A} (acc : list A) x :
  x ∈ acc -> insert_once acc x = acc.
Proof. intros Hx. unfold insert_once. by rewrite decide_True. Qed.

(** The ids of the messages depend on the sessions and on the ids of the
    objects only. *)
Lemma ids_unchanged sid w w' :
  sessions w' = sessions w ->
  (forall l, obj_id (objects w' l) = obj_id (objects w l)) ->
  message_ids sid w' = message_ids sid w.
Proof.
  intros Hs Hid. unfold message_ids, getMessages, session. rewrite Hs.
  rewrite <- !list_fmap_compose. apply list_fmap_ext. intros i l _. apply Hid.
Qed.

Lemma set_role_keeps_ids w existing r l :
  obj_id ((<[existing := mkObject (obj_id (objects w existing)) r
                            (obj_parts (objects w existing))
                            (obj_timestamp (objects w existing))]>
             (objects w)) l)
  = obj_id (objects w l).
Proof.
  destruct (decide (existing = l)) as [->|Hne].
  - by rewrite fn_lookup_insert.
  - by rewrite fn_lookup_insert_ne.
Qed.

(** What each call does to the ids of a session, whatever is shared:
    the id it names is added at the end unless it is there. *)
Lemma message_ids_step_objects sid w c :
  well_formed w ->
  message_ids sid (apply w c)
  = if decide (call_session c = sid)
    then insert_once (message_ids sid w) (call_message w c)
    else message_ids sid w.
Proof.
  intros Hwf.
  assert (Hsim : view (apply w c) = Tracker.apply (view w) (as_upsert w c) ->
            message_ids sid (apply w c)
            = if decide (call_session c = sid)
              then insert_once (message_ids sid w) (call_message w c)
              else message_ids sid w).
  { intros Hview. rewrite <- message_ids_view, Hview, message_ids_step.
    rewrite message_ids_view. by destruct c. }
  destruct c as [s l|s mid r now|s mid pid part now].
  - apply Hsim. apply trackMessage_view.
  - destruct (findIndex_id mid w (session s w)) as [[i existing]|] eqn:Hf.
    2: { apply Hsim. by apply ensureMessage_new_view. }
    assert (Hsame : message_ids sid (ensureMessage s mid r now w)
                    = message_ids sid w).
    { unfold ensureMessage. rewrite Hf.
      destruct (decide (obj_role (objects w existing) = r)); [done|].
      apply ids_unchanged; [done|]. intros l. apply set_role_keeps_ids. }
    cbn [apply call_session call_message]. rewrite Hsame.
    destruct (decide (s = sid)) as [->|]; [|done].
    symmetry. apply insert_once_present. by eapply found_in_ids.
  - destruct (findIndex_id mid w (session s w)) as [[i message]|] eqn:Hf.
    2: { apply Hsim. by apply addPart_new_view. }
    assert (Hsame : message_ids sid (addPart s mid pid part now w)
                    = message_ids sid w).
    { unfold addPart. rewrite Hf. by apply ids_unchanged. }
    cbn [apply call_session call_message]. rewrite Hsame.
    destruct (decide (s = sid)) as [->|]; [|done].
    symmetry. apply insert_once_present. by eapply found_in_ids.
Qed.

(** *** What a call keeps *)

Lemma session_push_new sid s mid r ps now w :
  session sid (push_new s mid r ps now w)
  = if decide (s = sid) then session s w ++ [next_object w]
    else session sid w.
Proof.
  unfold session at 1, push_new. simpl.
  destruct (decide (s = sid)) as [->|Hne].
  - by rewrite lookup_insert_eq.
  - by rewrite lookup_insert_ne.
Qed.

Lemma insert_elem {A} (refs : list A) i x y :
  y ∈ <[i := x]> refs -> y = x \/ y ∈ refs.
Proof.
  intros (j & Hj)%list_elem_of_lookup_1.
  apply list_lookup_insert_Some in Hj as [(_ & -> & _)|[_ Hj]]; [by left|].
  right. by eapply list_elem_of_lookup_2.
Qed.

(** The objects of a session after a call: the objects it had, the
    object handed over, or a new one. *)
Lemma session_apply_elem sid w c l :
  l ∈ session sid (apply w c) ->
  l ∈ session sid w \/ l ∈ tracked [c] \/
  (l = next_object w /\ next_object (apply w c) = S (next_object w)).
Proof.
  destruct c as [s l0|s mid r now|s mid pid part now];
    cbn [apply tracked omap].
  - unfold trackMessage. rewrite session_set.
    destruct (decide (s = sid)) as [->|]; [|by left].
    destruct (findIndex_id _ w (session sid w)) as [[i old]|].
    + intros [->|Hl]%insert_elem; [right; left; by left|by left].
    + intros [Hl|[->|[]%elem_of_nil]%elem_of_cons]%elem_of_app;
        [by left|right; left; by left].
  - unfold ensureMessage.
    destruct (findIndex_id mid w (session s w)) as [[i existing]|].
    + destruct (decide _); by left.
    + rewrite session_push_new.
      destruct (decide (s = sid)) as [->|]; [|by left].
      intros [Hl|[->|[]%elem_of_nil]%elem_of_cons]%elem_of_app;
        [by left|right; by right].
  - unfold addPart.
    destruct (findIndex_id mid w (session s w)) as [[i message]|].
    + by left.
    + rewrite session_push_new.
      destruct (decide (s = sid)) as [->|]; [|by left].
      intros [Hl|[->|[]%elem_of_nil]%elem_of_cons]%elem_of_app;
        [by left|right; by right].
Qed.

Lemma next_object_apply w c : next_object w <= next_object (apply w c).
Proof.
  destruct c as [s l0|s mid r now|s mid pid part now]; cbn [apply].
  - done.
  - unfold ensureMessage.
    destruct (findIndex_id mid w (session s w)) as [[i existing]|];
      [destruct (decide _); done|]. simpl. lia.
  - unfold addPart.
    destruct (findIndex_id mid w (session s w)) as [[i message]|];
      [done|]. simpl. lia.
Qed.

Lemma next_array_apply w c : next_array w <= next_array (apply w c).
Proof.
  destruct c as [s l0|s mid r now|s mid pid part now]; cbn [apply].
  - done.
  - unfold ensureMessage.
    destruct (findIndex_id mid w (session s w)) as [[i existing]|];
      [destruct (decide _); done|]. simpl. lia.
  - unfold addPart.
    destruct (findIndex_id mid w (session s w)) as [[i message]|];
      [done|]. simpl. lia.
Qed.

(** A call changes neither the id nor the array of an object in
    existence. *)
Lemma object_apply w c l :
  l < next_object w ->
  obj_id (objects (apply w c) l) = obj_id (objects w l) /\
  obj_parts (objects (apply w c) l) = obj_parts (objects w l).
Proof.
  intros Hl.
  destruct c as [s l0|s mid r now|s mid pid part now]; cbn [apply].
  - done.
  - unfold ensureMessage.
    destruct (findIndex_id mid w (session s w)) as [[i existing]|].
    + destruct (decide _); [done|]. simpl.
      destruct (decide (existing = l)) as [->|Hne].
      * by rewrite fn_lookup_insert.
      * by rewrite fn_lookup_insert_ne.
    + simpl. by rewrite fn_lookup_insert_ne by lia.
  - unfold addPart.
    destruct (findIndex_id mid w (session s w)) as [[i message]|]; [done|].
    simpl. by rewrite fn_lookup_insert_ne by lia.
Qed.

Lemma apply_well_formed w c :
  well_formed w -> (forall l, l ∈ tracked [c] -> l < next_object w) ->
  well_formed (apply w c).
Proof.
  intros [Hheap Hstored] Hvalid. split.
  - intros l Hl.
    destruct (decide (l < next_object w)) as [Hold|Hnew].
    + destruct (object_apply w c l Hold) as [_ ->].
      pose proof (next_array_apply w c). specialize (Hheap l Hold). lia.
    + destruct c as [s l0|s mid r now|s mid pid part now]; cbn [apply] in *.
      * done.
      * unfold ensureMessage in *.
        destruct (findIndex_id mid w (session s w)) as [[i existing]|];
          [by destruct (decide _)|].
        simpl in *. assert (l = next_object w) as -> by lia.
        rewrite fn_lookup_insert. simpl. lia.
      * unfold addPart in *.
        destruct (findIndex_id mid w (session s w)) as [[i message]|];
          [done|].
        simpl in *. assert (l = next_object w) as -> by lia.
        rewrite fn_lookup_insert. simpl. lia.
  - intros sid l Hl. pose proof (next_object_apply w c) as Hmono.
    apply session_apply_elem in Hl as [Hl|[Hl|[-> ->]]].
    + specialize (Hstored sid l Hl). lia.
    + specialize (Hvalid l Hl). lia.
    + lia.
Qed.

Lemma tracked_cons c calls : tracked (c :: calls) = tracked [c] ++ tracked calls.
Proof. unfold tracked. by destruct c. Qed.

Lemma inserted_messages_stable sid w c calls :
  (forall l, l ∈ tracked calls -> l < next_object w) ->
  inserted_messages sid (apply w c) calls = inserted_messages sid w calls.
Proof.
  intros Hvalid. unfold inserted_messages.
  induction calls as [|c' calls IH]; [done|].
  rewrite tracked_cons in Hvalid. csimpl.
  rewrite IH by (intros l Hl; apply Hvalid, elem_of_app; by right).
  destruct (decide (call_session c' = sid)); [|done].
  destruct c' as [s l0|s mid r now|s mid pid part now]; [|done..].
  cbn [call_message].
  destruct (object_apply w c l0) as [-> _]; [|done].
  apply Hvalid. apply elem_of_app. left. simpl. by left.
Qed.

(** The ids of a session after a sequence of calls. *)
Lemma message_ids_run_objects sid calls : forall w,
  well_formed w -> (forall l, l ∈ tracked calls -> l < next_object w) ->
  message_ids sid (run calls w)
  = foldl insert_once (message_ids sid w) (inserted_messages sid w calls).
Proof.
  induction calls as [|c calls IH]; intros w Hwf Hvalid; [done|].
  rewrite tracked_cons in Hvalid.
  change (run (c :: calls) w) with (run calls (apply w c)).
  rewrite IH.
  - rewrite message_ids_step_objects by done.
    rewrite inserted_messages_stable
      by (intros l Hl; apply Hvalid, elem_of_app; by right).
    unfold inserted_messages at 2. csimpl.
    by destruct (decide (call_session c = sid)).
  - apply apply_well_formed; [done|].
    intros l Hl. apply Hvalid, elem_of_app. by left.
  - intros l Hl. pose proof (next_object_apply w c).
    assert (l < next_object w); [|lia].
    apply Hvalid, elem_of_app. by right.
Qed.

Lemma stored_find sid mid w :
  stored sid mid w
  = (fun found => read w found.2) <$> findIndex_id mid w (session sid w).
Proof.
  unfold stored, getMessages. rewrite find_read.
  by destruct (findIndex_id mid w (session sid w)) as [[i l]|].
Qed.

(** [addPart] puts the part into the message of that id, in place of
    the part of that part id or at the end, whatever is shared. *)
Lemma addPart_stored sid mid pid part now w :
  well_formed w ->
  stored sid mid (addPart sid mid pid part now w)
  = Some match stored sid mid w with
         | Some message =>
             set_parts
               match list_find (fun p => _partId p = Some pid)
                       (parts message) with
               | Some (j, _) => <[j := with_partId pid part]> (parts message)
               | None => parts message ++ [with_partId pid part]
               end message
         | None => mkMessage mid assistant [with_partId pid part] now
         end.
Proof.
  intros Hwf.
  destruct (findIndex_id mid w (session sid w)) as [[i message]|] eqn:Hf.
  - rewrite (stored_find sid mid w), Hf. unfold addPart. rewrite Hf.
    rewrite stored_find.
    change (findIndex_id mid ?w' (session sid ?w'))
      with (findIndex_id mid w (session sid w)).
    rewrite Hf. simpl. f_equal. unfold read. simpl.
    by rewrite fn_lookup_insert.
  - rewrite <- stored_view, addPart_new_view by done.
    change (Tracker.addPart sid mid pid part now (view w))
      with (Tracker.apply (view w) (Tracker.AddPart sid mid pid part now)).
    rewrite stored_step. simpl.
    rewrite (decide_True (P := _ /\ _)) by (by split).
    by rewrite stored_view, stored_find, Hf.
Qed.

(** [addPart] keeps the part ids that any message has and their order,
    and adds at most one at the end, whatever is shared. *)
Lemma addPart_part_ids_prefix sid mid pid part now sid' mid' w :
  well_formed w ->
  part_ids sid' mid' w
  `prefix_of` part_ids sid' mid' (addPart sid mid pid part now w).
Proof.
  intros Hwf.
  destruct (findIndex_id mid w (session sid w)) as [[i message]|] eqn:Hf.
  - unfold part_ids. rewrite !stored_find. unfold addPart. rewrite Hf.
    change (findIndex_id mid' ?w' (session sid' ?w'))
      with (findIndex_id mid' w (session sid' w)).
    destruct (findIndex_id mid' w (session sid' w)) as [[j l]|]; [|done].
    simpl. unfold read. simpl.
    destruct (decide (obj_parts (objects w message) = obj_parts (objects w l)))
      as [Hsame|Hother].
    + rewrite Hsame, fn_lookup_insert, upsert_part_ids.
      apply insert_once_prefix.
    + by rewrite fn_lookup_insert_ne.
  - rewrite <- !part_ids_view, addPart_new_view by done.
    change (Tracker.addPart sid mid pid part now (view w))
      with (Tracker.apply (view w) (Tracker.AddPart sid mid pid part now)).
    rewrite part_ids_step. simpl.
    destruct (decide (sid = sid' /\ mid = mid')); [|done].
    apply insert_once_prefix.
Qed.

(** *** Without sharing, the tracker is the tracker of [Tracker] *)

(** A change of the one object that a session holds at an index, seen
    without the objects. *)
Lemma view_update w w' s i o m' :
  sessions w' = sessions w -> currentChunkIds w' = currentChunkIds w ->
  session s w !! i = Some o -> read w' o = m' ->
  (forall s' j l, session s' w !! j = Some l -> (s', j) <> (s, i) ->
                  read w' l = read w l) ->
  view w'
  = {| Tracker.sessions :=
         <[s := <[i := m']> (Tracker.getMessages s (view w))]>
           (Tracker.sessions (view w));
       Tracker.currentChunkIds := Tracker.currentChunkIds (view w) |}.
Proof.
  intros Hs Hc Hi Hread Hother. rewrite getMessages_view.
  unfold view, getMessages. rewrite Hs, Hc. simpl. f_equal.
  apply map_eq. intros k. rewrite lookup_fmap.
  destruct (decide (k = s)) as [->|Hne].
  - rewrite lookup_insert_eq. unfold session in *.
    destruct (sessions w !! s) as [refs|] eqn:Hrefs; [|done]. simpl in *.
    f_equal. apply list_eq. intros j. rewrite list_lookup_fmap.
    destruct (decide (j = i)) as [->|Hj].
    + rewrite list_lookup_insert_eq
        by (rewrite length_fmap; by eapply lookup_lt_Some).
      by rewrite Hi, <- Hread.
    + rewrite list_lookup_insert_ne, list_lookup_fmap by done.
      destruct (refs !! j) as [l|] eqn:Hl; [|done]. simpl. f_equal.
      apply (Hother s j); [by rewrite Hrefs|congruence].
  - rewrite lookup_insert_ne, lookup_fmap by done.
    destruct (sessions w !! k) as [refs|] eqn:Hrefs; [|done]. simpl.
    f_equal. apply list_fmap_ext. intros j l Hl.
    apply (Hother k j); [|congruence].
    unfold session. by rewrite Hrefs.
Qed.

(** Where no object is shared, each call is the upsert of [Tracker]. *)
Lemma apply_view w c :
  well_formed w -> separate w ->
  view (apply w c) = Tracker.apply (view w) (as_upsert w c).
Proof.
  intros Hwf Hsep.
  destruct c as [s l0|s mid r now|s mid pid part now];
    cbn [apply as_upsert Tracker.apply].
  - apply trackMessage_view.
  - destruct (findIndex_id mid w (session s w)) as [[i existing]|] eqn:Hf;
      [|by apply ensureMessage_new_view].
    pose proof Hf as [Hi Hid]%found_object.
    unfold ensureMessage, Tracker.ensureMessage.
    change (default [] (Tracker.sessions (view w) !! s))
      with (Tracker.getMessages s (view w)).
    rewrite find_view, Hf. simpl.
    change (role (read w existing)) with (obj_role (objects w existing)).
    destruct (decide (obj_role (objects w existing) = r)); [done|].
    apply (view_update w _ s i existing); try done.
    + unfold read. simpl. by rewrite fn_lookup_insert.
    + intros s' j l Hl Hpos. unfold read. simpl.
      rewrite fn_lookup_insert_ne; [done|]. intros <-.
      destruct (Hsep s' j existing s i existing Hl Hi) as [-> ->];
        [by left|done].
  - destruct (findIndex_id mid w (session s w)) as [[i message]|] eqn:Hf;
      [|by apply addPart_new_view].
    pose proof Hf as [Hi Hid]%found_object.
    unfold addPart, Tracker.addPart.
    change (default [] (Tracker.sessions (view w) !! s))
      with (Tracker.getMessages s (view w)).
    rewrite find_view, Hf. simpl.
    apply (view_update w _ s i message); try done.
    + unfold read. simpl. by rewrite fn_lookup_insert.
    + intros s' j l Hl Hpos. unfold read. simpl.
      rewrite fn_lookup_insert_ne; [done|]. intros Hparts.
      destruct (Hsep s' j l s i message Hl Hi) as [-> ->];
        [by right|done].
Qed.

(** Where the objects stand after [trackMessage] of an object that was
    not held, and after a new message was pushed: where they stood, and
    the new one at one place. *)
Lemma trackMessage_places s l0 w :
  (forall sid, l0 ∉ session sid w) ->
  exists place, forall k j l,
    session k (trackMessage s l0 w) !! j = Some l ->
    (session k w !! j = Some l /\ l <> l0) \/
    (k = s /\ l = l0 /\ j = place).
Proof.
  intros Hnew.
  assert (Hold : forall k j l, session k w !! j = Some l -> l <> l0).
  { intros k j l Hl ->. apply (Hnew k). by eapply list_elem_of_lookup_2. }
  unfold trackMessage.
  destruct (findIndex_id _ w (session s w)) as [[i old]|].
  - exists i. intros k j l. rewrite session_set.
    destruct (decide (s = k)) as [->|Hne].
    + intros [(<- & <- & _)|[_ Hl]]%list_lookup_insert_Some;
        [by right|left; eauto].
    + intros Hl. left. eauto.
  - exists (length (session s w)). intros k j l. rewrite session_set.
    destruct (decide (s = k)) as [->|Hne].
    + intros [[_ Hl]|[-> <-]]%lookup_snoc_Some; [left; eauto|by right].
    + intros Hl. left. eauto.
Qed.

Lemma push_new_places s mid r ps now w :
  exists place, forall k j l,
    session k (push_new s mid r ps now w) !! j = Some l ->
    session k w !! j = Some l \/
    (k = s /\ l = next_object w /\ j = place).
Proof.
  exists (length (session s w)). intros k j l. rewrite session_push_new.
  destruct (decide (s = k)) as [->|Hne]; [|by left].
  intros [[_ Hl]|[-> <-]]%lookup_snoc_Some; [by left|by right].
Qed.

Lemma push_new_separate s mid r ps now w :
  well_formed w -> separate w -> separate (push_new s mid r ps now w).
Proof.
  intros [Hheap Hstored] Hsep.
  destruct (push_new_places s mid r ps now w) as (place & Hplace).
  assert (Hold : forall k j l, session k w !! j = Some l ->
            l < next_object w /\
            objects (push_new s mid r ps now w) l = objects w l).
  { intros k j l Hl.
    assert (l < next_object w)
      by (apply (Hstored k); by eapply list_elem_of_lookup_2).
    split; [done|]. simpl. by rewrite fn_lookup_insert_ne by lia. }
  assert (Hnew : obj_parts (objects (push_new s mid r ps now w)
                              (next_object w)) = next_array w)
    by (simpl; by rewrite fn_lookup_insert).
  intros s1 i1 l1 s2 i2 l2 H1 H2 Hshared.
  apply Hplace in H1 as [H1|(-> & -> & ->)];
    apply Hplace in H2 as [H2|(-> & -> & ->)].
  - destruct (Hold _ _ _ H1) as [_ E1], (Hold _ _ _ H2) as [_ E2].
    rewrite E1, E2 in Hshared. by apply (Hsep s1 i1 l1 s2 i2 l2).
  - destruct (Hold _ _ _ H1) as [Hlt E1]. rewrite E1, Hnew in Hshared.
    specialize (Hheap l1 Hlt). lia.
  - destruct (Hold _ _ _ H2) as [Hlt E2]. rewrite E2, Hnew in Hshared.
    specialize (Hheap l2 Hlt). lia.
  - done.
Qed.

(** A call keeps the objects apart when the object it hands over, if
    any, is not held and has a parts array of its own. *)
Lemma apply_separate w c :
  well_formed w -> separate w -> unshared w [c] -> separate (apply w c).
Proof.
  intros Hwf Hsep (_ & _ & Hnew).
  destruct c as [s l0|s mid r now|s mid pid part now]; cbn [apply].
  - destruct (Hnew l0) as [_ Hl0]; [simpl; by left|].
    destruct (trackMessage_places s l0 w) as (place & Hplace).
    { intros sid Hin. by destruct (Hl0 sid l0 Hin). }
    intros s1 i1 l1 s2 i2 l2 H1 H2 Hshared.
    change (objects (trackMessage s l0 w)) with (objects w) in Hshared.
    apply Hplace in H1 as [[H1 N1]|(-> & -> & ->)];
      apply Hplace in H2 as [[H2 N2]|(-> & -> & ->)].
    + by apply (Hsep s1 i1 l1 s2 i2 l2).
    + destruct (Hl0 s1 l1) as [? ?]; [by eapply list_elem_of_lookup_2|].
      by destruct Hshared.
    + destruct (Hl0 s2 l2) as [? ?]; [by eapply list_elem_of_lookup_2|].
      by destruct Hshared.
    + done.
  - unfold ensureMessage.
    destruct (findIndex_id mid w (session s w)) as [[i existing]|];
      [|by apply push_new_separate].
    destruct (decide (obj_role (objects w existing) = r)); [done|].
    intros s1 i1 l1 s2 i2 l2 H1 H2 Hshared. simpl in Hshared.
    apply (Hsep s1 i1 l1 s2 i2 l2); [done|done|].
    assert (Hparts : forall l,
              obj_parts ((<[existing := mkObject
                                          (obj_id (objects w existing)) r
                                          (obj_parts (objects w existing))
                                          (obj_timestamp (objects w existing))]>
                            (objects w)) l)
              = obj_parts (objects w l)).
    { intros l. destruct (decide (existing = l)) as [->|].
      - by rewrite fn_lookup_insert.
      - by rewrite fn_lookup_insert_ne. }
    by rewrite !Hparts in Hshared.
  - unfold addPart.
    destruct (findIndex_id mid w (session s w)) as [[i message]|];
      [done|by apply push_new_separate].
Qed.

(** The objects still to be handed over stay unshared. *)
Lemma apply_unshared w c calls :
  well_formed w -> unshared w (c :: calls) -> unshared (apply w c) calls.
Proof.
  intros Hwf (Hnd & Hparts & Hnew). pose proof Hwf as [Hheap Hstored].
  rewrite tracked_cons in Hnd, Hparts, Hnew.
  rewrite fmap_app in Hparts.
  apply NoDup_app in Hnd as (_ & Hdisjoint & Hnd).
  apply NoDup_app in Hparts as (_ & Hdisjoint_parts & Hparts).
  assert (Hsame : forall l, l ∈ tracked calls ->
            obj_parts (objects (apply w c) l) = obj_parts (objects w l)).
  { intros l Hl. apply object_apply.
    apply Hnew, elem_of_app. by right. }
  split; [done|]. split.
  - erewrite list_fmap_ext; [exact Hparts|].
    intros i l Hl. apply Hsame. by eapply list_elem_of_lookup_2.
  - intros l Hl.
    destruct (Hnew l) as [Hlt Hheld]; [apply elem_of_app; by right|].
    pose proof (next_object_apply w c) as Hmono.
    split; [lia|]. intros sid l' Hl'. rewrite (Hsame l Hl).
    apply session_apply_elem in Hl' as [Hl'|[Hl'|[-> Hgrew]]].
    + destruct (Hheld sid l' Hl') as [? ?].
      destruct (object_apply w c l') as [_ ->]; [by apply (Hstored sid)|].
      done.
    + destruct (Hnew l') as [Hlt' _]; [apply elem_of_app; by left|].
      destruct (object_apply w c l' Hlt') as [_ ->].
      split.
      * intros ->. by apply (Hdisjoint l).
      * intros Heq. apply (Hdisjoint_parts (obj_parts (objects w l'))).
        -- by apply (list_elem_of_fmap_2 (fun l => obj_parts (objects w l))).
        -- rewrite Heq.
           by apply (list_elem_of_fmap_2 (fun l => obj_parts (objects w l))).
    + split; [lia|].
      assert (Hfresh : obj_parts (objects (apply w c) (next_object w))
                       = next_array w).
      { destruct c as [s l0|s mid r now|s mid pid part now];
          cbn [apply] in *.
        - simpl in Hgrew. lia.
        - unfold ensureMessage in *.
          destruct (findIndex_id mid w (session s w)) as [[i existing]|].
          + destruct (decide _); simpl in Hgrew; lia.
          + simpl. by rewrite fn_lookup_insert.
        - unfold addPart in *.
          destruct (findIndex_id mid w (session s w)) as [[i message]|].
          + simpl in Hgrew. lia.
          + simpl. by rewrite fn_lookup_insert. }
      rewrite Hfresh. specialize (Hheap l Hlt). lia.
Qed.

Lemma unshared_head w c calls : unshared w (c :: calls) -> unshared w [c].
Proof.
  intros (Hnd & Hparts & Hnew). rewrite tracked_cons in Hnd, Hparts, Hnew.
  rewrite fmap_app in Hparts.
  apply NoDup_app in Hnd as (Hnd & _ & _).
  apply NoDup_app in Hparts as (Hparts & _ & _).
  split; [done|]. split; [done|].
  intros l Hl. apply Hnew, elem_of_app. by left.
Qed.

(** After any sequence of calls that hand over unshared objects, the
    tracker is the tracker of [Tracker] after the same upserts. *)
Lemma run_view calls : forall w,
  well_formed w -> separate w -> unshared w calls ->
  view (run calls w) = Tracker.run (as_upserts w calls) (view w) /\
  well_formed (run calls w) /\ separate (run calls w).
Proof.
  induction calls as [|c calls IH]; intros w Hwf Hsep Hun; [done|].
  change (run (c :: calls) w) with (run calls (apply w c)).
  cbn [as_upserts].
  change (Tracker.run (?op :: ?ops) ?t)
    with (Tracker.run ops (Tracker.apply t op)).
  rewrite <- apply_view by done.
  apply IH.
  - apply apply_well_formed; [done|].
    intros l Hl. destruct Hun as (_ & _ & Hnew).
    rewrite tracked_cons in Hnew. apply Hnew, elem_of_app. by left.
  - apply apply_separate; [done|done|]. by eapply unshared_head.
  - by apply apply_unshared.
Qed.

Lemma session_new sid w : sessions w = ∅ -> session sid w = [].
Proof. intros Hnew. unfold session. by rewrite Hnew. Qed.

(** A new tracker holds nothing, so nothing is shared in it; and objects
    of the caller's that differ and have arrays that differ are
    unshared. *)
Lemma new_separate w : sessions w = ∅ -> separate w.
Proof. intros Hnew s1 i1 l1 s2 i2 l2 H1. by rewrite session_new in H1. Qed.

Lemma new_unshared w calls :
  sessions w = ∅ ->
  NoDup (tracked calls) ->
  NoDup ((fun l => obj_parts (objects w l)) <$> tracked calls) ->
  Forall (fun l => l < next_object w) (tracked calls) ->
  unshared w calls.
Proof.
  intros Hnew Hnd Hparts Hvalid. rewrite Forall_forall in Hvalid.
  split; [done|]. split; [done|]. intros l Hl. split; [by apply Hvalid|].
  intros sid l' Hl'. rewrite session_new in Hl' by done.
  by apply elem_of_nil in Hl'.
Qed.

(** C9. [trackMessage] with the id of a message that the session holds
    puts the object in the place of that message, and with a new id adds
    it at the end. Hence, after any sequence of [trackMessage],
    [ensureMessage] and [addPart] calls on a new tracker, the ids of the
    messages of a session are the ids those calls named for it in the
    order of their first naming, and no call changes the ids already
    there or their order. The same holds for the parts of a message
    under [addPart]: it replaces the part of that part id where it
    stands or adds the part at the end, in the array of the message, and
    keeps the part ids of every message and their order. All this holds
    whatever objects the caller shares between sessions or messages.
    When the objects handed to [trackMessage] are not shared, the part
    ids of a message are those its own calls asked for, in the order of
    their first insertion. *)
Theorem tracker_keeps_first_insert_order :
  (forall w sid message,
     getMessages sid (trackMessage sid message w)
     = match Tracker.findIndex_id (id (read w message))
               (getMessages sid w) with
       | Some (i, _) => <[i := read w message]> (getMessages sid w)
       | None => getMessages sid w ++ [read w message]
       end) /\
  (forall w calls sid,
     well_formed w -> sessions w = ∅ ->
     Forall (fun l => l < next_object w) (tracked calls) ->
     message_ids sid (run calls w)
     = first_inserts (inserted_messages sid w calls)) /\
  (forall w c sid,
     well_formed w ->
     message_ids sid w `prefix_of` message_ids sid (apply w c)) /\
  (forall w sid mid pid part now,
     well_formed w ->
     stored sid mid (addPart sid mid pid part now w)
     = Some match stored sid mid w with
            | Some message =>
                set_parts
                  match list_find (fun p => _partId p = Some pid)
                          (parts message) with
                  | Some (j, _) => <[j := with_partId pid part]> (parts message)
                  | None => parts message ++ [with_partId pid part]
                  end message
            | None => mkMessage mid assistant [with_partId pid part] now
            end) /\
  (forall w calls sid mid,
     well_formed w -> sessions w = ∅ -> unshared w calls ->
     part_ids sid mid (run calls w)
     = part_order sid mid (as_upserts w calls)) /\
  (forall w sid mid pid part now sid' mid',
     well_formed w ->
     part_ids sid' mid' w
     `prefix_of` part_ids sid' mid' (addPart sid mid pid part now w)).
Proof.
  split_and!.
  - intros w sid l.
    rewrite <- !getMessages_view, trackMessage_view.
    unfold Tracker.trackMessage.
    change (default [] (Tracker.sessions (view w) !! sid))
      with (Tracker.getMessages sid (view w)).
    rewrite getMessages_set, decide_True by done.
    by destruct (Tracker.findIndex_id _ _) as [[? ?]|].
  - intros w calls sid Hwf Hnew Hvalid. rewrite Forall_forall in Hvalid.
    rewrite message_ids_run_objects by done.
    unfold message_ids at 1, getMessages. by rewrite session_new.
  - intros w c sid Hwf. rewrite message_ids_step_objects by done.
    destruct (decide (call_session c = sid)); [|done].
    apply insert_once_prefix.
  - intros w sid mid pid part now Hwf. by apply addPart_stored.
  - intros w calls sid mid Hwf Hnew Hun.
    destruct (run_view calls w Hwf (new_separate w Hnew) Hun) as (Hview & _).
    rewrite <- part_ids_view, Hview, part_ids_run, part_ids_view.
    unfold part_ids at 1, stored, getMessages. by rewrite session_new.
  - intros. by apply addPart_part_ids_prefix.
Qed.

(** Two objects of the caller's, tracked in one session: the order of
    the messages and of the parts of "m2" after some more calls. *)
Example tracker_objects_example :
  let p := mkPart text_part (Some "x"%string) None None None None in
  let calls :=
    [TrackMessage "s" 0; TrackMessage "s" 1;
     AddPart "s" "m2" "p1" p 1%Z;
     EnsureMessage "s" "m3" assistant 2%Z;
     AddPart "s" "m2" "p2" p 3%Z;
     TrackMessage "s" 0;
     AddPart "s" "m2" "p1" p 4%Z]%string in
  well_formed two_messages /\
  unshared two_messages (take 5 calls) /\
  message_ids "s" (run calls two_messages) = ["m1"; "m2"; "m3"]%string /\
  part_ids "s" "m2" (run calls two_messages)
  = [Some "p1"; Some "p2"]%string.
Proof.
  split_and!.
  - split.
    + intros l Hl. simpl in *. lia.
    + intros sid l Hl. by apply elem_of_nil in Hl.
  - apply new_unshared; [done|by_decide|by_decide|by_decide].
  - by vm_compute.
  - by vm_compute.
Qed.

(** One object of the caller's tracked under two sessions: a part added
    through the first session is a part of the message of the second,
    for which no call asked. *)
Example shared_object_example :
  let p := mkPart text_part (Some "x"%string) None None None None in
  let calls :=
    [TrackMessage "s1" 0; TrackMessage "s2" 0;
     AddPart "s1" "m1" "p1" p 1%Z]%string in
  ~ unshared two_messages calls /\
  part_ids "s2" "m1" (run calls two_messages) = [Some "p1"%string] /\
  part_order "s2" "m1" (as_upserts two_messages calls) = [] /\
  getMessages "s2" (run calls two_messages)
  <> getMessages "s2" (run (take 2 calls) two_messages).
Proof.
  split_and!.
  - intros (Hnd & _). revert Hnd. by_decide_not.
  - by vm_compute.
  - by vm_compute.
  - by vm_compute.
Qed.

End TrackerSharing.

(* ===================================================================== *)
(** ** Memory update with no field *)
(* ===================================================================== *)

Section MemoryUpdate.
Import Memory.

(** The list of assignments is never empty: the emptiness test of
    [update] cannot succeed, whatever the input. *)
Lemma update_always_assigns i input now (db : list MemoryRow) existing :
  getById i db = Some existing ->
  update i input now db
  = (getById i (run_update
                  (pending SetContent (up_content input) ++
                   pending SetType (up_type input) ++
                   pending SetTags (up_tags input) ++ [SetUpdatedAt now]) i db),
     run_update
       (pending SetContent (up_content input) ++
        pending SetType (up_type input) ++
        pending SetTags (up_tags input) ++ [SetUpdatedAt now]) i db).
Proof.
  intros Hget. unfold update. rewrite Hget.
  rewrite <- !app_assoc.
  destruct (up_content input), (up_type input), (up_tags input); done.
Qed.

Lemma getById_run_update updates i (db : list MemoryRow) :
  getById i (run_update updates i db)
  = (fun r => foldl (fun r a => assign a r) r updates) <$> getById i db.
Proof.
  assert (Hid : forall a r, id (assign a r) = id r) by by intros [].
  assert (Hids : forall us r, id (foldl (fun r a => assign a r) r us) = id r).
  { induction us as [|a us IH]; intros r; [done|]. simpl. by rewrite IH, Hid. }
  assert (Hrow : forall us r,
            rowToMemory (foldl (fun r a => assign a r) r us)
            = foldl (fun r a => assign a r) (rowToMemory r) us).
  { induction us as [|a us IH]; intros r; [done|]. simpl.
    rewrite IH. f_equal. by destruct a. }
  unfold getById, run_update.
  induction db as [|r db IH]; [done|].
  rewrite fmap_cons, !filter_cons.
  destruct (decide (id r = i)) as [Hr|Hr].
  - rewrite Hids, decide_True by done. simpl. by rewrite Hrow.
  - by rewrite decide_False.
Qed.

(** With no field provided the stored row still gets [updated_at = now],
    and the returned memory carries it. *)
Lemma update_no_fields i now (db : list MemoryRow) existing :
  getById i db = Some existing ->
  fst (update i no_fields now db) = Some (assign (SetUpdatedAt now) existing) /\
  getById i (snd (update i no_fields now db))
  = Some (assign (SetUpdatedAt now) existing).
Proof.
  intros Hget. rewrite (update_always_assigns i no_fields now db existing Hget).
  simpl. by rewrite getById_run_update, Hget.
Qed.

(** C3 does not hold of the code. The memory of scenario 1, never
    updated, is updated with an input that provides no field: the stored
    row changes, its [updated_at] goes from null to the time of the call,
    and the memory returned is not the existing one. *)
Theorem update_without_fields_changes_row :
  getById "mem_000000000001" [stored_memory] = Some stored_memory /\
  updated_at stored_memory = None /\
  update "mem_000000000001" no_fields 1700000500%Z [stored_memory]
  = (Some (assign (SetUpdatedAt 1700000500%Z) stored_memory),
     [assign (SetUpdatedAt 1700000500%Z) stored_memory]) /\
  updated_at (assign (SetUpdatedAt 1700000500%Z) stored_memory)
  = Some 1700000500%Z.
Proof. by vm_compute. Qed.

End MemoryUpdate.

(* ===================================================================== *)
(** ** Finalization and the part ids *)
(* ===================================================================== *)

Section Finalization.
Import Chunks.

Lemma existsb_elem {A} (f : A -> bool) (l : list A) x :
  x ∈ l -> f x = true -> existsb f l = true.
Proof.
  intros Hin Hf. apply existsb_exists. exists x.
  split; [by apply list_elem_of_In|done].
Qed.

Lemma part_json_has_id p pid :
  Tracker._partId p = Some pid ->
  json_has_key "_partId" (part_json p) = true /\
  ("_partId"%string, JStr pid) ∈
    match part_json p with JObj members => members | _ => [] end.
Proof.
  intros Hp. unfold part_json. rewrite Hp. split.
  - cbn [json_has_key]. rewrite !existsb_app. cbn [member existsb fst].
    rewrite String.eqb_refl. simpl. by rewrite !orb_true_r.
  - rewrite !elem_of_app. do 5 right. by left.
Qed.

(** The content that [finalize] persists shows the part id of every part
    that has one. *)
Lemma finalize_content_has_id messages m p pid :
  m ∈ messages -> p ∈ Tracker.parts m -> Tracker._partId p = Some pid ->
  json_has_key "_partId" (finalize_content messages) = true.
Proof.
  intros Hm Hp Hid. unfold finalize_content.
  cbn [json_has_key existsb fst snd].
  apply orb_true_iff. left. apply orb_true_iff. right.
  apply (existsb_elem _ _ (message_json m)); [by apply list_elem_of_fmap_2|].
  unfold message_json. cbn [json_has_key existsb fst snd].
  apply orb_true_iff. right. apply orb_true_iff. right.
  apply orb_true_iff. left. apply orb_true_iff. right.
  apply (existsb_elem _ _ (part_json p)); [by apply list_elem_of_fmap_2|].
  by apply (part_json_has_id p pid).
Qed.

Lemma getById_last (db : list ChunkRow) row :
  id row ∉ id <$> db -> getById (id row) (db ++ [row]) = Some row.
Proof.
  intros Hfresh. unfold getById, select_by_id. rewrite filter_app.
  fold (select_by_id (id row) db). rewrite select_absent by done.
  by rewrite filter_cons_True.
Qed.

Lemma update_last f (db : list ChunkRow) row :
  id row ∉ id <$> db ->
  update_where_id f (id row) (db ++ [row]) = db ++ [f row].
Proof.
  intros Hfresh. unfold update_where_id.
  rewrite fmap_app. f_equal.
  - rewrite <- (list_fmap_id db) at 2. apply list_fmap_ext.
    intros j r Hr. rewrite decide_False; [done|].
    intros Hid. apply Hfresh. rewrite <- Hid.
    apply list_elem_of_fmap_2. by eapply list_elem_of_lookup_2.
  - simpl. by rewrite decide_True.
Qed.

(** [finalize] on a session that has messages, with a free id. *)
Lemma finalize_persists sid new_id created now
    (t : Tracker.MessageTracker) (db : list ChunkRow) :
  new_id ∉ id <$> db ->
  Tracker.getMessages sid t <> [] ->
  finalize sid new_id created now t db
  = (Tracker.setCurrentChunkId sid new_id (Tracker.clearSession sid t),
     Returned
       (Some (mkRow new_id sid None 0 None
                (finalize_content (Tracker.getMessages sid t)) None active
                created (Some now) None None))
       (db ++ [mkRow new_id sid None 0 None
                 (finalize_content (Tracker.getMessages sid t)) None active
                 created (Some now) None None])).
Proof.
  intros Hfresh Hne. unfold finalize.
  assert (Hlen : (length (Tracker.getMessages sid t) =? 0) = false)
    by by destruct (Tracker.getMessages sid t).
  rewrite Hlen. unfold create, insert.
  cbn [id sessionId input_content parentId input_depth input_summary default].
  rewrite decide_False by done.
  set (row := mkRow new_id sid None 0 None _ None active created None None None).
  change new_id with (id row) in Hfresh |- *.
  unfold update. rewrite getById_last by done.
  cbn [pending up_content up_summary up_status up_childRefs up_finalizedAt
       up_compactedAt app length Nat.eqb].
  rewrite update_last by done.
  cbn [foldl assign].
  set (row' := mkRow _ _ _ _ _ _ _ _ _ (Some now) _ _).
  change (id row) with (id row') in Hfresh |- *.
  by rewrite getById_last.
Qed.

(** C4, at the failing input. The declared shape of the stored content
    ([ChunkMessagePart] in types.ts) has no [_partId] member, and the
    tracker reaches it only through casts; yet after the two [addPart]
    calls of scenario 6, [finalize] persists a chunk whose content holds
    each part with its [_partId] member. *)
Lemma finalize_stores_part_ids :
  exists t' chunk db',
    finalize "S" "ch_000000000001" 1700000000%Z 1700000001%Z streamed []
    = (t', Returned (Some chunk) db') /\
    db' = [chunk] /\
    content chunk
    = JObj [("messages"%string,
             JArr [JObj [("id"%string, JStr "m2");
                         ("role"%string, JStr "assistant");
                         ("parts"%string,
                          JArr [JObj [("type"%string, JStr "tool");
                                      ("tool"%string, JStr "bash");
                                      ("_partId"%string, JStr "prt_1")];
                                JObj [("type"%string, JStr "file");
                                      ("text"%string, JStr "src/x.ts");
                                      ("_partId"%string, JStr "prt_2")]]);
                         ("timestamp"%string, JNum 1700000000001)]]);
            ("metadata"%string,
             JObj [("tools_used"%string, JArr [JStr "bash"]);
                   ("files_modified"%string, JArr [JStr "src/x.ts"])])] /\
    json_has_key "_partId" (content chunk) = true.
Proof. eexists _, _, _. split; [by vm_compute|]. by vm_compute. Qed.

(** The same for every part: [finalize] persists the parts as the tracker
    holds them. After [addPart] has put a part under a part id,
    finalizing the session with a free chunk id stores one chunk whose
    content is the JSON of the tracked messages; in it the part stands
    with its part id as the member [_partId], since nothing removes the
    member before the content is written. *)
Theorem finalize_keeps_part_ids sid mid pid part at_ new_id created now
    (t : Tracker.MessageTracker) (db : list ChunkRow) :
  new_id ∉ id <$> db ->
  let t1 := Tracker.addPart sid mid pid part at_ t in
  exists t' chunk,
    finalize sid new_id created now t1 db
    = (t', Returned (Some chunk) (db ++ [chunk])) /\
    content chunk = finalize_content (Tracker.getMessages sid t1) /\
    (exists m, m ∈ Tracker.getMessages sid t1 /\
               Tracker.with_partId pid part ∈ Tracker.parts m) /\
    ("_partId"%string, JStr pid) ∈
      match part_json (Tracker.with_partId pid part) with
      | JObj members => members
      | _ => []
      end /\
    json_has_key "_partId" (content chunk) = true.
Proof.
  intros Hfresh t1.
  assert (Hstored : exists m, m ∈ Tracker.getMessages sid t1 /\
                      Tracker.with_partId pid part ∈ Tracker.parts m).
  { pose proof (stored_step sid mid t (Tracker.AddPart sid mid pid part at_))
      as Hs. simpl in Hs.
    rewrite (decide_True (P := _ /\ _)) in Hs by (by split).
    fold t1 in Hs. unfold Tracker.stored in Hs.
    destruct (Tracker.findIndex_id mid (Tracker.getMessages sid t1))
      as [[i m]|] eqn:Hf; [|done].
    simpl in Hs. injection Hs as ->.
    exists (Tracker.upserted
              (snd <$> Tracker.findIndex_id mid (Tracker.getMessages sid t))
              (Tracker.AddPart sid mid pid part at_)).
    split.
    - apply list_find_Some in Hf as (Hi & _). by eapply list_elem_of_lookup_2.
    - destruct (snd <$> Tracker.findIndex_id mid (Tracker.getMessages sid t))
        as [old|]; simpl; [|by left].
      unfold Tracker.upsert_part.
      destruct (list_find _ (Tracker.parts old)) as [[j p]|] eqn:Hj.
      + apply list_find_Some in Hj as (Hj & _).
        eapply list_elem_of_lookup_2. apply list_lookup_insert_eq.
        by eapply lookup_lt_Some.
      + apply elem_of_app. right. by left. }
  destruct Hstored as (m & Hm & Hp).
  eexists _, _. split.
  - apply finalize_persists; [done|]. intros Hnil. rewrite Hnil in Hm.
    by apply elem_of_nil in Hm.
  - split; [done|]. split; [by exists m|]. split.
    + by apply (part_json_has_id (Tracker.with_partId pid part) pid).
    + by apply (finalize_content_has_id _ m (Tracker.with_partId pid part) pid).
Qed.

Lemma finalize_keeps_part_ids_witness :
  let t1 := Tracker.addPart "S" "m2" "prt_1"
              (Tracker.mkPart Tracker.tool_part None (Some "bash"%string)
                 None None None)
              1700000000001%Z Tracker.empty in
  exists t' chunk,
    finalize "S" "ch_000000000001" 1700000000%Z 1700000001%Z t1 scenario_db
    = (t', Returned (Some chunk) (scenario_db ++ [chunk])) /\
    content chunk = finalize_content (Tracker.getMessages "S" t1) /\
    (exists m, m ∈ Tracker.getMessages "S" t1 /\
               Tracker.with_partId "prt_1"
                 (Tracker.mkPart Tracker.tool_part None (Some "bash"%string)
                    None None None) ∈ Tracker.parts m) /\
    ("_partId"%string, JStr "prt_1") ∈
      match part_json
              (Tracker.with_partId "prt_1"
                 (Tracker.mkPart Tracker.tool_part None (Some "bash"%string)
                    None None None)) with
      | JObj members => members
      | _ => []
      end /\
    json_has_key "_partId" (content chunk) = true.
Proof.
  apply (finalize_keeps_part_ids "S" "m2" "prt_1"
           (Tracker.mkPart Tracker.tool_part None (Some "bash"%string)
              None None None)
           1700000000001%Z "ch_000000000001" 1700000000%Z 1700000001%Z
           Tracker.empty scenario_db).
  by_decide.
Defined.

End Finalization.

(* ===================================================================== *)
(** ** Migrations *)
(* ===================================================================== *)

Section MigrationIdempotence.
Import Migrations.

Context (EMBEDDED_MIGRATIONS : MigrationSubsystem -> option (list (string * string)))
        (computeChecksum : string -> string)
        {Schema : Type}
        (exec_sql : string -> Schema -> option Schema)
        (unixepoch : Z -> Z).

Local Abbreviation apply_pending :=
  (apply_pending computeChecksum Schema exec_sql unixepoch).
Local Abbreviation apply_migration :=
  (apply_migration computeChecksum Schema exec_sql unixepoch).
Local Abbreviation runMigrations :=
  (runMigrations EMBEDDED_MIGRATIONS computeChecksum Schema exec_sql unixepoch).

Lemma max_version_bounds (rows : list AppliedMigration) v :
  v ∈ applied_version <$> rows ->
  exists m, max_version rows = Some m /\ (v <= m)%Z /\
            m ∈ applied_version <$> rows.
Proof.
  destruct rows as [|r rows]; [by intros ?%elem_of_nil|].
  intros Hv. simpl.
  destruct (foldl_max_spec (applied_version <$> rows) (applied_version r))
    as [Hin Hle].
  eexists. split; [done|]. split; [by apply Hle|done].
Qed.

(** A run that returns has appended, to the tracking table, records of
    versions above the current one, one for every migration above it. *)
Lemma apply_pending_appends name cur ms : forall applied (db : Database Schema) rows n db',
  tracking Schema db !! name = Some rows ->
  apply_pending name cur ms applied db = Returned Schema n db' ->
  exists added,
    tracking Schema db' !! name = Some (rows ++ added) /\
    Forall (fun r => (cur < applied_version r)%Z) added /\
    (forall m, m ∈ ms ->
       (version m <= cur)%Z \/ version m ∈ applied_version <$> added).
Proof.
  induction ms as [|m ms IH]; intros applied db rows n db' Hrows Hrun.
  - simpl in Hrun. simplify_eq. exists []. rewrite app_nil_r.
    split; [done|]. split; [done|]. by intros m ?%elem_of_nil.
  - simpl in Hrun. destruct (version m <=? cur)%Z eqn:Hle.
    + apply Z.leb_le in Hle.
      destruct (IH _ _ _ _ _ Hrows Hrun) as (added & Htab & Habove & Hall).
      exists added. split; [done|]. split; [done|].
      intros m' [->|Hin]%elem_of_cons; [by left|by apply Hall].
    + apply Z.leb_gt in Hle.
      unfold Migrations.apply_migration in Hrun.
      destruct (exec_sql (sql m) (schema Schema db)) as [schema'|]; [|done].
      rewrite Hrows in Hrun.
      destruct (decide (version m ∈ applied_version <$> rows)); [done|].
      match type of Hrun with
      | Migrations.apply_pending _ _ _ _ _ _ _ _ ?db1 = _ =>
          assert (Hrows1 : tracking Schema db1 !! name
                           = Some (rows ++ [{| applied_version := version m;
                                               applied_filename := filename m;
                                               applied_at := unixepoch (version m);
                                               checksum := computeChecksum (sql m) |}]))
            by (simpl; apply lookup_insert_eq)
      end.
      destruct (IH _ _ _ _ _ Hrows1 Hrun) as (added & Htab & Habove & Hall).
      eexists (_ :: added). rewrite <- app_assoc in Htab.
      split; [exact Htab|]. split; [by constructor|].
      intros m' [->|Hin]%elem_of_cons.
      * right. simpl. by left.
      * destruct (Hall m' Hin) as [?|?]; [by left|right].
        simpl. by right.
Qed.

Lemma apply_pending_nothing name cur ms : forall applied (db : Database Schema),
  (forall m, m ∈ ms -> (version m <= cur)%Z) ->
  apply_pending name cur ms applied db = Returned Schema applied db.
Proof.
  induction ms as [|m ms IH]; intros applied db Hall; [done|]. simpl.
  assert (Hle : (version m <=? cur)%Z = true)
    by (apply Z.leb_le, Hall; by left).
  rewrite Hle. apply IH. intros m' Hin. apply Hall. by right.
Qed.

Lemma ensured_table (db : Database Schema) sub :
  exists rows,
    tracking Schema (ensureMigrationTable Schema db sub)
      !! getMigrationTableName sub = Some rows /\
    getCurrentVersion Schema (ensureMigrationTable Schema db sub) sub
    = default 0%Z (max_version rows).
Proof.
  unfold ensureMigrationTable, getCurrentVersion.
  destruct (tracking Schema db !! getMigrationTableName sub) as [rows|] eqn:H.
  - exists rows. by rewrite H.
  - exists []. simpl. by rewrite lookup_insert_eq.
Qed.

(** C7. When a run of the pending migrations of a subsystem returns, a
    second run on the database it left applies no migration and leaves
    the database, its tracking table included, as it is. *)
Theorem migrations_idempotent (db : Database Schema) sub n db' :
  runMigrations db sub = Returned Schema n db' ->
  runMigrations db' sub = Returned Schema 0 db'.
Proof.
  unfold Migrations.runMigrations.
  destruct (getMigrations EMBEDDED_MIGRATIONS sub) as [ms|]; [|done].
  destruct (ensured_table db sub) as (rows & Hrows & ->).
  intros Hrun.
  destruct (apply_pending_appends _ _ _ _ _ _ _ _ Hrows Hrun)
    as (added & Htab & Habove & Hall).
  assert (Hsame : ensureMigrationTable Schema db' sub = db')
    by (unfold ensureMigrationTable; by rewrite Htab).
  rewrite Hsame. apply apply_pending_nothing.
  unfold getCurrentVersion. rewrite Htab.
  assert (Hcur : (default 0 (max_version rows)
                  <= default 0 (max_version (rows ++ added)))%Z).
  { destruct rows as [|r rows].
    - destruct added as [|a added]; [done|].
      destruct (max_version_bounds ([] ++ a :: added) (applied_version a))
        as (m & Hm & Hle & _); [by left|].
      rewrite Hm. simpl. inversion Habove; subst. simpl in *. lia.
    - destruct (max_version_bounds (r :: rows) (applied_version r))
        as (m & Hm & _ & Hin); [by left|].
      destruct (max_version_bounds ((r :: rows) ++ added) m)
        as (m' & Hm' & Hle & _).
      { rewrite fmap_app. apply elem_of_app. by left. }
      by rewrite Hm, Hm'. }
  intros m Hm. destruct (Hall m Hm) as [Hle|Hin]; [lia|].
  destruct (max_version_bounds (rows ++ added) (version m))
    as (m' & Hm' & Hle & _).
  { rewrite fmap_app. apply elem_of_app. by right. }
  by rewrite Hm'.
Qed.

End MigrationIdempotence.

Lemma migrations_idempotent_witness :
  Migrations.migrate_memory Migrations.migrated_database
  = Migrations.Returned (list string) 0 Migrations.migrated_database.
Proof.
  apply (migrations_idempotent _ _ _ _ Migrations.new_database
           Migrations.memory 1 Migrations.migrated_database).
  vm_compute. reflexivity.
Defined.

(** The first run on a new database applies the one embedded migration
    of the memory subsystem and records it. *)
Example first_run_applies_one :
  exists db,
    Migrations.migrate_memory Migrations.new_database
    = Migrations.Returned (list string) 1 db /\
    Migrations.applied_version <$>
      default [] (Migrations.tracking _ db !! "x_memory_migrations"%string)
    = [1%Z].
Proof. eexists. split; [by vm_compute|]. by vm_compute. Qed.

(* ===================================================================== *)
(** ** The chunk repository: keys, round trips, deletion *)
(* ===================================================================== *)

Section ChunkRepository.
Import Chunks.

Lemma insert_by_created_at_perm x (l : list ChunkRow) :
  insert_by_created_at x l ≡ₚ x :: l.
Proof.
  induction l as [|y l IH]; [done|]. simpl.
  destruct (created_at x <=? created_at y)%Z; [done|].
  rewrite IH. apply Permutation_swap.
Qed.

Lemma order_by_created_at_perm (l : list ChunkRow) :
  order_by_created_at l ≡ₚ l.
Proof.
  induction l as [|x l IH]; [done|]. simpl.
  by rewrite insert_by_created_at_perm, IH.
Qed.

Lemma order_by_created_at_elem (l : list ChunkRow) r :
  r ∈ order_by_created_at l <-> r ∈ l.
Proof. by rewrite order_by_created_at_perm. Qed.

Lemma rowToChunk_fmap (l : list ChunkRow) : rowToChunk <$> l = l.
Proof. apply list_fmap_id. Qed.

(** Two rows of a table with a primary key that have the same id are
    the same row. *)
Lemma primary_key_inj (db : list ChunkRow) r r' :
  primary_key db -> r ∈ db -> r' ∈ db -> id r = id r' -> r = r'.
Proof.
  unfold primary_key. induction db as [|x db IH]; [by intros _ ?%elem_of_nil|].
  rewrite fmap_cons. intros [Hx Hnd]%NoDup_cons.
  intros [->|Hr]%elem_of_cons [->|Hr']%elem_of_cons Hid; [done| | |by apply IH].
  - exfalso. apply Hx. rewrite Hid. by apply list_elem_of_fmap_2.
  - exfalso. apply Hx. rewrite <- Hid. by apply list_elem_of_fmap_2.
Qed.

Lemma getById_head i (db : list ChunkRow) :
  getById i db = head (select_by_id i db).
Proof. unfold getById. by destruct (head _). Qed.

Lemma getById_Some (db : list ChunkRow) i r :
  getById i db = Some r -> r ∈ db /\ id r = i.
Proof.
  rewrite getById_head. unfold select_by_id.
  intros H. apply head_Some in H as [l' Hl'].
  assert (Hin : r ∈ filter (fun r => id r = i) db) by (rewrite Hl'; by left).
  by apply list_elem_of_filter in Hin as [? ?].
Qed.

Lemma getById_elem (db : list ChunkRow) r :
  primary_key db -> r ∈ db -> getById (id r) db = Some r.
Proof.
  intros Hpk Hr.
  destruct (select_present (id r) db) as (r' & Hhead & Hin & Hid);
    [by apply list_elem_of_fmap_2|].
  rewrite getById_head, Hhead. f_equal.
  by apply (primary_key_inj db).
Qed.

Lemma getById_None (db : list ChunkRow) i :
  getById i db = None <-> i ∉ id <$> db.
Proof.
  rewrite getById_head. split.
  - intros Hnone Hin.
    destruct (select_present i db Hin) as (r & Hhead & _).
    by rewrite Hhead in Hnone.
  - intros Hout. by rewrite select_absent.
Qed.

Lemma getById_app_other (db : list ChunkRow) row j :
  j <> id row -> getById j (db ++ [row]) = getById j db.
Proof.
  intros Hne. rewrite !getById_head. unfold select_by_id.
  rewrite filter_app, filter_cons_False, filter_nil, app_nil_r; [done|].
  congruence.
Qed.

Lemma getById_fmap g i (db : list ChunkRow) :
  (forall r, id (g r) = id r) ->
  getById i (g <$> db) = g <$> getById i db.
Proof.
  intros Hg. rewrite !getById_head. by apply head_select_fmap.
Qed.

Lemma ids_fmap g (db : list ChunkRow) :
  (forall r, id (g r) = id r) -> id <$> (g <$> db) = id <$> db.
Proof.
  intros Hg. rewrite <- list_fmap_compose. apply list_fmap_ext.
  intros j r _. apply Hg.
Qed.

Lemma getById_app_old (db : list ChunkRow) row j :
  j ∈ id <$> db -> getById j (db ++ [row]) = getById j db.
Proof.
  intros Hin. rewrite !getById_head. unfold select_by_id.
  rewrite filter_app. fold (select_by_id j db).
  destruct (select_present j db Hin) as (r & Hhead & _).
  destruct (select_by_id j db); [done|]. done.
Qed.

Lemma foreign_key_iff (db : list ChunkRow) :
  foreign_key db <->
  (forall r p, r ∈ db -> parent_id r = Some p -> p ∈ id <$> db).
Proof.
  unfold foreign_key. rewrite Forall_forall. split.
  - intros H r p Hr Hp. specialize (H r Hr). by rewrite Hp in H.
  - intros H r Hr. destruct (parent_id r) as [p|] eqn:Hp; [|done].
    by apply (H r).
Qed.

Lemma primary_key_app (db : list ChunkRow) row :
  primary_key db -> id row ∉ id <$> db -> primary_key (db ++ [row]).
Proof.
  unfold primary_key. intros Hpk Hfresh. rewrite fmap_app.
  apply NoDup_app. split; [done|]. split.
  - intros i Hi [->|[]%elem_of_nil]%elem_of_cons. done.
  - apply NoDup_singleton.
Qed.

Lemma foreign_key_app (db : list ChunkRow) row :
  foreign_key db ->
  match parent_id row with Some p => p ∈ id <$> db | None => True end ->
  foreign_key (db ++ [row]).
Proof.
  rewrite !foreign_key_iff. intros Hfk Hrow r p Hr Hp.
  rewrite fmap_app, elem_of_app. left.
  apply elem_of_app in Hr as [Hr|[->|[]%elem_of_nil]%elem_of_cons].
  - by apply (Hfk r).
  - by rewrite Hp in Hrow.
Qed.

(** X1. [ChunkRepository.create] followed by [getById]. With a free id,
    and a parent that is null or names a stored chunk, [create] appends
    one active row that carries the input, [getById] reads that very
    chunk back, every other id reads as before and both key constraints
    still hold; with an id already taken it throws and leaves the table
    as it was. *)
Theorem create_then_getById input new_id now (db : list ChunkRow) :
  primary_key db -> foreign_key db ->
  match parentId input with Some p => p ∈ id <$> db | None => True end ->
  (new_id ∉ id <$> db ->
   exists chunk,
     create input new_id now db = Returned chunk (db ++ [chunk]) /\
     getById new_id (db ++ [chunk]) = Some chunk /\
     chunk = mkRow new_id (sessionId input) (parentId input)
               (default 0%Z (input_depth input)) None (input_content input)
               (input_summary input) active now None None None /\
     (forall j, j <> new_id -> getById j (db ++ [chunk]) = getById j db) /\
     primary_key (db ++ [chunk]) /\ foreign_key (db ++ [chunk])) /\
  (new_id ∈ id <$> db -> create input new_id now db = Threw SqliteConstraint db).
Proof.
  intros Hpk Hfk Hparent. split.
  - intros Hfresh. eexists. unfold create, insert. cbn [id].
    rewrite decide_False by done. split; [reflexivity|].
    set (row := mkRow new_id _ _ _ _ _ _ _ _ _ _ _).
    change new_id with (id row) in Hfresh |- *.
    split; [by apply getById_last|]. split; [done|].
    split; [intros j Hj; by apply getById_app_other|].
    split; [by apply primary_key_app|by apply foreign_key_app].
  - intros Htaken. unfold create, insert. cbn [id].
    by rewrite decide_True.
Qed.

Lemma create_then_getById_witness :
  exists chunk,
    create {| sessionId := "S"; input_content := summaryContent;
              parentId := Some "ch_a"%string; input_depth := None;
              input_summary := None |} "ch_d" 1700000200%Z scenario_db
    = Returned chunk (scenario_db ++ [chunk]) /\
    getById "ch_d" (scenario_db ++ [chunk]) = Some chunk /\
    chunk = mkRow "ch_d" "S" (Some "ch_a"%string) 0%Z None summaryContent
              None active 1700000200%Z None None None /\
    (forall j, j <> "ch_d"%string ->
       getById j (scenario_db ++ [chunk]) = getById j scenario_db) /\
    primary_key (scenario_db ++ [chunk]) /\
    foreign_key (scenario_db ++ [chunk]).
Proof.
  apply (proj1 (create_then_getById
                  {| sessionId := "S"; input_content := summaryContent;
                     parentId := Some "ch_a"%string; input_depth := None;
                     input_summary := None |} "ch_d" 1700000200%Z scenario_db
                  ltac:(by_decide) ltac:(by_decide) ltac:(simpl; by_decide))).
  by_decide.
Defined.

Lemma update_where_id_ids f i (db : list ChunkRow) :
  (forall r, id (f r) = id r) ->
  id <$> update_where_id f i db = id <$> db.
Proof.
  intros Hf. unfold update_where_id. apply ids_fmap.
  intros r. by destruct (decide (id r = i)).
Qed.

Lemma getById_update_where_id f i j (db : list ChunkRow) :
  (forall r, id (f r) = id r) ->
  getById j (update_where_id f i db)
  = (if decide (j = i) then f else fun r => r) <$> getById j db.
Proof.
  intros Hf. unfold update_where_id. rewrite getById_fmap
    by (intros r; by destruct (decide (id r = i))).
  destruct (getById j db) as [r|] eqn:Hr; [|done]. simpl.
  apply getById_Some in Hr as [_ <-].
  by destruct (decide (id r = i)).
Qed.

Lemma assign_id a r : id (assign a r) = id r.
Proof. by destruct a. Qed.

Lemma assignments_id l : forall r, id (foldl (fun r a => assign a r) r l) = id r.
Proof.
  induction l as [|a l IH]; intros r; [done|]. simpl.
  by rewrite IH, assign_id.
Qed.

(** X2. [ChunkRepository.update] on a stored chunk changes the fields
    that the input provides and nothing else: the returned chunk is the
    stored one with those fields replaced, it is what [getById] reads
    afterwards, every other id reads as before, and the ids of the table
    are the same. With no field provided the table is untouched. *)
Theorem update_changes_given_fields i input (db : list ChunkRow) existing :
  getById i db = Some existing ->
  exists chunk db',
    update i input db = (Some chunk, db') /\
    getById i db' = Some chunk /\
    chunk = mkRow i (session_id existing) (parent_id existing)
              (depth existing)
              (from_option Some (child_refs existing) (up_childRefs input))
              (default (content existing) (up_content input))
              (from_option Some (summary existing) (up_summary input))
              (default (status existing) (up_status input))
              (created_at existing)
              (from_option Some (finalized_at existing) (up_finalizedAt input))
              (from_option Some (compacted_at existing) (up_compactedAt input))
              (embedding existing) /\
    (forall j, j <> i -> getById j db' = getById j db) /\
    id <$> db' = id <$> db /\
    (input = Build_UpdateChunkInput None None None None None None ->
     db' = db).
Proof.
  intros Hex. unfold update. rewrite Hex.
  pose proof (getById_Some _ _ _ Hex) as [Hin Hid].
  destruct input as [c s st cr fa ca].
  cbn [up_content up_summary up_status up_childRefs up_finalizedAt
       up_compactedAt].
  destruct existing as [ei es ep ed ecr ec esu est ect efa eca ee].
  simpl in Hid. subst ei.
  destruct c, s, st, cr, fa, ca;
    cbn [pending app length Nat.eqb];
    (rewrite ?getById_update_where_id by apply assignments_id;
     rewrite ?Hex, ?decide_True by done;
     eexists _, _; split; [reflexivity|];
     rewrite ?getById_update_where_id by apply assignments_id;
     rewrite ?Hex, ?decide_True by done;
     split; [reflexivity|]; split; [reflexivity|];
     split;
     [intros other Hother;
      rewrite ?getById_update_where_id by apply assignments_id;
      rewrite ?decide_False by done; by destruct (getById other db)|];
     split; [by rewrite ?update_where_id_ids by apply assignments_id|];
     by intros [=]).
Qed.

Lemma update_changes_given_fields_witness :
  exists chunk db',
    update "ch_b"
      (Build_UpdateChunkInput None (Some "two"%string) (Some archived) None
         None None) scenario_db = (Some chunk, db') /\
    getById "ch_b" db' = Some chunk /\
    chunk = mkRow "ch_b" "S" None 1%Z None summaryContent
              (Some "two"%string) archived 1700000000%Z None None None /\
    (forall j, j <> "ch_b"%string -> getById j db' = getById j scenario_db) /\
    id <$> db' = id <$> scenario_db /\
    (Build_UpdateChunkInput None (Some "two"%string) (Some archived) None
       None None
     = Build_UpdateChunkInput None None None None None None ->
     db' = scenario_db).
Proof.
  apply (update_changes_given_fields "ch_b"
           (Build_UpdateChunkInput None (Some "two"%string) (Some archived)
              None None None) scenario_db (scenario_chunk "ch_b" 1)).
  reflexivity.
Defined.

Lemma clear_parent_id i r : id (clear_parent i r) = id r.
Proof. unfold clear_parent. by destruct (decide _). Qed.

Lemma ids_filter_ne i (db : list ChunkRow) :
  id <$> filter (fun r => id r <> i) db = filter (fun j => j <> i) (id <$> db).
Proof.
  induction db as [|r db IH]; [done|].
  rewrite fmap_cons, !filter_cons.
  destruct (decide (id r <> i)); by rewrite ?fmap_cons, IH.
Qed.

Lemma primary_key_filter (P : ChunkRow -> Prop) `{!forall x, Decision (P x)}
    (db : list ChunkRow) :
  primary_key db -> primary_key (filter P db).
Proof.
  unfold primary_key. intros Hpk.
  eapply sublist_NoDup; [exact Hpk|].
  apply fmap_sublist, sublist_filter.
Qed.

Lemma primary_key_fmap g (db : list ChunkRow) :
  (forall r, id (g r) = id r) -> primary_key db -> primary_key (g <$> db).
Proof. unfold primary_key. intros Hg Hpk. by rewrite ids_fmap. Qed.

Lemma getById_filter_other i j (db : list ChunkRow) :
  j <> i -> getById j (filter (fun r => id r <> i) db) = getById j db.
Proof.
  intros Hne. rewrite !getById_head. unfold select_by_id. f_equal.
  induction db as [|r db IH]; [done|].
  rewrite !filter_cons.
  destruct (decide (id r <> i)) as [Hr|Hr].
  - rewrite filter_cons. destruct (decide (id r = j)); by rewrite IH.
  - destruct (decide (id r = j)) as [Hj|Hj]; [|done].
    exfalso. apply Hr. congruence.
Qed.

Lemma delete_stored fk i (db : list ChunkRow) :
  i ∈ id <$> db -> delete fk i db = (true, after_delete fk i db).
Proof.
  intros Hin. unfold delete, after_delete.
  destruct (select_present i db Hin) as (r & Hhead & _).
  destruct (select_by_id i db) as [|x l]; [done|]. simpl.
  destruct fk; [done|]. by rewrite list_fmap_id.
Qed.

Lemma delete_missing fk i (db : list ChunkRow) :
  i ∉ id <$> db -> delete fk i db = (false, db).
Proof. intros Hout. unfold delete. by rewrite select_absent. Qed.

Lemma after_delete_ids fk i (db : list ChunkRow) :
  id <$> after_delete fk i db = filter (fun j => j <> i) (id <$> db).
Proof.
  unfold after_delete. rewrite ids_fmap.
  - apply ids_filter_ne.
  - intros r. destruct fk; [apply clear_parent_id|done].
Qed.

Lemma filter_ne_length (i : string) l :
  NoDup l -> i ∈ l -> S (length (filter (fun j => j <> i) l)) = length l.
Proof.
  induction l as [|x l IH]; [by intros _ ?%elem_of_nil|].
  intros [Hx Hnd]%NoDup_cons Hin. rewrite filter_cons.
  destruct (decide (x <> i)) as [Hne|Heq].
  - apply elem_of_cons in Hin as [->|Hin]; [done|].
    simpl. f_equal. by apply IH.
  - assert (x = i) as -> by (by destruct (decide (x = i))).
    simpl. f_equal. f_equal. clear IH Hin Hnd Heq.
    induction l as [|y l IH]; [done|].
    rewrite filter_cons.
    apply not_elem_of_cons in Hx as [Hy Hl].
    rewrite decide_True by done. by rewrite IH at 1.
Qed.

Lemma tree_after_delete i (db : list ChunkRow) :
  tree db -> tree (after_delete true i db).
Proof.
  intros (Hpk & Hfk & Hdo). unfold after_delete. split; [|split].
  - apply primary_key_fmap; [apply clear_parent_id|].
    by apply primary_key_filter.
  - rewrite foreign_key_iff in Hfk |- *. intros r' p Hr' Hp.
    fold (after_delete true i db). rewrite after_delete_ids.
    apply list_elem_of_fmap in Hr' as (r & -> & Hr).
    apply list_elem_of_filter in Hr as [Hne Hr].
    unfold clear_parent in Hp.
    destruct (decide (parent_id r = Some i)) as [Hi|Hi]; [done|].
    apply list_elem_of_filter. split; [congruence|]. by apply (Hfk r).
  - unfold depth_order in *. rewrite Forall_forall in Hdo |- *.
    intros c' Hc'. rewrite Forall_forall. intros p' Hp' Hparent.
    apply list_elem_of_fmap in Hc' as (c & -> & Hc).
    apply list_elem_of_fmap in Hp' as (p & -> & Hp).
    apply list_elem_of_filter in Hc as [_ Hc].
    apply list_elem_of_filter in Hp as [_ Hp].
    specialize (Hdo c Hc). rewrite Forall_forall in Hdo.
    specialize (Hdo p Hp). rewrite clear_parent_id in Hparent.
    assert (Hd : forall r, depth (clear_parent i r) = depth r)
      by (intros r; unfold clear_parent; by destruct (decide _)).
    rewrite !Hd. apply Hdo.
    unfold clear_parent in Hparent.
    by destruct (decide (parent_id c = Some i)).
Qed.

(** X3. [ChunkRepository.delete] of a stored chunk returns true and
    removes exactly that row: the id reads as absent afterwards, a second
    delete returns false and changes nothing, the other ids are the ones
    that were stored, in order, and each reads as before except that,
    with foreign keys on, a [parent_id] that named the deleted chunk is
    null. The primary key still holds; with foreign keys on, so do the
    other two properties of the tree. *)
Theorem delete_removes_one_row fk i (db : list ChunkRow) :
  primary_key db -> i ∈ id <$> db ->
  exists db',
    delete fk i db = (true, db') /\
    getById i db' = None /\
    delete fk i db' = (false, db') /\
    id <$> db' = filter (fun j => j <> i) (id <$> db) /\
    S (length db') = length db /\
    (forall j, j <> i ->
       getById j db'
       = (if fk then clear_parent i else fun r => r) <$> getById j db) /\
    primary_key db' /\
    (fk = true -> tree db -> tree db').
Proof.
  intros Hpk Hin. exists (after_delete fk i db).
  assert (Hout : i ∉ id <$> after_delete fk i db).
  { rewrite after_delete_ids. intros [? _]%list_elem_of_filter. done. }
  split; [by apply delete_stored|].
  split; [by apply getById_None|].
  split; [by apply delete_missing|].
  split; [apply after_delete_ids|].
  split.
  { rewrite <- (length_fmap id (after_delete fk i db)), after_delete_ids.
    rewrite <- (length_fmap id db). by apply filter_ne_length. }
  split.
  { intros j Hj. unfold after_delete. rewrite getById_fmap.
    - by rewrite getById_filter_other.
    - intros r. destruct fk; [apply clear_parent_id|done]. }
  split.
  { unfold after_delete. apply primary_key_fmap.
    - intros r. destruct fk; [apply clear_parent_id|done].
    - by apply primary_key_filter. }
  intros -> Htree. by apply tree_after_delete.
Qed.

Lemma delete_removes_one_row_witness :
  exists db',
    delete true "ch_new" scenario_compacted = (true, db') /\
    getById "ch_new" db' = None /\
    delete true "ch_new" db' = (false, db') /\
    id <$> db' = ["ch_a"; "ch_b"; "ch_c"]%string /\
    S (length db') = length scenario_compacted /\
    parent_id <$> db' = [None; None; None] /\
    tree db'.
Proof.
  destruct (delete_removes_one_row true "ch_new" scenario_compacted
              ltac:(by_decide) ltac:(by_decide))
    as (db' & Hdel & Hget & Hagain & Hids & Hlen & Hother & Hpk & Htree).
  exists db'. split; [exact Hdel|]. split; [exact Hget|].
  split; [exact Hagain|]. split; [exact Hids|]. split; [exact Hlen|].
  split; [by injection Hdel as <-|].
  apply Htree; [reflexivity|by_decide].
Defined.

(** Deleting the summary of scenario 5 leaves its three chunks as
    roots. *)
Example delete_summary_orphans_children :
  parent_id <$> snd (delete true "ch_new" scenario_compacted)
  = [None; None; None] /\
  parent_id <$> snd (delete false "ch_new" scenario_compacted)
  = [Some "ch_new"; Some "ch_new"; Some "ch_new"]%string.
Proof. split; by vm_compute. Qed.

Lemma depth_order_iff (db : list ChunkRow) :
  depth_order db <->
  (forall c p, c ∈ db -> p ∈ db -> parent_id c = Some (id p) ->
               (depth c < depth p)%Z).
Proof.
  unfold depth_order. rewrite Forall_forall. split.
  - intros H c p Hc Hp. specialize (H c Hc). rewrite Forall_forall in H.
    by apply H.
  - intros H c Hc. rewrite Forall_forall. intros p Hp. by apply H.
Qed.

(** A new root keeps the tree. *)
Lemma tree_app_root (db : list ChunkRow) row :
  tree db -> id row ∉ id <$> db -> parent_id row = None ->
  tree (db ++ [row]).
Proof.
  intros (Hpk & Hfk & Hdo) Hfresh Hroot. split; [|split].
  - by apply primary_key_app.
  - apply foreign_key_app; [done|]. by rewrite Hroot.
  - rewrite depth_order_iff in Hdo |- *. intros c p Hc Hp Hparent.
    apply elem_of_app in Hc as [Hc|[->|[]%elem_of_nil]%elem_of_cons];
      [|congruence].
    apply elem_of_app in Hp as [Hp|[->|[]%elem_of_nil]%elem_of_cons];
      [by apply Hdo|].
    exfalso. apply Hfresh.
    rewrite foreign_key_iff in Hfk. by apply (Hfk c).
Qed.

(** So does a change of the columns other than [id], [parent_id] and
    [depth]. *)
Lemma tree_fmap g (db : list ChunkRow) :
  (forall r, id (g r) = id r) ->
  (forall r, parent_id (g r) = parent_id r) ->
  (forall r, depth (g r) = depth r) ->
  tree db -> tree (g <$> db).
Proof.
  intros Hid Hparent Hdepth (Hpk & Hfk & Hdo). split; [|split].
  - by apply primary_key_fmap.
  - rewrite foreign_key_iff in Hfk |- *. intros r' p Hr' Hp.
    apply list_elem_of_fmap in Hr' as (r & -> & Hr).
    rewrite ids_fmap by done. rewrite Hparent in Hp. by apply (Hfk r).
  - rewrite depth_order_iff in Hdo |- *. intros c' p' Hc' Hp' Hpar.
    apply list_elem_of_fmap in Hc' as (c & -> & Hc).
    apply list_elem_of_fmap in Hp' as (p & -> & Hp).
    rewrite !Hdepth. rewrite Hparent, Hid in Hpar. by apply Hdo.
Qed.

Lemma assign_parent_depth a r :
  parent_id (assign a r) = parent_id r /\ depth (assign a r) = depth r.
Proof. by destruct a. Qed.

Lemma assignments_parent_depth l : forall r,
  parent_id (foldl (fun r a => assign a r) r l) = parent_id r /\
  depth (foldl (fun r a => assign a r) r l) = depth r.
Proof.
  induction l as [|a l IH]; intros r; [done|]. simpl.
  destruct (IH (assign a r)) as [-> ->]. apply assign_parent_depth.
Qed.

Lemma tree_update i input (db : list ChunkRow) :
  tree db -> tree (snd (update i input db)).
Proof.
  intros Htree. unfold update.
  destruct (getById i db); [|done].
  destruct (length _ =? 0); [done|]. cbn [snd].
  unfold update_where_id. apply tree_fmap; [| | |done]; intros r;
    destruct (decide (id r = i)); try done.
  - apply assignments_id.
  - apply assignments_parent_depth.
  - apply assignments_parent_depth.
Qed.

Lemma tree_delete i (db : list ChunkRow) :
  tree db -> tree (snd (delete true i db)).
Proof.
  intros Htree. destruct (decide (i ∈ id <$> db)).
  - rewrite delete_stored by done. by apply tree_after_delete.
  - by rewrite delete_missing.
Qed.

Lemma tree_compactChunks (db : list ChunkRow) sessionId chunkIds summary
    summaryId now :
  tree db ->
  (forall r, r ∈ db -> id r ∈ chunkIds -> safe_depth (depth r)) ->
  tree (table_after (compactChunks db sessionId chunkIds summary summaryId now)).
Proof.
  intros Htree. pose proof Htree as (Hpk & Hfk & Hdo).
  destruct chunkIds as [|c0 ids0] eqn:Hids; [done|]. rewrite <- Hids.
  assert (Hne : chunkIds <> []) by (by rewrite Hids).
  clear Hids. intros Hsafe.
  destruct (decide (NoDup chunkIds /\
                    Forall (fun i => i ∈ id <$> db) chunkIds))
    as [[Hnd Hall]|Hbad].
  2: { rewrite compact_not_found; [done..|].
       intros [? ?]. apply Hbad. split; [done|]. by apply Forall_forall. }
  rewrite Forall_forall in Hall.
  rewrite compact_accepted by done.
  destruct (decide (summaryId ∈ id <$> db)) as [Htaken|Hfresh]; [done|].
  cbn [table_after].
  set (summaryRow := mkRow summaryId _ _ _ _ _ _ _ _ _ _ _).
  set (g := fun r => if decide (id r ∈ chunkIds)
                     then mark_compacted summaryId now r else r).
  assert (Hgid : forall r, id (g r) = id r)
    by (intros r; unfold g; by destruct (decide _)).
  assert (Hgdepth : forall r, depth (g r) = depth r)
    by (intros r; unfold g; by destruct (decide _)).
  assert (Hsum : summaryId ∉ chunkIds) by (intros H; by apply Hfresh, Hall).
  split; [|split].
  - apply primary_key_fmap; [done|]. by apply primary_key_app.
  - rewrite foreign_key_iff in Hfk |- *. intros r' p Hr' Hp.
    rewrite ids_fmap by done. rewrite fmap_app, elem_of_app.
    apply list_elem_of_fmap in Hr' as (r & -> & Hr).
    unfold g in Hp. destruct (decide (id r ∈ chunkIds)) as [Hin|Hout].
    + simpl in Hp. injection Hp as <-. right. by left.
    + apply elem_of_app in Hr as [Hr|[->|[]%elem_of_nil]%elem_of_cons];
        [|done].
      left. by apply (Hfk r).
  - rewrite depth_order_iff in Hdo |- *. intros c' p' Hc' Hp' Hpar.
    apply list_elem_of_fmap in Hc' as (c & -> & Hc).
    apply list_elem_of_fmap in Hp' as (p & -> & Hp).
    rewrite !Hgdepth. rewrite Hgid in Hpar.
    unfold g in Hpar. destruct (decide (id c ∈ chunkIds)) as [Hin|Hout].
    + simpl in Hpar. injection Hpar as Hpid.
      apply elem_of_app in Hc as [Hc|[->|[]%elem_of_nil]%elem_of_cons];
        [|done].
      apply elem_of_app in Hp as [Hp|[->|[]%elem_of_nil]%elem_of_cons].
      { exfalso. apply Hfresh. rewrite Hpid. by apply list_elem_of_fmap_2. }
      cbn [depth].
      destruct (Math_max_spec (read_depth <$> select_by_ids chunkIds db))
        as [Hmax Hle].
      { assert (Hsel : c ∈ select_by_ids chunkIds db)
          by (by apply elem_of_select_by_ids).
        intros Hnil. apply fmap_nil_inv in Hnil. rewrite Hnil in Hsel.
        by apply elem_of_nil in Hsel. }
      assert (read_depth c
              <= Math_max (read_depth <$> select_by_ids chunkIds db))%Z.
      { apply Hle. apply list_elem_of_fmap_2.
        by apply elem_of_select_by_ids. }
      apply list_elem_of_fmap in Hmax as (deepest & Hdeepest & Hsel).
      apply elem_of_select_by_ids in Hsel as [Hlisted Hstored].
      pose proof (read_depth_safe c (Hsafe c Hc Hin)) as Ec.
      pose proof (read_depth_safe deepest (Hsafe deepest Hstored Hlisted))
        as Ed.
      unfold summaryRow. cbn [depth].
      rewrite Hdeepest, Ed, js_add_safe by (by apply Hsafe).
      rewrite Hdeepest, Ec, Ed in H. lia.
    + apply elem_of_app in Hc as [Hc|[->|[]%elem_of_nil]%elem_of_cons];
        [|done].
      apply elem_of_app in Hp as [Hp|[->|[]%elem_of_nil]%elem_of_cons];
        [by apply Hdo|].
      exfalso. apply Hfresh.
      rewrite foreign_key_iff in Hfk. by apply (Hfk c).
Qed.

Lemma tree_create_root input new_id now (db : list ChunkRow) :
  parentId input = None ->
  tree db -> tree (table_after (create input new_id now db)).
Proof.
  intros Hroot Htree. unfold create, insert. cbn [id].
  destruct (decide (new_id ∈ id <$> db)); [done|].
  cbn [table_after]. by apply tree_app_root.
Qed.

Lemma tree_finalize sid new_id created now t (db : list ChunkRow) :
  tree db -> tree (table_after (snd (finalize sid new_id created now t db))).
Proof.
  intros Htree. unfold finalize.
  destruct (length _ =? 0); [done|].
  match goal with
  | |- context [create ?input new_id created db] =>
      pose proof (tree_create_root input new_id created db eq_refl Htree) as Hc;
      destruct (create input new_id created db) as [e db1|chunk db1]
  end; [done|].
  cbn [table_after] in Hc.
  match goal with
  | |- context [update ?i ?input db1] =>
      pose proof (tree_update i input db1 Hc) as Hu;
      destruct (update i input db1) as [finalized db2]
  end.
  done.
Qed.

Lemma tree_deletes (l : list ChunkRow) : forall n (db : list ChunkRow),
  tree db ->
  tree (snd (foldl (fun '(deleted, d) chunk =>
                      let '(ok, d') := delete true (id chunk) d in
                      (if ok then S deleted else deleted, d'))
                   (n, db) l)).
Proof.
  induction l as [|c l IH]; intros n db Htree; [done|]. simpl.
  pose proof (tree_delete (id c) db Htree) as Hd.
  destruct (delete true (id c) db) as [ok d']. by apply IH.
Qed.

(** X4. Every operation that changes the table keeps it a tree: unique
    ids, [parent_id] null or naming a stored chunk, and every parent
    deeper than its children. This holds for the chunk that
    [ChunkService.create] and [finalize] add, for [update], for [delete]
    and [deleteSession] under foreign keys, whatever their arguments and
    whether they return or throw; and for [compactChunks] and
    [ChunkService.compact] when the depths of the chunks to compact are
    below 2^53 in absolute value, where the depth of the summary is
    computed exactly. (At 2^53 the summary gets the depth of its child:
    [compact_at_2_53].) *)
Theorem mutations_keep_tree (db : list ChunkRow) :
  tree db ->
  (forall session content new_id now,
     tree (table_after
             (create {| sessionId := session; input_content := content;
                        parentId := None; input_depth := None;
                        input_summary := None |} new_id now db))) /\
  (forall session new_id created now t,
     tree (table_after (snd (finalize session new_id created now t db)))) /\
  (forall i input, tree (snd (update i input db))) /\
  (forall i, tree (snd (delete true i db))) /\
  (forall session t, tree (snd (deleteSession true session t db))) /\
  (forall session chunkIds summary summaryId now,
     (forall r, r ∈ db -> id r ∈ chunkIds -> safe_depth (depth r)) ->
     tree (table_after
             (compactChunks db session chunkIds summary summaryId now))) /\
  (forall session summary summaryId now,
     (forall r, r ∈ db -> session_id r = session -> status r = active ->
                safe_depth (depth r)) ->
     tree (table_after (compact session summary summaryId now db))).
Proof.
  intros Htree. split_and!.
  - intros. by apply tree_create_root.
  - intros. by apply tree_finalize.
  - intros. by apply tree_update.
  - intros. by apply tree_delete.
  - intros session t. unfold deleteSession.
    pose proof (tree_deletes (getBySession session None db) 0 db Htree) as H.
    destruct (foldl _ _ _) as [deleted db']. done.
  - intros. by apply tree_compactChunks.
  - intros session summary summaryId now Hsafe. unfold compact.
    destruct (length _ =? 0); [done|].
    assert (Hlisted : forall r, r ∈ db ->
              id r ∈ id <$> getActiveChunks session db ->
              safe_depth (depth r)).
    { intros r Hr (r' & Hid & Hr')%list_elem_of_fmap.
      unfold getActiveChunks, getBySession in Hr'.
      rewrite rowToChunk_fmap, order_by_created_at_elem in Hr'.
      apply list_elem_of_filter in Hr' as [Hactive Hr'].
      apply list_elem_of_filter in Hr' as [Hsession Hr'].
      destruct Htree as (Hpk & _ & _).
      rewrite (primary_key_inj db r r' Hpk Hr Hr' Hid). by apply Hsafe. }
    pose proof (tree_compactChunks db session
                  (id <$> getActiveChunks session db) summary summaryId now
                  Htree Hlisted) as H.
    by destruct (compactChunks _ _ _ _ _ _).
Qed.

Lemma mutations_keep_tree_witness :
  (forall session content new_id now,
     tree (table_after
             (create {| sessionId := session; input_content := content;
                        parentId := None; input_depth := None;
                        input_summary := None |} new_id now
                scenario_compacted))) /\
  (forall session new_id created now t,
     tree (table_after
             (snd (finalize session new_id created now t scenario_compacted)))) /\
  (forall i input, tree (snd (update i input scenario_compacted))) /\
  (forall i, tree (snd (delete true i scenario_compacted))) /\
  (forall session t,
     tree (snd (deleteSession true session t scenario_compacted))) /\
  (forall session chunkIds summary summaryId now,
     (forall r, r ∈ scenario_compacted -> id r ∈ chunkIds ->
                safe_depth (depth r)) ->
     tree (table_after
             (compactChunks scenario_compacted session chunkIds summary
                summaryId now))) /\
  (forall session summary summaryId now,
     (forall r, r ∈ scenario_compacted -> session_id r = session ->
                status r = active -> safe_depth (depth r)) ->
     tree (table_after
             (compact session summary summaryId now scenario_compacted))).
Proof. apply (mutations_keep_tree scenario_compacted). by_decide. Defined.

(** A chunk of depth 2^53 and its summary: the table is a tree before
    the compaction and not after it, parent and child having one depth. *)
Example compact_at_2_53 :
  let db := [scenario_chunk "ch_a" (2 ^ 53)] in
  tree db /\
  ~ tree (table_after
            (compactChunks db "S" ["ch_a"%string] "summary" "ch_new"
               1700000100%Z)).
Proof. split; by_decide. Qed.

End ChunkRepository.

(* ===================================================================== *)
(** ** Descendants, expansion and the end of every tree query *)
(* ===================================================================== *)

Section Descendants.
Import Chunks.

(** More fuel does not change the result of the recursive query. *)
Lemma recursive_cte_more step : forall fuel queue rows fuel',
  recursive_cte fuel step queue = Some rows -> fuel <= fuel' ->
  recursive_cte fuel' step queue = Some rows.
Proof.
  induction fuel as [|fuel IH]; intros queue rows fuel' Hrun Hle.
  - destruct queue; [|done]. simpl in Hrun. by destruct fuel'.
  - destruct queue as [|r q]; [by destruct fuel'|].
    destruct fuel' as [|fuel']; [lia|]. simpl in *.
    destruct (recursive_cte fuel step (q ++ step r)) as [rest|] eqn:Hrest;
      [|done].
    rewrite (IH _ rest fuel') by (done || lia). done.
Qed.

(** The query takes the rows of its queue in order and queues their
    joined rows behind them. *)
Lemma recursive_cte_level step : forall q acc fuel rows,
  recursive_cte fuel step (acc ++ (q ≫= step)) = Some rows ->
  recursive_cte (length q + fuel) step (q ++ acc) = Some (q ++ rows).
Proof.
  induction q as [|r q IH]; intros acc fuel rows Hrun.
  - simpl in *. by rewrite app_nil_r in Hrun.
  - simpl. rewrite <- app_assoc.
    rewrite (IH (acc ++ step r) fuel rows); [done|].
    rewrite <- app_assoc. exact Hrun.
Qed.

Lemma cte_follows_levels db : forall k level rows,
  levels_from k db level = Some rows ->
  recursive_cte (length rows) (children_of db) level = Some rows.
Proof.
  induction k as [|k IH]; intros level rows Hlev.
  - destruct level; [|done]. simpl in Hlev. by injection Hlev as <-.
  - destruct level as [|d level]; [simpl in Hlev; by injection Hlev as <-|].
    cbn [levels_from] in Hlev.
    destruct (levels_from k db ((d :: level) ≫= children_of db))
      as [below|] eqn:Hbelow; [|done].
    simpl in Hlev. injection Hlev as <-.
    apply IH in Hbelow.
    pose proof (recursive_cte_level (children_of db) (d :: level) []
                  (length below) below Hbelow) as H.
    rewrite app_nil_r in H.
    change (d :: level ++ below) with ((d :: level) ++ below).
    by rewrite length_app.
Qed.

(** Rows in ascending order of level stay as they are under
    [ORDER BY level ASC]. *)
Lemma order_by_level_asc_sorted (l : list (ChunkRow * Z)) :
  Sorted (fun a b => (snd a <= snd b)%Z) l -> order_by_level_asc l = l.
Proof.
  induction 1 as [|x l Hs IH Hhd]; [done|].
  unfold order_by_level_asc in *. simpl. rewrite IH.
  destruct Hhd as [|y l Hxy]; [done|]. simpl.
  by rewrite (proj2 (Z.leb_le _ _) Hxy).
Qed.

Lemma children_of_level db d c : c ∈ children_of db d -> snd c = (snd d + 1)%Z.
Proof. unfold children_of. by intros (r & -> & _)%list_elem_of_fmap. Qed.

Lemma levels_from_sorted db : forall k level n rows,
  Forall (fun d => snd d = n) level ->
  levels_from k db level = Some rows ->
  Sorted (fun a b => (snd a <= snd b)%Z) rows /\
  Forall (fun d => (n <= snd d)%Z) rows.
Proof.
  induction k as [|k IH]; intros level n rows Hn Hlev.
  - destruct level; [|done]. simpl in Hlev. injection Hlev as <-.
    split; constructor.
  - destruct level as [|d level]; [simpl in Hlev; injection Hlev as <-;
                                   split; constructor|].
    cbn [levels_from] in Hlev.
    destruct (levels_from k db ((d :: level) ≫= children_of db))
      as [below|] eqn:Hbelow; [|done].
    simpl in Hlev. injection Hlev as <-.
    destruct (IH ((d :: level) ≫= children_of db) (n + 1)%Z below)
      as [Hsorted Habove]; [|done|].
    { apply Forall_forall. intros c Hc.
      apply list_elem_of_bind in Hc as (d' & Hc & Hd').
      rewrite Forall_forall in Hn. rewrite <- (Hn d' Hd').
      by apply (children_of_level db). }
    change (d :: level ++ below) with ((d :: level) ++ below).
    generalize dependent (d :: level). intros lev Hn _.
    induction lev as [|x lev IHlev]; simpl.
    + split; [done|]. eapply Forall_impl; [exact Habove|].
      intros y Hy. simpl in Hy. lia.
    + apply Forall_cons in Hn as [Hx Hn].
      destruct (IHlev Hn) as [Hs Hall]. split.
      * constructor; [done|].
        destruct (lev ++ below) as [|y rest] eqn:Hrest; constructor.
        apply Forall_cons in Hall as [Hy _]. lia.
      * constructor; [lia|done].
Qed.

Lemma levels_from_split db k level rows :
  levels_from k db level = Some rows ->
  exists below,
    rows = level ++ below /\
    (level <> [] ->
     exists k', k = S k' /\
                levels_from k' db (level ≫= children_of db) = Some below).
Proof.
  intros Hlev. destruct level as [|d level].
  - exists []. destruct k; simpl in Hlev; injection Hlev as <-; by split.
  - destruct k as [|k]; [done|]. cbn [levels_from] in Hlev.
    destruct (levels_from k db ((d :: level) ≫= children_of db))
      as [below|] eqn:Hbelow; [|done].
    simpl in Hlev. injection Hlev as <-.
    exists below. split; [done|]. intros _. by exists k.
Qed.

(** The rows of the enumeration are the rows of its first level and the
    rows joined to the rows of the enumeration, and all of those. *)
Lemma levels_from_sound db : forall k level rows d,
  levels_from k db level = Some rows -> d ∈ rows ->
  d ∈ level \/ exists p, p ∈ rows /\ d ∈ children_of db p.
Proof.
  induction k as [|k IH]; intros level rows d Hlev Hd.
  - destruct level; [|done]. simpl in Hlev. injection Hlev as <-.
    by apply elem_of_nil in Hd.
  - destruct (levels_from_split _ _ _ _ Hlev) as (below & -> & Hnext).
    apply elem_of_app in Hd as [Hd|Hd]; [by left|]. right.
    destruct level as [|x level];
      [destruct (levels_from_split _ _ _ _ Hlev) as (b & Hb & _);
       simpl in Hlev; injection Hlev as <-; by apply elem_of_nil in Hd|].
    destruct Hnext as (k' & [= <-] & Hbelow); [done|].
    destruct (IH _ _ d Hbelow Hd) as [Hin|(p & Hp & Hc)].
    + apply list_elem_of_bind in Hin as (p & Hc & Hp).
      exists p. split; [|done]. apply elem_of_app. by left.
    + exists p. split; [|done]. apply elem_of_app. by right.
Qed.

Lemma levels_from_complete db : forall k level rows p c,
  levels_from k db level = Some rows -> p ∈ rows ->
  c ∈ children_of db p -> c ∈ rows.
Proof.
  induction k as [|k IH]; intros level rows p c Hlev Hp Hc.
  - destruct level; [|done]. simpl in Hlev. injection Hlev as <-.
    by apply elem_of_nil in Hp.
  - destruct (levels_from_split _ _ _ _ Hlev) as (below & -> & Hnext).
    destruct level as [|x level].
    { simpl in Hlev. injection Hlev as Hb. simpl in Hb. subst below.
      by apply elem_of_nil in Hp. }
    destruct Hnext as (k' & [= <-] & Hbelow); [done|].
    apply elem_of_app. right.
    apply elem_of_app in Hp as [Hp|Hp].
    + destruct (levels_from_split _ _ _ _ Hbelow) as (below' & -> & _).
      apply elem_of_app. left. apply list_elem_of_bind. by exists p.
    + by apply (IH _ _ p c Hbelow).
Qed.

Lemma getDescendants_levels (db : list ChunkRow) chunkId k rows :
  levels_from k db ((fun c => (c, 0%Z)) <$> select_by_id chunkId db)
  = Some rows ->
  forall fuel, length rows <= fuel ->
    getDescendants fuel db chunkId = Some rows.
Proof.
  intros Hlev fuel Hfuel. unfold getDescendants.
  rewrite (recursive_cte_more _ (length rows) _ rows fuel);
    [|by apply (cte_follows_levels db k)|done].
  simpl. f_equal. apply order_by_level_asc_sorted.
  eapply (levels_from_sorted db k _ 0%Z); [|exact Hlev].
  apply Forall_forall. by intros d (c & -> & _)%list_elem_of_fmap.
Qed.

Lemma levels_from_head (db : list ChunkRow) chunkId k rows start :
  levels_from k db ((fun c => (c, 0%Z)) <$> select_by_id chunkId db)
  = Some rows ->
  getById chunkId db = Some start -> head rows = Some (start, 0%Z).
Proof.
  intros Hlev Hstart. rewrite getById_head in Hstart.
  destruct (levels_from_split _ _ _ _ Hlev) as (below & -> & _).
  destruct (select_by_id chunkId db) as [|x l]; [done|].
  simpl in Hstart. by injection Hstart as ->.
Qed.

(** X5. [getDescendants] returns the subtree of a chunk level by level:
    the chunk itself at level 0, then the rows whose [parent_id] names a
    row of the level before, each one level below its parent. Whenever
    that enumeration reaches an empty level, the query, given fuel for its
    rows, returns exactly it; every returned row is the chunk or a child
    of a returned row, every child of a returned row is returned, and
    [expand] with children returns the same chunks without their
    levels. *)
Theorem descendants_level_by_level (db : list ChunkRow) chunkId k rows :
  levels_from k db ((fun c => (c, 0%Z)) <$> select_by_id chunkId db)
  = Some rows ->
  (forall fuel, length rows <= fuel ->
     getDescendants fuel db chunkId = Some rows /\
     (chunkId ∈ id <$> db ->
      expand fuel chunkId true db = Some (fst <$> rows))) /\
  (forall d, d ∈ rows ->
     d.1 ∈ db /\
     (id d.1 = chunkId /\ d.2 = 0%Z \/
      exists p, p ∈ rows /\ parent_id d.1 = Some (id p.1) /\
                d.2 = (p.2 + 1)%Z)) /\
  (forall p c, p ∈ rows -> c ∈ db -> parent_id c = Some (id p.1) ->
               (c, (p.2 + 1)%Z) ∈ rows) /\
  (forall start, getById chunkId db = Some start ->
                 head rows = Some (start, 0%Z)).
Proof.
  intros Hlev.
  pose proof (getDescendants_levels db chunkId k rows Hlev) as Hrun.
  split_and!.
  - intros fuel Hfuel. split; [by apply Hrun|].
    intros Hin. unfold expand.
    destruct (getById chunkId db) eqn:Hget;
      [|by apply getById_None in Hget].
    simpl. by rewrite Hrun.
  - intros d Hd.
    destruct (levels_from_sound _ _ _ _ d Hlev Hd) as [Hstart|(p & Hp & Hc)].
    + apply list_elem_of_fmap in Hstart as (c & -> & Hc).
      apply list_elem_of_filter in Hc as [Hid Hc]. split; [done|]. by left.
    + unfold children_of in Hc.
      apply list_elem_of_fmap in Hc as (c & -> & Hc).
      apply list_elem_of_filter in Hc as [Hparent Hc]. split; [done|].
      right. by exists p.
  - intros p c Hp Hc Hparent.
    eapply (levels_from_complete db k _ rows p); [exact Hlev|done|].
    unfold children_of. apply list_elem_of_fmap.
    exists c. split; [done|]. by apply list_elem_of_filter.
  - intros start Hstart. by apply (levels_from_head db chunkId k).
Qed.

Lemma descendants_level_by_level_witness :
  (forall fuel,
     length [(scenario_summary, 0%Z); (scenario_child "ch_a" 0, 1%Z);
             (scenario_child "ch_b" 1, 1%Z); (scenario_child "ch_c" 2, 1%Z)]
     <= fuel ->
     getDescendants fuel scenario_compacted "ch_new"
     = Some [(scenario_summary, 0%Z); (scenario_child "ch_a" 0, 1%Z);
             (scenario_child "ch_b" 1, 1%Z); (scenario_child "ch_c" 2, 1%Z)] /\
     ("ch_new"%string ∈ id <$> scenario_compacted ->
      expand fuel "ch_new" true scenario_compacted
      = Some (fst <$>
              [(scenario_summary, 0%Z); (scenario_child "ch_a" 0, 1%Z);
               (scenario_child "ch_b" 1, 1%Z);
               (scenario_child "ch_c" 2, 1%Z)]))) /\
  (forall d,
     d ∈ [(scenario_summary, 0%Z); (scenario_child "ch_a" 0, 1%Z);
          (scenario_child "ch_b" 1, 1%Z); (scenario_child "ch_c" 2, 1%Z)] ->
     d.1 ∈ scenario_compacted /\
     (id d.1 = "ch_new"%string /\ d.2 = 0%Z \/
      exists p,
        p ∈ [(scenario_summary, 0%Z); (scenario_child "ch_a" 0, 1%Z);
             (scenario_child "ch_b" 1, 1%Z); (scenario_child "ch_c" 2, 1%Z)] /\
        parent_id d.1 = Some (id p.1) /\ d.2 = (p.2 + 1)%Z)) /\
  (forall p c,
     p ∈ [(scenario_summary, 0%Z); (scenario_child "ch_a" 0, 1%Z);
          (scenario_child "ch_b" 1, 1%Z); (scenario_child "ch_c" 2, 1%Z)] ->
     c ∈ scenario_compacted -> parent_id c = Some (id p.1) ->
     (c, (p.2 + 1)%Z)
     ∈ [(scenario_summary, 0%Z); (scenario_child "ch_a" 0, 1%Z);
        (scenario_child "ch_b" 1, 1%Z); (scenario_child "ch_c" 2, 1%Z)]) /\
  (forall start, getById "ch_new" scenario_compacted = Some start ->
                 head [(scenario_summary, 0%Z); (scenario_child "ch_a" 0, 1%Z);
                       (scenario_child "ch_b" 1, 1%Z);
                       (scenario_child "ch_c" 2, 1%Z)]
                 = Some (start, 0%Z)).
Proof.
  apply (descendants_level_by_level scenario_compacted "ch_new" 3).
  vm_compute. reflexivity.
Defined.

Lemma depth_bounds (db : list ChunkRow) :
  exists lo hi, forall r, r ∈ db -> (lo <= depth r <= hi)%Z.
Proof.
  induction db as [|x db (lo & hi & IH)].
  - exists 0%Z, 0%Z. by intros r ?%elem_of_nil.
  - exists (Z.min lo (depth x)), (Z.max hi (depth x)).
    intros r [->|Hr]%elem_of_cons; [lia|]. specialize (IH r Hr). lia.
Qed.

Lemma levels_from_ends (db : list ChunkRow) lo :
  depth_order db -> (forall r, r ∈ db -> (lo <= depth r)%Z) ->
  forall k level,
    Forall (fun d => d.1 ∈ db /\ Z.to_nat (depth d.1 - lo) < k) level ->
    is_Some (levels_from k db level).
Proof.
  intros Hdo Hlo. rewrite depth_order_iff in Hdo.
  induction k as [|k IH]; intros level Hlevel.
  - destruct level as [|d level]; [by eexists|].
    apply Forall_cons in Hlevel as [[_ ?] _]. lia.
  - destruct level as [|d level]; [by eexists|]. cbn [levels_from].
    destruct (IH ((d :: level) ≫= children_of db)) as [below Hbelow].
    { apply Forall_forall. intros c Hc.
      apply list_elem_of_bind in Hc as (p & Hc & Hp).
      rewrite Forall_forall in Hlevel. destruct (Hlevel p Hp) as [Hpdb Hpk].
      unfold children_of in Hc.
      apply list_elem_of_fmap in Hc as (c' & -> & Hc).
      apply list_elem_of_filter in Hc as [Hparent Hc]. simpl.
      split; [done|].
      specialize (Hdo c' p.1 Hc Hpdb Hparent).
      specialize (Hlo c' Hc). lia. }
    rewrite Hbelow. by eexists.
Qed.

Lemma parent_chain_ends (db : list ChunkRow) hi :
  depth_order db -> (forall r, r ∈ db -> (depth r <= hi)%Z) ->
  forall k r, r ∈ db -> Z.to_nat (hi - depth r) < k ->
              is_Some (parent_chain k db (Some r)).
Proof.
  intros Hdo Hhi. rewrite depth_order_iff in Hdo.
  induction k as [|k IH]; intros r Hr Hk; [lia|].
  simpl. destruct (parent_id r) as [p|] eqn:Hp; simpl.
  - destruct (head (select_by_id p db)) as [c|] eqn:Hc.
    + destruct (IH c) as [chain Hchain].
      { apply head_Some in Hc as [l' Hl'].
        assert (Hin : c ∈ select_by_id p db) by (rewrite Hl'; by left).
        by apply list_elem_of_filter in Hin as [_ ?]. }
      { apply head_Some in Hc as [l' Hl'].
        assert (Hin : c ∈ select_by_id p db) by (rewrite Hl'; by left).
        apply list_elem_of_filter in Hin as [Hid Hin].
        assert (depth r < depth c)%Z by (apply Hdo; congruence || done).
        specialize (Hhi c Hin). lia. }
      rewrite Hchain. by eexists.
    + destruct k; by eexists.
  - destruct k; by eexists.
Qed.

(** X6. On a table with unique ids in which every parent is deeper than
    its children, as the operations of the service leave it, the two
    recursive queries end: for every chunk id [getAncestors] and
    [getDescendants] return, given fuel for their rows, and for a stored
    chunk the ancestors end with it and the descendants start with it,
    both at level 0. *)
Theorem tree_queries_end (db : list ChunkRow) chunkId :
  primary_key db -> depth_order db ->
  exists up down,
    (forall fuel, length up <= fuel ->
       getAncestors fuel db chunkId = Some up /\
       getFullContext fuel db chunkId = Some (fst <$> up)) /\
    (forall fuel, length down <= fuel ->
       getDescendants fuel db chunkId = Some down) /\
    (forall start, getById chunkId db = Some start ->
       last up = Some (start, 0%Z) /\ head down = Some (start, 0%Z)).
Proof.
  intros Hpk Hdo.
  destruct (depth_bounds db) as (lo & hi & Hb).
  assert (Hdown : exists k down,
            levels_from k db ((fun c => (c, 0%Z)) <$> select_by_id chunkId db)
            = Some down).
  { exists (S (Z.to_nat (hi - lo))).
    apply (levels_from_ends db lo); [done|intros r Hr; by apply Hb|].
    apply Forall_forall. intros d (c & -> & Hc)%list_elem_of_fmap.
    apply list_elem_of_filter in Hc as [_ Hc]. simpl. split; [done|].
    specialize (Hb c Hc). lia. }
  destruct Hdown as (k & down & Hdown).
  destruct (decide (chunkId ∈ id <$> db)) as [Hin|Hout].
  - destruct (select_present chunkId db Hin) as (start & Hhead & Hsdb & Hid).
    destruct (parent_chain_ends db hi Hdo (fun r Hr => proj2 (Hb r Hr))
                (S (Z.to_nat (hi - depth start))) start Hsdb)
      as [chain Hchain]; [lia|].
    exists (reverse (with_levels 0 chain)), down.
    assert (Hup : forall fuel, length (reverse (with_levels 0 chain)) <= fuel ->
              getAncestors fuel db chunkId
              = Some (reverse (with_levels 0 chain))).
    { intros fuel Hfuel. unfold getAncestors.
      rewrite (select_by_id_unique chunkId db Hpk), Hhead.
      change ((fun c => (c, 0%Z)) <$> [start]) with (queue_of (Some start) 0).
      rewrite (cte_follows_chain db Hpk _ (Some start) chain 0 fuel Hchain).
      - simpl. by rewrite order_chain_desc.
      - rewrite length_reverse in Hfuel.
        assert (Hlen : forall l n, length (with_levels n l) = length l).
        { induction l as [|x l IH]; intros n; [done|]. simpl. by rewrite IH. }
        by rewrite Hlen in Hfuel. }
    split_and!.
    + intros fuel Hfuel. split; [by apply Hup|].
      unfold getFullContext. by rewrite Hup.
    + by apply (getDescendants_levels db chunkId k).
    + intros start' Hstart'. rewrite getById_head, Hhead in Hstart'.
      injection Hstart' as <-. split.
      * simpl in Hchain.
        destruct (parent_chain _ db _) as [rest|]; [|done].
        simpl in Hchain. injection Hchain as <-. simpl.
        rewrite reverse_cons. apply last_snoc.
      * apply (levels_from_head db chunkId k); [done|].
        by rewrite getById_head.
  - exists [], down. split_and!.
    + intros fuel _. unfold getFullContext, getAncestors.
      rewrite select_absent by done. by destruct fuel.
    + by apply (getDescendants_levels db chunkId k).
    + intros start Hstart. by apply getById_None in Hout; congruence.
Qed.

Lemma tree_queries_end_witness :
  exists up down,
    (forall fuel, length up <= fuel ->
       getAncestors fuel scenario_compacted "ch_b" = Some up /\
       getFullContext fuel scenario_compacted "ch_b" = Some (fst <$> up)) /\
    (forall fuel, length down <= fuel ->
       getDescendants fuel scenario_compacted "ch_b" = Some down) /\
    (forall start, getById "ch_b" scenario_compacted = Some start ->
       last up = Some (start, 0%Z) /\ head down = Some (start, 0%Z)).
Proof.
  apply (tree_queries_end scenario_compacted "ch_b"); by_decide.
Defined.

End Descendants.

(* ===================================================================== *)
(** ** The chunk service: compaction of a session, deletion of a session,
       finalization *)
(* ===================================================================== *)

Section Service.
Import Chunks.

Lemma filter_fmap_elem {A B} (g : A -> B) (P : B -> Prop) (Q : A -> Prop)
    `{!forall x, Decision (P x)} `{!forall x, Decision (Q x)} (l : list A) :
  (forall x, x ∈ l -> P (g x) <-> Q x) ->
  filter P (g <$> l) = g <$> filter Q l.
Proof.
  induction l as [|a l IH]; intros Hext; [done|].
  rewrite fmap_cons, !filter_cons.
  rewrite IH by (intros x Hx; apply Hext; by right).
  pose proof (Hext a (list_elem_of_here a l)) as Ha.
  destruct (decide (P (g a))) as [Hp|Hp], (decide (Q a)) as [Hq|Hq];
    tauto || done.
Qed.

Lemma getBySession_rows session st (db : list ChunkRow) :
  getBySession session st db = order_by_created_at (session_rows session st db).
Proof.
  unfold getBySession, session_rows. rewrite rowToChunk_fmap.
  by destruct st.
Qed.

Lemma getBySession_elem session st (db : list ChunkRow) r :
  r ∈ getBySession session st db <->
  r ∈ db /\ session_id r = session /\
  match st with Some s => status r = s | None => True end.
Proof.
  rewrite getBySession_rows, order_by_created_at_elem. unfold session_rows.
  destruct st; rewrite ?list_elem_of_filter; tauto.
Qed.

Lemma session_rows_sublist session st (db : list ChunkRow) :
  session_rows session st db `sublist_of` db.
Proof.
  unfold session_rows. destruct st.
  - etrans; apply sublist_filter.
  - apply sublist_filter.
Qed.

Lemma getBySession_ids_NoDup session st (db : list ChunkRow) :
  primary_key db -> NoDup (id <$> getBySession session st db).
Proof.
  intros Hpk. rewrite getBySession_rows, order_by_created_at_perm.
  eapply sublist_NoDup; [exact Hpk|].
  apply fmap_sublist, session_rows_sublist.
Qed.

Lemma getBySession_id_elem session st (db : list ChunkRow) r :
  primary_key db -> r ∈ db ->
  id r ∈ id <$> getBySession session st db <->
  session_id r = session /\
  match st with Some s => status r = s | None => True end.
Proof.
  intros Hpk Hr. split.
  - intros (r' & Hid & Hr')%list_elem_of_fmap.
    apply getBySession_elem in Hr' as (Hdb & Hs & Hst).
    by rewrite (primary_key_inj db r r' Hpk Hr Hdb Hid).
  - intros [Hs Hst]. apply list_elem_of_fmap_2.
    by apply getBySession_elem.
Qed.




Lemma order_by_created_at_nil_inv (l : list ChunkRow) :
  order_by_created_at l = [] -> l = [].
Proof.
  intros H. apply Permutation_nil_r. rewrite <- H.
  symmetry. apply order_by_created_at_perm.
Qed.



(** What a compaction that returns has done. *)
Lemma compact_returned (db : list ChunkRow) session chunkIds summary summaryId
    now result db' :
  primary_key db ->
  compactChunks db session chunkIds summary summaryId now = Returned result db' ->
  let summaryRow :=
    mkRow summaryId session None
      (js_add (Math_max (read_depth <$> select_by_ids chunkIds db)) 1) (Some chunkIds)
      summaryContent (Some summary) active now None None None in
  let db2 :=
    (fun r => if decide (id r ∈ chunkIds)
              then mark_compacted summaryId now r else r)
    <$> (db ++ [summaryRow]) in
  chunkIds <> [] /\ NoDup chunkIds /\
  (forall i, i ∈ chunkIds -> i ∈ id <$> db) /\
  (summaryId ∉ id <$> db) /\ db' = db2 /\
  result = {| summaryChunk := summaryRow;
              compactedChunks := select_by_ids chunkIds db2 |}.
Proof.
  intros Hpk Hrun summaryRow db2.
  destruct (decide (chunkIds = [])) as [Hnil|Hne];
    [by rewrite Hnil in Hrun|].
  destruct (decide (NoDup chunkIds /\
                    Forall (fun i => i ∈ id <$> db) chunkIds))
    as [[Hnd Hall]|Hbad].
  2: { rewrite compact_not_found in Hrun; [done..|].
       intros [? ?]. apply Hbad. split; [done|]. by apply Forall_forall. }
  rewrite Forall_forall in Hall.
  rewrite compact_accepted in Hrun by done.
  destruct (decide (summaryId ∈ id <$> db)); [done|].
  injection Hrun as <- <-. done.
Qed.

(** X8. After [compactChunks] has returned on a table whose parent
    references all resolve, the children that [getChildren] finds under
    the new summary are the chunks it returned as compacted, one for
    each listed id: the same chunks, [getChildren] giving them by
    [created_at] (in table order where the times are equal) and the
    result of the compaction by id. The summary is the parent that
    [getById] shows for each of them. *)
Theorem compacted_are_children (db : list ChunkRow) session chunkIds summary
    summaryId now result db' :
  primary_key db -> foreign_key db ->
  compactChunks db session chunkIds summary summaryId now = Returned result db' ->
  getChildren summaryId db'
  = order_by_created_at
      (mark_compacted summaryId now <$> filter (fun r => id r ∈ chunkIds) db) /\
  compactedChunks result
  = order_by_id
      (mark_compacted summaryId now <$> filter (fun r => id r ∈ chunkIds) db) /\
  getChildren summaryId db' ≡ₚ compactedChunks result /\
  length (getChildren summaryId db') = length chunkIds /\
  (forall c, c ∈ getChildren summaryId db' <->
             exists r, r ∈ db /\ id r ∈ chunkIds /\
                       c = mark_compacted summaryId now r) /\
  (forall c, c ∈ getChildren summaryId db' ->
             (parent_id c ≫= fun p => getById p db')
             = Some (summaryChunk result)).
Proof.
  intros Hpk Hfk Hrun.
  destruct (compact_returned _ _ _ _ _ _ _ _ Hpk Hrun)
    as (Hne & Hnd & Hall & Hfresh & -> & ->).
  cbn [summaryChunk compactedChunks].
  set (summaryRow := mkRow summaryId session None _ (Some chunkIds) _ _ _ _ _ _ _).
  set (g := fun r => if decide (id r ∈ chunkIds)
                     then mark_compacted summaryId now r else r).
  set (listed := filter (fun r => id r ∈ chunkIds) db).
  assert (Hgid : forall r, id (g r) = id r)
    by (intros r; unfold g; by destruct (decide _)).
  assert (Hsum : summaryId ∉ chunkIds) by (intros H; by apply Hfresh, Hall).
  rewrite foreign_key_iff in Hfk.
  assert (Hsame : filter (fun r => parent_id r = Some summaryId)
                    (g <$> (db ++ [summaryRow]))
                  = filter (fun r => id r ∈ chunkIds)
                      (g <$> (db ++ [summaryRow]))).
  { apply filter_ext_elem.
    intros r' (r & -> & Hr)%list_elem_of_fmap. rewrite Hgid.
    unfold g. destruct (decide (id r ∈ chunkIds)) as [Hin|Hout]; [done|].
    split; [|done]. intros Hparent. exfalso.
    apply elem_of_app in Hr as [Hr|[->|[]%elem_of_nil]%elem_of_cons];
      [|done].
    apply Hfresh. by apply (Hfk r). }
  assert (Hmarked : filter (fun r => id r ∈ chunkIds)
                      (g <$> (db ++ [summaryRow]))
                    = mark_compacted summaryId now <$> listed).
  { rewrite (filter_fmap_elem g _ (fun r => id r ∈ chunkIds))
      by (intros r _; by rewrite Hgid).
    rewrite filter_app, filter_cons_False, filter_nil, app_nil_r by done.
    apply list_fmap_ext. intros k r Hr.
    apply list_elem_of_lookup_2, list_elem_of_filter in Hr as [Hin _].
    unfold g. by rewrite decide_True. }
  assert (Hpk2 : primary_key (g <$> (db ++ [summaryRow]))).
  { apply primary_key_fmap; [done|]. by apply primary_key_app. }
  assert (Hchildren : getChildren summaryId (g <$> (db ++ [summaryRow]))
                      = order_by_created_at
                          (mark_compacted summaryId now <$> listed)).
  { unfold getChildren. by rewrite rowToChunk_fmap, Hsame, Hmarked. }
  assert (Helem : forall c,
            c ∈ mark_compacted summaryId now <$> listed <->
            exists r, r ∈ db /\ id r ∈ chunkIds /\
                      c = mark_compacted summaryId now r).
  { intros c. rewrite list_elem_of_fmap. unfold listed. split.
    - intros (r & -> & [Hin Hr]%list_elem_of_filter). by exists r.
    - intros (r & Hr & Hin & ->). exists r. split; [done|].
      by apply list_elem_of_filter. }
  split_and!.
  - done.
  - unfold select_by_ids. by rewrite Hmarked.
  - unfold select_by_ids.
    by rewrite Hchildren, Hmarked, order_by_created_at_perm, order_by_id_perm.
  - rewrite Hchildren, order_by_created_at_perm, <- Hmarked.
    rewrite <- select_by_ids_perm.
    apply rows_length_iff; [done|]. split; [done|].
    intros i Hi. rewrite ids_fmap by done.
    rewrite fmap_app, elem_of_app. left. by apply Hall.
  - intros c. by rewrite Hchildren, order_by_created_at_elem.
  - intros c. rewrite Hchildren, order_by_created_at_elem, Helem.
    intros (r & Hr & Hin & ->). simpl.
    change summaryId with (id summaryRow) at 1.
    rewrite getById_fmap by done.
    rewrite getById_last by done. simpl. unfold g.
    by rewrite decide_False.
Qed.

Lemma compacted_are_children_witness :
  let result :=
    {| summaryChunk := scenario_summary;
       compactedChunks := [scenario_child "ch_a" 0; scenario_child "ch_b" 1;
                           scenario_child "ch_c" 2] |} in
  getChildren "ch_new" scenario_compacted
  = order_by_created_at
      (mark_compacted "ch_new" 1700000100%Z <$>
       filter (fun r => id r ∈ ["ch_a"; "ch_b"; "ch_c"]%string) scenario_db) /\
  compactedChunks result
  = order_by_id
      (mark_compacted "ch_new" 1700000100%Z <$>
       filter (fun r => id r ∈ ["ch_a"; "ch_b"; "ch_c"]%string) scenario_db) /\
  getChildren "ch_new" scenario_compacted ≡ₚ compactedChunks result /\
  length (getChildren "ch_new" scenario_compacted)
  = length ["ch_a"; "ch_b"; "ch_c"]%string /\
  (forall c, c ∈ getChildren "ch_new" scenario_compacted <->
             exists r, r ∈ scenario_db /\ id r ∈ ["ch_a"; "ch_b"; "ch_c"]%string /\
                       c = mark_compacted "ch_new" 1700000100%Z r) /\
  (forall c, c ∈ getChildren "ch_new" scenario_compacted ->
             (parent_id c ≫= fun p => getById p scenario_compacted)
             = Some (summaryChunk result)).
Proof.
  apply (compacted_are_children scenario_db "S" ["ch_a"; "ch_b"; "ch_c"]%string
           "summary" "ch_new" 1700000100%Z).
  - by_decide.
  - by_decide.
  - vm_compute. reflexivity.
Defined.

(** Chunks created in one second, listed against the order of their
    ids: [getChildren] gives them in table order, the result of the
    compaction in the order of the ids. *)
Example children_of_one_second :
  let db := [scenario_chunk "ch_b" 0; scenario_chunk "ch_a" 0] in
  exists result db',
    compactChunks db "S" ["ch_b"; "ch_a"]%string "summary" "ch_new"
      1700000100%Z = Returned result db' /\
    id <$> getChildren "ch_new" db' = ["ch_b"; "ch_a"]%string /\
    id <$> compactedChunks result = ["ch_a"; "ch_b"]%string.
Proof. eexists _, _. split; [by vm_compute|]. split; by vm_compute. Qed.

Local Abbreviation key := (fun r : ChunkRow => (id r, session_id r)).

Lemma after_delete_keys fk i (db : list ChunkRow) :
  key <$> after_delete fk i db = filter (fun k => k.1 <> i) (key <$> db).
Proof.
  unfold after_delete. rewrite <- list_fmap_compose.
  induction db as [|r db IH]; [done|].
  rewrite fmap_cons, !filter_cons. simpl.
  destruct (decide (id r <> i)); [|done].
  rewrite fmap_cons, IH. f_equal. simpl.
  destruct fk; [|done]. unfold clear_parent. by destruct (decide _).
Qed.

Lemma keys_ids (db : list ChunkRow) : fst <$> (key <$> db) = id <$> db.
Proof. by rewrite <- list_fmap_compose. Qed.

Lemma filter_keys_ids (P : string -> Prop) `{!forall x, Decision (P x)}
    (l : list (string * string)) :
  fst <$> filter (fun k => P k.1) l = filter P (fst <$> l).
Proof.
  induction l as [|k l IH]; [done|].
  rewrite fmap_cons, !filter_cons.
  destruct (decide (P k.1)); by rewrite ?fmap_cons, IH.
Qed.

(** The loop of [deleteSession] over chunks that are stored, with distinct
    ids. *)
Lemma deletes_stored fk : forall (l : list ChunkRow) n (db : list ChunkRow),
  NoDup (id <$> l) -> (forall c, c ∈ l -> id c ∈ id <$> db) ->
  exists db',
    foldl (fun '(deleted, d) chunk =>
             let '(ok, d') := delete fk (id chunk) d in
             (if ok then S deleted else deleted, d'))
          (n, db) l = (n + length l, db') /\
    key <$> db' = filter (fun k => k.1 ∉ id <$> l) (key <$> db).
Proof.
  induction l as [|c l IH]; intros n db Hnd Hin.
  - exists db. simpl. split; [f_equal; lia|].
    induction (key <$> db) as [|k ks IHk]; [done|].
    rewrite filter_cons_True by apply not_elem_of_nil. by f_equal.
  - rewrite fmap_cons in Hnd. apply NoDup_cons in Hnd as [Hc Hnd].
    simpl. rewrite delete_stored by (apply Hin; by left).
    destruct (IH (S n) (after_delete fk (id c) db) Hnd) as (db' & Hrun & Hkeys).
    { intros c' Hc'. rewrite after_delete_ids.
      apply list_elem_of_filter. split.
      - intros Heq. apply Hc. rewrite <- Heq. by apply list_elem_of_fmap_2.
      - apply Hin. by right. }
    exists db'. split; [rewrite Hrun; f_equal; lia|].
    rewrite Hkeys, after_delete_keys. clear.
    induction (key <$> db) as [|k ks IHk]; [done|].
    rewrite !filter_cons.
    destruct (decide (k.1 <> id c)) as [Hne|Heq].
    + rewrite filter_cons.
      destruct (decide (k.1 ∉ id <$> l)) as [Hout|Hin].
      * rewrite decide_True; [by rewrite IHk|].
        by intros [?|?]%elem_of_cons.
      * rewrite decide_False; [done|].
        intros Hno. apply Hin. intros ?. apply Hno. by right.
    + rewrite decide_False; [done|].
      intros Hno. apply Heq. intros Hk. apply Hno. rewrite Hk. by left.
Qed.

(** X9. [ChunkService.deleteSession] deletes every chunk of the session
    and nothing else: it returns the number of chunks the session had,
    the rows left are those of the other sessions, in order and under
    their ids, the session has no chunk afterwards, and the tracker holds
    neither messages nor a current chunk id for it. *)
Theorem deleteSession_removes_session fk session t (db : list ChunkRow) :
  primary_key db ->
  exists db',
    deleteSession fk session t db
    = (length (getBySession session None db),
       Tracker.clearSession session t, db') /\
    key <$> db' = key <$> filter (fun r => session_id r <> session) db /\
    length db' + length (getBySession session None db) = length db /\
    (forall st, getBySession session st db' = []) /\
    Tracker.getMessages session (Tracker.clearSession session t) = [] /\
    Tracker.hasMessages session (Tracker.clearSession session t) = false /\
    Tracker.getCurrentChunkId session (Tracker.clearSession session t) = None.
Proof.
  intros Hpk. unfold deleteSession.
  destruct (deletes_stored fk (getBySession session None db) 0 db)
    as (db' & Hrun & Hkeys).
  { by apply getBySession_ids_NoDup. }
  { intros c Hc. apply list_elem_of_fmap_2.
    by apply getBySession_elem in Hc as [? _]. }
  rewrite Hrun. exists db'.
  assert (Hleft : key <$> db'
                  = key <$> filter (fun r => session_id r <> session) db).
  { rewrite Hkeys.
    apply (filter_fmap_elem key _ (fun r => session_id r <> session)).
    intros r Hr. simpl.
    rewrite (getBySession_id_elem session None db r Hpk Hr). tauto. }
  split; [done|]. split; [done|]. split_and!.
  - rewrite <- (length_fmap key db'), Hleft, length_fmap.
    rewrite getBySession_rows, order_by_created_at_perm. unfold session_rows.
    rewrite <- (length_app _ (filter (fun r => session_id r = session) db)).
    apply Permutation_length. rewrite Permutation_app_comm.
    apply (filter_app_complement (fun r => session_id r = session) db).
  - intros st. rewrite getBySession_rows.
    assert (Hnone : filter (fun r => session_id r = session) db' = []).
    { apply (f_equal (fmap snd)) in Hleft.
      rewrite <- !list_fmap_compose in Hleft.
      assert (Hall : Forall (fun r => session_id r <> session) db').
      { apply Forall_forall. intros r Hr.
        assert (Hs : session_id r ∈ (snd ∘ key) <$> db')
          by (by apply (list_elem_of_fmap_2 (snd ∘ key))).
        rewrite Hleft in Hs.
        apply list_elem_of_fmap in Hs as (r' & Heq & Hr').
        apply list_elem_of_filter in Hr' as [Hne _]. simpl in Heq.
        congruence. }
      clear -Hall. induction db' as [|r d IH]; [done|].
      apply Forall_cons in Hall as [Hr Hall].
      rewrite filter_cons_False by done. by apply IH. }
    unfold session_rows. rewrite Hnone. by destruct st.
  - unfold Tracker.getMessages, Tracker.clearSession. simpl.
    by rewrite lookup_delete_eq.
  - unfold Tracker.hasMessages, Tracker.clearSession. simpl.
    by rewrite lookup_delete_eq.
  - unfold Tracker.getCurrentChunkId, Tracker.clearSession. simpl.
    by rewrite lookup_delete_eq.
Qed.

Lemma deleteSession_removes_session_witness :
  exists db',
    deleteSession true "S" streamed scenario_compacted
    = (length (getBySession "S" None scenario_compacted),
       Tracker.clearSession "S" streamed, db') /\
    key <$> db'
    = key <$> filter (fun r => session_id r <> "S"%string) scenario_compacted /\
    length db' + length (getBySession "S" None scenario_compacted)
    = length scenario_compacted /\
    (forall st, getBySession "S" st db' = []) /\
    Tracker.getMessages "S" (Tracker.clearSession "S" streamed) = [] /\
    Tracker.hasMessages "S" (Tracker.clearSession "S" streamed) = false /\
    Tracker.getCurrentChunkId "S" (Tracker.clearSession "S" streamed) = None.
Proof.
  apply (deleteSession_removes_session true "S" streamed scenario_compacted).
  by_decide.
Defined.

(** X10. [ChunkService.finalize] on a session that has tracked messages,
    with a free chunk id: it stores one active root chunk of depth 0 with
    [finalized_at] set, which [getById] reads back; afterwards the tracker
    holds no message for the session and the new chunk is its current
    chunk, while the messages and current chunks of the other sessions
    are untouched. Finalizing the session again before any new message
    returns null and changes neither the table nor the tracker. *)
Theorem finalize_then_idle session new_id created now
    (t : Tracker.MessageTracker) (db : list ChunkRow) :
  new_id ∉ id <$> db ->
  Tracker.getMessages session t <> [] ->
  exists t' chunk,
    finalize session new_id created now t db
    = (t', Returned (Some chunk) (db ++ [chunk])) /\
    chunk = mkRow new_id session None 0 None
              (finalize_content (Tracker.getMessages session t)) None active
              created (Some now) None None /\
    getById new_id (db ++ [chunk]) = Some chunk /\
    Tracker.hasMessages session t' = false /\
    Tracker.getMessageCount session t' = 0 /\
    Tracker.getCurrentChunkId session t' = Some new_id /\
    (forall other, other <> session ->
       Tracker.getMessages other t' = Tracker.getMessages other t /\
       Tracker.getCurrentChunkId other t' = Tracker.getCurrentChunkId other t) /\
    (forall id2 created2 now2,
       finalize session id2 created2 now2 t' (db ++ [chunk])
       = (t', Returned None (db ++ [chunk]))).
Proof.
  intros Hfresh Hne. eexists _, _.
  split; [by apply finalize_persists|]. split; [done|].
  set (chunk := mkRow new_id _ _ _ _ _ _ _ _ _ _ _).
  change new_id with (id chunk) in Hfresh |- *.
  split; [by apply getById_last|].
  unfold Tracker.hasMessages, Tracker.getMessageCount,
    Tracker.getCurrentChunkId, Tracker.getMessages, Tracker.setCurrentChunkId,
    Tracker.clearSession. simpl.
  rewrite !lookup_delete_eq, lookup_insert_eq.
  split; [done|]. split; [done|]. split; [done|]. split.
  - intros other Hother.
    by rewrite lookup_insert_ne, !lookup_delete_ne by done.
  - intros id2 created2 now2. unfold finalize, Tracker.getMessages. simpl.
    by rewrite lookup_delete_eq.
Qed.

Lemma finalize_then_idle_witness :
  exists t' chunk,
    finalize "S" "ch_000000000001" 1700000000%Z 1700000001%Z streamed
      scenario_db
    = (t', Returned (Some chunk) (scenario_db ++ [chunk])) /\
    chunk = mkRow "ch_000000000001" "S" None 0 None
              (finalize_content (Tracker.getMessages "S" streamed)) None active
              1700000000%Z (Some 1700000001%Z) None None /\
    getById "ch_000000000001" (scenario_db ++ [chunk]) = Some chunk /\
    Tracker.hasMessages "S" t' = false /\
    Tracker.getMessageCount "S" t' = 0 /\
    Tracker.getCurrentChunkId "S" t' = Some "ch_000000000001"%string /\
    (forall other, other <> "S"%string ->
       Tracker.getMessages other t' = Tracker.getMessages other streamed /\
       Tracker.getCurrentChunkId other t'
       = Tracker.getCurrentChunkId other streamed) /\
    (forall id2 created2 now2,
       finalize "S" id2 created2 now2 t' (scenario_db ++ [chunk])
       = (t', Returned None (scenario_db ++ [chunk]))).
Proof.
  apply (finalize_then_idle "S" "ch_000000000001" 1700000000%Z 1700000001%Z
           streamed scenario_db).
  - by_decide.
  - vm_compute. discriminate.
Defined.

(** A JavaScript [Set] filled in some order holds each value once, and
    holds exactly the values added. *)
Lemma insert_once_fold {A} `{EqDecision A} (l : list A) : forall acc,
  NoDup acc ->
  NoDup (foldl insert_once acc l) /\
  (forall x, x ∈ foldl insert_once acc l <-> x ∈ acc \/ x ∈ l).
Proof.
  induction l as [|a l IH]; intros acc Hnd.
  - simpl. split; [done|]. intros x. rewrite elem_of_nil. tauto.
  - simpl. destruct (IH (insert_once acc a)) as [Hnd' Hel].
    { unfold insert_once. destruct (decide (a ∈ acc)); [done|].
      apply NoDup_app. split; [done|]. split; [|apply NoDup_singleton].
      intros x Hx [->|[]%elem_of_nil]%elem_of_cons. done. }
    split; [done|]. intros x. rewrite Hel, elem_of_cons.
    unfold insert_once. destruct (decide (a ∈ acc)) as [Ha|Ha].
    + split; [tauto|]. intros [?|[->|?]]; tauto.
    + rewrite elem_of_app, list_elem_of_singleton. tauto.
Qed.

Lemma first_inserts_spec {A} `{EqDecision A} (l : list A) :
  NoDup (first_inserts l) /\ (forall x, x ∈ first_inserts l <-> x ∈ l).
Proof.
  destruct (insert_once_fold l []) as [Hnd Hel]; [constructor|].
  split; [done|]. intros x. unfold first_inserts. rewrite Hel, elem_of_nil.
  tauto.
Qed.

Lemma truthy_Some s x : truthy s = Some x <-> s = Some x /\ x <> ""%string.
Proof.
  unfold truthy. destruct s as [y|]; [|by split; [|intros [? _]]].
  destruct (decide (y = ""%string)) as [->|Hy].
  - split; [done|]. intros [[= <-] ?]. done.
  - split; [by intros [= <-]|]. by intros [[= <-] _].
Qed.

Lemma set_member_elem name l k v :
  (k, v) ∈ set_member name l <->
  k = name /\ l <> [] /\ v = JArr (JStr <$> l).
Proof.
  unfold set_member. destruct l as [|a l].
  - rewrite elem_of_nil. split; [done|]. by intros (_ & ? & _).
  - rewrite list_elem_of_singleton. split.
    + by intros [= -> ->].
    + by intros (-> & _ & ->).
Qed.

(** X11. The metadata that [finalize] stores. [tools_used] holds each
    non-empty tool name of a tool part of the tracked messages exactly
    once, and nothing else; [files_modified] does the same with the text
    of the file parts; a list that would be empty is left out of the
    metadata object, which then has no such member. *)
Theorem finalize_metadata (messages : list Tracker.TrackedMessage) :
  NoDup (toolsUsed messages) /\
  (forall x, x ∈ toolsUsed messages <->
     exists m p, m ∈ messages /\ p ∈ Tracker.parts m /\
                 Tracker.type p = Tracker.tool_part /\
                 Tracker.tool p = Some x /\ x <> ""%string) /\
  NoDup (filesModified messages) /\
  (forall x, x ∈ filesModified messages <->
     exists m p, m ∈ messages /\ p ∈ Tracker.parts m /\
                 Tracker.type p = Tracker.file_part /\
                 Tracker.text p = Some x /\ x <> ""%string) /\
  (exists metadata,
     finalize_content messages
     = JObj [("messages"%string, JArr (message_json <$> messages));
             ("metadata"%string, JObj metadata)] /\
     (forall v, ("tools_used"%string, v) ∈ metadata <->
                toolsUsed messages <> [] /\
                v = JArr (JStr <$> toolsUsed messages)) /\
     (forall v, ("files_modified"%string, v) ∈ metadata <->
                filesModified messages <> [] /\
                v = JArr (JStr <$> filesModified messages))).
Proof.
  unfold toolsUsed, filesModified.
  set (tools := omap _ (messages ≫= Tracker.parts)).
  set (files := omap _ (messages ≫= Tracker.parts)).
  destruct (first_inserts_spec tools) as [Hnd1 Hel1].
  destruct (first_inserts_spec files) as [Hnd2 Hel2].
  split_and!; [done| |done| |].
  - intros x. rewrite Hel1. unfold tools. rewrite list_elem_of_omap. split.
    + intros (p & Hp & Hx).
      apply list_elem_of_bind in Hp as (m & Hp & Hm).
      exists m, p. destruct (Tracker.type p) eqn:Ht; try done.
      apply truthy_Some in Hx as [? ?]. done.
    + intros (m & p & Hm & Hp & Ht & Htool & Hx).
      exists p. split; [apply list_elem_of_bind; by exists m|].
      rewrite Ht. by apply truthy_Some.
  - intros x. rewrite Hel2. unfold files. rewrite list_elem_of_omap. split.
    + intros (p & Hp & Hx).
      apply list_elem_of_bind in Hp as (m & Hp & Hm).
      exists m, p. destruct (Tracker.type p) eqn:Ht; try done.
      apply truthy_Some in Hx as [? ?]. done.
    + intros (m & p & Hm & Hp & Ht & Htext & Hx).
      exists p. split; [apply list_elem_of_bind; by exists m|].
      rewrite Ht. by apply truthy_Some.
  - eexists. split; [reflexivity|].
    fold (toolsUsed messages). fold (filesModified messages).
    split; intros v; rewrite elem_of_app, !set_member_elem;
      split; (intros [(? & ? & ?)|(? & ? & ?)] || intros [? ?]);
      done || (left; done) || (right; done).
Qed.

(** X12. An id that names no stored chunk is harmless everywhere:
    [getById] and [update] return null, [delete] returns false, [expand]
    and the two tree queries return no row, whatever the fuel, and none
    of them changes the table; and when the parent references of the
    table resolve, no chunk is a child of that id. *)
Theorem missing_chunk_is_harmless (db : list ChunkRow) i fk fuel input children :
  i ∉ id <$> db ->
  getById i db = None /\
  update i input db = (None, db) /\
  delete fk i db = (false, db) /\
  expand fuel i children db = Some [] /\
  getDescendants fuel db i = Some [] /\
  getAncestors fuel db i = Some [] /\
  getFullContext fuel db i = Some [] /\
  (foreign_key db -> getChildren i db = []).
Proof.
  intros Hout.
  assert (Hget : getById i db = None) by (by apply getById_None).
  split_and!.
  - done.
  - unfold update. by rewrite Hget.
  - by apply delete_missing.
  - unfold expand. by rewrite Hget.
  - unfold getDescendants. rewrite select_absent by done. by destruct fuel.
  - unfold getAncestors. rewrite select_absent by done. by destruct fuel.
  - unfold getFullContext, getAncestors. rewrite select_absent by done.
    by destruct fuel.
  - intros Hfk. rewrite foreign_key_iff in Hfk. unfold getChildren.
    rewrite rowToChunk_fmap.
    assert (Hnone : filter (fun r => parent_id r = Some i) db = []).
    { assert (Hall : Forall (fun r => parent_id r <> Some i) db).
      { apply Forall_forall. intros r Hr Hp. apply Hout. by apply (Hfk r). }
      clear -Hall. induction db as [|r d IH]; [done|].
      apply Forall_cons in Hall as [Hr Hall].
      rewrite filter_cons_False by done. by apply IH. }
    by rewrite Hnone.
Qed.

Lemma missing_chunk_is_harmless_witness :
  getById "ch_zzz" scenario_compacted = None /\
  update "ch_zzz" (Build_UpdateChunkInput None (Some "s"%string) None None None None)
    scenario_compacted = (None, scenario_compacted) /\
  delete true "ch_zzz" scenario_compacted = (false, scenario_compacted) /\
  expand 5 "ch_zzz" true scenario_compacted = Some [] /\
  getDescendants 5 scenario_compacted "ch_zzz" = Some [] /\
  getAncestors 5 scenario_compacted "ch_zzz" = Some [] /\
  getFullContext 5 scenario_compacted "ch_zzz" = Some [] /\
  getChildren "ch_zzz" scenario_compacted = [].
Proof.
  destruct (missing_chunk_is_harmless scenario_compacted "ch_zzz" true 5
              (Build_UpdateChunkInput None (Some "s"%string) None None None
                 None) true ltac:(by_decide))
    as (H1 & H2 & H3 & H4 & H5 & H6 & H7 & H8).
  split_and!; [exact H1|exact H2|exact H3|exact H4|exact H5|exact H6|exact H7|].
  apply H8. by_decide.
Defined.

End Service.

(* ===================================================================== *)
(** ** The tracker: sessions apart, one entry per id, role correction *)
(* ===================================================================== *)

Section TrackerSessions.
Import Tracker.

Lemma observers_of_messages sid (t : MessageTracker) :
  hasMessages sid t = (0 <? length (getMessages sid t)) /\
  getMessageCount sid t = length (getMessages sid t).
Proof.
  unfold hasMessages, getMessageCount, getMessages.
  by destruct (sessions t !! sid).
Qed.

Lemma apply_keeps_chunk_ids (t : MessageTracker) op :
  currentChunkIds (apply t op) = currentChunkIds t.
Proof.
  destruct op as [s m|s mid r now|s mid pid part now]; simpl.
  - done.
  - unfold ensureMessage. destruct (findIndex_id _ _) as [[i e]|]; [|done].
    by destruct (decide _).
  - unfold addPart. by destruct (findIndex_id _ _) as [[i e]|].
Qed.

Lemma apply_other_session sid (t : MessageTracker) op :
  op_session op <> sid -> getMessages sid (apply t op) = getMessages sid t.
Proof.
  intros Hne. pose proof (upsert_shape sid t op) as H. simpl in H.
  by rewrite decide_False in H.
Qed.

(** The upserts of other sessions leave the messages of a session of
    [Tracker] as they are. *)
Lemma run_other_sessions sid ops : forall t : MessageTracker,
  sid ∉ op_session <$> ops ->
  getMessages sid (run ops t) = getMessages sid t.
Proof.
  induction ops as [|op ops IH]; intros t Hout; [done|].
  rewrite fmap_cons in Hout. apply not_elem_of_cons in Hout as [Hop Hout].
  change (run (op :: ops) t) with (run ops (apply t op)).
  rewrite IH by done. apply apply_other_session. congruence.
Qed.

Lemma inserted_messages_elem sid ops mid :
  mid ∈ inserted_messages sid ops <->
  exists op, op ∈ ops /\ op_session op = sid /\ op_message op = mid.
Proof.
  unfold inserted_messages. rewrite list_elem_of_omap. split.
  - intros (op & Hop & H). exists op.
    destruct (decide (op_session op = sid)); [|done].
    by injection H as <-.
  - intros (op & Hop & Hs & Hm). exists op. split; [done|].
    by rewrite decide_True, Hm.
Qed.

Lemma part_steps_unique sid mid ops : forall acc,
  (forall m, TrackMessage sid m ∈ ops -> id m <> mid) ->
  NoDup acc -> NoDup (foldl (part_step sid mid) acc ops).
Proof.
  induction ops as [|op ops IH]; intros acc Hno Hnd; [done|]. simpl.
  apply IH; [intros m Hm; apply Hno; by right|].
  destruct op as [s m|s m' r now|s m' pid part now]; simpl; [|done|].
  - destruct (decide (s = sid /\ id m = mid)) as [[-> Hid]|]; [|done].
    exfalso. apply (Hno m); [by left|done].
  - destruct (decide (s = sid /\ m' = mid)); [|done].
    unfold insert_once. destruct (decide (Some pid ∈ acc)); [done|].
    apply NoDup_app. split; [done|]. split; [|apply NoDup_singleton].
    intros x Hx [->|[]%elem_of_nil]%elem_of_cons. done.
Qed.

(** X14. The tracker holds one entry per message id. After any sequence
    of upserts on a new tracker, and after the same sequence on a tracker
    whose session was just cleared, the messages of a session carry
    pairwise distinct ids, exactly the ids the upserts named for that
    session; [getMessageCount] is the number of those distinct ids and
    [hasMessages] tells whether some upsert named the session. The parts
    of a message that no [trackMessage] replaced carry pairwise distinct
    part ids. *)
Theorem tracker_holds_each_id_once ops sid :
  NoDup (message_ids sid (run ops empty)) /\
  (forall mid, mid ∈ message_ids sid (run ops empty) <->
     exists op, op ∈ ops /\ op_session op = sid /\ op_message op = mid) /\
  getMessageCount sid (run ops empty)
  = length (first_inserts (inserted_messages sid ops)) /\
  (hasMessages sid (run ops empty) = true <-> sid ∈ op_session <$> ops) /\
  (forall mid, (forall m, TrackMessage sid m ∈ ops -> id m <> mid) ->
     NoDup (part_ids sid mid (run ops empty))) /\
  (forall t, message_ids sid (run ops (clearSession sid t))
             = first_inserts (inserted_messages sid ops)).
Proof.
  assert (Hids : message_ids sid (run ops empty)
                 = first_inserts (inserted_messages sid ops))
    by apply message_ids_run.
  destruct (first_inserts_spec (inserted_messages sid ops)) as [Hnd Hel].
  assert (Hcount : getMessageCount sid (run ops empty)
                   = length (first_inserts (inserted_messages sid ops))).
  { destruct (observers_of_messages sid (run ops empty)) as [_ ->].
    rewrite <- Hids. unfold message_ids. by rewrite length_fmap. }
  split_and!.
  - by rewrite Hids.
  - intros mid. by rewrite Hids, Hel, inserted_messages_elem.
  - done.
  - destruct (observers_of_messages sid (run ops empty)) as [-> Hc].
    rewrite <- Hc, Hcount. rewrite Nat.ltb_lt. split.
    + intros Hpos.
      destruct (first_inserts (inserted_messages sid ops)) as [|mid l] eqn:Hf;
        [simpl in Hpos; lia|].
      assert (Hin : mid ∈ inserted_messages sid ops)
        by (apply Hel; by left).
      apply inserted_messages_elem in Hin as (op & Hop & <- & _).
      by apply list_elem_of_fmap_2.
    + intros (op & -> & Hop)%list_elem_of_fmap.
      assert (Hin : op_message op ∈ first_inserts
                      (inserted_messages (op_session op) ops)).
      { apply Hel, inserted_messages_elem. by exists op. }
      destruct (first_inserts _); [by apply elem_of_nil in Hin|simpl; lia].
  - intros mid Hno. rewrite part_ids_run.
    apply part_steps_unique; [done|]. vm_compute. constructor.
  - intros t. rewrite message_ids_run.
    unfold message_ids at 1, getMessages, clearSession. simpl.
    by rewrite lookup_delete_eq.
Qed.

(** X15. [ensureMessage] makes sure a message is tracked under the given
    role without touching anything else. Afterwards the message is stored
    with that role; if it was stored before, for instance created by
    [addPart] with the assumed role [assistant], it keeps its parts and
    timestamp, otherwise it is new, without parts and stamped with the
    clock. No other message of the session changes, the order of the ids
    is kept, and a second call with the same role changes nothing. *)
Theorem ensureMessage_corrects_role (t : MessageTracker) sid mid r now :
  (exists m',
     stored sid mid (ensureMessage sid mid r now t) = Some m' /\
     role m' = r /\
     match stored sid mid t with
     | Some old => id m' = id old /\ parts m' = parts old /\
                   timestamp m' = timestamp old
     | None => m' = mkMessage mid r [] now
     end) /\
  (forall other, other <> mid ->
     stored sid other (ensureMessage sid mid r now t) = stored sid other t) /\
  message_ids sid (ensureMessage sid mid r now t)
  = insert_once (message_ids sid t) mid /\
  (forall now2,
     ensureMessage sid mid r now2 (ensureMessage sid mid r now t)
     = ensureMessage sid mid r now t).
Proof.
  pose proof (stored_step sid mid t (EnsureMessage sid mid r now)) as Hs.
  simpl in Hs. rewrite (decide_True (P := _ /\ _)) in Hs by (by split).
  split_and!.
  - eexists. split; [exact Hs|].
    destruct (stored sid mid t) as [old|]; simpl; [|done].
    destruct (decide (role old = r)) as [Hr|Hr]; by split.
  - intros other Hother.
    pose proof (stored_step sid other t (EnsureMessage sid mid r now)) as Ho.
    simpl in Ho. rewrite (decide_False (P := _ /\ _)) in Ho; [done|].
    intros [_ ?]. congruence.
  - pose proof (message_ids_step sid t (EnsureMessage sid mid r now)) as Hm.
    simpl in Hm. by rewrite decide_True in Hm.
  - intros now2. unfold stored in Hs.
    unfold ensureMessage at 1.
    change (default [] (sessions ?t !! sid)) with (getMessages sid t).
    destruct (findIndex_id mid (getMessages sid (ensureMessage sid mid r now t)))
      as [[i m']|] eqn:Hf; [|done].
    simpl in Hs. injection Hs as ->.
    rewrite decide_True; [done|].
    destruct (snd <$> findIndex_id mid (getMessages sid t)) as [old|];
      simpl; [|done].
    by destruct (decide (role old = r)).
Qed.

(** Parts that arrive before their message: the role assumed by
    [addPart] is corrected, the part is kept. *)
Example role_corrected_after_parts :
  let p := mkPart text_part (Some "hi"%string) None None None None in
  let t := ensureMessage "S" "m1" user 2%Z
             (addPart "S" "m1" "prt_1" p 1%Z empty) in
  getMessages "S" t = [mkMessage "m1" user [with_partId "prt_1" p] 1%Z].
Proof. by vm_compute. Qed.

End TrackerSessions.

(* ===================================================================== *)
(** ** The sessions of the tracker are apart *)
(* ===================================================================== *)

Section SessionsApart.
Import Tracker TrackerObjects.

Implicit Types (w : Store) (c : call).

(** A call changes the entry of its own session only. *)
Lemma apply_other_entry sid w c :
  call_session c <> sid -> sessions (apply w c) !! sid = sessions w !! sid.
Proof.
  intros Hne.
  destruct c as [s l0|s mid r now|s mid pid part now];
    cbn [apply call_session] in *.
  - unfold trackMessage. simpl. by rewrite lookup_insert_ne.
  - unfold ensureMessage.
    destruct (findIndex_id mid w (session s w)) as [[i existing]|].
    + by destruct (decide _).
    + simpl. by rewrite lookup_insert_ne.
  - unfold addPart.
    destruct (findIndex_id mid w (session s w)) as [[i message]|]; [done|].
    simpl. by rewrite lookup_insert_ne.
Qed.

Lemma run_other_entries sid calls : forall w,
  sid ∉ call_session <$> calls ->
  sessions (run calls w) !! sid = sessions w !! sid.
Proof.
  induction calls as [|c calls IH]; intros w Hout; [done|].
  rewrite fmap_cons in Hout. apply not_elem_of_cons in Hout as [Hc Hout].
  change (run (c :: calls) w) with (run calls (apply w c)).
  rewrite IH by done. apply apply_other_entry. congruence.
Qed.

Lemma apply_keeps_current_chunks w c :
  currentChunkIds (apply w c) = currentChunkIds w.
Proof.
  destruct c as [s l0|s mid r now|s mid pid part now]; cbn [apply].
  - done.
  - unfold ensureMessage.
    destruct (findIndex_id mid w (session s w)) as [[i existing]|]; [|done].
    by destruct (decide _).
  - unfold addPart.
    by destruct (findIndex_id mid w (session s w)) as [[i message]|].
Qed.

Lemma as_upserts_sessions calls : forall w,
  op_session <$> as_upserts w calls = call_session <$> calls.
Proof.
  induction calls as [|c calls IH]; intros w; [done|].
  cbn [as_upserts]. rewrite !fmap_cons, IH. f_equal. by destruct c.
Qed.

(** X13. The sessions of the tracker are apart. The calls made for
    other sessions ([trackMessage], [ensureMessage], [addPart]) leave a
    session the objects it holds, and so its count, and leave every
    current chunk id. When no object is shared (the tracker holds each
    object once, no two held objects have one parts array, and the
    objects handed to [trackMessage] are unshared too) they also leave
    the messages of the session as they read; an object that two
    sessions hold is changed for both ([shared_object_example]).
    [clearSession] empties its own session only, and
    [setCurrentChunkId] changes the current chunk of its own session
    only and no message. *)
Theorem tracker_sessions_apart w sid :
  (forall calls, sid ∉ call_session <$> calls ->
     session sid (run calls w) = session sid w /\
     hasMessages sid (run calls w) = hasMessages sid w /\
     getMessageCount sid (run calls w) = getMessageCount sid w) /\
  (forall calls, sid ∉ call_session <$> calls ->
     well_formed w -> separate w -> unshared w calls ->
     getMessages sid (run calls w) = getMessages sid w) /\
  (forall calls, getCurrentChunkId sid (run calls w) = getCurrentChunkId sid w) /\
  (forall other, other <> sid ->
     getMessages sid (clearSession other w) = getMessages sid w /\
     getCurrentChunkId sid (clearSession other w) = getCurrentChunkId sid w) /\
  (getMessages sid (clearSession sid w) = [] /\
   hasMessages sid (clearSession sid w) = false /\
   getMessageCount sid (clearSession sid w) = 0 /\
   getCurrentChunkId sid (clearSession sid w) = None) /\
  (forall other chunkId,
     getMessages sid (setCurrentChunkId other chunkId w) = getMessages sid w /\
     getCurrentChunkId sid (setCurrentChunkId other chunkId w)
     = if decide (other = sid) then Some chunkId
       else getCurrentChunkId sid w).
Proof.
  split; [|split; [|split; [|split; [|split]]]].
  - intros calls Hout.
    unfold session, hasMessages, getMessageCount.
    by rewrite (run_other_entries sid calls w Hout).
  - intros calls Hout Hwf Hsep Hun.
    destruct (run_view calls w Hwf Hsep Hun) as (Hview & _).
    rewrite <- (getMessages_view sid (run calls w)), Hview.
    rewrite run_other_sessions by (by rewrite as_upserts_sessions).
    apply getMessages_view.
  - intros calls. revert w. induction calls as [|c calls IH]; intros w;
      [done|].
    change (run (c :: calls) w) with (run calls (apply w c)).
    rewrite IH. unfold getCurrentChunkId.
    by rewrite apply_keeps_current_chunks.
  - intros other Hother.
    unfold getMessages, session, getCurrentChunkId, clearSession. simpl.
    by rewrite !lookup_delete_ne.
  - unfold getMessages, session, hasMessages, getMessageCount,
      getCurrentChunkId, clearSession. simpl.
    by rewrite !lookup_delete_eq.
  - intros other chunkId. split; [done|].
    unfold getCurrentChunkId, setCurrentChunkId. simpl.
    destruct (decide (other = sid)) as [->|Hne].
    + by rewrite lookup_insert_eq.
    + by rewrite lookup_insert_ne.
Qed.

(** "m1" is held by "s1" while "m2" is tracked and changed under "s2":
    the messages of "s1" read as before. *)
Lemma tracker_sessions_apart_witness :
  let p := mkPart text_part (Some "x"%string) None None None None in
  let w := trackMessage "s1" 0 two_messages in
  let calls :=
    [TrackMessage "s2" 1; AddPart "s2" "m2" "p1" p 1%Z;
     EnsureMessage "s2" "m2" assistant 2%Z;
     AddPart "s2" "m1" "p2" p 3%Z]%string in
  getMessages "s1" (run calls w) = getMessages "s1" w.
Proof.
  intros p w calls.
  assert (Hwf0 : well_formed two_messages).
  { split.
    - intros l Hl. simpl in *. lia.
    - intros sid l Hl. by apply elem_of_nil in Hl. }
  assert (Hun0 : unshared two_messages [TrackMessage "s1" 0])
    by (apply new_unshared; [done|by_decide|by_decide|by_decide]).
  apply (proj1 (proj2 (tracker_sessions_apart w "s1"))).
  - by_decide.
  - apply (apply_well_formed two_messages (TrackMessage "s1" 0)); [done|].
    intros l [->|[]%elem_of_nil]%elem_of_cons. simpl. lia.
  - apply (apply_separate two_messages (TrackMessage "s1" 0));
      [done|by apply new_separate|done].
  - apply (apply_unshared two_messages (TrackMessage "s1" 0)); [done|].
    apply new_unshared; [done|by_decide|by_decide|by_decide].
Defined.

End SessionsApart.

(* ===================================================================== *)
(** ** The memory repository: round trips, deletion, listings *)
(* ===================================================================== *)

Section MemoryRepository.
Import Memory.

Lemma rowToMemory_id r : id (rowToMemory r) = id r.
Proof. done. Qed.

Lemma memory_getById_Some i (db : list MemoryRow) m :
  getById i db = Some m ->
  exists r, r ∈ db /\ id r = i /\ m = rowToMemory r.
Proof.
  unfold getById.
  destruct (head (filter (fun r => id r = i) db)) as [r|] eqn:Hhead; [|done].
  intros [= <-]. exists r.
  apply head_Some in Hhead as [l' Hl'].
  assert (Hin : r ∈ filter (fun r => id r = i) db) by (rewrite Hl'; by left).
  apply list_elem_of_filter in Hin as [? ?]. done.
Qed.

Lemma memory_select_absent i (db : list MemoryRow) :
  i ∉ id <$> db -> filter (fun r => id r = i) db = [].
Proof.
  induction db as [|r db IH]; [done|]. rewrite fmap_cons.
  intros [Hr Hout]%not_elem_of_cons.
  rewrite filter_cons_False by congruence. by apply IH.
Qed.

Lemma memory_getById_None i (db : list MemoryRow) :
  getById i db = None <-> i ∉ id <$> db.
Proof.
  split.
  - intros Hnone (r & -> & Hr)%list_elem_of_fmap. unfold getById in Hnone.
    assert (Hin : r ∈ filter (fun r' => id r' = id r) db)
      by (by apply list_elem_of_filter).
    destruct (filter _ db); [by apply elem_of_nil in Hin|done].
  - intros Hout. unfold getById. by rewrite memory_select_absent.
Qed.

Lemma memory_getById_last (db : list MemoryRow) row :
  id row ∉ id <$> db -> getById (id row) (db ++ [row]) = Some (rowToMemory row).
Proof.
  intros Hfresh. unfold getById.
  rewrite filter_app, memory_select_absent by done.
  by rewrite filter_cons_True.
Qed.

Lemma memory_getById_app_other (db : list MemoryRow) row j :
  j <> id row -> getById j (db ++ [row]) = getById j db.
Proof.
  intros Hne. unfold getById.
  rewrite filter_app, filter_cons_False, filter_nil, app_nil_r; [done|].
  congruence.
Qed.

(** X16. [MemoryRepository.create] followed by [getById]. With a free id
    it appends one row that carries the input, with the source ['user']
    when none is given, the clock as [created_at] and no [updated_at];
    [getById] reads that very memory back, every other id reads as
    before, the count grows by one and the ids stay distinct. With an id
    already taken nothing is stored. *)
Theorem memory_create_then_getById input new_id now (db : list MemoryRow) :
  (new_id ∉ id <$> db ->
   exists m,
     create input new_id now db = Some (m, db ++ [m]) /\
     getById new_id (db ++ [m]) = Some m /\
     m = mkRow new_id (new_content input) (new_type input) (new_tags input)
           (Some (default user (new_source input))) now None None /\
     (forall j, j <> new_id -> getById j (db ++ [m]) = getById j db) /\
     count None (db ++ [m]) = S (count None db) /\
     count (Some (new_type input)) (db ++ [m])
     = S (count (Some (new_type input)) db) /\
     (primary_key db -> primary_key (db ++ [m]))) /\
  (new_id ∈ id <$> db -> create input new_id now db = None).
Proof.
  split.
  - intros Hfresh. eexists. unfold create.
    rewrite decide_False by done. split; [reflexivity|].
    set (row := mkRow new_id _ _ _ _ _ _ _).
    change new_id with (id row) in Hfresh |- *.
    split; [by rewrite memory_getById_last|]. split; [done|].
    split; [intros j Hj; by apply memory_getById_app_other|].
    split; [simpl; rewrite length_app; simpl; lia|].
    split.
    { simpl. rewrite filter_app, filter_cons_True by done.
      rewrite length_app. simpl. lia. }
    unfold primary_key. intros Hpk. rewrite fmap_app.
    apply NoDup_app. split; [done|]. split; [|apply NoDup_singleton].
    intros i Hi [->|[]%elem_of_nil]%elem_of_cons. done.
  - intros Htaken. unfold create. by rewrite decide_True.
Qed.

Lemma memory_getById_run_update_other updates i j (db : list MemoryRow) :
  j <> i -> getById j (run_update updates i db) = getById j db.
Proof.
  intros Hne.
  assert (Hid : forall a r, id (assign a r) = id r) by by intros [].
  assert (Hids : forall us r, id (foldl (fun r a => assign a r) r us) = id r).
  { induction us as [|a us IH]; intros r; [done|]. simpl. by rewrite IH, Hid. }
  unfold getById, run_update.
  induction db as [|r db IH]; [done|].
  rewrite fmap_cons, !filter_cons.
  destruct (decide (id r = i)) as [Hr|Hr].
  - rewrite Hids. rewrite !decide_False by congruence. apply IH.
  - destruct (decide (id r = j)); [done|]. apply IH.
Qed.

Lemma memory_run_update_ids updates i (db : list MemoryRow) :
  id <$> run_update updates i db = id <$> db.
Proof.
  assert (Hid : forall a r, id (assign a r) = id r) by by intros [].
  assert (Hids : forall us r, id (foldl (fun r a => assign a r) r us) = id r).
  { induction us as [|a us IH]; intros r; [done|]. simpl. by rewrite IH, Hid. }
  unfold run_update. rewrite <- list_fmap_compose.
  apply list_fmap_ext. intros k r _. simpl.
  destruct (decide (id r = i)); [apply Hids|done].
Qed.

(** X17. [MemoryRepository.update] on a stored memory replaces the
    fields that the input provides, stamps [updated_at] with the clock,
    and changes nothing else: id, source, [created_at] and embedding are
    kept, the returned memory is what [getById] reads afterwards, and
    every other id reads as before. *)
Theorem memory_update_changes_given_fields i input now
    (db : list MemoryRow) existing :
  getById i db = Some existing ->
  exists m db',
    update i input now db = (Some m, db') /\
    getById i db' = Some m /\
    m = mkRow i (default (content existing) (up_content input))
          (default (type existing) (up_type input))
          (from_option Some (tags existing) (up_tags input))
          (source existing) (created_at existing) (Some now)
          (embedding existing) /\
    (forall j, j <> i -> getById j db' = getById j db) /\
    id <$> db' = id <$> db.
Proof.
  intros Hget.
  rewrite (update_always_assigns i input now db existing Hget).
  rewrite getById_run_update, Hget.
  destruct (memory_getById_Some _ _ _ Hget) as (r & _ & Hid & ->).
  eexists _, _. split; [reflexivity|].
  rewrite getById_run_update, Hget.
  split; [reflexivity|]. split.
  - destruct input as [[c|] [ty|] [tg|]]; simpl; by rewrite Hid.
  - split; [|apply memory_run_update_ids].
    intros j Hj. by apply memory_getById_run_update_other.
Qed.

Lemma memory_update_changes_given_fields_witness :
  exists m db',
    update "mem_000000000001"
      {| up_content := Some "Use strict mode"%string; up_type := None;
         up_tags := Some ["ts"%string] |} 1700000500%Z [stored_memory]
    = (Some m, db') /\
    getById "mem_000000000001" db' = Some m /\
    m = mkRow "mem_000000000001" "Use strict mode" Search.preference
          (Some ["ts"%string]) (Some user) 1700000000%Z (Some 1700000500%Z)
          None /\
    (forall j, j <> "mem_000000000001"%string ->
       getById j db' = getById j [stored_memory]) /\
    id <$> db' = id <$> [stored_memory].
Proof.
  apply (memory_update_changes_given_fields "mem_000000000001"
           {| up_content := Some "Use strict mode"%string; up_type := None;
              up_tags := Some ["ts"%string] |} 1700000500%Z [stored_memory]
           stored_memory).
  reflexivity.
Defined.

Lemma memory_filter_ne_absent i (db : list MemoryRow) :
  i ∉ id <$> db -> filter (fun r => id r <> i) db = db.
Proof.
  induction db as [|r db IH]; [done|]. rewrite fmap_cons.
  intros [Hr Hout]%not_elem_of_cons.
  rewrite filter_cons_True by congruence. f_equal. by apply IH.
Qed.

Lemma memory_filter_ne_ids i (db : list MemoryRow) :
  id <$> filter (fun r => id r <> i) db = filter (fun j => j <> i) (id <$> db).
Proof.
  induction db as [|r db IH]; [done|].
  rewrite fmap_cons, !filter_cons.
  destruct (decide (id r <> i)); by rewrite ?fmap_cons, IH.
Qed.

Lemma memory_getById_filter_other i j (db : list MemoryRow) :
  j <> i -> getById j (filter (fun r => id r <> i) db) = getById j db.
Proof.
  intros Hne. unfold getById. do 2 f_equal.
  induction db as [|r db IH]; [done|].
  rewrite !filter_cons.
  destruct (decide (id r <> i)) as [Hr|Hr].
  - rewrite filter_cons. destruct (decide (id r = j)); by rewrite IH.
  - destruct (decide (id r = j)) as [Hj|Hj]; [|done].
    exfalso. apply Hr. congruence.
Qed.

(** X18. [MemoryRepository.delete] returns whether the id was stored.
    Of a stored memory it removes exactly that row: the id reads as
    absent afterwards, the count drops by one, every other id reads as
    before and a second delete returns false. Of an id that is not stored
    it returns false and leaves the table as it was. *)
Theorem memory_delete_removes_one_row i (db : list MemoryRow) :
  primary_key db ->
  (i ∈ id <$> db ->
   exists db',
     delete i db = (true, db') /\
     getById i db' = None /\
     S (count None db') = count None db /\
     (forall j, j <> i -> getById j db' = getById j db) /\
     delete i db' = (false, db')) /\
  (i ∉ id <$> db -> delete i db = (false, db)).
Proof.
  intros Hpk.
  assert (Hmiss : forall d : list MemoryRow,
            i ∉ id <$> d -> delete i d = (false, d)).
  { intros d Hout. unfold delete.
    by rewrite memory_select_absent, memory_filter_ne_absent. }
  split; [|apply Hmiss].
  intros Hin. exists (filter (fun r => id r <> i) db).
  assert (Hout : i ∉ id <$> filter (fun r => id r <> i) db).
  { rewrite memory_filter_ne_ids. by intros [? _]%list_elem_of_filter. }
  split_and!.
  - unfold delete. f_equal.
    apply list_elem_of_fmap in Hin as (r & -> & Hr).
    assert (Hsel : r ∈ filter (fun r' => id r' = id r) db)
      by (by apply list_elem_of_filter).
    destruct (filter (fun r' => id r' = id r) db);
      [by apply elem_of_nil in Hsel|done].
  - by apply memory_getById_None.
  - simpl. rewrite <- (length_fmap id (filter _ db)), <- (length_fmap id db).
    rewrite memory_filter_ne_ids. by apply filter_ne_length.
  - intros j Hj. by apply memory_getById_filter_other.
  - by apply Hmiss.
Qed.

Lemma memory_delete_removes_one_row_witness :
  exists db',
    delete "mem_000000000001" [stored_memory] = (true, db') /\
    getById "mem_000000000001" db' = None /\
    S (count None db') = count None [stored_memory] /\
    (forall j, j <> "mem_000000000001"%string ->
       getById j db' = getById j [stored_memory]) /\
    delete "mem_000000000001" db' = (false, db').
Proof.
  apply (proj1 (memory_delete_removes_one_row "mem_000000000001"
                  [stored_memory] ltac:(apply NoDup_singleton))).
  by_decide.
Defined.

(** *** Listings *)

Local Abbreviation newer_first :=
  (fun a b : MemoryRow => (created_at b <= created_at a)%Z).

Lemma insert_newest_first_perm x (l : list MemoryRow) :
  insert_newest_first x l ≡ₚ x :: l.
Proof.
  induction l as [|y l IH]; [done|]. simpl.
  destruct (created_at y <=? created_at x)%Z; [done|].
  rewrite IH. apply Permutation_swap.
Qed.

Lemma order_newest_first_perm (l : list MemoryRow) :
  order_newest_first l ≡ₚ l.
Proof.
  unfold order_newest_first. rewrite <- (reverse_Permutation l) at 2.
  induction (reverse l) as [|x l' IH]; [done|]. simpl.
  by rewrite insert_newest_first_perm, IH.
Qed.

Lemma insert_newest_first_sorted x (l : list MemoryRow) :
  StronglySorted newer_first l ->
  StronglySorted newer_first (insert_newest_first x l).
Proof.
  induction 1 as [|y l Hs IH Hall]; simpl.
  - repeat constructor.
  - destruct (created_at y <=? created_at x)%Z eqn:Hle.
    + apply Z.leb_le in Hle. constructor; [by constructor|].
      constructor; [done|].
      eapply Forall_impl; [exact Hall|]. intros z Hz. simpl in *. lia.
    + apply Z.leb_gt in Hle. constructor; [done|].
      rewrite insert_newest_first_perm. constructor; [simpl; lia|done].
Qed.

Lemma order_newest_first_sorted (l : list MemoryRow) :
  StronglySorted newer_first (order_newest_first l).
Proof.
  unfold order_newest_first.
  induction (reverse l) as [|x l' IH]; [constructor|]. simpl.
  by apply insert_newest_first_sorted.
Qed.

Lemma sorted_sublist (l1 l2 : list MemoryRow) :
  l1 `sublist_of` l2 -> StronglySorted newer_first l2 ->
  StronglySorted newer_first l1.
Proof.
  induction 1 as [|x l1 l2 Hsub IH|x l1 l2 Hsub IH]; intros Hs.
  - constructor.
  - apply StronglySorted_inv in Hs as [Hs Hall]. constructor; [by apply IH|].
    rewrite Forall_forall in Hall |- *. intros y Hy. apply Hall.
    by eapply elem_of_sublist.
  - apply StronglySorted_inv in Hs as [Hs _]. by apply IH.
Qed.

Lemma sql_limit_Some {A} limit offset (l : list A) :
  sql_integer limit = true -> sql_integer offset = true ->
  sql_limit limit offset l
  = Some (if (limit <? 0)%Z then drop (Z.to_nat offset) l
          else take (Z.to_nat limit) (drop (Z.to_nat offset) l)).
Proof. intros Hl Ho. unfold sql_limit. by rewrite Hl, Ho. Qed.

Lemma sql_limit_None {A} limit offset (l : list A) :
  sql_limit limit offset l = None <->
  sql_integer limit && sql_integer offset = false.
Proof.
  unfold sql_limit. by destruct (sql_integer limit && sql_integer offset).
Qed.

Lemma sql_limit_sublist {A} limit offset (l l' : list A) :
  sql_limit limit offset l = Some l' -> l' `sublist_of` l.
Proof.
  unfold sql_limit.
  destruct (sql_integer limit && sql_integer offset); [|done].
  intros [= <-]. destruct (limit <? 0)%Z.
  - apply sublist_drop.
  - etrans; [apply sublist_take|apply sublist_drop].
Qed.

Lemma sql_integer_spec n :
  sql_integer n = true <-> (- 2 ^ 63 < n < 2 ^ 63 - 1)%Z.
Proof.
  unfold sql_integer. rewrite andb_true_iff, !Z.ltb_lt. done.
Qed.

Lemma sorted_fmap_rowToMemory (l : list MemoryRow) :
  StronglySorted newer_first l ->
  StronglySorted newer_first (rowToMemory <$> l).
Proof.
  induction 1 as [|x l Hs IH Hall]; [constructor|].
  rewrite fmap_cons. constructor; [done|].
  rewrite Forall_fmap. eapply Forall_impl; [exact Hall|]. by intros y Hy.
Qed.

(** The rows that [list] orders. *)
Local Abbreviation rows_of_type t db :=
  (match t with
   | Some t' => filter (fun r : MemoryRow => type r = t') db
   | None => db
   end).

(** X19. [MemoryRepository.list] throws exactly when the limit or the
    offset (100 and 0 when not given) is no integer that the engine
    takes, that is not strictly between the least and the greatest
    64-bit integer. When it returns, it returns memories of the
    requested type only, each read from a stored row, newest first, and
    at most [limit] of them. With a negative limit and no offset it
    returns every memory of the type, as many as [count] counts.
    Consecutive pages are consecutive pieces of one listing: when the
    page of [a + b] can be asked for, it is the page of [a] followed by
    the page of [b] at offset [a]. *)
Theorem list_pages_newest_first options (db : list MemoryRow) :
  (list_ options db = None <->
   sql_integer (default 100%Z (list_limit options)) &&
   sql_integer (default 0%Z (list_offset options)) = false) /\
  (forall ms, list_ options db = Some ms ->
     StronglySorted newer_first ms /\
     (forall m, m ∈ ms ->
        exists r, r ∈ db /\ m = rowToMemory r /\
                  match list_type options with
                  | Some t => type r = t
                  | None => True
                  end) /\
     ((0 <= default 100%Z (list_limit options))%Z ->
      length ms <= Z.to_nat (default 100%Z (list_limit options)))) /\
  (forall n, (n < 0)%Z -> sql_integer n = true ->
     exists ms,
       list_ {| list_limit := Some n; list_offset := None;
                list_type := list_type options |} db = Some ms /\
       ms ≡ₚ rowToMemory <$> rows_of_type (list_type options) db /\
       length ms = count (list_type options) db) /\
  (forall a b o, (0 <= a)%Z -> (0 <= b)%Z -> (0 <= o)%Z ->
     sql_integer (a + b) = true -> sql_integer (o + a) = true ->
     exists first second,
       list_ {| list_limit := Some a; list_offset := Some o;
                list_type := list_type options |} db = Some first /\
       list_ {| list_limit := Some b; list_offset := Some (o + a)%Z;
                list_type := list_type options |} db = Some second /\
       list_ {| list_limit := Some (a + b)%Z; list_offset := Some o;
                list_type := list_type options |} db
       = Some (first ++ second)).
Proof.
  split_and!.
  - unfold list_. rewrite fmap_None. apply sql_limit_None.
  - intros ms. unfold list_. rewrite fmap_Some.
    intros (rows & Hrows & ->).
    pose proof (sql_limit_sublist _ _ _ _ Hrows) as Hsub.
    split_and!.
    + apply sorted_fmap_rowToMemory.
      eapply sorted_sublist; [exact Hsub|].
      apply order_newest_first_sorted.
    + intros m (r & -> & Hr)%list_elem_of_fmap.
      eapply elem_of_sublist in Hr; [|exact Hsub].
      rewrite order_newest_first_perm in Hr.
      exists r. destruct (list_type options); [|done].
      apply list_elem_of_filter in Hr as [? ?]. done.
    + intros Hpos. rewrite length_fmap. unfold sql_limit in Hrows.
      destruct (_ && _); [|done]. injection Hrows as <-.
      assert (Hlt : (default 100%Z (list_limit options) <? 0)%Z = false)
        by (apply Z.ltb_ge; lia).
      rewrite Hlt, length_take. lia.
  - intros n Hn Hint. unfold list_. simpl.
    rewrite sql_limit_Some by done.
    assert (Hlt : (n <? 0)%Z = true) by (by apply Z.ltb_lt).
    rewrite Hlt, drop_0. eexists. split; [reflexivity|]. split.
    + by rewrite order_newest_first_perm.
    + rewrite length_fmap, order_newest_first_perm.
      unfold count. by destruct (list_type options).
  - intros a b o Ha Hb Ho Hab Hoa. unfold list_. simpl.
    apply sql_integer_spec in Hab, Hoa.
    rewrite !sql_limit_Some by (apply sql_integer_spec; lia).
    assert (Hab' : (a + b <? 0)%Z = false) by (apply Z.ltb_ge; lia).
    assert (Ha' : (a <? 0)%Z = false) by (apply Z.ltb_ge; lia).
    assert (Hb' : (b <? 0)%Z = false) by (apply Z.ltb_ge; lia).
    rewrite Hab', Ha', Hb'. eexists _, _.
    split; [reflexivity|]. split; [reflexivity|]. simpl.
    rewrite <- fmap_app. do 2 f_equal.
    rewrite Z2Nat.inj_add, (Z2Nat.inj_add o a) by done.
    rewrite <- drop_drop. by rewrite take_take_drop.
Qed.

(** A limit beyond the 64-bit integers, twice a valid page size. *)
Example list_limit_out_of_range :
  list_ {| list_limit := Some (2 ^ 63)%Z; list_offset := None;
           list_type := None |} [stored_memory] = None /\
  list_ {| list_limit := Some (2 ^ 62)%Z; list_offset := None;
           list_type := None |} [stored_memory]
  = Some [rowToMemory stored_memory].
Proof.
  split; [by vm_compute|]. unfold list_. cbn [list_limit list_offset list_type default].
  rewrite sql_limit_Some by (by vm_compute).
  change (2 ^ 62 <? 0)%Z with false. cbv iota.
  rewrite take_ge; [done|]. rewrite length_drop, order_newest_first_perm.
  unfold Datatypes.id. cbn [length]. lia.
Qed.

Lemma order_newest_first_snoc (db : list MemoryRow) row :
  Forall (fun r => (created_at r <= created_at row)%Z) db ->
  order_newest_first (db ++ [row]) = row :: order_newest_first db.
Proof.
  intros Hall. unfold order_newest_first. rewrite reverse_snoc. simpl.
  fold (order_newest_first db).
  assert (Hsorted : Forall (fun r => (created_at r <= created_at row)%Z)
                      (order_newest_first db))
    by (by rewrite order_newest_first_perm).
  destruct (order_newest_first db) as [|y l]; [done|]. simpl.
  apply Forall_cons in Hsorted as [Hy _].
  by rewrite (proj2 (Z.leb_le _ _) Hy).
Qed.

Lemma sql_limit_head {A} limit (x : A) l :
  limit <> 0%Z -> sql_integer limit = true ->
  exists l', sql_limit limit 0 (x :: l) = Some (x :: l').
Proof.
  intros Hne Hint. rewrite sql_limit_Some by done. simpl.
  destruct (limit <? 0)%Z eqn:Hlt; [by eexists|]. apply Z.ltb_ge in Hlt.
  destruct (Z.to_nat limit) eqn:Hn; [lia|]. simpl. by eexists.
Qed.

(** X20. The memory just created is listed first. When the clock has
    not gone back, that is when no stored memory has a later
    [created_at], [getRecentMemories], [searchByType] for its type and
    [list] all return the new memory at the head, whatever limit they
    are given that is not zero and is an integer that the engine takes:
    among memories created in the same second the one inserted last
    comes first. The two listings of memory/search.ts are [list] with
    their own default limits, 10 and 20; and with a limit that the
    engine does not take, all three throw. *)
Theorem newest_memory_listed_first input new_id now (db : list MemoryRow) :
  (new_id ∉ id <$> db ->
   Forall (fun r => (created_at r <= now)%Z) db ->
   exists m,
     create input new_id now db = Some (m, db ++ [m]) /\
     forall limit, limit <> Some 0%Z ->
       (forall n, limit = Some n -> sql_integer n = true) ->
       exists recent of_type listed,
         getRecentMemories limit (db ++ [m]) = Some (m :: recent) /\
         searchByType (new_type input) limit (db ++ [m])
         = Some (m :: of_type) /\
         list_ {| list_limit := limit; list_offset := None;
                  list_type := None |} (db ++ [m]) = Some (m :: listed)) /\
  (forall t limit,
     searchByType t limit db
     = list_ {| list_limit := Some (default 20%Z limit); list_offset := None;
                list_type := Some t |} db) /\
  (forall limit,
     getRecentMemories limit db
     = list_ {| list_limit := Some (default 10%Z limit); list_offset := None;
                list_type := None |} db) /\
  (forall n t, sql_integer n = false ->
     getRecentMemories (Some n) db = None /\
     searchByType t (Some n) db = None /\
     list_ {| list_limit := Some n; list_offset := None;
              list_type := None |} db = None).
Proof.
  split; [|split; [done|split; [done|]]].
  - intros Hfresh Hclock. eexists. unfold create.
    rewrite decide_False by done. split; [reflexivity|].
    set (row := mkRow new_id _ _ _ _ _ _ _).
    assert (Hrow : rowToMemory row = row) by done.
    intros limit Hl Hint.
    assert (Hlimit : forall d : Z, d <> 0%Z -> sql_integer d = true ->
              default d limit <> 0%Z /\ sql_integer (default d limit) = true).
    { intros d Hd Hdi. destruct limit as [n|]; simpl; [|done].
      split; [congruence|by apply Hint]. }
    assert (Hhead : forall (d : Z) l, d <> 0%Z -> sql_integer d = true ->
              exists l',
                (fun rows : list MemoryRow => rowToMemory <$> rows) <$>
                sql_limit (default d limit) 0 (row :: l)
                = Some (row :: l')).
    { intros d l Hd Hdi. destruct (Hlimit d Hd Hdi) as [Hne Hok].
      destruct (sql_limit_head _ row l Hne Hok) as (l' & ->).
      exists (rowToMemory <$> l'). simpl. by rewrite Hrow. }
    unfold getRecentMemories, searchByType, list_. simpl.
    rewrite filter_app, filter_cons_True, filter_nil by done.
    rewrite !order_newest_first_snoc.
    + destruct (Hhead 10%Z (order_newest_first db)) as (recent & ->);
        [done|done|].
      destruct (Hhead 20%Z
                  (order_newest_first
                     (filter (fun r => type r = new_type input) db)))
        as (of_type & ->); [done|done|].
      destruct (Hhead 100%Z (order_newest_first db)) as (listed & ->);
        [done|done|].
      by exists recent, of_type, listed.
    + rewrite Forall_forall in Hclock |- *. intros r Hr. apply Hclock.
      by apply list_elem_of_filter in Hr as [_ ?].
    + done.
  - intros n t Hn. unfold getRecentMemories, searchByType, list_, sql_limit.
    simpl. by rewrite Hn.
Qed.

Lemma newest_memory_listed_first_witness :
  exists m,
    create {| new_content := "Prefer pnpm"; new_type := Search.preference;
              new_tags := None; new_source := None |}
      "mem_000000000002" 1700000000%Z [stored_memory]
    = Some (m, [stored_memory] ++ [m]) /\
    exists recent of_type listed,
      getRecentMemories (Some 1%Z) ([stored_memory] ++ [m])
      = Some (m :: recent) /\
      searchByType Search.preference (Some 1%Z) ([stored_memory] ++ [m])
      = Some (m :: of_type) /\
      list_ {| list_limit := Some 1%Z; list_offset := None;
               list_type := None |} ([stored_memory] ++ [m])
      = Some (m :: listed).
Proof.
  destruct (proj1 (newest_memory_listed_first
                     {| new_content := "Prefer pnpm";
                        new_type := Search.preference;
                        new_tags := None; new_source := None |}
                     "mem_000000000002" 1700000000%Z [stored_memory])
              ltac:(by_decide) ltac:(by_decide)) as (m & Hm & Hlist).
  exists m. split; [exact Hm|]. apply (Hlist (Some 1%Z)).
  - done.
  - by intros n [= <-].
Defined.

End MemoryRepository.

(* ===================================================================== *)
(** ** Migrations: what a run applies, validation, the two subsystems *)
(* ===================================================================== *)

Section MigrationRuns.
Import Migrations.

Context (EMBEDDED_MIGRATIONS : MigrationSubsystem -> option (list (string * string)))
        (computeChecksum : string -> string)
        {Schema : Type}
        (exec_sql : string -> Schema -> option Schema)
        (unixepoch : Z -> Z).

Local Abbreviation apply_pending :=
  (apply_pending computeChecksum Schema exec_sql unixepoch).
Local Abbreviation apply_migration :=
  (apply_migration computeChecksum Schema exec_sql unixepoch).
Local Abbreviation runMigrations :=
  (runMigrations EMBEDDED_MIGRATIONS computeChecksum Schema exec_sql unixepoch).
Local Abbreviation runAllMigrations :=
  (runAllMigrations EMBEDDED_MIGRATIONS computeChecksum Schema exec_sql
     unixepoch).
Local Abbreviation getMigrations := (getMigrations EMBEDDED_MIGRATIONS).
Local Abbreviation getPendingMigrations :=
  (getPendingMigrations EMBEDDED_MIGRATIONS Schema).
Local Abbreviation validateMigrations :=
  (validateMigrations EMBEDDED_MIGRATIONS computeChecksum Schema).
Local Abbreviation validate_record := (validate_record computeChecksum).
Local Abbreviation record_of := (record_of computeChecksum unixepoch).
Local Abbreviation above cur :=
  (filter (fun m : Migration => (cur < version m)%Z)).

(** The loop of [runMigrations], whatever its outcome: it works through
    the migrations above the current version in order; when it returns it
    has recorded all of them, when it throws it has recorded those before
    the one that failed, and nothing of that one. *)
Lemma apply_pending_run name cur : forall ms applied (db : Database Schema) rows,
  tracking Schema db !! name = Some rows ->
  match apply_pending name cur ms applied db with
  | Returned _ n db' =>
      n = applied + length (above cur ms) /\
      tracking Schema db'
      = <[name := rows ++ (record_of <$> above cur ms)]> (tracking Schema db) /\
      NoDup (version <$> above cur ms) /\
      (forall m, m ∈ above cur ms -> version m ∉ applied_version <$> rows)
  | Threw _ db' =>
      exists done failing rest,
        above cur ms = done ++ failing :: rest /\
        tracking Schema db'
        = <[name := rows ++ (record_of <$> done)]> (tracking Schema db) /\
        apply_migration name failing db' = None
  end.
Proof.
  induction ms as [|m ms IH]; intros applied db rows Hrows.
  - simpl. rewrite app_nil_r. split; [lia|]. split; [by rewrite insert_id|].
    split; [constructor|]. by intros m ?%elem_of_nil.
  - simpl. destruct (version m <=? cur)%Z eqn:Hle.
    + apply Z.leb_le in Hle. rewrite filter_cons_False by lia.
      by apply IH.
    + apply Z.leb_gt in Hle. rewrite filter_cons_True by lia.
      destruct (apply_migration name m db) as [db1|] eqn:Happ.
      * unfold Migrations.apply_migration in Happ.
        destruct (exec_sql (sql m) (schema Schema db)) as [schema'|]; [|done].
        rewrite Hrows in Happ.
        destruct (decide (version m ∈ applied_version <$> rows)) as [|Hnew];
          [done|].
        injection Happ as <-.
        specialize (IH (S applied)
                      (mkDb Schema (<[name := rows ++ [record_of m]]>
                                      (tracking Schema db)) schema')
                      (rows ++ [record_of m])).
        cbn [tracking] in IH. rewrite lookup_insert_eq in IH.
        specialize (IH eq_refl).
        destruct (Migrations.apply_pending _ _ _ _ _ _ ms (S applied) _)
          as [db'|n db'].
        -- destruct IH as (done & failing & rest & Hsplit & Htrack & Hfail).
           exists (m :: done), failing, rest. rewrite Hsplit.
           split; [done|]. split; [|done].
           rewrite Htrack, insert_insert_eq. simpl.
           by rewrite <- app_assoc.
        -- destruct IH as (Hn & Htrack & Hnd & Hfresh). simpl.
           split; [lia|]. split.
           { rewrite Htrack, insert_insert_eq. by rewrite <- app_assoc. }
           split.
           { constructor; [|done]. intros (m' & Hv & Hm')%list_elem_of_fmap.
             apply (Hfresh m' Hm'). rewrite fmap_app, elem_of_app. right.
             simpl. rewrite Hv. by left. }
           intros m' [->|Hm']%elem_of_cons; [done|].
           intros Hin. apply (Hfresh m' Hm').
           rewrite fmap_app, elem_of_app. by left.
      * exists [], m, (above cur ms). split; [done|].
        simpl. rewrite app_nil_r. split; [by rewrite insert_id|done].
Qed.

Local Abbreviation getAppliedMigrations := (getAppliedMigrations Schema).
Local Abbreviation getCurrentVersion := (getCurrentVersion Schema).
Local Abbreviation ensureMigrationTable := (ensureMigrationTable Schema).

Lemma insert_applied_perm r (l : list AppliedMigration) :
  insert_applied r l ≡ₚ r :: l.
Proof.
  induction l as [|x l IH]; [done|]. simpl.
  destruct (applied_version r <=? applied_version x)%Z; [done|].
  rewrite IH. apply Permutation_swap.
Qed.

Lemma applied_perm (db : Database Schema) sub :
  getAppliedMigrations db sub
  ≡ₚ default [] (tracking Schema db !! getMigrationTableName sub).
Proof.
  unfold Migrations.getAppliedMigrations.
  destruct (tracking Schema db !! getMigrationTableName sub) as [rows|];
    [|done].
  simpl. induction rows as [|r rows IH]; [done|]. simpl.
  by rewrite insert_applied_perm, IH.
Qed.

(** Creating the tracking table changes no answer of the queries. *)
Lemma ensured_same (db : Database Schema) sub :
  exists rows,
    tracking Schema (ensureMigrationTable db sub) !! getMigrationTableName sub
    = Some rows /\
    rows = default [] (tracking Schema db !! getMigrationTableName sub) /\
    getCurrentVersion (ensureMigrationTable db sub) sub = getCurrentVersion db sub /\
    getCurrentVersion db sub = default 0%Z (max_version rows) /\
    (forall other, other <> getMigrationTableName sub ->
       tracking Schema (ensureMigrationTable db sub) !! other
       = tracking Schema db !! other).
Proof.
  unfold Migrations.ensureMigrationTable, Migrations.getCurrentVersion.
  destruct (tracking Schema db !! getMigrationTableName sub) as [rows|] eqn:H.
  - exists rows. by rewrite H.
  - exists []. simpl. rewrite lookup_insert_eq. split_and!; try done.
    intros other Hother. by rewrite lookup_insert_ne.
Qed.

Lemma table_names_differ sub other :
  other <> sub -> getMigrationTableName other <> getMigrationTableName sub.
Proof. by destruct sub, other. Qed.

(** The current version after a run that returned is not below any
    embedded version. *)
Lemma current_after_run rows cur (ms : list Migration) :
  cur = default 0%Z (max_version rows) ->
  forall m, m ∈ ms ->
    (version m <= default 0 (max_version (rows ++ (record_of <$> above cur ms))))%Z.
Proof.
  intros Hcur m Hm.
  assert (Hmono : (cur <= default 0 (max_version
                                       (rows ++ (record_of <$> above cur ms))))%Z).
  { destruct rows as [|r rows].
    - simpl in Hcur. subst cur.
      destruct (above 0 ms) as [|a added] eqn:Ha; [done|].
      destruct (max_version_bounds ([] ++ (record_of <$> a :: added))
                  (version a)) as (mx & Hmx & Hle & _); [by left|].
      rewrite Hmx. simpl.
      assert (a ∈ above 0 ms) by (rewrite Ha; by left).
      apply list_elem_of_filter in H as [? _]. lia.
    - destruct (max_version_bounds (r :: rows) (applied_version r))
        as (mx & Hmx & _ & Hin); [by left|].
      destruct (max_version_bounds ((r :: rows) ++ (record_of <$> above cur ms)) mx)
        as (mx' & Hmx' & Hle & _).
      { rewrite fmap_app. apply elem_of_app. by left. }
      rewrite Hmx in Hcur. simpl in Hcur. subst cur. by rewrite Hmx'. }
  destruct (decide (cur < version m)%Z) as [Hgt|Hle]; [|lia].
  destruct (max_version_bounds (rows ++ (record_of <$> above cur ms)) (version m))
    as (mx & Hmx & Hle & _).
  { rewrite fmap_app. apply elem_of_app. right.
    rewrite <- list_fmap_compose. apply (list_elem_of_fmap_2 (version)).
    by apply list_elem_of_filter. }
  by rewrite Hmx.
Qed.

Lemma above_nothing cur (ms : list Migration) :
  (forall m, m ∈ ms -> (version m <= cur)%Z) -> above cur ms = [].
Proof.
  induction ms as [|m ms IH]; intros Hall; [done|].
  rewrite filter_cons_False.
  - apply IH. intros m' Hm'. apply Hall. by right.
  - specialize (Hall m (list_elem_of_here _ _)). lia.
Qed.

(** X21. A run of [runMigrations] that returns has applied exactly the
    pending migrations: the number it returns is the number of
    migrations that [getPendingMigrations] listed before the run, the
    tracking table holds its former rows and one record for each of
    them, with the checksum of its SQL, every one of them was above the
    former current version and is at most the new one, and afterwards
    [getPendingMigrations] lists nothing. *)
Theorem run_applies_the_pending (db : Database Schema) sub n db' :
  runMigrations db sub = Returned Schema n db' ->
  exists pending,
    getPendingMigrations db sub = Some pending /\
    n = length pending /\
    getAppliedMigrations db' sub
    ≡ₚ getAppliedMigrations db sub ++ (record_of <$> pending) /\
    (forall m, m ∈ pending ->
       (getCurrentVersion db sub < version m <= getCurrentVersion db' sub)%Z) /\
    getPendingMigrations db' sub = Some [].
Proof.
  unfold Migrations.runMigrations, Migrations.getPendingMigrations.
  destruct (getMigrations sub) as [ms|] eqn:Hms; [|done].
  destruct (ensured_same db sub) as (rows & Hrows & Hdef & Hcur & Hcur' & _).
  rewrite Hcur. intros Hrun.
  pose proof (apply_pending_run (getMigrationTableName sub)
                (getCurrentVersion db sub) ms 0 _ rows Hrows) as Hspec.
  rewrite Hrun in Hspec. destruct Hspec as (Hn & Htrack & Hnd & Hfresh).
  exists (above (getCurrentVersion db sub) ms). simpl.
  assert (Htab : tracking Schema db' !! getMigrationTableName sub
                 = Some (rows ++ (record_of <$> above (getCurrentVersion db sub) ms)))
    by (rewrite Htrack; apply lookup_insert_eq).
  assert (Hnew : forall m, m ∈ ms ->
            (version m <= getCurrentVersion db' sub)%Z).
  { intros m Hm. unfold Migrations.getCurrentVersion at 1. rewrite Htab.
    by apply current_after_run. }
  split_and!; [done|done| | |].
  - rewrite !applied_perm, Htab, <- Hdef. done.
  - intros m Hm. apply list_elem_of_filter in Hm as [Hgt Hm].
    split; [done|by apply Hnew].
  - f_equal. by apply above_nothing.
Qed.

Lemma omap_all_none {A B} (f : A -> option B) (l : list A) :
  (forall x, x ∈ l -> f x = None) -> omap f l = [].
Proof.
  induction l as [|x l IH]; intros Hall; [done|]. simpl.
  rewrite Hall by (by left). apply IH. intros y Hy. apply Hall. by right.
Qed.

(** The number that a run returns. *)
Lemma run_returns_pending (db : Database Schema) sub n db' :
  runMigrations db sub = Returned Schema n db' ->
  exists pending,
    getPendingMigrations db sub = Some pending /\ n = length pending.
Proof.
  unfold Migrations.runMigrations, Migrations.getPendingMigrations.
  destruct (getMigrations sub) as [ms|] eqn:Hms; [|done].
  destruct (ensured_same db sub) as (rows & Hrows & Hdef & Hcur & Hcur' & _).
  rewrite Hcur. intros Hrun.
  pose proof (apply_pending_run (getMigrationTableName sub)
                (getCurrentVersion db sub) ms 0 _ rows Hrows) as Hspec.
  rewrite Hrun in Hspec. destruct Hspec as (Hn & _).
  eexists. split; [reflexivity|]. done.
Qed.

Lemma validate_new_record (ms : list Migration) cur m :
  NoDup (version <$> above cur ms) -> m ∈ above cur ms ->
  validate_record ms (record_of m) = None.
Proof.
  intros Hnd Hm. unfold Migrations.validate_record. simpl.
  destruct (list_find (fun m' => version m' = version m) ms)
    as [[i m']|] eqn:Hfind; [|done].
  apply list_find_Some in Hfind as (Hi & Hv & _).
  assert (Hm' : m' ∈ above cur ms).
  { apply list_elem_of_filter in Hm as [Hgt _].
    apply list_elem_of_filter. split; [lia|].
    by eapply list_elem_of_lookup_2. }
  assert (m' = m) as ->.
  { clear -Hnd Hm Hm' Hv. induction (above cur ms) as [|x l IH];
      [by apply elem_of_nil in Hm|].
    rewrite fmap_cons in Hnd. apply NoDup_cons in Hnd as [Hx Hnd].
    apply elem_of_cons in Hm as [->|Hm], Hm' as [->|Hm'];
      [done| | |by apply IH].
    - exfalso. apply Hx. rewrite <- Hv. by apply list_elem_of_fmap_2.
    - exfalso. apply Hx. rewrite Hv. by apply list_elem_of_fmap_2. }
  by rewrite decide_False by (intros H; by apply H).
Qed.

(** X22. [validateMigrations] after a run. A run that returns records
    each migration with the checksum of the very SQL it ran, so it adds
    no mismatch: validation reports after the run what it reported
    before, and on a database that had no applied migration it reports
    none. *)
Theorem validation_survives_run (db : Database Schema) sub n db' :
  runMigrations db sub = Returned Schema n db' ->
  exists before after,
    validateMigrations db sub = Some before /\
    validateMigrations db' sub = Some after /\
    after ≡ₚ before /\
    (getAppliedMigrations db sub = [] -> after = []).
Proof.
  unfold Migrations.runMigrations, Migrations.validateMigrations.
  destruct (getMigrations sub) as [ms|] eqn:Hms; [|done].
  destruct (ensured_same db sub) as (rows & Hrows & Hdef & Hcur & Hcur' & _).
  rewrite Hcur. intros Hrun.
  pose proof (apply_pending_run (getMigrationTableName sub)
                (getCurrentVersion db sub) ms 0 _ rows Hrows) as Hspec.
  rewrite Hrun in Hspec. destruct Hspec as (Hn & Htrack & Hnd & Hfresh).
  assert (Htab : tracking Schema db' !! getMigrationTableName sub
                 = Some (rows ++ (record_of <$> above (getCurrentVersion db sub) ms)))
    by (rewrite Htrack; apply lookup_insert_eq).
  eexists _, _. split; [reflexivity|]. split; [reflexivity|].
  assert (Hnew : omap (validate_record ms)
                   (record_of <$> above (getCurrentVersion db sub) ms) = []).
  { apply omap_all_none. intros r (m & -> & Hm)%list_elem_of_fmap.
    by eapply validate_new_record. }
  assert (Hperm : omap (validate_record ms) (getAppliedMigrations db' sub)
                  ≡ₚ omap (validate_record ms) (getAppliedMigrations db sub)).
  { rewrite (applied_perm db'), (applied_perm db), Htab, <- Hdef. simpl.
    by rewrite omap_app, Hnew, app_nil_r. }
  split; [done|].
  intros Hnone. rewrite Hnone in Hperm. simpl in Hperm.
  by apply Permutation_nil_r in Hperm.
Qed.

(** X23. The two subsystems keep their books apart. Whatever a run for
    one subsystem does, and whether it returns or throws, the tracking
    table of the other subsystem, its current version, its applied
    records and its pending migrations are as before. So
    [runAllMigrations], when it returns, reports for each subsystem the
    number of migrations that were pending for it at the start. *)
Theorem subsystems_keep_apart (db : Database Schema) sub other :
  other <> sub ->
  let db' := match runMigrations db sub with
             | Threw _ d | Returned _ _ d => d
             end in
  (tracking Schema db' !! getMigrationTableName other
   = tracking Schema db !! getMigrationTableName other /\
   getCurrentVersion db' other = getCurrentVersion db other /\
   getAppliedMigrations db' other = getAppliedMigrations db other /\
   getPendingMigrations db' other = getPendingMigrations db other) /\
  (forall applied_memory applied_history db2,
     runAllMigrations db = ReturnedAll Schema applied_memory applied_history db2 ->
     exists pending_memory pending_history,
       getPendingMigrations db memory = Some pending_memory /\
       getPendingMigrations db history = Some pending_history /\
       applied_memory = length pending_memory /\
       applied_history = length pending_history).
Proof.
  assert (Hframe : forall (d : Database Schema) s o, o <> s ->
            tracking Schema (match runMigrations d s with
                             | Threw _ d' | Returned _ _ d' => d'
                             end) !! getMigrationTableName o
            = tracking Schema d !! getMigrationTableName o).
  { intros d s o Hne. unfold Migrations.runMigrations.
    destruct (ensured_same d s) as (rows & Hrows & _ & _ & _ & Hothers).
    destruct (getMigrations s) as [ms|];
      [|by apply Hothers, table_names_differ].
    pose proof (apply_pending_run (getMigrationTableName s)
                  (getCurrentVersion (ensureMigrationTable d s) s) ms 0 _
                  rows Hrows) as Hspec.
    destruct (Migrations.apply_pending _ _ _ _ _ _ ms 0 _) as [d'|k d'].
    - destruct Hspec as (done & failing & rest & _ & Htrack & _).
      rewrite Htrack, lookup_insert_ne by (by apply not_eq_sym, table_names_differ).
      by apply Hothers, table_names_differ.
    - destruct Hspec as (_ & Htrack & _).
      rewrite Htrack, lookup_insert_ne by (by apply not_eq_sym, table_names_differ).
      by apply Hothers, table_names_differ. }
  assert (Hqueries : forall (d d' : Database Schema) o,
            tracking Schema d' !! getMigrationTableName o
            = tracking Schema d !! getMigrationTableName o ->
            getCurrentVersion d' o = getCurrentVersion d o /\
            getAppliedMigrations d' o = getAppliedMigrations d o /\
            getPendingMigrations d' o = getPendingMigrations d o).
  { intros d d' o Heq.
    unfold Migrations.getPendingMigrations, Migrations.getAppliedMigrations,
      Migrations.getCurrentVersion. by rewrite Heq. }
  intros Hne db'. split.
  - split; [by apply Hframe|]. by apply Hqueries, Hframe.
  - intros am ah db2. unfold Migrations.runAllMigrations.
    destruct (runMigrations db memory) as [d1|n1 d1] eqn:Hrun1; [done|].
    destruct (runMigrations d1 history) as [d2|n2 d2] eqn:Hrun2; [done|].
    intros [= <- <- <-].
    destruct (run_returns_pending db memory n1 d1 Hrun1) as (p1 & Hp1 & Hn1).
    destruct (run_returns_pending d1 history n2 d2 Hrun2) as (p2 & Hp2 & Hn2).
    exists p1, p2. split; [done|]. split; [|done].
    rewrite <- Hp2.
    pose proof (Hframe db memory history ltac:(done)) as Hf.
    rewrite Hrun1 in Hf. symmetry. by apply Hqueries.
Qed.

(** X24. A run of [runMigrations] that throws while applying stops at
    the first pending migration whose transaction fails: the pending
    migrations before it are recorded, in order, after the former rows;
    neither it nor any later one is. It failed because its SQL failed on
    the database left by the earlier ones, or because its version was
    already recorded. *)
Theorem failed_run_keeps_earlier (db : Database Schema) sub db' pending :
  getPendingMigrations db sub = Some pending ->
  runMigrations db sub = Threw Schema db' ->
  exists done failing rest,
    pending = done ++ failing :: rest /\
    getAppliedMigrations db' sub
    ≡ₚ getAppliedMigrations db sub ++ (record_of <$> done) /\
    (exec_sql (sql failing) (schema Schema db') = None \/
     version failing ∈ applied_version <$> getAppliedMigrations db' sub).
Proof.
  unfold Migrations.runMigrations, Migrations.getPendingMigrations.
  destruct (getMigrations sub) as [ms|] eqn:Hms; [|done].
  destruct (ensured_same db sub) as (rows & Hrows & Hdef & Hcur & Hcur' & _).
  rewrite Hcur. simpl. intros [= <-] Hrun.
  pose proof (apply_pending_run (getMigrationTableName sub)
                (getCurrentVersion db sub) ms 0 _ rows Hrows) as Hspec.
  rewrite Hrun in Hspec.
  destruct Hspec as (done & failing & rest & Hsplit & Htrack & Hfail).
  exists done, failing, rest. split; [done|].
  assert (Htab : tracking Schema db' !! getMigrationTableName sub
                 = Some (rows ++ (record_of <$> done)))
    by (rewrite Htrack; apply lookup_insert_eq).
  split.
  - by rewrite !applied_perm, Htab, <- Hdef.
  - unfold Migrations.apply_migration in Hfail.
    destruct (exec_sql (sql failing) (schema Schema db')); [|by left].
    rewrite Htab in Hfail. right.
    destruct (decide (version failing
                      ∈ applied_version <$> rows ++ (record_of <$> done)))
      as [Hin|]; [|done].
    by rewrite applied_perm, Htab.
Qed.

Lemma digit_value_range c :
  is_digit c = true -> (0 <= digit_value c <= 9)%Z.
Proof.
  unfold is_digit, digit_value. intros [H1 H2]%andb_true_iff.
  apply Nat.leb_le in H1, H2. lia.
Qed.

Lemma ascii_no_line_separator desc :
  is_ascii_name desc = true -> has_line_separator desc = false.
Proof.
  unfold is_ascii_name.
  induction desc as [|a desc IH]; [done|]. cbn [forallb has_line_separator].
  intros [Ha Hrest]%andb_true_iff. rewrite (IH Hrest), orb_false_r.
  destruct desc as [|b [|c desc]]; [done..|].
  apply Nat.ltb_lt in Ha.
  destruct (nat_of_ascii a =? 226) eqn:E; [|done].
  apply Nat.eqb_eq in E. lia.
Qed.

(** X25. [parseFilename] accepts exactly the names made of four digits,
    an underscore, a non-empty description without line break, and the
    extension [.sql], and reads them as follows: the version is the
    number the four digits write, between 0 and 9999, and the description
    is the middle part with each underscore turned into a space, so it
    holds no underscore. (For names of ASCII characters.) *)
Theorem parseFilename_reads_the_name :
  (forall d1 d2 d3 d4 desc,
     forallb is_digit [d1; d2; d3; d4] = true ->
     desc <> [] -> is_ascii_name desc = true ->
     forallb (fun c => negb (is_line_terminator c)) desc = true ->
     parseFilename
       (string_of_list_ascii
          ([d1; d2; d3; d4] ++ "_"%char :: desc ++ list_ascii_of_string ".sql"))
     = Some ((1000 * digit_value d1 + 100 * digit_value d2
              + 10 * digit_value d3 + digit_value d4)%Z,
             string_of_list_ascii (underscores_to_spaces desc))) /\
  (forall name v description,
     is_ascii_name (list_ascii_of_string name) = true ->
     parseFilename name = Some (v, description) ->
     (0 <= v <= 9999)%Z /\
     ("_"%char ∉ list_ascii_of_string description) /\
     exists d1 d2 d3 d4 desc,
       list_ascii_of_string name
       = [d1; d2; d3; d4] ++ "_"%char :: desc ++ list_ascii_of_string ".sql" /\
       forallb is_digit [d1; d2; d3; d4] = true /\
       desc <> [] /\
       forallb (fun c => negb (is_line_terminator c)) desc = true /\
       description = string_of_list_ascii (underscores_to_spaces desc)).
Proof.
  split.
  - intros d1 d2 d3 d4 desc Hdigits Hne Hascii Hline. unfold parseFilename.
    rewrite list_ascii_of_string_of_list_ascii.
    cbn [app]. rewrite Hdigits.
    rewrite length_app. cbn [length list_ascii_of_string].
    replace (length desc + 4 - 4) with (length desc) by lia.
    rewrite take_app_length, drop_app_length.
    rewrite bool_decide_eq_true_2 by done.
    rewrite bool_decide_eq_true_2 by done.
    rewrite Hline, (ascii_no_line_separator desc Hascii).
    assert (Hlen : (4 <? length desc + 4) = true)
      by (apply Nat.ltb_lt; destruct desc; [done|simpl; lia]).
    rewrite Hlen. cbn [andb foldl]. do 2 f_equal. lia.
  - intros name v description _. unfold parseFilename.
    destruct (list_ascii_of_string name)
      as [|d1 [|d2 [|d3 [|d4 [|u rest]]]]] eqn:Hname; try done.
    destruct (forallb is_digit [d1; d2; d3; d4]) eqn:Hdigits; [|done].
    destruct (bool_decide (u = "_"%char)) eqn:Hu; [|done].
    destruct (bool_decide (drop (length rest - 4) rest
                           = list_ascii_of_string ".sql")) eqn:Hext; [|done].
    destruct (4 <? length rest) eqn:Hlen; [|done].
    destruct (forallb _ (take (length rest - 4) rest)) eqn:Hline; [|done].
    destruct (has_line_separator (take (length rest - 4) rest)); [done|].
    cbn [andb negb]. intros [= <- <-].
    apply bool_decide_eq_true in Hu, Hext. apply Nat.ltb_lt in Hlen.
    split; [|split].
    + cbn [forallb] in Hdigits.
      apply andb_true_iff in Hdigits as [H1 Hdigits].
      apply andb_true_iff in Hdigits as [H2 Hdigits].
      apply andb_true_iff in Hdigits as [H3 Hdigits].
      apply andb_true_iff in Hdigits as [H4 _].
      apply digit_value_range in H1, H2, H3, H4. cbn [foldl]. lia.
    + rewrite list_ascii_of_string_of_list_ascii. unfold underscores_to_spaces.
      intros (c & Hc & _)%list_elem_of_fmap.
      destruct (bool_decide (c = "_"%char)) eqn:Hb; [done|].
      apply bool_decide_eq_false in Hb. congruence.
    + exists d1, d2, d3, d4, (take (length rest - 4) rest).
      split_and!; try done.
      * cbn [app]. rewrite Hu. do 5 f_equal.
        rewrite <- Hext. by rewrite take_drop.
      * intros Hnil. apply (f_equal length) in Hnil.
        rewrite length_take in Hnil. simpl in Hnil. lia.
Qed.

Lemma parseFilename_reads_the_name_witness :
  parseFilename
    (string_of_list_ascii
       (["0"; "0"; "4"; "2"]%char ++
        "_"%char :: list_ascii_of_string "add_tags" ++
        list_ascii_of_string ".sql"))
  = Some ((1000 * digit_value "0" + 100 * digit_value "0"
           + 10 * digit_value "4" + digit_value "2")%Z,
          string_of_list_ascii
            (underscores_to_spaces (list_ascii_of_string "add_tags"))).
Proof.
  apply (proj1 parseFilename_reads_the_name "0" "0" "4" "2"
           (list_ascii_of_string "add_tags"))%char.
  - reflexivity.
  - discriminate.
  - reflexivity.
  - reflexivity.
Defined.

(** The two file names of the repository, and two names that are
    refused. *)
Example parseFilename_examples :
  parseFilename "0001_initial_memories_table.sql"
  = Some (1%Z, "initial memories table"%string) /\
  parseFilename "0001_initial_chunks_table.sql"
  = Some (1%Z, "initial chunks table"%string) /\
  parseFilename "invalid.sql" = None /\
  parseFilename "01_too_short.sql" = None /\
  parseFilename "0001_.sql" = None.
Proof. by vm_compute. Qed.

End MigrationRuns.

(** The two embedded files, a checksum that is the SQL itself and a fixed
    clock, on a database that records the SQL it runs. *)
Local Abbreviation files :=
  (Migrations.embedded_files "CREATE TABLE IF NOT EXISTS memories (...);"
     "CREATE TABLE IF NOT EXISTS chunks (...);").
Local Abbreviation clock := (fun _ : Z => 1700000000%Z).
Local Abbreviation same := (fun sql : string => sql).

Lemma run_applies_the_pending_witness :
  exists pending,
    Migrations.getPendingMigrations files (list string)
      Migrations.new_database Migrations.memory = Some pending /\
    1 = length pending /\
    Migrations.getAppliedMigrations (list string)
      Migrations.migrated_database Migrations.memory
    ≡ₚ Migrations.getAppliedMigrations (list string)
         Migrations.new_database Migrations.memory ++
       (Migrations.record_of same clock <$> pending) /\
    (forall m, m ∈ pending ->
       (Migrations.getCurrentVersion (list string) Migrations.new_database
          Migrations.memory
        < Migrations.version m
        <= Migrations.getCurrentVersion (list string)
             Migrations.migrated_database Migrations.memory)%Z) /\
    Migrations.getPendingMigrations files (list string)
      Migrations.migrated_database Migrations.memory = Some [].
Proof.
  apply (run_applies_the_pending files same Migrations.record_sql clock
           Migrations.new_database Migrations.memory 1
           Migrations.migrated_database).
  vm_compute. reflexivity.
Defined.

Lemma validation_survives_run_witness :
  exists before after,
    Migrations.validateMigrations files same (list string)
      Migrations.new_database Migrations.memory = Some before /\
    Migrations.validateMigrations files same (list string)
      Migrations.migrated_database Migrations.memory = Some after /\
    after ≡ₚ before /\
    (Migrations.getAppliedMigrations (list string) Migrations.new_database
       Migrations.memory = [] -> after = []).
Proof.
  apply (validation_survives_run files same Migrations.record_sql clock
           Migrations.new_database Migrations.memory 1
           Migrations.migrated_database).
  vm_compute. reflexivity.
Defined.

Lemma subsystems_keep_apart_witness :
  (Migrations.tracking (list string) Migrations.migrated_database
     !! Migrations.getMigrationTableName Migrations.history
   = Migrations.tracking (list string) Migrations.new_database
     !! Migrations.getMigrationTableName Migrations.history /\
   Migrations.getCurrentVersion (list string) Migrations.migrated_database
     Migrations.history
   = Migrations.getCurrentVersion (list string) Migrations.new_database
       Migrations.history /\
   Migrations.getAppliedMigrations (list string) Migrations.migrated_database
     Migrations.history
   = Migrations.getAppliedMigrations (list string) Migrations.new_database
       Migrations.history /\
   Migrations.getPendingMigrations files (list string)
     Migrations.migrated_database Migrations.history
   = Migrations.getPendingMigrations files (list string)
       Migrations.new_database Migrations.history) /\
  (forall applied_memory applied_history db2,
     Migrations.runAllMigrations files same (list string)
       Migrations.record_sql clock Migrations.new_database
     = Migrations.ReturnedAll (list string) applied_memory applied_history db2 ->
     exists pending_memory pending_history,
       Migrations.getPendingMigrations files (list string)
         Migrations.new_database Migrations.memory = Some pending_memory /\
       Migrations.getPendingMigrations files (list string)
         Migrations.new_database Migrations.history = Some pending_history /\
       applied_memory = length pending_memory /\
       applied_history = length pending_history).
Proof.
  apply (subsystems_keep_apart files same Migrations.record_sql clock
           Migrations.new_database Migrations.memory Migrations.history).
  discriminate.
Defined.

(** Both subsystems migrated on a new database: one migration each. *)
Example run_all_on_new_database :
  exists db,
    Migrations.runAllMigrations files same (list string)
      Migrations.record_sql clock Migrations.new_database
    = Migrations.ReturnedAll (list string) 1 1 db /\
    Migrations.schema _ db
    = ["CREATE TABLE IF NOT EXISTS memories (...);";
       "CREATE TABLE IF NOT EXISTS chunks (...);"]%string.
Proof. eexists. split; by vm_compute. Qed.

Lemma failed_run_keeps_earlier_witness :
  exists done failing rest,
    [Migrations.Build_Migration 1 "0001_initial_memories_table.sql"
       "initial memories table" "CREATE TABLE IF NOT EXISTS memories (...);"
       Migrations.memory]
    = done ++ failing :: rest /\
    Migrations.getAppliedMigrations (list string)
      (Migrations.ensureMigrationTable (list string) Migrations.new_database
         Migrations.memory) Migrations.memory
    ≡ₚ Migrations.getAppliedMigrations (list string) Migrations.new_database
         Migrations.memory ++ (Migrations.record_of same clock <$> done) /\
    ((fun (_ : string) (_ : list string) => @None (list string))
       (Migrations.sql failing)
       (Migrations.schema (list string)
          (Migrations.ensureMigrationTable (list string)
             Migrations.new_database Migrations.memory)) = None \/
     Migrations.version failing
     ∈ Migrations.applied_version <$>
       Migrations.getAppliedMigrations (list string)
         (Migrations.ensureMigrationTable (list string)
            Migrations.new_database Migrations.memory) Migrations.memory).
Proof.
  apply (failed_run_keeps_earlier files same
           (fun (_ : string) (_ : list string) => @None (list string)) clock
           Migrations.new_database Migrations.memory).
  - vm_compute. reflexivity.
  - vm_compute. reflexivity.
Defined.

(* ===================================================================== *)
(** ** The id minter *)
(* ===================================================================== *)

Section IdMinter.
Import Ids.

Lemma list_ascii_of_append s1 s2 :
  list_ascii_of_string (s1 +:+ s2)
  = list_ascii_of_string s1 ++ list_ascii_of_string s2.
Proof. induction s1 as [|c s1 IH]; [done|]. simpl. by rewrite IH. Qed.

Lemma char_at_BASE62 n :
  n < 62 ->
  exists c, char_at BASE62 n = String c "" /\ is_alphanumeric c = true.
Proof.
  intros Hn.
  assert (Hall : forallb (fun n => match String.get n BASE62 with
                                   | Some c => is_alphanumeric c
                                   | None => false
                                   end) (seq 0 62) = true) by by vm_compute.
  rewrite forallb_forall in Hall.
  specialize (Hall n ltac:(apply in_seq; lia)).
  unfold char_at. destruct (String.get n BASE62) as [c|]; [|done].
  by exists c.
Qed.

Lemma generateId_shape prefix bytes :
  exists suffix,
    list_ascii_of_string (generateId prefix bytes)
    = list_ascii_of_string prefix ++ "_"%char :: suffix /\
    length suffix = length bytes /\
    forallb is_alphanumeric suffix = true.
Proof.
  unfold generateId.
  induction bytes as [|b bytes IH] using rev_ind.
  - exists []. simpl. rewrite list_ascii_of_append. done.
  - destruct IH as (suffix & Hsuffix & Hlen & Hall).
    rewrite foldl_snoc, list_ascii_of_append, Hsuffix.
    destruct (char_at_BASE62 (N.to_nat (b mod 62)%N)) as (c & -> & Hc).
    { assert (b mod 62 < 62)%N by (by apply N.mod_lt). lia. }
    exists (suffix ++ [c]). simpl. rewrite <- app_assoc. simpl.
    split; [done|]. rewrite !length_app, Hlen. split; [done|].
    rewrite forallb_app, Hall. simpl. by rewrite Hc.
Qed.

(** X26. [generateId] returns the prefix, an underscore, and one
    character of [[A-Za-z0-9]] for each random byte, whatever the bytes:
    the index [byte % 62] never leaves the alphabet. A chunk id thus
    reads [ch_] followed by as many alphanumeric characters as bytes were
    drawn (12 by default), a memory id [mem_] followed by them, and no
    chunk id is a memory id. The characters are not drawn uniformly: of
    the 256 values of a byte, 5 select each of the first 8 characters of
    the alphabet and 4 each of the other 54. *)
Theorem generateId_is_prefixed_alphanumeric :
  (forall prefix bytes,
     exists suffix,
       list_ascii_of_string (generateId prefix bytes)
       = list_ascii_of_string prefix ++ "_"%char :: suffix /\
       length suffix = length bytes /\
       forallb is_alphanumeric suffix = true) /\
  (forall bytes bytes', generateChunkId bytes <> generateMemoryId bytes') /\
  (forall k, k < 62 ->
     length (filter (fun byte => N.to_nat (byte mod 62)%N = k) all_bytes)
     = if k <? 8 then 5 else 4).
Proof.
  split; [exact generateId_shape|]. split.
  - intros bytes bytes' Heq.
    destruct (generateId_shape "ch" bytes) as (s1 & H1 & _).
    destruct (generateId_shape "mem" bytes') as (s2 & H2 & _).
    unfold generateChunkId, generateMemoryId in Heq.
    rewrite Heq, H2 in H1. simpl in H1. discriminate.
  - intros k Hk.
    assert (Hall : forallb (fun k =>
                      length (filter (fun byte => N.to_nat (byte mod 62)%N = k)
                                all_bytes)
                      =? (if k <? 8 then 5 else 4)) (seq 0 62) = true)
      by by vm_compute.
    rewrite forallb_forall in Hall.
    apply Nat.eqb_eq, Hall, in_seq. lia.
Qed.

End IdMinter.

(* ===================================================================== *)
(** ** The search compiler: what its output is made of *)
(* ===================================================================== *)

Section CompiledExpression.

Lemma word_runs_are_words s : forall cur,
  Forall wordch cur ->
  Forall (fun w => Forall wordch w /\ w <> []) (word_runs cur s).
Proof.
  induction s as [|c s IH]; intros cur Hcur; simpl.
  - destruct cur; [constructor|]. constructor; [by split|constructor].
  - destruct (is_word_char c) eqn:Hc.
    + apply IH. apply Forall_app. split; [done|].
      constructor; [exact Hc|constructor].
    + destruct cur; [by apply IH|].
      constructor; [done|]. by apply IH.
Qed.

Lemma kept_runs_are_words query :
  Forall (fun w => Forall wordch w /\ 2 <= length w /\ ~ is_reserved w)
         (kept_runs query).
Proof.
  unfold kept_runs. apply Forall_forall. intros w Hw.
  apply list_elem_of_filter in Hw as [[Hlen Hres] Hw].
  pose proof (word_runs_are_words query [] ltac:(constructor)) as Hall.
  rewrite Forall_forall in Hall. destruct (Hall w Hw) as [Hword _].
  split; [done|]. split; [lia|done].
Qed.

(** The runs of an expression: its words, with [OR] between them. *)
Lemma word_runs_of_expression ws :
  Forall (fun w => Forall wordch w /\ w <> []) ws ->
  word_runs [] (join (units " OR ") (quote <$> ws))
  = match ws with
    | [] => []
    | w :: rest => w :: (rest ≫= fun w' => [units "OR"; w'])
    end.
Proof.
  induction 1 as [|w ws [Hw Hne] Hall IH]; [done|].
  destruct w as [|c w]; [done|]. apply Forall_cons in Hw as [Hc Hw].
  destruct ws as [|w' ws].
  - change (word_runs [] ([34%N] ++ c :: w ++ [34%N]) = [c :: w]).
    by rewrite word_runs_split; [|repeat constructor|..].
  - rewrite !fmap_cons, join_cons_cons. rewrite <- fmap_cons.
    unfold quote at 1.
    rewrite <- !app_assoc.
    change ([34%N] ++ (c :: w) ++ ?r) with ([34%N] ++ c :: w ++ r).
    rewrite word_runs_split; [|by repeat constructor|done|done|done].
    f_equal.
    change ([34%N] ++ units " OR " ++ ?r)
      with ([34%N; 32%N] ++ 79%N :: [82%N] ++ ([32%N] ++ r)).
    rewrite word_runs_split; [|by repeat constructor|done|by repeat constructor|done].
    change (word_runs [] ([32%N] ++ ?r)) with (word_runs [] r).
    by rewrite IH.
Qed.

Lemma kept_of_expression ws :
  Forall (fun w => Forall wordch w /\ 2 <= length w /\ ~ is_reserved w) ws ->
  kept_runs (join (units " OR ") (quote <$> ws)) = ws.
Proof.
  intros Hall. unfold kept_runs. rewrite word_runs_of_expression.
  2: { eapply Forall_impl; [exact Hall|]. intros w (Hw & Hlen & _).
       split; [done|]. destruct w; [simpl in Hlen; lia|done]. }
  assert (Hor : is_reserved (units "OR")) by by_decide.
  destruct Hall as [|w ws (Hw & Hlen & Hres) Hall]; [done|].
  rewrite filter_cons_True by (split; [lia|done]). f_equal.
  induction Hall as [|w' ws' (Hw' & Hlen' & Hres') Hall' IH]; [done|].
  simpl. rewrite filter_cons_False by (intros [_ ?]; done).
  rewrite filter_cons_True by (split; [lia|done]). f_equal. exact IH.
Qed.

Lemma expression_characters ws :
  Forall (Forall wordch) ws ->
  Forall (fun c => is_word_char c = true \/ c = 34%N \/ c = 32%N)
         (join (units " OR ") (quote <$> ws)).
Proof.
  assert (Hquote : forall w, Forall wordch w ->
            Forall (fun c => is_word_char c = true \/ c = 34%N \/ c = 32%N)
                   (quote w)).
  { intros w Hw. unfold quote. rewrite !Forall_app. split_and!.
    - constructor; [right; by left|constructor].
    - eapply Forall_impl; [exact Hw|]. intros c Hc. by left.
    - constructor; [right; by left|constructor]. }
  induction 1 as [|w ws Hw Hall IH]; [constructor|].
  destruct ws as [|w' ws]; [by apply Hquote|].
  rewrite !fmap_cons, join_cons_cons, <- fmap_cons. rewrite !Forall_app.
  split; [by apply Hquote|]. split; [|exact IH].
  constructor; [right; by right|].
  constructor; [by left|]. constructor; [by left|].
  constructor; [right; by right|constructor].
Qed.

(** X27. What [escapeFtsQuery] puts into a MATCH expression. Its output
    is a list of words, each in double quotes, joined by [ OR ]; every
    word is made of word characters only, has at least two of them and is
    no operator. So the expression holds nothing but word characters,
    double quotes and spaces: no quote can be closed early and no FTS5
    operator or column filter of the query gets through. Compiling an
    expression again gives the same expression, and a query without any
    word character compiles to the empty expression. *)
Theorem compiled_expression_is_safe query :
  (exists ws,
     escapeFtsQuery query = join (units " OR ") (quote <$> ws) /\
     Forall (fun w => Forall wordch w /\ 2 <= length w /\ ~ is_reserved w) ws) /\
  Forall (fun c => is_word_char c = true \/ c = 34%N \/ c = 32%N)
         (escapeFtsQuery query) /\
  escapeFtsQuery (escapeFtsQuery query) = escapeFtsQuery query /\
  (Forall nonword query -> escapeFtsQuery query = []).
Proof.
  pose proof (kept_runs_are_words query) as Hkept.
  rewrite !escapeFtsQuery_compiled. unfold compiled_expression at 1 2 3 5.
  fold (quote). split_and!.
  - by exists (kept_runs query).
  - apply expression_characters.
    eapply Forall_impl; [exact Hkept|]. by intros w (? & _).
  - unfold compiled_expression.
    change (fun w => [34%N] ++ w ++ [34%N]) with quote.
    by rewrite kept_of_expression.
  - intros Hnon. unfold compiled_expression, kept_runs.
    by rewrite word_runs_nonword.
Qed.

Lemma compiled_expression_is_safe_witness :
  escapeFtsQuery (units "(){}*:^-") = [].
Proof.
  apply (proj2 (proj2 (proj2
           (compiled_expression_is_safe (units "(){}*:^-"))))).
  by_decide.
Defined.

End CompiledExpression.

(* ===================================================================== *)
(** ** Keyword detection with custom keywords *)
(* ===================================================================== *)

Section CustomKeywords.

Lemma test_is_Some ic r t :
  test ic r t = true <->
  exists l r', t = l ++ r' /\
    is_Some (match_at ic r (mkpos (last_before None l) r')).
Proof.
  unfold test. rewrite <- exec_from_is_Some.
  destruct (exec_from ic r None t); split; (done || by eauto || by intros [? ?]).
Qed.

(** The pattern never matches: [/(?!)/]. *)
Lemma never_matches ic t : test ic Never t = false.
Proof.
  apply not_true_iff_false. rewrite test_is_Some.
  intros (l & r' & _ & [e He]). done.
Qed.

(** The pattern built from keywords that begin and end with a word
    character finds exactly their whole-word occurrences. *)
Lemma keyword_pattern_test ks t :
  Forall word_ended ks ->
  test true (disjunction_regex (keyword_terms <$> ks)) t = true <->
  exists k, k ∈ ks /\ occurs_as_word k t.
Proof.
  intros Hall. rewrite Forall_forall in Hall.
  rewrite test_is_Some. unfold occurs_as_word. split.
  - intros (l & r' & -> & Hm).
    apply disjunction_matches in Hm as (a & Ha & Hm).
    apply list_elem_of_fmap in Ha as (k & -> & Hk).
    apply keyword_found_iff in Hm as (k' & r & -> & Hkk & Hnl & Hnr);
      [|by apply Hall].
    exists k. split; [done|]. by exists l, k', r.
  - intros (k & Hk & l & k' & r & -> & Hkk & Hnl & Hnr).
    exists l, (k' ++ r). split; [done|].
    apply disjunction_matches. exists (keyword_terms k).
    split; [by apply list_elem_of_fmap_2|].
    apply keyword_found_iff; [by apply Hall|]. by exists k', r.
Qed.

(** X28. Custom keywords. [detectMemoryKeyword] always answers: the
    pattern it builds is a valid regular expression whatever characters
    the custom keywords hold, each being matched literally. Custom
    keywords only add to the defaults: a text detected without them is
    detected with them. When every custom keyword is made of ASCII
    characters and begins and ends with a word character, detection is
    true exactly when a default or custom keyword occurs, in any letter
    case and as a whole word, in the text left by [removeCodeBlocks]
    (the text itself may hold any character). And the pattern built from
    no keyword at all matches no text. Keywords with letters outside
    ASCII are left out of the third part: the engine folds their case
    too, which [Regex.canonicalize] does not follow. *)
Theorem custom_keywords_extend_detection text custom :
  (exists b, detectMemoryKeyword text (Some custom) = Some b /\
     (detectMemoryKeyword text None = Some true -> b = true) /\
     (Forall ascii_keyword custom -> Forall word_ended custom ->
      (b = true <->
       exists k, k ∈ DEFAULT_KEYWORDS ++ custom /\
                 occurs_as_word k (removeCodeBlocks text)))) /\
  (exists never, buildKeywordPattern [] = Some never /\
     forall ic t, test ic never t = false).
Proof.
  split.
  - unfold detectMemoryKeyword. rewrite !buildKeywordPattern_parses.
    exists (test true
              (disjunction_regex (keyword_terms <$> DEFAULT_KEYWORDS ++ custom))
              (removeCodeBlocks text)).
    split; [reflexivity|]. split.
    + intros Hsome.
      assert (Hdefault : test true
                (disjunction_regex (keyword_terms <$> DEFAULT_KEYWORDS))
                (removeCodeBlocks text) = true)
        by (apply (inj Some); exact Hsome).
      clear Hsome.
      apply test_is_Some in Hdefault as (l & r' & Htext & Hm).
      apply test_is_Some. exists l, r'. split; [done|].
      apply disjunction_matches in Hm as (a & Ha & Hm).
      apply disjunction_matches. exists a. split; [|done].
      rewrite fmap_app. apply elem_of_app. by left.
    + intros _ Hcustom. apply keyword_pattern_test.
      apply Forall_app. split; [apply default_keywords_word_ended|done].
  - exists Never. split; [done|]. apply never_matches.
Qed.

(** A custom keyword with characters of the pattern syntax, and one that
    does not end with a word character. *)
Example custom_keyword_examples :
  detectMemoryKeyword (units "we use c++ here") (Some [units "c++"])
  = Some false /\
  detectMemoryKeyword (units "we use c++x here") (Some [units "c++"])
  = Some true /\
  detectMemoryKeyword (units "version 1.5 please") (Some [units "1.5"])
  = Some true /\
  detectMemoryKeyword (units "version 125 please") (Some [units "1.5"])
  = Some false /\
  detectMemoryKeyword (units "a TODO item") (Some [units "todo"]) = Some true.
Proof. split_and!; by vm_compute. Qed.

End CustomKeywords.

(* ===================================================================== *)
(** ** The chat.message hook: context once per session *)
(* ===================================================================== *)

Section ChatMessageHook.
Import Hook.

Context (searchRelevant : list N -> list Memory)
        (detectKeyword : list N -> bool).

Local Abbreviation handleChatMessage :=
  (handleChatMessage searchRelevant detectKeyword).
Local Abbreviation handled := (handled searchRelevant detectKeyword).

Lemma handle_grows c (st : gset string) : st ⊆ fst (handleChatMessage c st).
Proof.
  unfold Hook.handleChatMessage.
  destruct (decide (trim (extractTextFromParts (call_parts c)) = []));
    [done|].
  simpl. destruct (bool_decide (call_session c ∉ st)); set_solver.
Qed.

Lemma handled_grows calls : forall st : gset string, st ⊆ handled calls st.
Proof.
  induction calls as [|c calls IH]; intros st; [done|]. simpl.
  etrans; [apply (handle_grows c)|apply IH].
Qed.

(** The parts that a call leaves for a session that is already marked. *)
Lemma handle_marked c (st : gset string) :
  call_session c ∈ st ->
  exists nudge, snd (handleChatMessage c st) = call_parts c ++ nudge.
Proof.
  intros Hin. unfold Hook.handleChatMessage.
  destruct (decide (trim (extractTextFromParts (call_parts c)) = []));
    [exists []; by rewrite app_nil_r|].
  rewrite bool_decide_eq_false_2 by (intros Hout; by apply Hout).
  simpl. destruct (detectKeyword _); [by eexists|].
  exists []. by rewrite app_nil_r.
Qed.

(** X29. The chat.message hook injects the project memories once per
    session. A message without text (no text part, or blank text) is left
    as it is and does not count as the first message. Otherwise the parts
    of the message are kept, in order; the memories found for its text
    are put in front of them in one synthetic text part if and only if
    the session was not yet marked and some memory was found; a nudge is
    put behind them if and only if a keyword is detected in the text; and
    the session is marked. From then on, whatever calls come in between,
    no call for that session gets a context part again, also when the
    first message found no memory, until [clearInjectedSession] unmarks
    the session. *)
Theorem hook_injects_context_once c (st : gset string) :
  (trim (extractTextFromParts (call_parts c)) = [] ->
   handleChatMessage c st = (st, call_parts c)) /\
  (trim (extractTextFromParts (call_parts c)) <> [] ->
   exists context nudge,
     handleChatMessage c st
     = ({[call_session c]} ∪ st, context ++ call_parts c ++ nudge) /\
     context
     = (if bool_decide (call_session c ∉ st) &&
           (0 <? length (searchRelevant (extractTextFromParts (call_parts c))))
        then [createSyntheticPart (context_clock c) (call_session c)
                (default ""%string (call_message c))
                (formatContextInjection
                   (searchRelevant (extractTextFromParts (call_parts c))))]
        else []) /\
     nudge
     = (if detectKeyword (extractTextFromParts (call_parts c))
        then [createSyntheticPart (nudge_clock c) (call_session c)
                (default ""%string (call_message c)) MEMORY_NUDGE_MESSAGE]
        else []) /\
     (forall calls later, call_session later = call_session c ->
        exists nudge',
          snd (handleChatMessage later
                 (handled calls (fst (handleChatMessage c st))))
          = call_parts later ++ nudge')) /\
  hasInjectedSession (call_session c)
    (clearInjectedSession (call_session c) (fst (handleChatMessage c st)))
  = false.
Proof.
  split; [|split].
  - intros Hblank. unfold Hook.handleChatMessage. by rewrite decide_True.
  - intros Htext.
    assert (Hrun : handleChatMessage c st
              = ({[call_session c]} ∪ st,
                 (if bool_decide (call_session c ∉ st) &&
                     (0 <? length (searchRelevant
                                     (extractTextFromParts (call_parts c))))
                  then [createSyntheticPart (context_clock c) (call_session c)
                          (default ""%string (call_message c))
                          (formatContextInjection
                             (searchRelevant
                                (extractTextFromParts (call_parts c))))]
                  else []) ++ call_parts c ++
                 (if detectKeyword (extractTextFromParts (call_parts c))
                  then [createSyntheticPart (nudge_clock c) (call_session c)
                          (default ""%string (call_message c))
                          MEMORY_NUDGE_MESSAGE]
                  else []))).
    { unfold Hook.handleChatMessage. rewrite decide_False by done. simpl.
      destruct (decide (call_session c ∈ st)) as [Hin|Hout].
      - rewrite bool_decide_eq_false_2 by (intros Hout; by apply Hout).
        simpl. f_equal.
        + symmetry. apply subseteq_union_1_L. by apply singleton_subseteq_l.
        + destruct (detectKeyword _); [done|]. by rewrite app_nil_r.
      - rewrite bool_decide_eq_true_2 by done. simpl. f_equal.
        destruct (0 <? length _); destruct (detectKeyword _); simpl;
          by rewrite ?app_nil_r. }
    eexists _, _. split; [exact Hrun|]. split; [done|]. split; [done|].
    intros calls later Hsame. apply handle_marked. rewrite Hsame.
    apply handled_grows. rewrite Hrun. simpl.
    apply elem_of_union_l. by apply elem_of_singleton.
  - unfold hasInjectedSession, clearInjectedSession.
    apply bool_decide_eq_false_2. intros Hin.
    apply elem_of_difference in Hin as [_ Hout]. apply Hout.
    by apply elem_of_singleton.
Qed.

End ChatMessageHook.

(** A first message that asks to remember something, when one memory is
    found; then a second message of the same session. *)
Example hook_example :
  let found := fun _ : list N =>
    [Hook.Build_Memory Search.preference (units "Use pnpm")] in
  let detect := fun t => default false (detectMemoryKeyword t None) in
  let part := Hook.mkPart (Hook.HostId "p1") "S" "m1" "text"
                (units "remember to use pnpm") false in
  let first := Hook.Build_Call "S" (Some "m1"%string) [part] 1%Z 2%Z in
  let second := Hook.Build_Call "S" (Some "m2"%string) [part] 3%Z 4%Z in
  let r1 := Hook.handleChatMessage found detect first ∅ in
  let r2 := Hook.handleChatMessage found detect second (fst r1) in
  Hook.id <$> snd r1 = [Hook.MemoirId 1; Hook.HostId "p1"; Hook.MemoirId 2] /\
  Hook.id <$> snd r2 = [Hook.HostId "p1"; Hook.MemoirId 4] /\
  Hook.hasInjectedSession "S" (fst r2) = true.
Proof. by vm_compute. Qed.
